(** * librbd::cache::ReplicatedWriteLog

    A shallow embedding of the replicated write log of
    [src/librbd/cache/ReplicatedWriteLog.cc] and the properties of its
    write-log map, ring accounting, flusher, retirer, sync points and
    request completion.

    Conventions of the embedding.
    - [uint64_t] values are [Z] with the wrap-around written out ([wrap64]).
    - Objects held through [std::shared_ptr] (log entries, sync points,
      requests) live in stores ([gmap nat _]) and are referred to by their
      key, so that aliasing between the lists and maps holding them is kept.
    - A failed [assert] is the result [None].
    - Collaborators whose code is outside this file (the downstream image
      cache, the block guard, the work queues, [C_Gather], the PMEM
      library) are called through events appended to a trace. *)

From Stdlib Require Import ZArith List Lia Bool Sorted Permutation.
From Stdlib Require Import Strings.Byte.
From stdpp Require Import base option list gmap.

Open Scope Z_scope.

(** ** Machine integers *)

Definition wrap64 (z : Z) : Z := z mod 2 ^ 64.
Definition wrap32 (z : Z) : Z := z mod 2 ^ 32.

Definition is_u64 (z : Z) : Prop := 0 <= z < 2 ^ 64.

(** [assert(b)] of the source: the computation goes on only when [b] holds. *)
Definition check (b : bool) : option unit := if b then Some tt else None.

(** ** Extents *)

(** A [BlockExtent] identifies a range by first and last block; an image
    extent by start and length.  The block size is 1. *)
Record BlockExtent := mkBlockExtent { block_start : Z; block_end : Z }.

Definition Extent : Type := Z * Z.

Definition block_extent (offset_bytes length_bytes : Z) : BlockExtent :=
  mkBlockExtent offset_bytes (wrap64 (offset_bytes + length_bytes - 1)).

Definition block_extent_of (image_extent : Extent) : BlockExtent :=
  block_extent (fst image_extent) (snd image_extent).

Definition image_extent (be : BlockExtent) : Extent :=
  (block_start be, wrap64 (block_end be - block_start be + 1)).

(** ** Log entries *)

(** The persistent form of a log entry ([WriteLogPmemEntry]); [write_data]
    is the handle of the data buffer, 0 being [OID_NULL]. *)
Record WriteLogPmemEntry := mkPmemEntry {
  sync_gen_number : Z;
  write_sequence_number : Z;
  image_offset_bytes : Z;
  write_bytes : Z;
  write_data : Z;
  entry_valid : bool;
  sync_point : bool;
  sequenced : bool;
  has_data : bool;
  unmap : bool;
  entry_index : Z
}.

Definition set_sync_gen_number (v : Z) (s : WriteLogPmemEntry) : WriteLogPmemEntry :=
  mkPmemEntry v (write_sequence_number s) (image_offset_bytes s)
  (write_bytes s) (write_data s) (entry_valid s) (sync_point s) (sequenced
  s) (has_data s) (unmap s) (entry_index s).
Definition set_write_sequence_number (v : Z) (s : WriteLogPmemEntry) : WriteLogPmemEntry :=
  mkPmemEntry (sync_gen_number s) v (image_offset_bytes s) (write_bytes s)
  (write_data s) (entry_valid s) (sync_point s) (sequenced s) (has_data s)
  (unmap s) (entry_index s).
Definition set_image_offset_bytes (v : Z) (s : WriteLogPmemEntry) : WriteLogPmemEntry :=
  mkPmemEntry (sync_gen_number s) (write_sequence_number s) v (write_bytes
  s) (write_data s) (entry_valid s) (sync_point s) (sequenced s) (has_data
  s) (unmap s) (entry_index s).
Definition set_write_bytes (v : Z) (s : WriteLogPmemEntry) : WriteLogPmemEntry :=
  mkPmemEntry (sync_gen_number s) (write_sequence_number s)
  (image_offset_bytes s) v (write_data s) (entry_valid s) (sync_point s)
  (sequenced s) (has_data s) (unmap s) (entry_index s).
Definition set_write_data (v : Z) (s : WriteLogPmemEntry) : WriteLogPmemEntry :=
  mkPmemEntry (sync_gen_number s) (write_sequence_number s)
  (image_offset_bytes s) (write_bytes s) v (entry_valid s) (sync_point s)
  (sequenced s) (has_data s) (unmap s) (entry_index s).
Definition set_entry_valid (v : bool) (s : WriteLogPmemEntry) : WriteLogPmemEntry :=
  mkPmemEntry (sync_gen_number s) (write_sequence_number s)
  (image_offset_bytes s) (write_bytes s) (write_data s) v (sync_point s)
  (sequenced s) (has_data s) (unmap s) (entry_index s).
Definition set_sync_point (v : bool) (s : WriteLogPmemEntry) : WriteLogPmemEntry :=
  mkPmemEntry (sync_gen_number s) (write_sequence_number s)
  (image_offset_bytes s) (write_bytes s) (write_data s) (entry_valid s) v
  (sequenced s) (has_data s) (unmap s) (entry_index s).
Definition set_sequenced (v : bool) (s : WriteLogPmemEntry) : WriteLogPmemEntry :=
  mkPmemEntry (sync_gen_number s) (write_sequence_number s)
  (image_offset_bytes s) (write_bytes s) (write_data s) (entry_valid s)
  (sync_point s) v (has_data s) (unmap s) (entry_index s).
Definition set_has_data (v : bool) (s : WriteLogPmemEntry) : WriteLogPmemEntry :=
  mkPmemEntry (sync_gen_number s) (write_sequence_number s)
  (image_offset_bytes s) (write_bytes s) (write_data s) (entry_valid s)
  (sync_point s) (sequenced s) v (unmap s) (entry_index s).
Definition set_unmap (v : bool) (s : WriteLogPmemEntry) : WriteLogPmemEntry :=
  mkPmemEntry (sync_gen_number s) (write_sequence_number s)
  (image_offset_bytes s) (write_bytes s) (write_data s) (entry_valid s)
  (sync_point s) (sequenced s) (has_data s) v (entry_index s).
Definition set_entry_index (v : Z) (s : WriteLogPmemEntry) : WriteLogPmemEntry :=
  mkPmemEntry (sync_gen_number s) (write_sequence_number s)
  (image_offset_bytes s) (write_bytes s) (write_data s) (entry_valid s)
  (sync_point s) (sequenced s) (has_data s) (unmap s) v.

(** Modelled from the spec: the constructor and the kind tests of
    [WriteLogPmemEntry] are declared in ReplicatedWriteLog.h, which is not
    among the sources.  A new record has every flag cleared and both
    numbers 0; an entry is a sync point when its [sync_point] flag is set
    and a write when it is neither a sync point nor an unmap. *)
Definition new_pmem_entry (offset_bytes bytes : Z) : WriteLogPmemEntry :=
  mkPmemEntry 0 0 offset_bytes bytes 0 false false false false false 0.

Definition is_sync_point (e : WriteLogPmemEntry) : bool := sync_point e.
Definition is_write (e : WriteLogPmemEntry) : bool :=
  negb (sync_point e) && negb (unmap e).

Definition pmem_block_extent (e : WriteLogPmemEntry) : BlockExtent :=
  block_extent (image_offset_bytes e) (write_bytes e).

(** The in-memory twin of a log entry.  The class hierarchy
    [GenericLogEntry] / [SyncPointLogEntry] / [WriteLogEntry] is flattened:
    [m_writes], [m_bytes], [m_writes_completed] are the members of a sync
    point entry; [sync_point_entry] to [flushed] those of a write entry.
    The counters are unsigned in the source; they are kept in [Z], the
    properties below never take them below zero. *)
Record GenericLogEntry := mkLogEntry {
  ram_entry : WriteLogPmemEntry;
  log_entry_index : Z;
  completed : bool;
  m_writes : Z;
  m_bytes : Z;
  m_writes_completed : Z;
  sync_point_entry : option nat;
  referring_map_entries : Z;
  reader_count : Z;
  flushing : bool;
  flushed : bool
}.

Definition set_ram_entry (v : WriteLogPmemEntry) (s : GenericLogEntry) : GenericLogEntry :=
  mkLogEntry v (log_entry_index s) (completed s) (m_writes s) (m_bytes s)
  (m_writes_completed s) (sync_point_entry s) (referring_map_entries s)
  (reader_count s) (flushing s) (flushed s).
Definition set_log_entry_index (v : Z) (s : GenericLogEntry) : GenericLogEntry :=
  mkLogEntry (ram_entry s) v (completed s) (m_writes s) (m_bytes s)
  (m_writes_completed s) (sync_point_entry s) (referring_map_entries s)
  (reader_count s) (flushing s) (flushed s).
Definition set_completed (v : bool) (s : GenericLogEntry) : GenericLogEntry :=
  mkLogEntry (ram_entry s) (log_entry_index s) v (m_writes s) (m_bytes s)
  (m_writes_completed s) (sync_point_entry s) (referring_map_entries s)
  (reader_count s) (flushing s) (flushed s).
Definition set_m_writes (v : Z) (s : GenericLogEntry) : GenericLogEntry :=
  mkLogEntry (ram_entry s) (log_entry_index s) (completed s) v (m_bytes s)
  (m_writes_completed s) (sync_point_entry s) (referring_map_entries s)
  (reader_count s) (flushing s) (flushed s).
Definition set_m_bytes (v : Z) (s : GenericLogEntry) : GenericLogEntry :=
  mkLogEntry (ram_entry s) (log_entry_index s) (completed s) (m_writes s) v
  (m_writes_completed s) (sync_point_entry s) (referring_map_entries s)
  (reader_count s) (flushing s) (flushed s).
Definition set_m_writes_completed (v : Z) (s : GenericLogEntry) : GenericLogEntry :=
  mkLogEntry (ram_entry s) (log_entry_index s) (completed s) (m_writes s)
  (m_bytes s) v (sync_point_entry s) (referring_map_entries s) (reader_count
  s) (flushing s) (flushed s).
Definition set_sync_point_entry (v : option nat) (s : GenericLogEntry) : GenericLogEntry :=
  mkLogEntry (ram_entry s) (log_entry_index s) (completed s) (m_writes s)
  (m_bytes s) (m_writes_completed s) v (referring_map_entries s)
  (reader_count s) (flushing s) (flushed s).
Definition set_referring_map_entries (v : Z) (s : GenericLogEntry) : GenericLogEntry :=
  mkLogEntry (ram_entry s) (log_entry_index s) (completed s) (m_writes s)
  (m_bytes s) (m_writes_completed s) (sync_point_entry s) v (reader_count s)
  (flushing s) (flushed s).
Definition set_reader_count (v : Z) (s : GenericLogEntry) : GenericLogEntry :=
  mkLogEntry (ram_entry s) (log_entry_index s) (completed s) (m_writes s)
  (m_bytes s) (m_writes_completed s) (sync_point_entry s)
  (referring_map_entries s) v (flushing s) (flushed s).
Definition set_flushing (v : bool) (s : GenericLogEntry) : GenericLogEntry :=
  mkLogEntry (ram_entry s) (log_entry_index s) (completed s) (m_writes s)
  (m_bytes s) (m_writes_completed s) (sync_point_entry s)
  (referring_map_entries s) (reader_count s) v (flushed s).
Definition set_flushed (v : bool) (s : GenericLogEntry) : GenericLogEntry :=
  mkLogEntry (ram_entry s) (log_entry_index s) (completed s) (m_writes s)
  (m_bytes s) (m_writes_completed s) (sync_point_entry s)
  (referring_map_entries s) (reader_count s) (flushing s) v.

(** [std::make_shared<WriteLogEntry>(sync_point_entry, offset, bytes)] and
    [std::make_shared<SyncPointLogEntry>(sync_gen_number)]. *)
Definition new_write_log_entry (sp : option nat) (offset_bytes bytes : Z)
  : GenericLogEntry :=
  mkLogEntry (new_pmem_entry offset_bytes bytes) 0 false 0 0 0 sp 0 0 false false.

Definition new_sync_point_log_entry (gen : Z) : GenericLogEntry :=
  mkLogEntry
    (mkPmemEntry gen 0 0 0 0 false true false false false 0)
    0 false 0 0 0 None 0 0 false false.

Definition log_block_extent (e : GenericLogEntry) : BlockExtent :=
  pmem_block_extent (ram_entry e).

(** The store of log entry objects. *)
Abbreviation LogEntries := (gmap nat GenericLogEntry).

(** ** The write-log map *)

(** A map entry pairs a block extent with the log entry it refers to. *)
Record WriteLogMapEntry := mkMapEntry {
  me_block_extent : BlockExtent;
  me_log_entry : option nat
}.

Module WriteLogMap.

(** [WriteLogMapEntryCompare::operator()]: an entry is less than another
when it ends before the other starts. *)
Definition WriteLogMapEntryCompare (lhs rhs : WriteLogMapEntry) : bool :=
block_end (me_block_extent lhs) <? block_start (me_block_extent rhs).

(** [m_block_to_log_entry_map] is a [std::set] under this comparison: a
list kept in the comparison's order.  [lower_bound] is the position
of the first element not less than the key, [upper_bound] that of
the first element the key is less than. *)
Fixpoint lower_bound (k : WriteLogMapEntry) (l : list WriteLogMapEntry) : nat :=
match l with
| [] => O
| e :: l' => if WriteLogMapEntryCompare e k then S (lower_bound k l') else O
end.

Fixpoint upper_bound (k : WriteLogMapEntry) (l : list WriteLogMapEntry) : nat :=
match l with
| [] => O
| e :: l' => if WriteLogMapEntryCompare k e then O else S (upper_bound k l')
end.

(** [std::set::find]: the position of an element equivalent to the key. *)
Definition set_find (k : WriteLogMapEntry) (l : list WriteLogMapEntry)
: option nat :=
let i := lower_bound k l in
match l !! i with
| Some e => if WriteLogMapEntryCompare k e then None else Some i
| None => None
end.

(** [std::set::equal_range], as the elements between the two bounds. *)
Definition equal_range (k : WriteLogMapEntry) (l : list WriteLogMapEntry)
: list WriteLogMapEntry :=
let first := lower_bound k l in
let second := upper_bound k l in
take (second - first)%nat (drop first l).

(** [std::set::insert]: nothing is inserted when an equivalent element
is present. *)
Fixpoint set_insert (x : WriteLogMapEntry) (l : list WriteLogMapEntry)
: list WriteLogMapEntry :=
match l with
| [] => [x]
| e :: l' =>
if WriteLogMapEntryCompare e x then e :: set_insert x l'
else if WriteLogMapEntryCompare x e then x :: e :: l'
else e :: l'
end.

(** The state the map's methods work on: the store of log entries (for
their [referring_map_entries]) and the set. *)
Definition state : Type := LogEntries * list WriteLogMapEntry.

(** [log_entry->referring_map_entries += d] through the shared pointer. *)
Definition add_refs (d : Z) (le : option nat) (h : LogEntries)
: option LogEntries :=
id ← le;
e ← h !! id;
Some (<[id := set_referring_map_entries (referring_map_entries e + d) e]> h).

Definition find_map_entries_locked (be : BlockExtent)
(m : list WriteLogMapEntry) : list WriteLogMapEntry :=
equal_range (mkMapEntry be None) m.

Definition add_map_entry_locked (map_entry : WriteLogMapEntry) (st : state)
: option state :=
let '(h, m) := st in
h' ← add_refs 1 (me_log_entry map_entry) h;
Some (h', set_insert map_entry m).

Definition remove_map_entry_locked (map_entry : WriteLogMapEntry) (st : state)
: option state :=
let '(h, m) := st in
it ← set_find map_entry m;
erased ← m !! it;
h' ← add_refs (-1) (me_log_entry erased) h;
Some (h', delete it m).

Definition adjust_map_entry_locked (map_entry : WriteLogMapEntry)
(new_extent : BlockExtent) (st : state) : option state :=
let '(h, m) := st in
it ← set_find map_entry m;
adjusted ← m !! it;
Some (h, set_insert (mkMapEntry new_extent (me_log_entry adjusted))
 (delete it m)).

Definition split_map_entry_locked (map_entry : WriteLogMapEntry)
(removed_extent : BlockExtent) (st : state) : option state :=
let '(h, m) := st in
it ← set_find map_entry m;
split ← m !! it;
let m1 := delete it m in
let left_extent :=
mkBlockExtent (block_start (me_block_extent split))
      (wrap64 (block_start removed_extent - 1)) in
let m2 := set_insert (mkMapEntry left_extent (me_log_entry split)) m1 in
let right_extent :=
mkBlockExtent (wrap64 (block_end removed_extent + 1))
      (block_end (me_block_extent split)) in
let m3 := set_insert (mkMapEntry right_extent (me_log_entry split)) m2 in
h' ← add_refs 1 (me_log_entry split) h;
Some (h', m3).

(** The body of the loop of [add_log_entry_locked] over the overlapping
entries. *)
Definition resolve_entry (new_extent : BlockExtent) (entry : WriteLogMapEntry)
(st : state) : option state :=
let old := me_block_extent entry in
if block_start new_extent <=? block_start old then
if block_end old <=? block_end new_extent then
remove_map_entry_locked entry st
else
_ ← check (block_end new_extent <? block_end old);
adjust_map_entry_locked entry
(mkBlockExtent (wrap64 (block_end new_extent + 1)) (block_end old)) st
else
_ ← check (block_start old <? block_start new_extent);
if block_end old <=? block_end new_extent then
adjust_map_entry_locked entry
(mkBlockExtent (block_start old) (wrap64 (block_start new_extent - 1))) st
else
split_map_entry_locked entry new_extent st.

Fixpoint resolve_entries (new_extent : BlockExtent)
(entries : list WriteLogMapEntry) (st : state) : option state :=
match entries with
| [] => Some st
| entry :: rest =>
st' ← resolve_entry new_extent entry st;
resolve_entries new_extent rest st'
end.

Definition add_log_entry_locked (log_entry : nat) (st : state)
: option state :=
let '(h, m) := st in
le ← h !! log_entry;
let map_entry := mkMapEntry (log_block_extent le) (Some log_entry) in
_ ← check (is_write (ram_entry le));
let overlap_entries :=
find_map_entries_locked (me_block_extent map_entry) m in
st' ← resolve_entries (me_block_extent map_entry) overlap_entries st;
add_map_entry_locked map_entry st'.

Definition add_log_entry (log_entry : nat) (st : state) : option state :=
le ← fst st !! log_entry;
_ ← check (is_write (ram_entry le));
add_log_entry_locked log_entry st.

Fixpoint add_log_entries (log_entries : list nat) (st : state)
: option state :=
match log_entries with
| [] => Some st
| le :: rest => st' ← add_log_entry_locked le st; add_log_entries rest st'
end.

Fixpoint remove_hits (log_entry : nat) (possible_hits : list WriteLogMapEntry)
(st : state) : option state :=
match possible_hits with
| [] => Some st
| hit :: rest =>
if decide (me_log_entry hit = Some log_entry) then
st' ← remove_map_entry_locked hit st;
remove_hits log_entry rest st'
else remove_hits log_entry rest st
end.

Definition remove_log_entry_locked (log_entry : nat) (st : state)
: option state :=
let '(h, m) := st in
le ← h !! log_entry;
if negb (is_write (ram_entry le)) then Some st
else
let possible_hits := find_map_entries_locked (log_block_extent le) m in
remove_hits log_entry possible_hits st.

Definition remove_log_entry (log_entry : nat) (st : state) : option state :=
le ← fst st !! log_entry;
if negb (is_write (ram_entry le)) then Some st
else remove_log_entry_locked log_entry st.

Definition find_log_entries_locked (be : BlockExtent)
(m : list WriteLogMapEntry) : list (option nat) :=
me_log_entry <$> find_map_entries_locked be m.

End WriteLogMap.

(** ** Constants *)

(** Modelled from the spec: the numeric constants and the compile-time
    switches are declared in ReplicatedWriteLog.h, which is not among the
    sources; they are taken as parameters.  [usable_size n] stands for
    [(size_t)(n * USABLE_SIZE)], a floating-point product. *)
Class Constants := {
  MIN_WRITE_ALLOC_SIZE : Z;
  BLOCK_ALLOC_OVERHEAD_BYTES : Z;
  MAX_LOG_ENTRIES : Z;
  MAX_WRITES_PER_SYNC_POINT : Z;
  MAX_BYTES_PER_SYNC_POINT : Z;
  MAX_ALLOC_PER_TRANSACTION : Z;
  MAX_FREE_PER_TRANSACTION : Z;
  IN_FLIGHT_FLUSH_WRITE_LIMIT : Z;
  IN_FLIGHT_FLUSH_BYTES_LIMIT : Z;
  MIN_POOL_SIZE : Z;
  RWL_POOL_VERSION : Z;
  sizeof_WriteLogPmemEntry : Z;
  usable_size : Z -> Z;
  use_finishers : bool
}.

(** ** Completions, events, sync points, requests *)

Inductive GatherKind := PriorLogEntriesPersisted | SyncPointPersist.

(** The [Context] objects of the source, one constructor per closure or
    class; what completing each of them does is given by the functions
    below. *)
Inductive Context :=
| CallerCtx (c : nat)
    (* a completion handed in by the caller of the cache *)
| RequestCtx (req : nat)
    (* a C_BlockIORequest used as a Context: complete runs finish *)
| OnFinisherCtx (req : nat)
    (* C_OnFinisher(write_req, &m_on_persist_finisher) *)
| CompleteWriteReqCtx (req : nat)
    (* dispatch_aio_write: write_req->_on_finish *)
| FlushReqFinishCtx (req : nat)
    (* make_flush_req: flush_req->_on_finish *)
| NullFlushCtx
    (* flush_new_sync_point: completion of an internal flush request *)
| GatherSubCtx (sp : nat) (g : GatherKind)
    (* gather->new_sub() of a sync point's gather *)
| ActivateCtx (sp : nat) (g : GatherKind)
    (* a closure calling gather->activate() *)
| ScheduleAppendCtx (req : nat)
    (* dispatch_aio_write: schedule_append_ctx *)
| FlushEntryDoneCtx (log_entry : nat) (invalidating : bool)
    (* construct_flush_entry_ctx: the flush write completion action *)
| FlushEntryCtx (log_entry : nat)
    (* construct_flush_entry_ctx: the closure that queues the writeback *)
| WritebackCtx (log_entry : nat)
    (* construct_flush_entry_ctx: the queued closure calling aio_write below *)
| ProcessWorkCtx
    (* wake_up: the closure running process_work *)
| GuardedWriteCtx (req : nat)
| GuardedFlushCtx (req : nat).
    (* the GuardedRequestFunctionContext of aio_write and of aio_flush *)

(** Calls on the image cache below ([m_image_writeback]). *)
Inductive DownstreamCall :=
| DsWrite (image_extents : list Extent) (data : list byte) (fadvise_flags : Z)
          (on_finish : Context)
| DsWritesame (offset length : Z) (data : list byte) (fadvise_flags : Z)
              (on_finish : Context).

(** The writes of one PMEM transaction. *)
Inductive TxOp :=
| TxSetFirstFreeEntry (v : Z)
| TxSetFirstValidEntry (v : Z)
| TxPublish (buffer : Z)
| TxFree (buffer : Z).

Inductive GenericLogOperation :=
| WriteLogOperation (log_entry : nat) (op_bl : list byte) (buffer : Z)
| SyncPointLogOperation (sync_point : nat).

(** What the cache does to its collaborators, in the order it does it. *)
Inductive Event :=
| EvComplete (ctx : Context) (r : Z)
    (* ctx->complete(r) of a completion that is not run in place *)
| EvQueue (ctx : Context)
    (* a work queue is given ctx *)
| EvDetainGuardedRequest (be : BlockExtent) (ctx : Context) (barrier : bool)
| EvReleaseGuardedRequest (cell : nat)
| EvGatherActivate (sp : nat) (g : GatherKind)
| EvDispatchDeferredWrites
| EvImageWriteback (call : DownstreamCall)
| EvTransaction (ops : list TxOp).

(** A sync point; [sp_log_entry] is its member [log_entry]. *)
Record SyncPoint := mkSyncPoint {
  sp_log_entry : nat;
  earlier_sync_point : option nat;
  later_sync_point : option nat;
  m_final_op_sequence_num : Z;
  m_appending : bool;
  m_append_scheduled : bool;
  m_on_sync_point_appending : list Context;
  m_on_sync_point_persisted : list Context
}.

Definition set_sp_log_entry (v : nat) (s : SyncPoint) : SyncPoint :=
  mkSyncPoint v (earlier_sync_point s) (later_sync_point s)
  (m_final_op_sequence_num s) (m_appending s) (m_append_scheduled s)
  (m_on_sync_point_appending s) (m_on_sync_point_persisted s).
Definition set_earlier_sync_point (v : option nat) (s : SyncPoint) : SyncPoint :=
  mkSyncPoint (sp_log_entry s) v (later_sync_point s)
  (m_final_op_sequence_num s) (m_appending s) (m_append_scheduled s)
  (m_on_sync_point_appending s) (m_on_sync_point_persisted s).
Definition set_later_sync_point (v : option nat) (s : SyncPoint) : SyncPoint :=
  mkSyncPoint (sp_log_entry s) (earlier_sync_point s) v
  (m_final_op_sequence_num s) (m_appending s) (m_append_scheduled s)
  (m_on_sync_point_appending s) (m_on_sync_point_persisted s).
Definition set_m_final_op_sequence_num (v : Z) (s : SyncPoint) : SyncPoint :=
  mkSyncPoint (sp_log_entry s) (earlier_sync_point s) (later_sync_point s) v
  (m_appending s) (m_append_scheduled s) (m_on_sync_point_appending s)
  (m_on_sync_point_persisted s).
Definition set_m_appending (v : bool) (s : SyncPoint) : SyncPoint :=
  mkSyncPoint (sp_log_entry s) (earlier_sync_point s) (later_sync_point s)
  (m_final_op_sequence_num s) v (m_append_scheduled s)
  (m_on_sync_point_appending s) (m_on_sync_point_persisted s).
Definition set_m_append_scheduled (v : bool) (s : SyncPoint) : SyncPoint :=
  mkSyncPoint (sp_log_entry s) (earlier_sync_point s) (later_sync_point s)
  (m_final_op_sequence_num s) (m_appending s) v (m_on_sync_point_appending
  s) (m_on_sync_point_persisted s).
Definition set_m_on_sync_point_appending (v : list Context) (s : SyncPoint) : SyncPoint :=
  mkSyncPoint (sp_log_entry s) (earlier_sync_point s) (later_sync_point s)
  (m_final_op_sequence_num s) (m_appending s) (m_append_scheduled s) v
  (m_on_sync_point_persisted s).
Definition set_m_on_sync_point_persisted (v : list Context) (s : SyncPoint) : SyncPoint :=
  mkSyncPoint (sp_log_entry s) (earlier_sync_point s) (later_sync_point s)
  (m_final_op_sequence_num s) (m_appending s) (m_append_scheduled s)
  (m_on_sync_point_appending s) v.

(** [std::make_shared<SyncPointT>] for a sync point whose new log entry
    is [le]. *)
Definition new_SyncPoint (le : nat) : SyncPoint :=
  mkSyncPoint le None None 0 false false [] [].

Record WriteBufferAllocation := mkWriteBufferAllocation {
  allocation_size : Z;
  buffer_oid : Z
}.

Record WriteLogOperationSet := mkOperationSet {
  os_persist_on_flush : bool;
  os_sync_point : nat;
  os_extent : BlockExtent;
  os_on_finish : Context;
  operations : list GenericLogOperation
}.

(** A block IO request; the classes [C_BlockIORequest], [C_WriteRequest]
    and [C_FlushRequest] are flattened, [req_is_flush] telling the two
    apart.  [on_finish_ctx] is the member [_on_finish]. *)
Record BlockIORequest := mkRequest {
  req_is_flush : bool;
  m_image_extents : list Extent;
  bl : list byte;
  fadvise_flags : Z;
  user_req : Context;
  on_finish_ctx : option Context;
  m_user_req_completed : bool;
  m_on_finish_completed : bool;
  m_cell : option nat;
  m_detained : bool;
  m_deferred : bool;
  m_waited_lanes : bool;
  m_waited_entries : bool;
  m_waited_buffers : bool;
  m_resources_allocated : bool;
  m_resources_buffers : list WriteBufferAllocation;
  m_op_set : option WriteLogOperationSet;
  m_do_early_flush : bool;
  m_log_entry_allocated : bool;
  m_internal : bool;
  to_append : option nat
}.

Definition set_req_is_flush (v : bool) (s : BlockIORequest) : BlockIORequest :=
  mkRequest v (m_image_extents s) (bl s) (fadvise_flags s) (user_req s)
  (on_finish_ctx s) (m_user_req_completed s) (m_on_finish_completed s)
  (m_cell s) (m_detained s) (m_deferred s) (m_waited_lanes s)
  (m_waited_entries s) (m_waited_buffers s) (m_resources_allocated s)
  (m_resources_buffers s) (m_op_set s) (m_do_early_flush s)
  (m_log_entry_allocated s) (m_internal s) (to_append s).
Definition set_m_image_extents (v : list Extent) (s : BlockIORequest) : BlockIORequest :=
  mkRequest (req_is_flush s) v (bl s) (fadvise_flags s) (user_req s)
  (on_finish_ctx s) (m_user_req_completed s) (m_on_finish_completed s)
  (m_cell s) (m_detained s) (m_deferred s) (m_waited_lanes s)
  (m_waited_entries s) (m_waited_buffers s) (m_resources_allocated s)
  (m_resources_buffers s) (m_op_set s) (m_do_early_flush s)
  (m_log_entry_allocated s) (m_internal s) (to_append s).
Definition set_bl (v : list byte) (s : BlockIORequest) : BlockIORequest :=
  mkRequest (req_is_flush s) (m_image_extents s) v (fadvise_flags s)
  (user_req s) (on_finish_ctx s) (m_user_req_completed s)
  (m_on_finish_completed s) (m_cell s) (m_detained s) (m_deferred s)
  (m_waited_lanes s) (m_waited_entries s) (m_waited_buffers s)
  (m_resources_allocated s) (m_resources_buffers s) (m_op_set s)
  (m_do_early_flush s) (m_log_entry_allocated s) (m_internal s) (to_append
  s).
Definition set_fadvise_flags (v : Z) (s : BlockIORequest) : BlockIORequest :=
  mkRequest (req_is_flush s) (m_image_extents s) (bl s) v (user_req s)
  (on_finish_ctx s) (m_user_req_completed s) (m_on_finish_completed s)
  (m_cell s) (m_detained s) (m_deferred s) (m_waited_lanes s)
  (m_waited_entries s) (m_waited_buffers s) (m_resources_allocated s)
  (m_resources_buffers s) (m_op_set s) (m_do_early_flush s)
  (m_log_entry_allocated s) (m_internal s) (to_append s).
Definition set_user_req (v : Context) (s : BlockIORequest) : BlockIORequest :=
  mkRequest (req_is_flush s) (m_image_extents s) (bl s) (fadvise_flags s) v
  (on_finish_ctx s) (m_user_req_completed s) (m_on_finish_completed s)
  (m_cell s) (m_detained s) (m_deferred s) (m_waited_lanes s)
  (m_waited_entries s) (m_waited_buffers s) (m_resources_allocated s)
  (m_resources_buffers s) (m_op_set s) (m_do_early_flush s)
  (m_log_entry_allocated s) (m_internal s) (to_append s).
Definition set_on_finish_ctx (v : option Context) (s : BlockIORequest) : BlockIORequest :=
  mkRequest (req_is_flush s) (m_image_extents s) (bl s) (fadvise_flags s)
  (user_req s) v (m_user_req_completed s) (m_on_finish_completed s) (m_cell
  s) (m_detained s) (m_deferred s) (m_waited_lanes s) (m_waited_entries s)
  (m_waited_buffers s) (m_resources_allocated s) (m_resources_buffers s)
  (m_op_set s) (m_do_early_flush s) (m_log_entry_allocated s) (m_internal s)
  (to_append s).
Definition set_m_user_req_completed (v : bool) (s : BlockIORequest) : BlockIORequest :=
  mkRequest (req_is_flush s) (m_image_extents s) (bl s) (fadvise_flags s)
  (user_req s) (on_finish_ctx s) v (m_on_finish_completed s) (m_cell s)
  (m_detained s) (m_deferred s) (m_waited_lanes s) (m_waited_entries s)
  (m_waited_buffers s) (m_resources_allocated s) (m_resources_buffers s)
  (m_op_set s) (m_do_early_flush s) (m_log_entry_allocated s) (m_internal s)
  (to_append s).
Definition set_m_on_finish_completed (v : bool) (s : BlockIORequest) : BlockIORequest :=
  mkRequest (req_is_flush s) (m_image_extents s) (bl s) (fadvise_flags s)
  (user_req s) (on_finish_ctx s) (m_user_req_completed s) v (m_cell s)
  (m_detained s) (m_deferred s) (m_waited_lanes s) (m_waited_entries s)
  (m_waited_buffers s) (m_resources_allocated s) (m_resources_buffers s)
  (m_op_set s) (m_do_early_flush s) (m_log_entry_allocated s) (m_internal s)
  (to_append s).
Definition set_m_cell (v : option nat) (s : BlockIORequest) : BlockIORequest :=
  mkRequest (req_is_flush s) (m_image_extents s) (bl s) (fadvise_flags s)
  (user_req s) (on_finish_ctx s) (m_user_req_completed s)
  (m_on_finish_completed s) v (m_detained s) (m_deferred s) (m_waited_lanes
  s) (m_waited_entries s) (m_waited_buffers s) (m_resources_allocated s)
  (m_resources_buffers s) (m_op_set s) (m_do_early_flush s)
  (m_log_entry_allocated s) (m_internal s) (to_append s).
Definition set_m_detained (v : bool) (s : BlockIORequest) : BlockIORequest :=
  mkRequest (req_is_flush s) (m_image_extents s) (bl s) (fadvise_flags s)
  (user_req s) (on_finish_ctx s) (m_user_req_completed s)
  (m_on_finish_completed s) (m_cell s) v (m_deferred s) (m_waited_lanes s)
  (m_waited_entries s) (m_waited_buffers s) (m_resources_allocated s)
  (m_resources_buffers s) (m_op_set s) (m_do_early_flush s)
  (m_log_entry_allocated s) (m_internal s) (to_append s).
Definition set_m_deferred (v : bool) (s : BlockIORequest) : BlockIORequest :=
  mkRequest (req_is_flush s) (m_image_extents s) (bl s) (fadvise_flags s)
  (user_req s) (on_finish_ctx s) (m_user_req_completed s)
  (m_on_finish_completed s) (m_cell s) (m_detained s) v (m_waited_lanes s)
  (m_waited_entries s) (m_waited_buffers s) (m_resources_allocated s)
  (m_resources_buffers s) (m_op_set s) (m_do_early_flush s)
  (m_log_entry_allocated s) (m_internal s) (to_append s).
Definition set_m_waited_lanes (v : bool) (s : BlockIORequest) : BlockIORequest :=
  mkRequest (req_is_flush s) (m_image_extents s) (bl s) (fadvise_flags s)
  (user_req s) (on_finish_ctx s) (m_user_req_completed s)
  (m_on_finish_completed s) (m_cell s) (m_detained s) (m_deferred s) v
  (m_waited_entries s) (m_waited_buffers s) (m_resources_allocated s)
  (m_resources_buffers s) (m_op_set s) (m_do_early_flush s)
  (m_log_entry_allocated s) (m_internal s) (to_append s).
Definition set_m_waited_entries (v : bool) (s : BlockIORequest) : BlockIORequest :=
  mkRequest (req_is_flush s) (m_image_extents s) (bl s) (fadvise_flags s)
  (user_req s) (on_finish_ctx s) (m_user_req_completed s)
  (m_on_finish_completed s) (m_cell s) (m_detained s) (m_deferred s)
  (m_waited_lanes s) v (m_waited_buffers s) (m_resources_allocated s)
  (m_resources_buffers s) (m_op_set s) (m_do_early_flush s)
  (m_log_entry_allocated s) (m_internal s) (to_append s).
Definition set_m_waited_buffers (v : bool) (s : BlockIORequest) : BlockIORequest :=
  mkRequest (req_is_flush s) (m_image_extents s) (bl s) (fadvise_flags s)
  (user_req s) (on_finish_ctx s) (m_user_req_completed s)
  (m_on_finish_completed s) (m_cell s) (m_detained s) (m_deferred s)
  (m_waited_lanes s) (m_waited_entries s) v (m_resources_allocated s)
  (m_resources_buffers s) (m_op_set s) (m_do_early_flush s)
  (m_log_entry_allocated s) (m_internal s) (to_append s).
Definition set_m_resources_allocated (v : bool) (s : BlockIORequest) : BlockIORequest :=
  mkRequest (req_is_flush s) (m_image_extents s) (bl s) (fadvise_flags s)
  (user_req s) (on_finish_ctx s) (m_user_req_completed s)
  (m_on_finish_completed s) (m_cell s) (m_detained s) (m_deferred s)
  (m_waited_lanes s) (m_waited_entries s) (m_waited_buffers s) v
  (m_resources_buffers s) (m_op_set s) (m_do_early_flush s)
  (m_log_entry_allocated s) (m_internal s) (to_append s).
Definition set_m_resources_buffers (v : list WriteBufferAllocation) (s : BlockIORequest) : BlockIORequest :=
  mkRequest (req_is_flush s) (m_image_extents s) (bl s) (fadvise_flags s)
  (user_req s) (on_finish_ctx s) (m_user_req_completed s)
  (m_on_finish_completed s) (m_cell s) (m_detained s) (m_deferred s)
  (m_waited_lanes s) (m_waited_entries s) (m_waited_buffers s)
  (m_resources_allocated s) v (m_op_set s) (m_do_early_flush s)
  (m_log_entry_allocated s) (m_internal s) (to_append s).
Definition set_m_op_set (v : option WriteLogOperationSet) (s : BlockIORequest) : BlockIORequest :=
  mkRequest (req_is_flush s) (m_image_extents s) (bl s) (fadvise_flags s)
  (user_req s) (on_finish_ctx s) (m_user_req_completed s)
  (m_on_finish_completed s) (m_cell s) (m_detained s) (m_deferred s)
  (m_waited_lanes s) (m_waited_entries s) (m_waited_buffers s)
  (m_resources_allocated s) (m_resources_buffers s) v (m_do_early_flush s)
  (m_log_entry_allocated s) (m_internal s) (to_append s).
Definition set_m_do_early_flush (v : bool) (s : BlockIORequest) : BlockIORequest :=
  mkRequest (req_is_flush s) (m_image_extents s) (bl s) (fadvise_flags s)
  (user_req s) (on_finish_ctx s) (m_user_req_completed s)
  (m_on_finish_completed s) (m_cell s) (m_detained s) (m_deferred s)
  (m_waited_lanes s) (m_waited_entries s) (m_waited_buffers s)
  (m_resources_allocated s) (m_resources_buffers s) (m_op_set s) v
  (m_log_entry_allocated s) (m_internal s) (to_append s).
Definition set_m_log_entry_allocated (v : bool) (s : BlockIORequest) : BlockIORequest :=
  mkRequest (req_is_flush s) (m_image_extents s) (bl s) (fadvise_flags s)
  (user_req s) (on_finish_ctx s) (m_user_req_completed s)
  (m_on_finish_completed s) (m_cell s) (m_detained s) (m_deferred s)
  (m_waited_lanes s) (m_waited_entries s) (m_waited_buffers s)
  (m_resources_allocated s) (m_resources_buffers s) (m_op_set s)
  (m_do_early_flush s) v (m_internal s) (to_append s).
Definition set_m_internal (v : bool) (s : BlockIORequest) : BlockIORequest :=
  mkRequest (req_is_flush s) (m_image_extents s) (bl s) (fadvise_flags s)
  (user_req s) (on_finish_ctx s) (m_user_req_completed s)
  (m_on_finish_completed s) (m_cell s) (m_detained s) (m_deferred s)
  (m_waited_lanes s) (m_waited_entries s) (m_waited_buffers s)
  (m_resources_allocated s) (m_resources_buffers s) (m_op_set s)
  (m_do_early_flush s) (m_log_entry_allocated s) v (to_append s).
Definition set_to_append (v : option nat) (s : BlockIORequest) : BlockIORequest :=
  mkRequest (req_is_flush s) (m_image_extents s) (bl s) (fadvise_flags s)
  (user_req s) (on_finish_ctx s) (m_user_req_completed s)
  (m_on_finish_completed s) (m_cell s) (m_detained s) (m_deferred s)
  (m_waited_lanes s) (m_waited_entries s) (m_waited_buffers s)
  (m_resources_allocated s) (m_resources_buffers s) (m_op_set s)
  (m_do_early_flush s) (m_log_entry_allocated s) (m_internal s) v.

(** ** The persistent pool *)

Record WriteLogPoolRoot := mkPoolRoot {
  layout_version : Z;
  pool_size : Z;
  block_size : Z;
  num_log_entries : Z;
  first_free_entry : Z;
  first_valid_entry : Z
}.

(** The pool: its root, the slot array [log_entries] and the data buffers
    in it (reserved or published), by handle. *)
Record Pool := mkPool {
  pool_root : WriteLogPoolRoot;
  pool_log_entries : list WriteLogPmemEntry;
  pool_buffers : gmap Z (list byte)
}.

Definition set_root_first_free_entry (v : Z) (p : Pool) : Pool :=
  let r := pool_root p in
  mkPool (mkPoolRoot (layout_version r) (pool_size r) (block_size r)
            (num_log_entries r) v (first_valid_entry r))
         (pool_log_entries p) (pool_buffers p).

Definition set_root_first_valid_entry (v : Z) (p : Pool) : Pool :=
  let r := pool_root p in
  mkPool (mkPoolRoot (layout_version r) (pool_size r) (block_size r)
            (num_log_entries r) (first_free_entry r) v)
         (pool_log_entries p) (pool_buffers p).

Definition set_pool_buffers (v : gmap Z (list byte)) (p : Pool) : Pool :=
  mkPool (pool_root p) (pool_log_entries p) v.

Definition set_pool_log_entries (v : list WriteLogPmemEntry) (p : Pool) : Pool :=
  mkPool (pool_root p) v (pool_buffers p).

(** ** The state of the cache *)

(** The members of [ReplicatedWriteLog] the embedding works on, with the
    stores of the shared objects and the trace of events.
    [image_read_only] stands for
    [m_image_ctx.snap_id != CEPH_NOSNAP || m_image_ctx.read_only]. *)
Record RWL := mkRWL {
  image_read_only : bool;
  m_initialized : bool;
  m_log_pool : option Pool;
  m_total_log_entries : Z;
  m_free_log_entries : Z;
  m_first_free_entry : Z;
  m_first_valid_entry : Z;
  m_bytes_allocated_cap : Z;
  m_bytes_allocated : Z;
  m_bytes_cached : Z;
  m_bytes_dirty : Z;
  m_free_lanes : Z;
  m_unpublished_reserves : Z;
  m_alloc_failed_since_retire : bool;
  m_current_sync_gen : Z;
  m_current_sync_point : option nat;
  m_last_op_sequence_num : Z;
  m_persist_on_write_until_flush : bool;
  m_persist_on_flush : bool;
  m_flush_seen : bool;
  m_invalidating : bool;
  m_flush_ops_in_flight : Z;
  m_flush_bytes_in_flight : Z;
  m_lowest_flushing_sync_gen : Z;
  m_wake_up_enabled : bool;
  m_wake_up_requested : bool;
  m_wake_up_scheduled : bool;
  m_log_entries : list nat;
  m_dirty_log_entries : list nat;
  m_blocks_to_log_entries : list WriteLogMapEntry;
  m_deferred_ios : list nat;
  m_flush_complete_contexts : list Context;
  log_entry_objs : gmap nat GenericLogEntry;
  sync_point_objs : gmap nat SyncPoint;
  request_objs : gmap nat BlockIORequest;
  trace : list Event
}.

Definition set_m_initialized (v : bool) (s : RWL) : RWL :=
  mkRWL (image_read_only s) v (m_log_pool s) (m_total_log_entries s)
  (m_free_log_entries s) (m_first_free_entry s) (m_first_valid_entry s)
  (m_bytes_allocated_cap s) (m_bytes_allocated s) (m_bytes_cached s)
  (m_bytes_dirty s) (m_free_lanes s) (m_unpublished_reserves s)
  (m_alloc_failed_since_retire s) (m_current_sync_gen s)
  (m_current_sync_point s) (m_last_op_sequence_num s)
  (m_persist_on_write_until_flush s) (m_persist_on_flush s) (m_flush_seen s)
  (m_invalidating s) (m_flush_ops_in_flight s) (m_flush_bytes_in_flight s)
  (m_lowest_flushing_sync_gen s) (m_wake_up_enabled s) (m_wake_up_requested
  s) (m_wake_up_scheduled s) (m_log_entries s) (m_dirty_log_entries s)
  (m_blocks_to_log_entries s) (m_deferred_ios s) (m_flush_complete_contexts
  s) (log_entry_objs s) (sync_point_objs s) (request_objs s) (trace s).
Definition set_m_log_pool (v : option Pool) (s : RWL) : RWL :=
  mkRWL (image_read_only s) (m_initialized s) v (m_total_log_entries s)
  (m_free_log_entries s) (m_first_free_entry s) (m_first_valid_entry s)
  (m_bytes_allocated_cap s) (m_bytes_allocated s) (m_bytes_cached s)
  (m_bytes_dirty s) (m_free_lanes s) (m_unpublished_reserves s)
  (m_alloc_failed_since_retire s) (m_current_sync_gen s)
  (m_current_sync_point s) (m_last_op_sequence_num s)
  (m_persist_on_write_until_flush s) (m_persist_on_flush s) (m_flush_seen s)
  (m_invalidating s) (m_flush_ops_in_flight s) (m_flush_bytes_in_flight s)
  (m_lowest_flushing_sync_gen s) (m_wake_up_enabled s) (m_wake_up_requested
  s) (m_wake_up_scheduled s) (m_log_entries s) (m_dirty_log_entries s)
  (m_blocks_to_log_entries s) (m_deferred_ios s) (m_flush_complete_contexts
  s) (log_entry_objs s) (sync_point_objs s) (request_objs s) (trace s).
Definition set_m_total_log_entries (v : Z) (s : RWL) : RWL :=
  mkRWL (image_read_only s) (m_initialized s) (m_log_pool s) v
  (m_free_log_entries s) (m_first_free_entry s) (m_first_valid_entry s)
  (m_bytes_allocated_cap s) (m_bytes_allocated s) (m_bytes_cached s)
  (m_bytes_dirty s) (m_free_lanes s) (m_unpublished_reserves s)
  (m_alloc_failed_since_retire s) (m_current_sync_gen s)
  (m_current_sync_point s) (m_last_op_sequence_num s)
  (m_persist_on_write_until_flush s) (m_persist_on_flush s) (m_flush_seen s)
  (m_invalidating s) (m_flush_ops_in_flight s) (m_flush_bytes_in_flight s)
  (m_lowest_flushing_sync_gen s) (m_wake_up_enabled s) (m_wake_up_requested
  s) (m_wake_up_scheduled s) (m_log_entries s) (m_dirty_log_entries s)
  (m_blocks_to_log_entries s) (m_deferred_ios s) (m_flush_complete_contexts
  s) (log_entry_objs s) (sync_point_objs s) (request_objs s) (trace s).
Definition set_m_free_log_entries (v : Z) (s : RWL) : RWL :=
  mkRWL (image_read_only s) (m_initialized s) (m_log_pool s)
  (m_total_log_entries s) v (m_first_free_entry s) (m_first_valid_entry s)
  (m_bytes_allocated_cap s) (m_bytes_allocated s) (m_bytes_cached s)
  (m_bytes_dirty s) (m_free_lanes s) (m_unpublished_reserves s)
  (m_alloc_failed_since_retire s) (m_current_sync_gen s)
  (m_current_sync_point s) (m_last_op_sequence_num s)
  (m_persist_on_write_until_flush s) (m_persist_on_flush s) (m_flush_seen s)
  (m_invalidating s) (m_flush_ops_in_flight s) (m_flush_bytes_in_flight s)
  (m_lowest_flushing_sync_gen s) (m_wake_up_enabled s) (m_wake_up_requested
  s) (m_wake_up_scheduled s) (m_log_entries s) (m_dirty_log_entries s)
  (m_blocks_to_log_entries s) (m_deferred_ios s) (m_flush_complete_contexts
  s) (log_entry_objs s) (sync_point_objs s) (request_objs s) (trace s).
Definition set_m_first_free_entry (v : Z) (s : RWL) : RWL :=
  mkRWL (image_read_only s) (m_initialized s) (m_log_pool s)
  (m_total_log_entries s) (m_free_log_entries s) v (m_first_valid_entry s)
  (m_bytes_allocated_cap s) (m_bytes_allocated s) (m_bytes_cached s)
  (m_bytes_dirty s) (m_free_lanes s) (m_unpublished_reserves s)
  (m_alloc_failed_since_retire s) (m_current_sync_gen s)
  (m_current_sync_point s) (m_last_op_sequence_num s)
  (m_persist_on_write_until_flush s) (m_persist_on_flush s) (m_flush_seen s)
  (m_invalidating s) (m_flush_ops_in_flight s) (m_flush_bytes_in_flight s)
  (m_lowest_flushing_sync_gen s) (m_wake_up_enabled s) (m_wake_up_requested
  s) (m_wake_up_scheduled s) (m_log_entries s) (m_dirty_log_entries s)
  (m_blocks_to_log_entries s) (m_deferred_ios s) (m_flush_complete_contexts
  s) (log_entry_objs s) (sync_point_objs s) (request_objs s) (trace s).
Definition set_m_first_valid_entry (v : Z) (s : RWL) : RWL :=
  mkRWL (image_read_only s) (m_initialized s) (m_log_pool s)
  (m_total_log_entries s) (m_free_log_entries s) (m_first_free_entry s) v
  (m_bytes_allocated_cap s) (m_bytes_allocated s) (m_bytes_cached s)
  (m_bytes_dirty s) (m_free_lanes s) (m_unpublished_reserves s)
  (m_alloc_failed_since_retire s) (m_current_sync_gen s)
  (m_current_sync_point s) (m_last_op_sequence_num s)
  (m_persist_on_write_until_flush s) (m_persist_on_flush s) (m_flush_seen s)
  (m_invalidating s) (m_flush_ops_in_flight s) (m_flush_bytes_in_flight s)
  (m_lowest_flushing_sync_gen s) (m_wake_up_enabled s) (m_wake_up_requested
  s) (m_wake_up_scheduled s) (m_log_entries s) (m_dirty_log_entries s)
  (m_blocks_to_log_entries s) (m_deferred_ios s) (m_flush_complete_contexts
  s) (log_entry_objs s) (sync_point_objs s) (request_objs s) (trace s).
Definition set_m_bytes_allocated_cap (v : Z) (s : RWL) : RWL :=
  mkRWL (image_read_only s) (m_initialized s) (m_log_pool s)
  (m_total_log_entries s) (m_free_log_entries s) (m_first_free_entry s)
  (m_first_valid_entry s) v (m_bytes_allocated s) (m_bytes_cached s)
  (m_bytes_dirty s) (m_free_lanes s) (m_unpublished_reserves s)
  (m_alloc_failed_since_retire s) (m_current_sync_gen s)
  (m_current_sync_point s) (m_last_op_sequence_num s)
  (m_persist_on_write_until_flush s) (m_persist_on_flush s) (m_flush_seen s)
  (m_invalidating s) (m_flush_ops_in_flight s) (m_flush_bytes_in_flight s)
  (m_lowest_flushing_sync_gen s) (m_wake_up_enabled s) (m_wake_up_requested
  s) (m_wake_up_scheduled s) (m_log_entries s) (m_dirty_log_entries s)
  (m_blocks_to_log_entries s) (m_deferred_ios s) (m_flush_complete_contexts
  s) (log_entry_objs s) (sync_point_objs s) (request_objs s) (trace s).
Definition set_m_bytes_allocated (v : Z) (s : RWL) : RWL :=
  mkRWL (image_read_only s) (m_initialized s) (m_log_pool s)
  (m_total_log_entries s) (m_free_log_entries s) (m_first_free_entry s)
  (m_first_valid_entry s) (m_bytes_allocated_cap s) v (m_bytes_cached s)
  (m_bytes_dirty s) (m_free_lanes s) (m_unpublished_reserves s)
  (m_alloc_failed_since_retire s) (m_current_sync_gen s)
  (m_current_sync_point s) (m_last_op_sequence_num s)
  (m_persist_on_write_until_flush s) (m_persist_on_flush s) (m_flush_seen s)
  (m_invalidating s) (m_flush_ops_in_flight s) (m_flush_bytes_in_flight s)
  (m_lowest_flushing_sync_gen s) (m_wake_up_enabled s) (m_wake_up_requested
  s) (m_wake_up_scheduled s) (m_log_entries s) (m_dirty_log_entries s)
  (m_blocks_to_log_entries s) (m_deferred_ios s) (m_flush_complete_contexts
  s) (log_entry_objs s) (sync_point_objs s) (request_objs s) (trace s).
Definition set_m_bytes_cached (v : Z) (s : RWL) : RWL :=
  mkRWL (image_read_only s) (m_initialized s) (m_log_pool s)
  (m_total_log_entries s) (m_free_log_entries s) (m_first_free_entry s)
  (m_first_valid_entry s) (m_bytes_allocated_cap s) (m_bytes_allocated s) v
  (m_bytes_dirty s) (m_free_lanes s) (m_unpublished_reserves s)
  (m_alloc_failed_since_retire s) (m_current_sync_gen s)
  (m_current_sync_point s) (m_last_op_sequence_num s)
  (m_persist_on_write_until_flush s) (m_persist_on_flush s) (m_flush_seen s)
  (m_invalidating s) (m_flush_ops_in_flight s) (m_flush_bytes_in_flight s)
  (m_lowest_flushing_sync_gen s) (m_wake_up_enabled s) (m_wake_up_requested
  s) (m_wake_up_scheduled s) (m_log_entries s) (m_dirty_log_entries s)
  (m_blocks_to_log_entries s) (m_deferred_ios s) (m_flush_complete_contexts
  s) (log_entry_objs s) (sync_point_objs s) (request_objs s) (trace s).
Definition set_m_bytes_dirty (v : Z) (s : RWL) : RWL :=
  mkRWL (image_read_only s) (m_initialized s) (m_log_pool s)
  (m_total_log_entries s) (m_free_log_entries s) (m_first_free_entry s)
  (m_first_valid_entry s) (m_bytes_allocated_cap s) (m_bytes_allocated s)
  (m_bytes_cached s) v (m_free_lanes s) (m_unpublished_reserves s)
  (m_alloc_failed_since_retire s) (m_current_sync_gen s)
  (m_current_sync_point s) (m_last_op_sequence_num s)
  (m_persist_on_write_until_flush s) (m_persist_on_flush s) (m_flush_seen s)
  (m_invalidating s) (m_flush_ops_in_flight s) (m_flush_bytes_in_flight s)
  (m_lowest_flushing_sync_gen s) (m_wake_up_enabled s) (m_wake_up_requested
  s) (m_wake_up_scheduled s) (m_log_entries s) (m_dirty_log_entries s)
  (m_blocks_to_log_entries s) (m_deferred_ios s) (m_flush_complete_contexts
  s) (log_entry_objs s) (sync_point_objs s) (request_objs s) (trace s).
Definition set_m_free_lanes (v : Z) (s : RWL) : RWL :=
  mkRWL (image_read_only s) (m_initialized s) (m_log_pool s)
  (m_total_log_entries s) (m_free_log_entries s) (m_first_free_entry s)
  (m_first_valid_entry s) (m_bytes_allocated_cap s) (m_bytes_allocated s)
  (m_bytes_cached s) (m_bytes_dirty s) v (m_unpublished_reserves s)
  (m_alloc_failed_since_retire s) (m_current_sync_gen s)
  (m_current_sync_point s) (m_last_op_sequence_num s)
  (m_persist_on_write_until_flush s) (m_persist_on_flush s) (m_flush_seen s)
  (m_invalidating s) (m_flush_ops_in_flight s) (m_flush_bytes_in_flight s)
  (m_lowest_flushing_sync_gen s) (m_wake_up_enabled s) (m_wake_up_requested
  s) (m_wake_up_scheduled s) (m_log_entries s) (m_dirty_log_entries s)
  (m_blocks_to_log_entries s) (m_deferred_ios s) (m_flush_complete_contexts
  s) (log_entry_objs s) (sync_point_objs s) (request_objs s) (trace s).
Definition set_m_unpublished_reserves (v : Z) (s : RWL) : RWL :=
  mkRWL (image_read_only s) (m_initialized s) (m_log_pool s)
  (m_total_log_entries s) (m_free_log_entries s) (m_first_free_entry s)
  (m_first_valid_entry s) (m_bytes_allocated_cap s) (m_bytes_allocated s)
  (m_bytes_cached s) (m_bytes_dirty s) (m_free_lanes s) v
  (m_alloc_failed_since_retire s) (m_current_sync_gen s)
  (m_current_sync_point s) (m_last_op_sequence_num s)
  (m_persist_on_write_until_flush s) (m_persist_on_flush s) (m_flush_seen s)
  (m_invalidating s) (m_flush_ops_in_flight s) (m_flush_bytes_in_flight s)
  (m_lowest_flushing_sync_gen s) (m_wake_up_enabled s) (m_wake_up_requested
  s) (m_wake_up_scheduled s) (m_log_entries s) (m_dirty_log_entries s)
  (m_blocks_to_log_entries s) (m_deferred_ios s) (m_flush_complete_contexts
  s) (log_entry_objs s) (sync_point_objs s) (request_objs s) (trace s).
Definition set_m_alloc_failed_since_retire (v : bool) (s : RWL) : RWL :=
  mkRWL (image_read_only s) (m_initialized s) (m_log_pool s)
  (m_total_log_entries s) (m_free_log_entries s) (m_first_free_entry s)
  (m_first_valid_entry s) (m_bytes_allocated_cap s) (m_bytes_allocated s)
  (m_bytes_cached s) (m_bytes_dirty s) (m_free_lanes s)
  (m_unpublished_reserves s) v (m_current_sync_gen s) (m_current_sync_point
  s) (m_last_op_sequence_num s) (m_persist_on_write_until_flush s)
  (m_persist_on_flush s) (m_flush_seen s) (m_invalidating s)
  (m_flush_ops_in_flight s) (m_flush_bytes_in_flight s)
  (m_lowest_flushing_sync_gen s) (m_wake_up_enabled s) (m_wake_up_requested
  s) (m_wake_up_scheduled s) (m_log_entries s) (m_dirty_log_entries s)
  (m_blocks_to_log_entries s) (m_deferred_ios s) (m_flush_complete_contexts
  s) (log_entry_objs s) (sync_point_objs s) (request_objs s) (trace s).
Definition set_m_current_sync_gen (v : Z) (s : RWL) : RWL :=
  mkRWL (image_read_only s) (m_initialized s) (m_log_pool s)
  (m_total_log_entries s) (m_free_log_entries s) (m_first_free_entry s)
  (m_first_valid_entry s) (m_bytes_allocated_cap s) (m_bytes_allocated s)
  (m_bytes_cached s) (m_bytes_dirty s) (m_free_lanes s)
  (m_unpublished_reserves s) (m_alloc_failed_since_retire s) v
  (m_current_sync_point s) (m_last_op_sequence_num s)
  (m_persist_on_write_until_flush s) (m_persist_on_flush s) (m_flush_seen s)
  (m_invalidating s) (m_flush_ops_in_flight s) (m_flush_bytes_in_flight s)
  (m_lowest_flushing_sync_gen s) (m_wake_up_enabled s) (m_wake_up_requested
  s) (m_wake_up_scheduled s) (m_log_entries s) (m_dirty_log_entries s)
  (m_blocks_to_log_entries s) (m_deferred_ios s) (m_flush_complete_contexts
  s) (log_entry_objs s) (sync_point_objs s) (request_objs s) (trace s).
Definition set_m_current_sync_point (v : option nat) (s : RWL) : RWL :=
  mkRWL (image_read_only s) (m_initialized s) (m_log_pool s)
  (m_total_log_entries s) (m_free_log_entries s) (m_first_free_entry s)
  (m_first_valid_entry s) (m_bytes_allocated_cap s) (m_bytes_allocated s)
  (m_bytes_cached s) (m_bytes_dirty s) (m_free_lanes s)
  (m_unpublished_reserves s) (m_alloc_failed_since_retire s)
  (m_current_sync_gen s) v (m_last_op_sequence_num s)
  (m_persist_on_write_until_flush s) (m_persist_on_flush s) (m_flush_seen s)
  (m_invalidating s) (m_flush_ops_in_flight s) (m_flush_bytes_in_flight s)
  (m_lowest_flushing_sync_gen s) (m_wake_up_enabled s) (m_wake_up_requested
  s) (m_wake_up_scheduled s) (m_log_entries s) (m_dirty_log_entries s)
  (m_blocks_to_log_entries s) (m_deferred_ios s) (m_flush_complete_contexts
  s) (log_entry_objs s) (sync_point_objs s) (request_objs s) (trace s).
Definition set_m_last_op_sequence_num (v : Z) (s : RWL) : RWL :=
  mkRWL (image_read_only s) (m_initialized s) (m_log_pool s)
  (m_total_log_entries s) (m_free_log_entries s) (m_first_free_entry s)
  (m_first_valid_entry s) (m_bytes_allocated_cap s) (m_bytes_allocated s)
  (m_bytes_cached s) (m_bytes_dirty s) (m_free_lanes s)
  (m_unpublished_reserves s) (m_alloc_failed_since_retire s)
  (m_current_sync_gen s) (m_current_sync_point s) v
  (m_persist_on_write_until_flush s) (m_persist_on_flush s) (m_flush_seen s)
  (m_invalidating s) (m_flush_ops_in_flight s) (m_flush_bytes_in_flight s)
  (m_lowest_flushing_sync_gen s) (m_wake_up_enabled s) (m_wake_up_requested
  s) (m_wake_up_scheduled s) (m_log_entries s) (m_dirty_log_entries s)
  (m_blocks_to_log_entries s) (m_deferred_ios s) (m_flush_complete_contexts
  s) (log_entry_objs s) (sync_point_objs s) (request_objs s) (trace s).
Definition set_m_persist_on_write_until_flush (v : bool) (s : RWL) : RWL :=
  mkRWL (image_read_only s) (m_initialized s) (m_log_pool s)
  (m_total_log_entries s) (m_free_log_entries s) (m_first_free_entry s)
  (m_first_valid_entry s) (m_bytes_allocated_cap s) (m_bytes_allocated s)
  (m_bytes_cached s) (m_bytes_dirty s) (m_free_lanes s)
  (m_unpublished_reserves s) (m_alloc_failed_since_retire s)
  (m_current_sync_gen s) (m_current_sync_point s) (m_last_op_sequence_num s)
  v (m_persist_on_flush s) (m_flush_seen s) (m_invalidating s)
  (m_flush_ops_in_flight s) (m_flush_bytes_in_flight s)
  (m_lowest_flushing_sync_gen s) (m_wake_up_enabled s) (m_wake_up_requested
  s) (m_wake_up_scheduled s) (m_log_entries s) (m_dirty_log_entries s)
  (m_blocks_to_log_entries s) (m_deferred_ios s) (m_flush_complete_contexts
  s) (log_entry_objs s) (sync_point_objs s) (request_objs s) (trace s).
Definition set_m_persist_on_flush (v : bool) (s : RWL) : RWL :=
  mkRWL (image_read_only s) (m_initialized s) (m_log_pool s)
  (m_total_log_entries s) (m_free_log_entries s) (m_first_free_entry s)
  (m_first_valid_entry s) (m_bytes_allocated_cap s) (m_bytes_allocated s)
  (m_bytes_cached s) (m_bytes_dirty s) (m_free_lanes s)
  (m_unpublished_reserves s) (m_alloc_failed_since_retire s)
  (m_current_sync_gen s) (m_current_sync_point s) (m_last_op_sequence_num s)
  (m_persist_on_write_until_flush s) v (m_flush_seen s) (m_invalidating s)
  (m_flush_ops_in_flight s) (m_flush_bytes_in_flight s)
  (m_lowest_flushing_sync_gen s) (m_wake_up_enabled s) (m_wake_up_requested
  s) (m_wake_up_scheduled s) (m_log_entries s) (m_dirty_log_entries s)
  (m_blocks_to_log_entries s) (m_deferred_ios s) (m_flush_complete_contexts
  s) (log_entry_objs s) (sync_point_objs s) (request_objs s) (trace s).
Definition set_m_flush_seen (v : bool) (s : RWL) : RWL :=
  mkRWL (image_read_only s) (m_initialized s) (m_log_pool s)
  (m_total_log_entries s) (m_free_log_entries s) (m_first_free_entry s)
  (m_first_valid_entry s) (m_bytes_allocated_cap s) (m_bytes_allocated s)
  (m_bytes_cached s) (m_bytes_dirty s) (m_free_lanes s)
  (m_unpublished_reserves s) (m_alloc_failed_since_retire s)
  (m_current_sync_gen s) (m_current_sync_point s) (m_last_op_sequence_num s)
  (m_persist_on_write_until_flush s) (m_persist_on_flush s) v
  (m_invalidating s) (m_flush_ops_in_flight s) (m_flush_bytes_in_flight s)
  (m_lowest_flushing_sync_gen s) (m_wake_up_enabled s) (m_wake_up_requested
  s) (m_wake_up_scheduled s) (m_log_entries s) (m_dirty_log_entries s)
  (m_blocks_to_log_entries s) (m_deferred_ios s) (m_flush_complete_contexts
  s) (log_entry_objs s) (sync_point_objs s) (request_objs s) (trace s).
Definition set_m_invalidating (v : bool) (s : RWL) : RWL :=
  mkRWL (image_read_only s) (m_initialized s) (m_log_pool s)
  (m_total_log_entries s) (m_free_log_entries s) (m_first_free_entry s)
  (m_first_valid_entry s) (m_bytes_allocated_cap s) (m_bytes_allocated s)
  (m_bytes_cached s) (m_bytes_dirty s) (m_free_lanes s)
  (m_unpublished_reserves s) (m_alloc_failed_since_retire s)
  (m_current_sync_gen s) (m_current_sync_point s) (m_last_op_sequence_num s)
  (m_persist_on_write_until_flush s) (m_persist_on_flush s) (m_flush_seen s)
  v (m_flush_ops_in_flight s) (m_flush_bytes_in_flight s)
  (m_lowest_flushing_sync_gen s) (m_wake_up_enabled s) (m_wake_up_requested
  s) (m_wake_up_scheduled s) (m_log_entries s) (m_dirty_log_entries s)
  (m_blocks_to_log_entries s) (m_deferred_ios s) (m_flush_complete_contexts
  s) (log_entry_objs s) (sync_point_objs s) (request_objs s) (trace s).
Definition set_m_flush_ops_in_flight (v : Z) (s : RWL) : RWL :=
  mkRWL (image_read_only s) (m_initialized s) (m_log_pool s)
  (m_total_log_entries s) (m_free_log_entries s) (m_first_free_entry s)
  (m_first_valid_entry s) (m_bytes_allocated_cap s) (m_bytes_allocated s)
  (m_bytes_cached s) (m_bytes_dirty s) (m_free_lanes s)
  (m_unpublished_reserves s) (m_alloc_failed_since_retire s)
  (m_current_sync_gen s) (m_current_sync_point s) (m_last_op_sequence_num s)
  (m_persist_on_write_until_flush s) (m_persist_on_flush s) (m_flush_seen s)
  (m_invalidating s) v (m_flush_bytes_in_flight s)
  (m_lowest_flushing_sync_gen s) (m_wake_up_enabled s) (m_wake_up_requested
  s) (m_wake_up_scheduled s) (m_log_entries s) (m_dirty_log_entries s)
  (m_blocks_to_log_entries s) (m_deferred_ios s) (m_flush_complete_contexts
  s) (log_entry_objs s) (sync_point_objs s) (request_objs s) (trace s).
Definition set_m_flush_bytes_in_flight (v : Z) (s : RWL) : RWL :=
  mkRWL (image_read_only s) (m_initialized s) (m_log_pool s)
  (m_total_log_entries s) (m_free_log_entries s) (m_first_free_entry s)
  (m_first_valid_entry s) (m_bytes_allocated_cap s) (m_bytes_allocated s)
  (m_bytes_cached s) (m_bytes_dirty s) (m_free_lanes s)
  (m_unpublished_reserves s) (m_alloc_failed_since_retire s)
  (m_current_sync_gen s) (m_current_sync_point s) (m_last_op_sequence_num s)
  (m_persist_on_write_until_flush s) (m_persist_on_flush s) (m_flush_seen s)
  (m_invalidating s) (m_flush_ops_in_flight s) v (m_lowest_flushing_sync_gen
  s) (m_wake_up_enabled s) (m_wake_up_requested s) (m_wake_up_scheduled s)
  (m_log_entries s) (m_dirty_log_entries s) (m_blocks_to_log_entries s)
  (m_deferred_ios s) (m_flush_complete_contexts s) (log_entry_objs s)
  (sync_point_objs s) (request_objs s) (trace s).
Definition set_m_lowest_flushing_sync_gen (v : Z) (s : RWL) : RWL :=
  mkRWL (image_read_only s) (m_initialized s) (m_log_pool s)
  (m_total_log_entries s) (m_free_log_entries s) (m_first_free_entry s)
  (m_first_valid_entry s) (m_bytes_allocated_cap s) (m_bytes_allocated s)
  (m_bytes_cached s) (m_bytes_dirty s) (m_free_lanes s)
  (m_unpublished_reserves s) (m_alloc_failed_since_retire s)
  (m_current_sync_gen s) (m_current_sync_point s) (m_last_op_sequence_num s)
  (m_persist_on_write_until_flush s) (m_persist_on_flush s) (m_flush_seen s)
  (m_invalidating s) (m_flush_ops_in_flight s) (m_flush_bytes_in_flight s) v
  (m_wake_up_enabled s) (m_wake_up_requested s) (m_wake_up_scheduled s)
  (m_log_entries s) (m_dirty_log_entries s) (m_blocks_to_log_entries s)
  (m_deferred_ios s) (m_flush_complete_contexts s) (log_entry_objs s)
  (sync_point_objs s) (request_objs s) (trace s).
Definition set_m_wake_up_enabled (v : bool) (s : RWL) : RWL :=
  mkRWL (image_read_only s) (m_initialized s) (m_log_pool s)
  (m_total_log_entries s) (m_free_log_entries s) (m_first_free_entry s)
  (m_first_valid_entry s) (m_bytes_allocated_cap s) (m_bytes_allocated s)
  (m_bytes_cached s) (m_bytes_dirty s) (m_free_lanes s)
  (m_unpublished_reserves s) (m_alloc_failed_since_retire s)
  (m_current_sync_gen s) (m_current_sync_point s) (m_last_op_sequence_num s)
  (m_persist_on_write_until_flush s) (m_persist_on_flush s) (m_flush_seen s)
  (m_invalidating s) (m_flush_ops_in_flight s) (m_flush_bytes_in_flight s)
  (m_lowest_flushing_sync_gen s) v (m_wake_up_requested s)
  (m_wake_up_scheduled s) (m_log_entries s) (m_dirty_log_entries s)
  (m_blocks_to_log_entries s) (m_deferred_ios s) (m_flush_complete_contexts
  s) (log_entry_objs s) (sync_point_objs s) (request_objs s) (trace s).
Definition set_m_wake_up_requested (v : bool) (s : RWL) : RWL :=
  mkRWL (image_read_only s) (m_initialized s) (m_log_pool s)
  (m_total_log_entries s) (m_free_log_entries s) (m_first_free_entry s)
  (m_first_valid_entry s) (m_bytes_allocated_cap s) (m_bytes_allocated s)
  (m_bytes_cached s) (m_bytes_dirty s) (m_free_lanes s)
  (m_unpublished_reserves s) (m_alloc_failed_since_retire s)
  (m_current_sync_gen s) (m_current_sync_point s) (m_last_op_sequence_num s)
  (m_persist_on_write_until_flush s) (m_persist_on_flush s) (m_flush_seen s)
  (m_invalidating s) (m_flush_ops_in_flight s) (m_flush_bytes_in_flight s)
  (m_lowest_flushing_sync_gen s) (m_wake_up_enabled s) v
  (m_wake_up_scheduled s) (m_log_entries s) (m_dirty_log_entries s)
  (m_blocks_to_log_entries s) (m_deferred_ios s) (m_flush_complete_contexts
  s) (log_entry_objs s) (sync_point_objs s) (request_objs s) (trace s).
Definition set_m_wake_up_scheduled (v : bool) (s : RWL) : RWL :=
  mkRWL (image_read_only s) (m_initialized s) (m_log_pool s)
  (m_total_log_entries s) (m_free_log_entries s) (m_first_free_entry s)
  (m_first_valid_entry s) (m_bytes_allocated_cap s) (m_bytes_allocated s)
  (m_bytes_cached s) (m_bytes_dirty s) (m_free_lanes s)
  (m_unpublished_reserves s) (m_alloc_failed_since_retire s)
  (m_current_sync_gen s) (m_current_sync_point s) (m_last_op_sequence_num s)
  (m_persist_on_write_until_flush s) (m_persist_on_flush s) (m_flush_seen s)
  (m_invalidating s) (m_flush_ops_in_flight s) (m_flush_bytes_in_flight s)
  (m_lowest_flushing_sync_gen s) (m_wake_up_enabled s) (m_wake_up_requested
  s) v (m_log_entries s) (m_dirty_log_entries s) (m_blocks_to_log_entries s)
  (m_deferred_ios s) (m_flush_complete_contexts s) (log_entry_objs s)
  (sync_point_objs s) (request_objs s) (trace s).
Definition set_m_log_entries (v : list nat) (s : RWL) : RWL :=
  mkRWL (image_read_only s) (m_initialized s) (m_log_pool s)
  (m_total_log_entries s) (m_free_log_entries s) (m_first_free_entry s)
  (m_first_valid_entry s) (m_bytes_allocated_cap s) (m_bytes_allocated s)
  (m_bytes_cached s) (m_bytes_dirty s) (m_free_lanes s)
  (m_unpublished_reserves s) (m_alloc_failed_since_retire s)
  (m_current_sync_gen s) (m_current_sync_point s) (m_last_op_sequence_num s)
  (m_persist_on_write_until_flush s) (m_persist_on_flush s) (m_flush_seen s)
  (m_invalidating s) (m_flush_ops_in_flight s) (m_flush_bytes_in_flight s)
  (m_lowest_flushing_sync_gen s) (m_wake_up_enabled s) (m_wake_up_requested
  s) (m_wake_up_scheduled s) v (m_dirty_log_entries s)
  (m_blocks_to_log_entries s) (m_deferred_ios s) (m_flush_complete_contexts
  s) (log_entry_objs s) (sync_point_objs s) (request_objs s) (trace s).
Definition set_m_dirty_log_entries (v : list nat) (s : RWL) : RWL :=
  mkRWL (image_read_only s) (m_initialized s) (m_log_pool s)
  (m_total_log_entries s) (m_free_log_entries s) (m_first_free_entry s)
  (m_first_valid_entry s) (m_bytes_allocated_cap s) (m_bytes_allocated s)
  (m_bytes_cached s) (m_bytes_dirty s) (m_free_lanes s)
  (m_unpublished_reserves s) (m_alloc_failed_since_retire s)
  (m_current_sync_gen s) (m_current_sync_point s) (m_last_op_sequence_num s)
  (m_persist_on_write_until_flush s) (m_persist_on_flush s) (m_flush_seen s)
  (m_invalidating s) (m_flush_ops_in_flight s) (m_flush_bytes_in_flight s)
  (m_lowest_flushing_sync_gen s) (m_wake_up_enabled s) (m_wake_up_requested
  s) (m_wake_up_scheduled s) (m_log_entries s) v (m_blocks_to_log_entries s)
  (m_deferred_ios s) (m_flush_complete_contexts s) (log_entry_objs s)
  (sync_point_objs s) (request_objs s) (trace s).
Definition set_m_blocks_to_log_entries (v : list WriteLogMapEntry) (s : RWL) : RWL :=
  mkRWL (image_read_only s) (m_initialized s) (m_log_pool s)
  (m_total_log_entries s) (m_free_log_entries s) (m_first_free_entry s)
  (m_first_valid_entry s) (m_bytes_allocated_cap s) (m_bytes_allocated s)
  (m_bytes_cached s) (m_bytes_dirty s) (m_free_lanes s)
  (m_unpublished_reserves s) (m_alloc_failed_since_retire s)
  (m_current_sync_gen s) (m_current_sync_point s) (m_last_op_sequence_num s)
  (m_persist_on_write_until_flush s) (m_persist_on_flush s) (m_flush_seen s)
  (m_invalidating s) (m_flush_ops_in_flight s) (m_flush_bytes_in_flight s)
  (m_lowest_flushing_sync_gen s) (m_wake_up_enabled s) (m_wake_up_requested
  s) (m_wake_up_scheduled s) (m_log_entries s) (m_dirty_log_entries s) v
  (m_deferred_ios s) (m_flush_complete_contexts s) (log_entry_objs s)
  (sync_point_objs s) (request_objs s) (trace s).
Definition set_m_deferred_ios (v : list nat) (s : RWL) : RWL :=
  mkRWL (image_read_only s) (m_initialized s) (m_log_pool s)
  (m_total_log_entries s) (m_free_log_entries s) (m_first_free_entry s)
  (m_first_valid_entry s) (m_bytes_allocated_cap s) (m_bytes_allocated s)
  (m_bytes_cached s) (m_bytes_dirty s) (m_free_lanes s)
  (m_unpublished_reserves s) (m_alloc_failed_since_retire s)
  (m_current_sync_gen s) (m_current_sync_point s) (m_last_op_sequence_num s)
  (m_persist_on_write_until_flush s) (m_persist_on_flush s) (m_flush_seen s)
  (m_invalidating s) (m_flush_ops_in_flight s) (m_flush_bytes_in_flight s)
  (m_lowest_flushing_sync_gen s) (m_wake_up_enabled s) (m_wake_up_requested
  s) (m_wake_up_scheduled s) (m_log_entries s) (m_dirty_log_entries s)
  (m_blocks_to_log_entries s) v (m_flush_complete_contexts s)
  (log_entry_objs s) (sync_point_objs s) (request_objs s) (trace s).
Definition set_m_flush_complete_contexts (v : list Context) (s : RWL) : RWL :=
  mkRWL (image_read_only s) (m_initialized s) (m_log_pool s)
  (m_total_log_entries s) (m_free_log_entries s) (m_first_free_entry s)
  (m_first_valid_entry s) (m_bytes_allocated_cap s) (m_bytes_allocated s)
  (m_bytes_cached s) (m_bytes_dirty s) (m_free_lanes s)
  (m_unpublished_reserves s) (m_alloc_failed_since_retire s)
  (m_current_sync_gen s) (m_current_sync_point s) (m_last_op_sequence_num s)
  (m_persist_on_write_until_flush s) (m_persist_on_flush s) (m_flush_seen s)
  (m_invalidating s) (m_flush_ops_in_flight s) (m_flush_bytes_in_flight s)
  (m_lowest_flushing_sync_gen s) (m_wake_up_enabled s) (m_wake_up_requested
  s) (m_wake_up_scheduled s) (m_log_entries s) (m_dirty_log_entries s)
  (m_blocks_to_log_entries s) (m_deferred_ios s) v (log_entry_objs s)
  (sync_point_objs s) (request_objs s) (trace s).
Definition set_log_entry_objs (v : gmap nat GenericLogEntry) (s : RWL) : RWL :=
  mkRWL (image_read_only s) (m_initialized s) (m_log_pool s)
  (m_total_log_entries s) (m_free_log_entries s) (m_first_free_entry s)
  (m_first_valid_entry s) (m_bytes_allocated_cap s) (m_bytes_allocated s)
  (m_bytes_cached s) (m_bytes_dirty s) (m_free_lanes s)
  (m_unpublished_reserves s) (m_alloc_failed_since_retire s)
  (m_current_sync_gen s) (m_current_sync_point s) (m_last_op_sequence_num s)
  (m_persist_on_write_until_flush s) (m_persist_on_flush s) (m_flush_seen s)
  (m_invalidating s) (m_flush_ops_in_flight s) (m_flush_bytes_in_flight s)
  (m_lowest_flushing_sync_gen s) (m_wake_up_enabled s) (m_wake_up_requested
  s) (m_wake_up_scheduled s) (m_log_entries s) (m_dirty_log_entries s)
  (m_blocks_to_log_entries s) (m_deferred_ios s) (m_flush_complete_contexts
  s) v (sync_point_objs s) (request_objs s) (trace s).
Definition set_sync_point_objs (v : gmap nat SyncPoint) (s : RWL) : RWL :=
  mkRWL (image_read_only s) (m_initialized s) (m_log_pool s)
  (m_total_log_entries s) (m_free_log_entries s) (m_first_free_entry s)
  (m_first_valid_entry s) (m_bytes_allocated_cap s) (m_bytes_allocated s)
  (m_bytes_cached s) (m_bytes_dirty s) (m_free_lanes s)
  (m_unpublished_reserves s) (m_alloc_failed_since_retire s)
  (m_current_sync_gen s) (m_current_sync_point s) (m_last_op_sequence_num s)
  (m_persist_on_write_until_flush s) (m_persist_on_flush s) (m_flush_seen s)
  (m_invalidating s) (m_flush_ops_in_flight s) (m_flush_bytes_in_flight s)
  (m_lowest_flushing_sync_gen s) (m_wake_up_enabled s) (m_wake_up_requested
  s) (m_wake_up_scheduled s) (m_log_entries s) (m_dirty_log_entries s)
  (m_blocks_to_log_entries s) (m_deferred_ios s) (m_flush_complete_contexts
  s) (log_entry_objs s) v (request_objs s) (trace s).
Definition set_request_objs (v : gmap nat BlockIORequest) (s : RWL) : RWL :=
  mkRWL (image_read_only s) (m_initialized s) (m_log_pool s)
  (m_total_log_entries s) (m_free_log_entries s) (m_first_free_entry s)
  (m_first_valid_entry s) (m_bytes_allocated_cap s) (m_bytes_allocated s)
  (m_bytes_cached s) (m_bytes_dirty s) (m_free_lanes s)
  (m_unpublished_reserves s) (m_alloc_failed_since_retire s)
  (m_current_sync_gen s) (m_current_sync_point s) (m_last_op_sequence_num s)
  (m_persist_on_write_until_flush s) (m_persist_on_flush s) (m_flush_seen s)
  (m_invalidating s) (m_flush_ops_in_flight s) (m_flush_bytes_in_flight s)
  (m_lowest_flushing_sync_gen s) (m_wake_up_enabled s) (m_wake_up_requested
  s) (m_wake_up_scheduled s) (m_log_entries s) (m_dirty_log_entries s)
  (m_blocks_to_log_entries s) (m_deferred_ios s) (m_flush_complete_contexts
  s) (log_entry_objs s) (sync_point_objs s) v (trace s).
Definition set_trace (v : list Event) (s : RWL) : RWL :=
  mkRWL (image_read_only s) (m_initialized s) (m_log_pool s)
  (m_total_log_entries s) (m_free_log_entries s) (m_first_free_entry s)
  (m_first_valid_entry s) (m_bytes_allocated_cap s) (m_bytes_allocated s)
  (m_bytes_cached s) (m_bytes_dirty s) (m_free_lanes s)
  (m_unpublished_reserves s) (m_alloc_failed_since_retire s)
  (m_current_sync_gen s) (m_current_sync_point s) (m_last_op_sequence_num s)
  (m_persist_on_write_until_flush s) (m_persist_on_flush s) (m_flush_seen s)
  (m_invalidating s) (m_flush_ops_in_flight s) (m_flush_bytes_in_flight s)
  (m_lowest_flushing_sync_gen s) (m_wake_up_enabled s) (m_wake_up_requested
  s) (m_wake_up_scheduled s) (m_log_entries s) (m_dirty_log_entries s)
  (m_blocks_to_log_entries s) (m_deferred_ios s) (m_flush_complete_contexts
  s) (log_entry_objs s) (sync_point_objs s) (request_objs s) v.

Definition emit (e : Event) (s : RWL) : RWL := set_trace (trace s ++ [e]) s.

(** The key of a new shared object. *)
Definition new_key {A} (m : gmap nat A) : nat := fresh (dom m).

(** Updates through a shared pointer. *)
Definition update_log_entry (id : nat) (f : GenericLogEntry -> GenericLogEntry)
    (s : RWL) : option RWL :=
  e ← log_entry_objs s !! id;
  Some (set_log_entry_objs (<[id := f e]> (log_entry_objs s)) s).

Definition update_sync_point (id : nat) (f : SyncPoint -> SyncPoint)
    (s : RWL) : option RWL :=
  p ← sync_point_objs s !! id;
  Some (set_sync_point_objs (<[id := f p]> (sync_point_objs s)) s).

Definition update_request (id : nat) (f : BlockIORequest -> BlockIORequest)
    (s : RWL) : option RWL :=
  q ← request_objs s !! id;
  Some (set_request_objs (<[id := f q]> (request_objs s)) s).

(** ** What the write-log map is meant to keep *)

Module WriteLogMapSpec.
Import WriteLogMap.

Definition extent_ok (e : BlockExtent) : Prop :=
0 <= block_start e /\ block_start e <= block_end e /\ block_end e < 2 ^ 64.

Definition overlaps (a b : BlockExtent) : Prop :=
block_start a <= block_end b /\ block_start b <= block_end a.

Definition overlapsb (a b : BlockExtent) : bool :=
(block_start a <=? block_end b) && (block_start b <=? block_end a).

Definition entry_lt (a b : WriteLogMapEntry) : Prop :=
block_end (me_block_extent a) < block_start (me_block_extent b).

(** No two entries of the map overlap. *)
Definition no_overlap (m : list WriteLogMapEntry) : Prop :=
forall (i j : nat) a b, i <> j -> m !! i = Some a -> m !! j = Some b ->
~ overlaps (me_block_extent a) (me_block_extent b).

(** The set is in the comparison's order and holds proper extents. *)
Definition map_wf (m : list WriteLogMapEntry) : Prop :=
StronglySorted entry_lt m /\
Forall (fun e => extent_ok (me_block_extent e)) m.

(** Every map entry refers to a log entry of the store. *)
Definition refs_bound (h : LogEntries) (m : list WriteLogMapEntry) : Prop :=
Forall (fun e => exists i, me_log_entry e = Some i /\ is_Some (h !! i)) m.

(** What becomes of an existing map entry [e] when the range [n] is
inserted, in the words of the specification. *)
Definition resolve_overlap (n : BlockExtent) (e : WriteLogMapEntry)
: list WriteLogMapEntry :=
let o := me_block_extent e in
if negb (overlapsb n o) then [e]
else if (block_start n <=? block_start o) && (block_end o <=? block_end n)
then []                                   (* fully covered: removed *)
else if block_start n <=? block_start o
then [mkMapEntry (mkBlockExtent (block_end n + 1) (block_end o))
       (me_log_entry e)]        (* the portion right of [n] *)
else if block_end o <=? block_end n
then [mkMapEntry (mkBlockExtent (block_start o) (block_start n - 1))
       (me_log_entry e)]        (* the portion left of [n] *)
else [mkMapEntry (mkBlockExtent (block_start o) (block_start n - 1))
       (me_log_entry e);
mkMapEntry (mkBlockExtent (block_end n + 1) (block_end o))
       (me_log_entry e)].       (* split in two *)

(** The change of the back-reference count of [e]'s log entry. *)
Definition refs_delta (n : BlockExtent) (e : WriteLogMapEntry) : Z :=
Z.of_nat (length (resolve_overlap n e)) - 1.

Fixpoint refs_change (n : BlockExtent) (m : list WriteLogMapEntry) (i : nat)
: Z :=
match m with
| [] => 0
| e :: m' =>
(if decide (me_log_entry e = Some i) then refs_delta n e else 0)
+ refs_change n m' i
end.

Definition add_to_refs (d : Z) (e : GenericLogEntry) : GenericLogEntry :=
set_referring_map_entries (referring_map_entries e + d) e.

(** The number of map entries that refer to the log entry [i]. *)
Definition count_refs (m : list WriteLogMapEntry) (i : nat) : Z :=
Z.of_nat (length (filter (fun e => me_log_entry e = Some i) m)).

(** [x] and [e] do not overlap: one ends before the other starts. *)
Definition apart (x e : WriteLogMapEntry) : Prop :=
entry_lt e x \/ entry_lt x e.

(** The extent of [x] lies within that of [o]. *)
Definition within (x o : WriteLogMapEntry) : Prop :=
block_start (me_block_extent o) <= block_start (me_block_extent x) /\
block_end (me_block_extent x) <= block_end (me_block_extent o).

(** The map and the back-reference counts agree: every map entry refers
to a write log entry of the store and lies within that entry's
(proper) extent, and the [referring_map_entries] of every log entry is the
number of map entries that refer to it. *)
Definition map_consistent (h : LogEntries) (m : list WriteLogMapEntry)
: Prop :=
map_wf m /\
Forall (fun me => exists i e,
me_log_entry me = Some i /\ h !! i = Some e /\
is_write (ram_entry e) = true /\
extent_ok (log_block_extent e) /\
within me (mkMapEntry (log_block_extent e) (Some i))) m /\
forall i e, h !! i = Some e -> referring_map_entries e = count_refs m i.

(** Two stores differ in the back-reference counts only. *)
Definition refs_only (h h' : LogEntries) : Prop :=
forall j : nat, exists d, h' !! j = add_to_refs d <$> h !! j.

End WriteLogMapSpec.

(** ** Errors *)

Definition EIO : Z := 5.
Definition EINVAL : Z := 22.
Definition EROFS : Z := 30.

(** ** The flusher and the retirer *)

Section Cache.
Context `{Constants}.

Definition wake_up (s : RWL) : RWL :=
if negb (m_wake_up_enabled s) then s
else if m_wake_up_requested s && m_wake_up_scheduled s then s
else
let s := set_m_wake_up_requested true s in
if m_wake_up_scheduled s then s
else emit (EvQueue ProcessWorkCtx) (set_m_wake_up_scheduled true s).

Definition can_flush_entry (log_entry : nat) (s : RWL) : option bool :=
e ← log_entry_objs s !! log_entry;
_ ← check (is_write (ram_entry e));
if m_invalidating s then Some true
else if negb (m_flush_ops_in_flight s =? 0)
&& (m_lowest_flushing_sync_gen s <? sync_gen_number (ram_entry e))
then Some false
else Some (completed e
 && (m_flush_ops_in_flight s <=? IN_FLIGHT_FLUSH_WRITE_LIMIT)
 && (m_flush_bytes_in_flight s <=? IN_FLIGHT_FLUSH_BYTES_LIMIT)).

(** [construct_flush_entry_ctx]: the bookkeeping done at once, and the
context handed back. *)
Definition construct_flush_entry_ctx (log_entry : nat) (s : RWL)
: option (Context * RWL) :=
let invalidating := m_invalidating s in
e ← log_entry_objs s !! log_entry;
_ ← check (is_write (ram_entry e));
let s :=
if (m_flush_ops_in_flight s =? 0)
 || (sync_gen_number (ram_entry e) <? m_lowest_flushing_sync_gen s)
then set_m_lowest_flushing_sync_gen (sync_gen_number (ram_entry e)) s
else s in
let s := set_m_flush_ops_in_flight (m_flush_ops_in_flight s + 1) s in
let s := set_m_flush_bytes_in_flight
 (m_flush_bytes_in_flight s + write_bytes (ram_entry e)) s in
s ← update_log_entry log_entry (set_flushing true) s;
if invalidating then
Some (FlushEntryDoneCtx log_entry invalidating, s)
else
s ← update_log_entry log_entry
(fun e => set_reader_count (reader_count e + 1) e) s;
Some (FlushEntryCtx log_entry, s).

(** The flush write completion action of [construct_flush_entry_ctx],
completed with [r]. *)
Definition flush_entry_done (log_entry : nat) (invalidating : bool) (r : Z)
(s : RWL) : option RWL :=
e ← log_entry_objs s !! log_entry;
let s := set_m_flush_ops_in_flight (m_flush_ops_in_flight s - 1) s in
let s := set_m_flush_bytes_in_flight
 (m_flush_bytes_in_flight s - write_bytes (ram_entry e)) s in
s ← update_log_entry log_entry (set_flushing false) s;
s ← (if r <? 0 then
 Some (set_m_dirty_log_entries (log_entry :: m_dirty_log_entries s) s)
 else
 s ← update_log_entry log_entry (set_flushed true) s;
 _ ← check (write_bytes (ram_entry e) <=? m_bytes_dirty s);
 Some (set_m_bytes_dirty
     (m_bytes_dirty s - write_bytes (ram_entry e)) s));
Some (wake_up s).

(** The two closures [construct_flush_entry_ctx] returns when the cache
is not invalidating: the first queues the second, the second reads
the entry's buffer and writes it to the image cache below, with the
completion action as its completion. *)
Definition flush_entry_queue (log_entry : nat) (s : RWL) : RWL :=
emit (EvQueue (WritebackCtx log_entry)) s.

Definition flush_entry_writeback (log_entry : nat) (s : RWL) : option RWL :=
e ← log_entry_objs s !! log_entry;
pool ← m_log_pool s;
data ← pool_buffers pool !! write_data (ram_entry e);
Some (emit (EvImageWriteback
    (DsWrite [(image_offset_bytes (ram_entry e),
               write_bytes (ram_entry e))]
             (take (Z.to_nat (write_bytes (ram_entry e))) data)
             0 (FlushEntryDoneCtx log_entry false))) s).

(** The loop of [process_writeback_dirty_entries]; [dirty] is
[m_dirty_log_entries], which only the loop's [pop_front] changes.
It yields the contexts added to [post_unlock] and [all_clean]. *)
Fixpoint writeback_loop (dirty : list nat) (flushed : Z)
(post_unlock : list Context) (s : RWL)
: option (list Context * bool * RWL) :=
if flushed <? IN_FLIGHT_FLUSH_WRITE_LIMIT then
match dirty with
| [] => Some (post_unlock, m_flush_ops_in_flight s =? 0, s)
| candidate :: rest =>
flushable ← can_flush_entry candidate s;
if (flushable : bool) then
'(ctx, s) ← construct_flush_entry_ctx candidate s;
writeback_loop rest (flushed + 1) (post_unlock ++ [ctx])
(set_m_dirty_log_entries rest s)
else Some (post_unlock, false, s)
end
else Some (post_unlock, false, s).

(** [finish_contexts(cct, contexts, 0)] on the contexts the flusher
defers. *)
Fixpoint finish_flush_contexts (ctxs : list Context) (s : RWL) : option RWL :=
match ctxs with
| [] => Some s
| ctx :: rest =>
s ← match ctx with
| FlushEntryDoneCtx le inv => flush_entry_done le inv 0 s
| FlushEntryCtx le => Some (flush_entry_queue le s)
| _ => Some (emit (EvComplete ctx 0) s)
end;
finish_flush_contexts rest s
end.

Definition process_writeback_dirty_entries (s : RWL) : option RWL :=
'(post_unlock, all_clean, s) ← writeback_loop (m_dirty_log_entries s) 0 [] s;
s ← finish_flush_contexts post_unlock s;
if (all_clean : bool) then
let flush_contexts := m_flush_complete_contexts s in
let s := set_m_flush_complete_contexts [] s in
Some (foldl (fun s ctx => emit (EvComplete ctx 0) s) s flush_contexts)
else Some s.

Definition can_retire_entry (log_entry : nat) (s : RWL) : option bool :=
e ← log_entry_objs s !! log_entry;
if negb (completed e) then Some false
else if is_write (ram_entry e) then
Some (flushed e && (reader_count e =? 0))
else Some true.

(** [m_blocks_to_log_entries.remove_log_entry] on the cache's state. *)
Definition map_remove_log_entry (log_entry : nat) (s : RWL) : option RWL :=
'(h, m) ← WriteLogMap.remove_log_entry log_entry
  (log_entry_objs s, m_blocks_to_log_entries s);
Some (set_m_blocks_to_log_entries m (set_log_entry_objs h s)).

Definition map_add_log_entry (log_entry : nat) (s : RWL) : option RWL :=
'(h, m) ← WriteLogMap.add_log_entry log_entry
  (log_entry_objs s, m_blocks_to_log_entries s);
Some (set_m_blocks_to_log_entries m (set_log_entry_objs h s)).

Definition map_add_log_entries (log_entries : list nat) (s : RWL)
: option RWL :=
'(h, m) ← WriteLogMap.add_log_entries log_entries
  (log_entry_objs s, m_blocks_to_log_entries s);
Some (set_m_blocks_to_log_entries m (set_log_entry_objs h s)).

(** The first loop of [retire_entries]; [entries] is [m_log_entries],
which only the loop's [pop_front] changes. *)
Fixpoint retire_loop (frees_per_tx : Z) (entries : list nat)
(retiring_entries : list nat) (first_valid_entry : Z) (s : RWL)
: option (list nat * Z * RWL) :=
match entries with
| [] => Some (retiring_entries, first_valid_entry, s)
| entry :: rest =>
if Z.of_nat (length retiring_entries) <? frees_per_tx then
retirable ← can_retire_entry entry s;
if (retirable : bool) then
e ← log_entry_objs s !! entry;
_ ← check (completed e);
_ ← check (log_entry_index e =? first_valid_entry);
let first_valid_entry :=
wrap32 (first_valid_entry + 1) mod m_total_log_entries s in
let s := set_m_log_entries rest s in
s ← (if is_write (ram_entry e) then
     s ← map_remove_log_entry entry s;
     w ← log_entry_objs s !! entry;
     _ ← check (negb (flushing w));
     _ ← check (flushed w);
     _ ← check (reader_count w =? 0);
     _ ← check (referring_map_entries w =? 0);
     Some s
   else Some s);
retire_loop frees_per_tx rest (retiring_entries ++ [entry])
first_valid_entry s
else Some (retiring_entries, first_valid_entry, s)
else Some (retiring_entries, first_valid_entry, s)
end.

(** The buffers the retire transaction frees. *)
Definition retired_buffers (h : LogEntries) (retiring_entries : list nat)
: list Z :=
omap (fun id =>
e ← h !! id;
if is_write (ram_entry e) then Some (write_data (ram_entry e))
else None) retiring_entries.

Fixpoint retire_accounting (retiring_entries : list nat) (s : RWL)
: option RWL :=
match retiring_entries with
| [] => Some s
| entry :: rest =>
e ← log_entry_objs s !! entry;
s ← (if is_write (ram_entry e) then
 _ ← check (write_bytes (ram_entry e) <=? m_bytes_cached s);
 let s := set_m_bytes_cached
            (m_bytes_cached s - write_bytes (ram_entry e)) s in
 let entry_allocation_size :=
   if write_bytes (ram_entry e) <? MIN_WRITE_ALLOC_SIZE
   then MIN_WRITE_ALLOC_SIZE else write_bytes (ram_entry e) in
 _ ← check (entry_allocation_size <=? m_bytes_allocated s);
 Some (set_m_bytes_allocated
         (m_bytes_allocated s - entry_allocation_size) s)
 else Some s);
retire_accounting rest s
end.

(** [retire_entries]; [commit] tells whether the PMEM transaction
commits (its abort is fatal).  The result is the function's return
value, the entries retired and the new state. *)
Definition retire_entries (frees_per_tx : Z) (commit : bool) (s : RWL)
: option (bool * list nat * RWL) :=
let initial_first_valid_entry := wrap32 (m_first_valid_entry s) in
'(retiring_entries, first_valid_entry, s) ←
retire_loop frees_per_tx (m_log_entries s) []
(wrap32 (m_first_valid_entry s)) s;
if negb (Z.of_nat (length retiring_entries) =? 0) then
pool ← m_log_pool s;
let buffers := retired_buffers (log_entry_objs s) retiring_entries in
_ ← check commit;
let pool :=
set_pool_buffers
(foldl (fun b oid => delete oid b) (pool_buffers pool) buffers)
(set_root_first_valid_entry first_valid_entry pool) in
let s := set_m_log_pool (Some pool) s in
let s := emit (EvTransaction
         (TxSetFirstValidEntry first_valid_entry
            :: (TxFree <$> buffers))) s in
_ ← check (m_first_valid_entry s =? initial_first_valid_entry);
let s := set_m_first_valid_entry first_valid_entry s in
let s := set_m_free_log_entries
   (m_free_log_entries s + Z.of_nat (length retiring_entries)) s in
s ← retire_accounting retiring_entries s;
let s := set_m_alloc_failed_since_retire false s in
Some (true, retiring_entries, wake_up s)
else Some (false, [], s).

End Cache.

(** ** Allocation of log entries and buffers *)

Section Allocation.
Context `{Constants}.

Definition alloc_flush_resources (flush_req : nat) (s : RWL)
: option (bool * RWL) :=
q ← request_objs s !! flush_req;
_ ← check (negb (m_log_entry_allocated q));
if negb (m_free_log_entries s =? 0) then
let s := set_m_free_log_entries (m_free_log_entries s - 1) s in
s ← update_request flush_req (set_m_log_entry_allocated true) s;
Some (true, s)
else Some (false, s).

(** The loop of [alloc_write_resources] that reserves one buffer per
extent.  [oids] are the handles [pmemobj_reserve] returns, in turn
(0 is the null handle; a missing answer counts as one).  It yields
the buffers reserved, [bytes_allocated], [bytes_cached] and whether
every reservation succeeded. *)
Fixpoint reserve_buffers (extents : list Extent) (oids : list Z)
(buffers : list WriteBufferAllocation) (bytes_allocated bytes_cached : Z)
: list WriteBufferAllocation * Z * Z * bool :=
match extents with
| [] => (buffers, bytes_allocated, bytes_cached, true)
| extent :: rest =>
let allocation_size :=
if wrap32 MIN_WRITE_ALLOC_SIZE <? snd extent
then wrap32 (snd extent) else wrap32 MIN_WRITE_ALLOC_SIZE in
let bytes_cached := wrap64 (bytes_cached + snd extent) in
let bytes_allocated := wrap64 (bytes_allocated + allocation_size) in
let oid := hd 0 oids in
if oid =? 0 then (buffers, bytes_allocated, bytes_cached, false)
else reserve_buffers rest (tl oids)
 (buffers ++ [mkWriteBufferAllocation allocation_size oid])
 bytes_allocated bytes_cached
end.

Definition alloc_write_resources (write_req : nat) (oids : list Z) (s : RWL)
: option (bool * RWL) :=
q ← request_objs s !! write_req;
pool ← m_log_pool s;
_ ← check (negb (m_resources_allocated q));
let num_extents := Z.of_nat (length (m_image_extents q)) in
let no_lanes := m_free_lanes s <? num_extents in
let no_entries := m_free_log_entries s <? num_extents in
let over_cap := m_bytes_allocated_cap s <? m_bytes_allocated s in
let q := if no_lanes then set_m_waited_lanes true q else q in
let q := if no_entries then set_m_waited_entries true q else q in
let q := if over_cap then set_m_waited_buffers true q else q in
let alloc_succeeds := negb (no_lanes || no_entries || over_cap) in
let no_space := no_entries || over_cap in
let '(buffers, bytes_allocated, bytes_cached, reserved) :=
if alloc_succeeds
then reserve_buffers (m_image_extents q) oids [] 0 0
else ([], 0, 0, true) in
let q := if reserved then q else set_m_waited_buffers true q in
let alloc_succeeds := alloc_succeeds && reserved in
let no_space := no_space || negb reserved in
let pool :=
set_pool_buffers
(foldl (fun b a => <[buffer_oid a := []]> b) (pool_buffers pool) buffers)
pool in
let q := set_m_resources_buffers buffers q in
let s := set_m_log_pool (Some pool) s in
let '(alloc_succeeds, q, s) :=
if alloc_succeeds then
if (num_extents <=? m_free_lanes s)
 && (num_extents <=? m_free_log_entries s) then
let s := set_m_free_lanes (m_free_lanes s - num_extents) s in
let s := set_m_free_log_entries
       (m_free_log_entries s - num_extents) s in
let s := set_m_unpublished_reserves
       (m_unpublished_reserves s + num_extents) s in
let s := set_m_bytes_allocated
       (m_bytes_allocated s + bytes_allocated) s in
let s := set_m_bytes_cached (m_bytes_cached s + bytes_cached) s in
let s := set_m_bytes_dirty (m_bytes_dirty s + bytes_cached) s in
(true, set_m_resources_allocated true q, s)
else (false, q, s)
else (false, q, s) in
let '(q, s) :=
if alloc_succeeds then (q, s)
else
(* pmemobj_cancel of every buffer reserved, then buffers.clear() *)
let pool :=
set_pool_buffers
(foldl (fun b a => delete (buffer_oid a) b) (pool_buffers pool)
     buffers) pool in
let s := set_m_log_pool (Some pool) s in
(set_m_resources_buffers [] q,
 if no_space then set_m_alloc_failed_since_retire true s else s) in
Some (alloc_succeeds,
set_request_objs (<[write_req := q]> (request_objs s)) s).

(** [operation->get_log_entry()]. *)
Definition get_log_entry (op : GenericLogOperation) (s : RWL) : option nat :=
match op with
| WriteLogOperation le _ _ => Some le
| SyncPointLogOperation sp => sp_log_entry <$> sync_point_objs s !! sp
end.

Definition op_is_write (op : GenericLogOperation) : bool :=
match op with WriteLogOperation _ _ _ => true | _ => false end.

(** [alloc_op_log_entries]: the slots of the ring are given to the
operations in their order. *)
Fixpoint alloc_op_log_entries (ops : list GenericLogOperation) (s : RWL)
: option RWL :=
match ops with
| [] => Some s
| operation :: rest =>
let entry_index := wrap32 (m_first_free_entry s) in
let s := set_m_first_free_entry
     ((m_first_free_entry s + 1) mod m_total_log_entries s) s in
log_entry ← get_log_entry operation s;
s ← update_log_entry log_entry
(fun e =>
   set_ram_entry
     (set_entry_valid true
        (set_entry_index entry_index (ram_entry e)))
     (set_log_entry_index entry_index e)) s;
let s := set_m_log_entries (m_log_entries s ++ [log_entry]) s in
alloc_op_log_entries rest s
end.

(** The transaction of [append_op_log_entries], after the entries are
copied to their slots: the log head is advanced and the buffers of
the writes are published.  [commit] tells whether it commits. *)
Fixpoint write_log_entries (ops : list GenericLogOperation) (s : RWL)
: option RWL :=
match ops with
| [] => Some s
| operation :: rest =>
log_entry ← get_log_entry operation s;
e ← log_entry_objs s !! log_entry;
pool ← m_log_pool s;
_ ← check (Z.to_nat (log_entry_index e) <? length (pool_log_entries pool))%nat;
let s := set_m_log_pool
     (Some (set_pool_log_entries
              (<[Z.to_nat (log_entry_index e) := ram_entry e]>
                 (pool_log_entries pool)) pool)) s in
write_log_entries rest s
end.

Definition published_buffers (ops : list GenericLogOperation) : list Z :=
omap (fun op => match op with
      | WriteLogOperation _ _ buffer => Some buffer
      | _ => None
      end) ops.

Definition append_op_log_entries (ops : list GenericLogOperation)
(commit : bool) (s : RWL) : option (Z * RWL) :=
match ops with
| [] => Some (0, s)
| _ =>
s ← write_log_entries ops s;
pool ← m_log_pool s;
_ ← check commit;
let s := set_m_log_pool
     (Some (set_root_first_free_entry (m_first_free_entry s) pool))
     s in
Some (0, emit (EvTransaction
           (TxSetFirstFreeEntry (m_first_free_entry s)
              :: (TxPublish <$> published_buffers ops))) s)
end.

End Allocation.

(** ** Sync points and flush requests *)

Section SyncPoints.
Context `{Constants}.

(** [whole_volume_extent()]: offset 0, length [~0]. *)
Definition whole_volume_extent : Extent := (0, 2 ^ 64 - 1).

(** [ExtentsSummary]: the total length and the first and last image byte
of a list of extents; [last_image_byte] is the end (start plus
length) of the extent that ends last. *)
Record ExtentsSummary := mkExtentsSummary {
total_bytes : Z;
first_image_byte : Z;
last_image_byte : Z
}.

Definition extents_summary (extents : list Extent) : ExtentsSummary :=
match extents with
| [] => mkExtentsSummary 0 0 0
| front :: _ =>
foldl (fun sm extent =>
   mkExtentsSummary
     (wrap64 (total_bytes sm + snd extent))
     (if fst extent <? first_image_byte sm
      then fst extent else first_image_byte sm)
     (if last_image_byte sm <? wrap64 (fst extent + snd extent)
      then wrap64 (fst extent + snd extent)
      else last_image_byte sm))
(mkExtentsSummary 0 (fst front) (wrap64 (fst front + snd front)))
extents
end.

Definition summary_block_extent (sm : ExtentsSummary) : BlockExtent :=
mkBlockExtent (first_image_byte sm) (last_image_byte sm).

(** The constructor of [C_BlockIORequest] and its subclasses. *)
Definition new_request (is_flush : bool) (image_extents : list Extent)
(data : list byte) (flags : Z) (user : Context) : BlockIORequest :=
mkRequest is_flush image_extents data flags user None false false None
false false false false false false [] None false false false None.

(** [make_flush_req]: a new flush request over the whole volume, whose
[_on_finish] completes the user request. *)
Definition make_flush_req (on_finish : Context) (s : RWL) : nat * RWL :=
let flush_req := new_key (request_objs s) in
let q := set_on_finish_ctx (Some (FlushReqFinishCtx flush_req))
 (new_request true [whole_volume_extent] [] 0 on_finish) in
(flush_req, set_request_objs (<[flush_req := q]> (request_objs s)) s).

(** [C_BlockIORequest::complete_user_request]: the compare-and-exchange
on [m_user_req_completed] lets the first call through only. *)
Definition complete_user_request (req : nat) (r : Z) (s : RWL) : option RWL :=
q ← request_objs s !! req;
if negb (m_user_req_completed q) then
s ← update_request req (set_m_user_req_completed true) s;
Some (emit (EvComplete (user_req q) r) s)
else Some s.

Definition release_guarded_request (cell : nat) (s : RWL) : RWL :=
emit (EvReleaseGuardedRequest cell) s.

(** [release_write_lanes].  The call of [dispatch_deferred_writes] it ends
with is an event of the trace: what that call does to the requests of
[m_deferred_ios] is not described here.  When no request is deferred
the call returns at once, and the state is as given. *)
Definition release_write_lanes (write_req : nat) (s : RWL) : option RWL :=
q ← request_objs s !! write_req;
_ ← check (m_resources_allocated q);
let s := set_m_free_lanes
 (m_free_lanes s + Z.of_nat (length (m_image_extents q))) s in
s ← update_request write_req (set_m_resources_allocated false) s;
Some (emit EvDispatchDeferredWrites s).

Definition complete_write_req (write_req : nat) (result : Z) (s : RWL)
: option RWL :=
q ← request_objs s !! write_req;
cell ← m_cell q;
op_set ← m_op_set q;
s ← (if negb (os_persist_on_flush op_set)
 then complete_user_request write_req result s else Some s);
s ← release_write_lanes write_req s;
Some (release_guarded_request cell s).

(** [_on_finish->complete(r)] of a request. *)
Definition complete_on_finish (ctx : Context) (r : Z) (s : RWL) : option RWL :=
match ctx with
| FlushReqFinishCtx flush_req =>
q ← request_objs s !! flush_req;
_ ← check (bool_decide (m_cell q = None));
complete_user_request flush_req r s
| CompleteWriteReqCtx write_req => complete_write_req write_req r s
| _ => Some (emit (EvComplete ctx r) s)
end.

(** [C_BlockIORequest::finish]. *)
Definition finish (req : nat) (r : Z) (s : RWL) : option RWL :=
s ← complete_user_request req r s;
q ← request_objs s !! req;
_ ← check (negb (m_on_finish_completed q));
s ← update_request req (set_m_on_finish_completed true) s;
on_finish ← on_finish_ctx q;
complete_on_finish on_finish 0 s.

(** The destructor of [DeferredContexts]: every context is completed
with 0.  A request runs [finish]; a closure activating a gather calls
the gather; the other contexts are handed their completion. *)
Definition complete_deferred (ctx : Context) (s : RWL) : option RWL :=
match ctx with
| RequestCtx req => finish req 0 s
| ActivateCtx sp g => Some (emit (EvGatherActivate sp g) s)
| _ => Some (emit (EvComplete ctx 0) s)
end.

Fixpoint finish_deferred (ctxs : list Context) (s : RWL) : option RWL :=
match ctxs with
| [] => Some s
| ctx :: rest => s ← complete_deferred ctx s; finish_deferred rest s
end.

(** What [new_sync_point] does to the sync point that was current: it
links it to the new one, records the last sequence number and, unless
it is appending, makes the new sync point's gather wait for it. *)
Definition old_sync_point_linked (new_sync_point : nat) (last_seq : Z)
(o : SyncPoint) : SyncPoint :=
let o := set_later_sync_point (Some new_sync_point) o in
let o := set_m_final_op_sequence_num last_seq o in
if negb (m_appending o) then
set_m_on_sync_point_appending
(m_on_sync_point_appending o
 ++ [GatherSubCtx new_sync_point PriorLogEntriesPersisted]) o
else o.

(** [new_sync_point]; the contexts added to [later] are returned. *)
Definition new_sync_point (s : RWL) : option (list Context * RWL) :=
let old_sync_point := m_current_sync_point s in
let s := set_m_current_sync_gen (wrap64 (m_current_sync_gen s + 1)) s in
let le := new_key (log_entry_objs s) in
let s := set_log_entry_objs
 (<[le := new_sync_point_log_entry (m_current_sync_gen s)]>
    (log_entry_objs s)) s in
let new_sync_point := new_key (sync_point_objs s) in
let s := set_sync_point_objs
 (<[new_sync_point := new_SyncPoint le]> (sync_point_objs s)) s in
let s := set_m_current_sync_point (Some new_sync_point) s in
match old_sync_point with
| Some old =>
s ← update_sync_point new_sync_point
(set_earlier_sync_point (Some old)) s;
s ← update_sync_point old
(old_sync_point_linked new_sync_point (m_last_op_sequence_num s)) s;
Some ([ActivateCtx old PriorLogEntriesPersisted], s)
| None => Some ([], s)
end.

(** The walk of [flush_new_sync_point] over the earlier sync points,
asserting that each is scheduled for append.  [fuel] bounds the walk;
[None] is a failed assertion, [Some false] an unfinished walk. *)
Fixpoint earlier_all_scheduled (fuel : nat) (previous : option nat) (s : RWL)
: option bool :=
match previous with
| None => Some true
| Some p =>
match fuel with
| O => Some false
| S fuel =>
sp ← sync_point_objs s !! p;
_ ← check (m_append_scheduled sp);
earlier_all_scheduled fuel (earlier_sync_point sp) s
end
end.

(** [flush_new_sync_point]; [flush_req] is [None] for the null pointer, in
which case an internal flush request is made. *)
Definition flush_new_sync_point (flush_req : option nat) (s : RWL)
: option (list Context * RWL) :=
let '(flush_req, s) :=
match flush_req with
| Some r => (r, s)
| None =>
let '(r, s) := make_flush_req NullFlushCtx s in
(r, set_request_objs
  (alter (set_m_internal true) r (request_objs s)) s)
end in
'(later, s) ← new_sync_point s;
current ← m_current_sync_point s;
cur ← sync_point_objs s !! current;
to_append ← earlier_sync_point cur;
s ← update_request flush_req (set_to_append (Some to_append)) s;
s ← update_sync_point to_append (set_m_append_scheduled true) s;
ta ← sync_point_objs s !! to_append;
walked ← earlier_all_scheduled (S (size (sync_point_objs s)))
 (earlier_sync_point ta) s;
_ ← check walked;
let later := later ++ [ActivateCtx to_append SyncPointPersist] in
s ← update_sync_point to_append
(fun t => set_m_on_sync_point_persisted
        (m_on_sync_point_persisted t ++ [RequestCtx flush_req]) t)
s;
Some (later, s).

Definition init_flush_new_sync_point (s : RWL)
: option (list Context * RWL) :=
_ ← check (negb (m_initialized s));
match m_current_sync_point s with
| None => new_sync_point s
| Some _ => flush_new_sync_point None s
end.

(** The body of the guarded request of [aio_flush], run once the block
guard grants [cell]. *)
Definition aio_flush_guarded (flush_req : nat) (cell : nat) (detained : bool)
(s : RWL) : option RWL :=
s ← update_request flush_req (set_m_detained detained) s;
let s :=
if negb (m_flush_seen s) then
let s := set_m_flush_seen true s in
if negb (m_persist_on_flush s) && m_persist_on_write_until_flush s
then set_m_persist_on_flush true s else s
else s in
current ← m_current_sync_point s;
cur ← sync_point_objs s !! current;
cur_entry ← log_entry_objs s !! sp_log_entry cur;
'(post_unlock, s) ←
(if negb (m_writes cur_entry =? 0) then
 flush_new_sync_point (Some flush_req) s
 else
 match earlier_sync_point cur with
 | Some earlier =>
 s ← update_sync_point earlier
     (fun e => set_m_on_sync_point_persisted
                 (m_on_sync_point_persisted e
                  ++ [RequestCtx flush_req]) e) s;
 e ← sync_point_objs s !! earlier;
 _ ← check (m_append_scheduled e);
 Some ([], s)
 | None => Some ([RequestCtx flush_req], s)
 end);
s ← finish_deferred post_unlock s;
Some (release_guarded_request cell s).

Definition aio_flush (on_finish : Context) (s : RWL) : RWL :=
if negb (m_initialized s) then emit (EvQueue on_finish) s
else if image_read_only s then emit (EvComplete on_finish (- EROFS)) s
else
let '(flush_req, s) := make_flush_req on_finish s in
emit (EvDetainGuardedRequest
(summary_block_extent (extents_summary [whole_volume_extent]))
(GuardedFlushCtx flush_req) true) s.

(** [SyncPointLogOperation::appending] and [::complete]. *)
Definition sync_point_op_appending (sync_point : nat) (s : RWL)
: option RWL :=
sp ← sync_point_objs s !! sync_point;
let on_append := m_on_sync_point_appending sp in
s ← update_sync_point sync_point
(fun sp => set_m_on_sync_point_appending []
         (set_m_appending true sp)) s;
Some (foldl (fun s ctx => emit (EvComplete ctx 0) s) s on_append).

Fixpoint finish_persisted (ctxs : list Context) (result : Z) (s : RWL)
: option RWL :=
match ctxs with
| [] => Some s
| ctx :: rest =>
s ← match ctx with
| RequestCtx req => finish req result s
| _ => Some (emit (EvComplete ctx result) s)
end;
finish_persisted rest result s
end.

Definition sync_point_op_complete (sync_point : nat) (result : Z) (s : RWL)
: option RWL :=
sp ← sync_point_objs s !! sync_point;
later ← later_sync_point sp;
l ← sync_point_objs s !! later;
_ ← check (bool_decide (earlier_sync_point l = Some sync_point));
s ← update_sync_point later (set_earlier_sync_point None) s;
s ← sync_point_op_appending sync_point s;
sp ← sync_point_objs s !! sync_point;
let persisted := m_on_sync_point_persisted sp in
s ← update_sync_point sync_point (set_m_on_sync_point_persisted []) s;
finish_persisted persisted result s.

End SyncPoints.

(** ** Recovery and initialisation *)

Section Recovery.
Context `{Constants}.

(** [std::map<uint64_t, bool> missing_sync_points]: its keys in
ascending order, the order of its iteration. *)
Fixpoint missing_insert (k : Z) (l : list Z) : list Z :=
match l with
| [] => [k]
| x :: l' =>
if k <? x then k :: x :: l'
else if k =? x then x :: l'
else x :: missing_insert k l'
end.

Definition missing_erase (k : Z) (l : list Z) : list Z :=
filter (fun x => x <> k) l.

(** What the scan of [load_existing_entries] carries along:
[sync_point_entries] (where [operator[]] leaves a null pointer under
a key it does not find), [highest_existing_sync_point] and
[missing_sync_points]. *)
Record ScanState := mkScanState {
sync_point_entries : gmap Z (option nat);
highest_existing_sync_point : option nat;
missing_sync_points : list Z
}.

(** One turn of the scan, on the slot [index] (the local
[entry_index] of the source). *)
Definition load_entry (index : Z) (sc : ScanState) (s : RWL)
: option (ScanState * RWL) :=
pool ← m_log_pool s;
pmem_entry ← pool_log_entries pool !! Z.to_nat index;
_ ← check (entry_index pmem_entry =? index);
let id := new_key (log_entry_objs s) in
'(sc, s, obj) ←
(if is_sync_point pmem_entry then
 let gen := sync_gen_number pmem_entry in
 _ ← match highest_existing_sync_point sc with
 | Some hi =>
   h ← log_entry_objs s !! hi;
   check (sync_gen_number (ram_entry h) <? gen)
 | None => Some tt
 end;
 Some (mkScanState (<[gen := Some id]> (sync_point_entries sc))
             (Some id)
             (missing_erase gen (missing_sync_points sc)),
 set_m_current_sync_gen gen s,
 new_sync_point_log_entry gen)
 else if is_write pmem_entry then
 let gen := sync_gen_number pmem_entry in
 _ ← match highest_existing_sync_point sc with
 | Some hi =>
   h ← log_entry_objs s !! hi;
   hp ← pool_log_entries pool !! Z.to_nat (log_entry_index h);
   _ ← check (sync_gen_number (ram_entry h)
              =? sync_gen_number hp);
   check (sync_gen_number (ram_entry h) <? gen)
 | None => Some tt
 end;
 let sc :=
 match sync_point_entries sc !! gen with
 | Some (Some _) => sc
 | _ =>
 mkScanState (<[gen := None]> (sync_point_entries sc))
             (highest_existing_sync_point sc)
             (missing_insert gen (missing_sync_points sc))
 end in
 Some (sc, s,
 new_write_log_entry None (image_offset_bytes pmem_entry)
                     (write_bytes pmem_entry))
 else None);
let obj := set_completed true
   (set_log_entry_index (wrap32 index)
      (set_ram_entry pmem_entry obj)) in
let s := set_log_entry_objs (<[id := obj]> (log_entry_objs s)) s in
Some (sc, set_m_log_entries (m_log_entries s ++ [id]) s).

(** The scan: from [index] until [m_first_free_entry] is met.
[fuel] bounds the turns; the ring has [m_total_log_entries] slots. *)
Fixpoint load_entries (fuel : nat) (index : Z) (sc : ScanState)
(s : RWL) : option (ScanState * RWL) :=
if index =? m_first_free_entry s then Some (sc, s)
else
match fuel with
| O => None
| S fuel =>
'(sc, s) ← load_entry index sc s;
load_entries fuel
(wrap64 (index + 1) mod m_total_log_entries s) sc s
end.

(** The creation of the missing sync points, in ascending order. *)
Fixpoint create_missing (missing : list Z) (sc : ScanState)
(later : list Context) (s : RWL)
: option (ScanState * list Context * RWL) :=
match missing with
| [] => Some (sc, later, s)
| k :: rest =>
_ ← check (k =? wrap64 (m_current_sync_gen s + 1));
'(added, s) ← init_flush_new_sync_point s;
_ ← check (k =? m_current_sync_gen s);
current ← m_current_sync_point s;
cur ← sync_point_objs s !! current;
let sc := mkScanState
      (<[k := Some (sp_log_entry cur)]> (sync_point_entries sc))
      (highest_existing_sync_point sc)
      (missing_sync_points sc) in
create_missing rest sc (later ++ added) s
end.

(** The second pass: every write is linked to its sync point, added to
the map and to the dirty entries. *)
Fixpoint link_entries (entries : list nat) (sc : ScanState) (s : RWL)
: option RWL :=
match entries with
| [] => Some s
| log_entry :: rest =>
e ← log_entry_objs s !! log_entry;
s ← (if is_write (ram_entry e) then
 match sync_point_entries sc !! sync_gen_number (ram_entry e) with
 | Some (Some sync_point_entry) =>
     s ← update_log_entry log_entry
           (set_sync_point_entry (Some sync_point_entry)) s;
     s ← update_log_entry sync_point_entry
           (fun p =>
              set_m_writes_completed (m_writes_completed p + 1)
                (set_m_bytes
                   (wrap64 (m_bytes p + write_bytes (ram_entry e)))
                   (set_m_writes (m_writes p + 1) p))) s;
     s ← map_add_log_entry log_entry s;
     let s := set_m_dirty_log_entries
                (m_dirty_log_entries s ++ [log_entry]) s in
     let s := set_m_bytes_dirty
                (m_bytes_dirty s + write_bytes (ram_entry e)) s in
     let bytes_allocated :=
       if MIN_WRITE_ALLOC_SIZE <? write_bytes (ram_entry e)
       then write_bytes (ram_entry e)
       else MIN_WRITE_ALLOC_SIZE in
     let s := set_m_bytes_allocated
                (m_bytes_allocated s + bytes_allocated) s in
     Some (set_m_bytes_cached
             (m_bytes_cached s + write_bytes (ram_entry e)) s)
 | _ => None
 end
 else if is_sync_point (ram_entry e) then Some s
 else None);
link_entries rest sc s
end.

Definition load_existing_entries (s : RWL) : option (list Context * RWL) :=
'(sc, s) ← load_entries (Z.to_nat (m_total_log_entries s))
   (m_first_valid_entry s)
   (mkScanState ∅ None []) s;
'(sc, later, s) ← create_missing (missing_sync_points sc) sc [] s;
s ← link_entries (m_log_entries s) sc s;
Some (later, s).

(** What [rwl_init] finds: no pool file, a pool that cannot be created or
opened, or a pool. *)
Inductive PoolFile :=
| NoPoolFile (create_fails : bool) (commit : bool)
| PoolOpenFails
| PoolOpens (pool : Pool).

(** [rwl_init]; [rwl_size] is the configured size and [errno] the error
number of a failed PMEM call.  The contexts added to [later] are
returned. *)
Definition rwl_init (rwl_size : Z) (file : PoolFile) (errno : Z)
(on_finish : Context) (s : RWL) : option (list Context * RWL) :=
_ ← check (negb (m_initialized s));
let m_log_pool_config_size := Z.max rwl_size MIN_POOL_SIZE in
let effective_pool_size := usable_size m_log_pool_config_size in
let finish_init later s :=
'(added, s) ← init_flush_new_sync_point s;
let s := set_m_initialized true s in
Some (later ++ added, emit (EvComplete on_finish 0) s) in
match file with
| NoPoolFile true _ | PoolOpenFails =>
Some ([], emit (EvComplete on_finish (- errno)) s)
| NoPoolFile false commit =>
let small_write_size :=
MIN_WRITE_ALLOC_SIZE + BLOCK_ALLOC_OVERHEAD_BYTES
+ sizeof_WriteLogPmemEntry in
let num_small_writes := effective_pool_size / small_write_size in
let num_small_writes :=
if MAX_LOG_ENTRIES <? num_small_writes
then MAX_LOG_ENTRIES else num_small_writes in
_ ← check (2 <? num_small_writes);
let s := set_m_bytes_allocated_cap effective_pool_size s in
let s := set_m_first_free_entry 0 s in
let s := set_m_first_valid_entry 0 s in
if commit then
let root := mkPoolRoot RWL_POOL_VERSION m_log_pool_config_size
          MIN_WRITE_ALLOC_SIZE (wrap32 num_small_writes)
          (m_first_free_entry s) (m_first_valid_entry s) in
let pool := mkPool root
          (replicate (Z.to_nat num_small_writes)
                     (mkPmemEntry 0 0 0 0 0 false false false
                                  false false 0))
          ∅ in
let s := set_m_log_pool (Some pool) s in
let s := set_m_total_log_entries (num_log_entries root) s in
let s := set_m_free_log_entries (num_log_entries root - 1) s in
finish_init [] s
else
let pool := mkPool (mkPoolRoot 0 0 0 0 0 0) [] ∅ in
let s := set_m_log_pool (Some pool) s in
let s := set_m_total_log_entries 0 s in
let s := set_m_free_log_entries 0 s in
Some ([], emit (EvComplete on_finish (- errno)) s)
| PoolOpens pool =>
let root := pool_root pool in
let s := set_m_log_pool (Some pool) s in
if negb (layout_version root =? RWL_POOL_VERSION) then
Some ([], emit (EvComplete on_finish (- EINVAL)) s)
else if negb (block_size root =? MIN_WRITE_ALLOC_SIZE) then
Some ([], emit (EvComplete on_finish (- EINVAL)) s)
else
let s := set_m_total_log_entries (num_log_entries root) s in
let s := set_m_first_free_entry (first_free_entry root) s in
let s := set_m_first_valid_entry (first_valid_entry root) s in
let s :=
if m_first_free_entry s <? m_first_valid_entry s then
set_m_free_log_entries
  (m_total_log_entries s
   - (m_first_valid_entry s - m_first_free_entry s) - 1) s
else
set_m_free_log_entries
  (m_total_log_entries s
   - (m_first_free_entry s - m_first_valid_entry s) - 1) s in
let s := set_m_bytes_allocated_cap effective_pool_size s in
'(later, s) ← load_existing_entries s;
finish_init later s
end.

End Recovery.

(** ** Writes *)

Section Writes.
Context `{Constants}.

(** The loop of [dispatch_aio_write] over the extents of the request and
the buffers allocated for them: one operation and one log entry per
extent.  [op_sync_point] is the sync point of the operation set,
[persist_on_flush] its mode, [data] the request's buffer and
[buffer_offset] the position reached in it.  It yields the operations
and their log entries.  The data of an operation is cut out of the
request's buffer by [bufferlist::substr_of], which throws when the
buffer is shorter than the extents say: the loop then does not
return. *)
Fixpoint dispatch_extents (op_sync_point : nat) (persist_on_flush : bool)
(data : list byte) (extents : list Extent)
(allocations : list WriteBufferAllocation) (buffer_offset : Z)
(ops : list GenericLogOperation) (log_entries : list nat) (s : RWL)
: option (list GenericLogOperation * list nat * RWL) :=
match extents with
| [] => Some (ops, log_entries, s)
| extent :: rest =>
allocation ← head allocations;
sp ← sync_point_objs s !! op_sync_point;
(* WriteLogOperation's constructor *)
let log_entry := new_key (log_entry_objs s) in
let e := new_write_log_entry (Some (sp_log_entry sp))
     (fst extent) (snd extent) in
let s := set_log_entry_objs (<[log_entry := e]> (log_entry_objs s)) s in
s ← update_log_entry (sp_log_entry sp)
(fun p => set_m_bytes (wrap64 (m_bytes p + snd extent))
            (set_m_writes (m_writes p + 1) p)) s;
(* the body of the loop *)
_ ← check (negb (buffer_oid allocation =? 0));
let r := ram_entry e in
let r := set_has_data true r in
let r := set_write_data (buffer_oid allocation) r in
let r := set_sync_gen_number (m_current_sync_gen s) r in
let '(r, s) :=
if persist_on_flush then
(set_write_sequence_number 0 r, s)
else
let s := set_m_last_op_sequence_num
         (wrap64 (m_last_op_sequence_num s + 1)) s in
(set_sequenced true
 (set_write_sequence_number (m_last_op_sequence_num s) r), s) in
let r := set_sync_point false r in
let r := set_unmap false r in
s ← update_log_entry log_entry (set_ram_entry r) s;
(* operation->bl.substr_of(write_req->bl, buffer_offset, write_bytes):
   the offset and the length are passed as unsigned, and substr_of
   throws end_of_buffer when they reach beyond the request's buffer *)
let off := wrap32 buffer_offset in
let len := wrap32 (write_bytes r) in
_ ← check (off + len <=? Z.of_nat (length data));
let op_bl := take (Z.to_nat len) (drop (Z.to_nat off) data) in
let operation :=
WriteLogOperation log_entry op_bl (buffer_oid allocation) in
dispatch_extents op_sync_point persist_on_flush data rest
(tail allocations) (wrap64 (buffer_offset + write_bytes r))
(ops ++ [operation]) (log_entries ++ [log_entry]) s
end.

(** The copy of the data of each operation into its PMEM buffer. *)
Fixpoint write_data_buffers (ops : list GenericLogOperation) (pool : Pool)
: Pool :=
match ops with
| [] => pool
| WriteLogOperation _ op_bl buffer :: rest =>
write_data_buffers rest
(set_pool_buffers (<[buffer := op_bl]> (pool_buffers pool)) pool)
| _ :: rest => write_data_buffers rest pool
end.

(** [dispatch_aio_write]. *)
Definition dispatch_aio_write (write_req : nat) (s : RWL) : option RWL :=
q ← request_objs s !! write_req;
let set_complete :=
if use_finishers then OnFinisherCtx write_req else RequestCtx write_req in
current ← m_current_sync_point s;
cur ← sync_point_objs s !! current;
cur_entry ← log_entry_objs s !! sp_log_entry cur;
'(on_exit, s) ←
(if (negb (m_persist_on_flush s)
 && negb (m_writes_completed cur_entry =? 0))
|| (MAX_WRITES_PER_SYNC_POINT <? m_writes cur_entry)
|| (MAX_BYTES_PER_SYNC_POINT <? m_bytes cur_entry)
 then flush_new_sync_point None s
 else Some ([], s));
op_sync_point ← m_current_sync_point s;
let persist_on_flush := m_persist_on_flush s in
_ ← check (m_resources_allocated q);
'(ops, log_entries, s) ←
dispatch_extents op_sync_point persist_on_flush (bl q)
(m_image_extents q) (m_resources_buffers q) 0 [] [] s;
let op_set :=
mkOperationSet persist_on_flush op_sync_point
(summary_block_extent (extents_summary (m_image_extents q)))
set_complete ops in
s ← update_request write_req
(fun q => set_on_finish_ctx (Some (CompleteWriteReqCtx write_req))
        (set_m_op_set (Some op_set) q)) s;
pool ← m_log_pool s;
let s := set_m_log_pool (Some (write_data_buffers ops pool)) s in
s ← map_add_log_entries log_entries s;
s ← (if persist_on_flush then complete_user_request write_req 0 s
 else Some s);
sp ← sync_point_objs s !! op_sync_point;
'(on_exit, s) ←
match earlier_sync_point sp with
| Some earlier =>
if negb persist_on_flush then
s ← update_request write_req (set_m_do_early_flush false) s;
s ← update_sync_point earlier
    (fun e => set_m_on_sync_point_appending
                (m_on_sync_point_appending e
                 ++ [ScheduleAppendCtx write_req]) e) s;
Some (on_exit, s)
else
s ← update_request write_req
    (fun q => set_m_do_early_flush
                (negb (m_detained q || m_deferred q
                       || persist_on_flush)) q) s;
Some (on_exit ++ [ScheduleAppendCtx write_req], s)
| None =>
s ← update_request write_req
  (fun q => set_m_do_early_flush
              (negb (m_detained q || m_deferred q
                     || persist_on_flush)) q) s;
Some (on_exit ++ [ScheduleAppendCtx write_req], s)
end;
finish_deferred on_exit s.

(** [aio_write]: the request is made and handed to the block guard. *)
Definition aio_write (image_extents : list Extent) (data : list byte)
(flags : Z) (on_finish : Context) (s : RWL) : option RWL :=
_ ← check (m_initialized s);
if image_read_only s then
Some (emit (EvComplete on_finish (- EROFS)) s)
else
let write_req := new_key (request_objs s) in
let q := new_request false image_extents data flags on_finish in
let s := set_request_objs (<[write_req := q]> (request_objs s)) s in
Some (emit (EvDetainGuardedRequest
      (summary_block_extent (extents_summary image_extents))
      (GuardedWriteCtx write_req) false) s).

(** The body of the guarded request of [aio_write], run once the block
guard grants [cell]; the allocation and the dispatch that follow are
[alloc_write_resources] and [dispatch_aio_write]. *)
Definition aio_write_guarded (write_req : nat) (cell : nat) (detained : bool)
(s : RWL) : option RWL :=
update_request write_req
(fun q => set_m_cell (Some cell) (set_m_detained detained q)) s.

(** The loop of [aio_writesame] that builds [total_bl]: [pattern] is
appended until [left] is 0.  [fuel] bounds the turns; [None] is an
unfinished loop. *)
Fixpoint writesame_fill (fuel : nat) (left : Z) (pattern total_bl : list byte)
: option (list byte) :=
if left =? 0 then Some total_bl
else
match fuel with
| O => None
| S fuel =>
writesame_fill fuel (wrap64 (left - wrap32 (Z.of_nat (length pattern))))
pattern (total_bl ++ pattern)
end.

(** [aio_writesame].  [data] is the caller's buffer and [data_after] what
is left in it once it has been moved into the call on the image cache
below, which is for that cache to decide. *)
Definition aio_writesame (fuel : nat) (offset length : Z)
(data data_after : list byte) (flags : Z) (on_finish : Context)
(s : RWL) : option RWL :=
_ ← check (m_initialized s);
if image_read_only s then
Some (emit (EvComplete on_finish (- EROFS)) s)
else
let s := emit (EvImageWriteback
         (DsWritesame offset length data flags on_finish)) s in
total_bl ← writesame_fill fuel length data_after [];
_ ← check (length =? wrap32 (Z.of_nat (List.length total_bl)));
aio_write [(offset, length)] total_bl flags on_finish s.

End Writes.

(** ** What the flusher is meant to do *)

Section FlusherSpec.
Context `{Constants}.

(** Eligibility for flushing in the words of the specification: a
completed write, no flush in flight or a sync gen number not above
the lowest one flushing, and in-flight counts below their limits. *)
Definition flushable_as_specified (s : RWL) (e : GenericLogEntry) : Prop :=
is_write (ram_entry e) = true /\ completed e = true /\
(m_flush_ops_in_flight s = 0 \/
 sync_gen_number (ram_entry e) <= m_lowest_flushing_sync_gen s) /\
m_flush_ops_in_flight s < IN_FLIGHT_FLUSH_WRITE_LIMIT /\
m_flush_bytes_in_flight s < IN_FLIGHT_FLUSH_BYTES_LIMIT.

(** Eligibility as the code decides it: everything is flushable while
the cache is invalidating, and the in-flight counts may reach their
limits. *)
Definition flushable_as_coded (s : RWL) (e : GenericLogEntry) : Prop :=
m_invalidating s = true \/
(completed e = true /\
 (m_flush_ops_in_flight s = 0 \/
sync_gen_number (ram_entry e) <= m_lowest_flushing_sync_gen s) /\
 m_flush_ops_in_flight s <= IN_FLIGHT_FLUSH_WRITE_LIMIT /\
 m_flush_bytes_in_flight s <= IN_FLIGHT_FLUSH_BYTES_LIMIT).

End FlusherSpec.

(** ** Sample values *)

(** A choice of the constants, for the examples. *)
Definition sample_constants : Constants := {|
  MIN_WRITE_ALLOC_SIZE := 512;
  BLOCK_ALLOC_OVERHEAD_BYTES := 16;
  MAX_LOG_ENTRIES := 1024;
  MAX_WRITES_PER_SYNC_POINT := 256;
  MAX_BYTES_PER_SYNC_POINT := 8388608;
  MAX_ALLOC_PER_TRANSACTION := 8;
  MAX_FREE_PER_TRANSACTION := 1;
  IN_FLIGHT_FLUSH_WRITE_LIMIT := 8;
  IN_FLIGHT_FLUSH_BYTES_LIMIT := 1048576;
  MIN_POOL_SIZE := 1073741824;
  RWL_POOL_VERSION := 1;
  sizeof_WriteLogPmemEntry := 64;
  usable_size := fun n => 7 * n / 10;
  use_finishers := false
|}.

(** A cache with nothing in it: no pool, no log entry, no sync point, 256
    free lanes. *)
Definition blank_cache : RWL :=
  mkRWL false false None 0 0 0 0 0 0 0 0 256 0 false 0 None 0 false false false
        false 0 0 0 true false false [] [] [] [] [] ∅ ∅ ∅ [].

(** A completed write of [bytes] bytes at [offset], of sync gen [gen], in
    the slot [index] with the data buffer [buffer]. *)
Definition sample_write (offset bytes gen index buffer : Z) : GenericLogEntry :=
  mkLogEntry
    (mkPmemEntry gen 0 offset bytes buffer true false false true false index)
    index true 0 0 0 None 0 0 false false.

(** ** Completion of requests *)

(** A step that only completes requests: it changes the requests, the
    free lanes and the trace, and nothing else. *)
Definition completion_step (s s' : RWL) : Prop :=
  s' = set_trace (trace s')
         (set_m_free_lanes (m_free_lanes s')
            (set_request_objs (request_objs s') s)).

(** Several attempts, one after the other, to complete the user request
    of [req], with the results [attempts]. *)
Fixpoint complete_user_requests (req : nat) (attempts : list Z) (s : RWL)
  : option RWL :=
  match attempts with
  | [] => Some s
  | r :: rest =>
      s ← complete_user_request req r s;
      complete_user_requests req rest s
  end.

(** ** What recovery is meant to find *)





(** ** The chain of sync points *)

(** The sync points reached from [prev] by following the
    [earlier_sync_point] links, in the order they are reached. *)
Inductive earlier_chain (objs : gmap nat SyncPoint)
  : option nat -> list nat -> Prop :=
| earlier_chain_end : earlier_chain objs None []
| earlier_chain_step p sp l :
    objs !! p = Some sp ->
    earlier_chain objs (earlier_sync_point sp) l ->
    earlier_chain objs (Some p) (p :: l).

(** ** What the ring accounting is meant to keep *)

Section RingSpec.
Context `{Constants}.

(** The number of slots in use: from [m_first_valid_entry] up to
[m_first_free_entry], around the ring. *)
Definition ring_used (s : RWL) : Z :=
(m_first_free_entry s - m_first_valid_entry s) mod m_total_log_entries s.

(** The accounting equation of the specification. *)
Definition ring_invariant_as_specified (s : RWL) : Prop :=
m_free_log_entries s + ring_used s = m_total_log_entries s - 1.

(** The accounting the code keeps.  [reserved] is the number of log
entries that requests have reserved ([alloc_write_resources],
[alloc_flush_resources]) and that [alloc_op_log_entries] has not yet
given a slot. *)
Definition ring_ok (s : RWL) (reserved : Z) : Prop :=
2 < m_total_log_entries s <= 2 ^ 32 /\
0 <= m_first_valid_entry s < m_total_log_entries s /\
0 <= m_first_free_entry s < m_total_log_entries s /\
0 <= m_free_log_entries s /\ 0 <= reserved /\
Z.of_nat (length (m_log_entries s)) = ring_used s /\
m_free_log_entries s + reserved + ring_used s = m_total_log_entries s - 1.

(** A step that leaves the ring alone. *)
Definition ring_same (s s' : RWL) : Prop :=
m_total_log_entries s' = m_total_log_entries s /\
m_first_valid_entry s' = m_first_valid_entry s /\
m_first_free_entry s' = m_first_free_entry s /\
m_free_log_entries s' = m_free_log_entries s /\
m_log_entries s' = m_log_entries s.

(** The states the cache reaches, with the number of reservations that
are outstanding: from the creation or the re-opening of a pool, by
reservations, by slot allocation for a batch of operations that hold
reservations, by retirement, and by steps that leave the ring
alone.  The re-opened pools are those whose valid entries do not wrap
around the end of the ring. *)
Inductive ring_reach : RWL -> Z -> Prop :=
| reach_create rwl_size errno on_finish s0 later s :
m_log_entries s0 = [] ->
rwl_init rwl_size (NoPoolFile false true) errno on_finish s0
= Some (later, s) ->
ring_reach s 0
| reach_open rwl_size pool errno on_finish s0 later s :
m_log_entries s0 = [] ->
0 <= first_valid_entry (pool_root pool) <= first_free_entry (pool_root pool) ->
first_free_entry (pool_root pool) < num_log_entries (pool_root pool) ->
2 < num_log_entries (pool_root pool) <= 2 ^ 32 ->
rwl_init rwl_size (PoolOpens pool) errno on_finish s0 = Some (later, s) ->
m_initialized s = true ->
ring_reach s 0
| reach_alloc_write s reserved write_req oids q ok s' :
ring_reach s reserved ->
request_objs s !! write_req = Some q ->
alloc_write_resources write_req oids s = Some (ok, s') ->
ring_reach s'
(if ok then reserved + Z.of_nat (length (m_image_extents q))
 else reserved)
| reach_alloc_flush s reserved flush_req ok s' :
ring_reach s reserved ->
alloc_flush_resources flush_req s = Some (ok, s') ->
ring_reach s' (if ok then reserved + 1 else reserved)
| reach_alloc_slots s reserved ops s' :
ring_reach s reserved ->
Z.of_nat (length ops) <= reserved ->
alloc_op_log_entries ops s = Some s' ->
ring_reach s' (reserved - Z.of_nat (length ops))
| reach_retire s reserved frees_per_tx commit b retired s' :
ring_reach s reserved ->
retire_entries frees_per_tx commit s = Some (b, retired, s') ->
ring_reach s' reserved
| reach_other s reserved s' :
ring_reach s reserved ->
ring_same s s' ->
ring_reach s' reserved.

End RingSpec.

(** A cache that is invalidating, holding a write that is not completed. *)
Definition invalidating_cache : RWL :=
  set_m_invalidating true
    (set_log_entry_objs
       {[ 0%nat := set_completed false (sample_write 0 512 1 0 7) ]}
       blank_cache).

(** A cache with as many flushes in flight as the limit allows, holding a
    completed write of the sync gen that is flushing. *)
Definition cache_at_flush_limit : RWL :=
  set_m_flush_ops_in_flight 8
    (set_m_lowest_flushing_sync_gen 1
       (set_log_entry_objs {[ 0%nat := sample_write 0 512 1 0 7 ]} blank_cache)).

(** The cache after the creation of its pool, with the sample constants. *)
Definition created_cache : RWL :=
  default blank_cache
    (snd <$> rwl_init (H := sample_constants) 0 (NoPoolFile false true) 0
               (CallerCtx 0) blank_cache).

(** One write of [bytes] bytes (zeros) at [offset]: the request is made,
    granted the guard cell [cell], allocated the buffer [oid] and
    dispatched.  The result is the request and the new state. *)
Definition sample_write_request (offset bytes : Z) (cell : nat) (oid : Z)
    (s : RWL) : option (nat * RWL) :=
  let write_req := new_key (request_objs s) in
  s ← aio_write [(offset, bytes)] (replicate (Z.to_nat bytes) x00) 0
        (CallerCtx cell) s;
  s ← aio_write_guarded write_req cell false s;
  '(ok, s) ← alloc_write_resources (H := sample_constants) write_req [oid] s;
  _ ← check ok;
  s ← dispatch_aio_write (H := sample_constants) write_req s;
  Some (write_req, s).

(** Two writes are dispatched, each holding the log entry it reserved,
    and the append batch of the first one alone is given its slot. *)
Definition two_reservations_one_slot : option RWL :=
  '(w1, s) ← sample_write_request 0 512 1 100 created_cache;
  '(w2, s) ← sample_write_request 4096 512 2 101 s;
  q ← request_objs s !! w1;
  op_set ← m_op_set q;
  alloc_op_log_entries (operations op_set) s.

(** A pool whose valid entries wrap around the end of the ring: of its 4
    slots, the slots 1, 2 and 3 hold sync points (first valid 1, first
    free 0), so that no slot is free. *)
Definition wrapped_pool : Pool :=
  mkPool (mkPoolRoot 1 1073741824 512 4 0 1)
         [mkPmemEntry 0 0 0 0 0 false false false false false 0;
          mkPmemEntry 1 0 0 0 0 true true false false false 1;
          mkPmemEntry 2 0 0 0 0 true true false false false 2;
          mkPmemEntry 3 0 0 0 0 true true false false false 3]
         ∅.

(** A store with two writes, the first of the blocks 0 to 4095 and in the
    map, the second of the blocks 1024 to 1535, strictly inside the first. *)
Definition sample_log_entries : LogEntries :=
  {[ 0%nat := set_referring_map_entries 1 (sample_write 0 4096 1 0 7);
     1%nat := sample_write 1024 512 1 1 8 ]}.

Definition sample_map : list WriteLogMapEntry :=
  [mkMapEntry (mkBlockExtent 0 4095) (Some 0%nat)].

(** A cache whose log holds the two writes of [sample_log_entries], both
    flushed, the first one in the map, in a pool of 8 slots with their
    buffers. *)
Definition retirable_cache : RWL :=
  set_m_log_pool
    (Some (mkPool (mkPoolRoot 1 1073741824 512 8 2 0) []
                  {[ 7 := []; 8 := [] ]}))
    (set_m_total_log_entries 8
       (set_m_free_log_entries 5
          (set_m_first_free_entry 2
             (set_m_bytes_cached 4608
                (set_m_bytes_allocated 4608
                   (set_m_log_entries [0%nat; 1%nat]
                      (set_m_blocks_to_log_entries sample_map
                         (set_log_entry_objs
                            (set_flushed true <$> sample_log_entries)
                            blank_cache)))))))).

(** The cache [retirable_cache] after a call of [retire_entries] that may
    free 8 entries. *)
Definition retired_cache : RWL :=
  default retirable_cache
    (snd <$> retire_entries (H := sample_constants) 8 true retirable_cache).

(** The cache after its creation and one write of 512 bytes at offset 0,
    dispatched and not yet appended. *)
Definition written_cache : RWL :=
  default blank_cache (snd <$> sample_write_request 0 512 1 100 created_cache).

(** A pool whose log holds two writes, of the sync gens 1 and 2, and no
    sync point: of its 4 slots, the slots 0 and 1 are in use. *)
Definition unsynced_pool : Pool :=
  mkPool (mkPoolRoot 1 1073741824 512 4 2 0)
         [mkPmemEntry 1 0 0 512 100 true false false true false 0;
          mkPmemEntry 2 0 4096 512 101 true false false true false 1;
          mkPmemEntry 0 0 0 0 0 false false false false false 0;
          mkPmemEntry 0 0 0 0 0 false false false false false 0]
         {[ 100 := []; 101 := [] ]}.

(** The cache after the re-opening of [unsynced_pool]. *)
Definition reopened_cache : RWL :=
  default blank_cache
    (snd <$> rwl_init (H := sample_constants) 0 (PoolOpens unsynced_pool) 0
               (CallerCtx 0) blank_cache).

(** The cache after its creation, with one write of 512 bytes at offset 0
    made, granted its guard cell and its resources, and not yet
    dispatched; the request is 0. *)
Definition allocated_cache : RWL :=
  default blank_cache
    (s ← aio_write [(0, 512)] (replicate 512 x00) 0 (CallerCtx 1)
           created_cache;
     s ← aio_write_guarded 0 1 false s;
     '(ok, s) ← alloc_write_resources (H := sample_constants) 0 [100] s;
     Some s).

(** The same in persist-on-flush mode. *)
Definition allocated_cache_on_flush : RWL :=
  set_m_persist_on_flush true allocated_cache.

(** ** What writesame is meant to do *)



(** ** Further code of the write-log map and its callers *)

(** [WriteLogMap::remove_log_entries]: the entries are removed one after
    the other. *)
Fixpoint remove_log_entries (log_entries : list nat) (st : WriteLogMap.state)
  : option WriteLogMap.state :=
  match log_entries with
  | [] => Some st
  | le :: rest =>
      st' ← WriteLogMap.remove_log_entry_locked le st;
      remove_log_entries rest st'
  end.

(** The part of [shut_down] that empties the log, under [m_lock]: the
    dirty list is empty, every write of [m_log_entries] is taken out of
    the map and must be left without map entry, reader or flush, and
    [m_log_entries] is cleared. *)
Fixpoint shut_down_remove (entries : list nat) (s : RWL) : option RWL :=
  match entries with
  | [] => Some s
  | entry :: rest =>
      e ← log_entry_objs s !! entry;
      s ← (if is_write (ram_entry e) then
             s ← map_remove_log_entry entry s;
             w ← log_entry_objs s !! entry;
             _ ← check (referring_map_entries w =? 0);
             _ ← check (reader_count w =? 0);
             _ ← check (negb (flushing w));
             Some s
           else Some s);
      shut_down_remove rest s
  end.

Definition shut_down_clear_log (s : RWL) : option RWL :=
  _ ← check (length (m_dirty_log_entries s) =? 0)%nat;
  s ← shut_down_remove (m_log_entries s) s;
  Some (set_m_log_entries [] s).

(** ** Reads *)

(** A buffer made by [buffer::claim_buffer] over the data buffer of a log
    entry: its length, the log entry (held as a reader until the buffer is
    deleted) and the offset into the entry's data buffer. *)
Record HitBuf := mkHitBuf {
  hit_length : Z;
  hit_log_entry : nat;
  hit_offset : Z
}.

(** [ImageExtentBuf]: an extent of a read with, for a hit, its buffer. *)
Record ImageExtentBuf := mkImageExtentBuf {
  ieb_extent : Extent;
  m_buf : option HitBuf
}.

Record C_ReadRequest := mkReadRequest {
  m_on_finish : Context;
  m_miss_extents : list Extent;
  m_read_extents : list ImageExtentBuf
}.

(** What [aio_read] ends with: the read was completed in place, with the
    bytes put in the caller's buffer, or the misses are passed to the image
    cache below, with the read request as completion. *)
Inductive ReadResult :=
| ReadDone (out_bl : list byte)
| ReadBelow (read_ctx : C_ReadRequest) (miss_extents : list Extent)
            (fadvise_flags : Z).

(** The body of the loop of [aio_read] over the map entries that overlap
    [extent]; [extent_offset] is the part of the extent dealt with, and
    [miss_extents], [read_extents] are the lists of the read request. *)
Definition read_map_entry (extent : Extent) (entry : WriteLogMapEntry)
    (extent_offset : Z) (miss_extents : list Extent)
    (read_extents : list ImageExtentBuf) (s : RWL)
  : option (Z * list Extent * list ImageExtentBuf * RWL) :=
  let entry_image_extent := image_extent (me_block_extent entry) in
  let '(extent_offset, miss_extents, read_extents) :=
    if wrap64 (fst extent + extent_offset) <? fst entry_image_extent then
      let miss_extent_start := wrap64 (fst extent + extent_offset) in
      let miss_extent_length :=
        wrap64 (fst entry_image_extent - miss_extent_start) in
      let miss_extent := (miss_extent_start, miss_extent_length) in
      (wrap64 (extent_offset + miss_extent_length),
       miss_extents ++ [miss_extent],
       read_extents ++ [mkImageExtentBuf miss_extent None])
    else (extent_offset, miss_extents, read_extents) in
  _ ← check (fst entry_image_extent <=? wrap64 (fst extent + extent_offset));
  let entry_offset :=
    if fst entry_image_extent <? wrap64 (fst extent + extent_offset)
    then wrap64 (wrap64 (fst extent + extent_offset) - fst entry_image_extent)
    else 0 in
  let entry_hit_length :=
    Z.min (wrap64 (snd entry_image_extent - entry_offset))
          (wrap64 (snd extent - extent_offset)) in
  let hit_extent := (fst entry_image_extent, entry_hit_length) in
  log_entry ← me_log_entry entry;
  le ← log_entry_objs s !! log_entry;
  let map_entry_buffer_offset :=
    wrap64 (fst entry_image_extent - image_offset_bytes (ram_entry le)) in
  let read_buffer_offset := wrap64 (map_entry_buffer_offset + entry_offset) in
  s ← update_log_entry log_entry
        (fun e => set_reader_count (reader_count e + 1) e) s;
  let hit_buf := mkHitBuf entry_hit_length log_entry read_buffer_offset in
  Some (wrap64 (extent_offset + entry_hit_length), miss_extents,
        read_extents ++ [mkImageExtentBuf hit_extent (Some hit_buf)], s).

Fixpoint read_map_entries (extent : Extent) (map_entries : list WriteLogMapEntry)
    (extent_offset : Z) (miss_extents : list Extent)
    (read_extents : list ImageExtentBuf) (s : RWL)
  : option (Z * list Extent * list ImageExtentBuf * RWL) :=
  match map_entries with
  | [] => Some (extent_offset, miss_extents, read_extents, s)
  | entry :: rest =>
      '(extent_offset, miss_extents, read_extents, s) ←
        read_map_entry extent entry extent_offset miss_extents read_extents s;
      read_map_entries extent rest extent_offset miss_extents read_extents s
  end.

(** One turn of the loop of [aio_read] over the extents of the read. *)
Definition read_extent (extent : Extent) (miss_extents : list Extent)
    (read_extents : list ImageExtentBuf) (s : RWL)
  : option (list Extent * list ImageExtentBuf * RWL) :=
  let map_entries :=
    WriteLogMap.find_map_entries_locked (block_extent_of extent)
      (m_blocks_to_log_entries s) in
  '(extent_offset, miss_extents, read_extents, s) ←
    read_map_entries extent map_entries 0 miss_extents read_extents s;
  if extent_offset <? snd extent then
    let miss_extent_start := wrap64 (fst extent + extent_offset) in
    let miss_extent_length := wrap64 (snd extent - extent_offset) in
    let miss_extent := (miss_extent_start, miss_extent_length) in
    Some (miss_extents ++ [miss_extent],
          read_extents ++ [mkImageExtentBuf miss_extent None], s)
  else Some (miss_extents, read_extents, s).

Fixpoint read_extents (image_extents : list Extent) (miss_extents : list Extent)
    (read_extents_ : list ImageExtentBuf) (s : RWL)
  : option (list Extent * list ImageExtentBuf * RWL) :=
  match image_extents with
  | [] => Some (miss_extents, read_extents_, s)
  | extent :: rest =>
      '(miss_extents, read_extents_, s) ←
        read_extent extent miss_extents read_extents_ s;
      read_extents rest miss_extents read_extents_ s
  end.

(** The deleter of a hit buffer: [remove_reader]. *)
Definition release_hit_buf (buf : HitBuf) (s : RWL) : option RWL :=
  update_log_entry (hit_log_entry buf)
    (fun e => set_reader_count (reader_count e - 1) e) s.

(** The loop of [C_ReadRequest::finish]: the output is put together from
    the hit buffers, which refer to the data buffers of their log entries,
    and from the pieces of [m_miss_bl], taken in their order.  Reading
    beyond a buffer is an error.  A hit buffer of length 0 is left out by
    [bufferlist::append] and deleted on the spot: its deleter runs here,
    and takes the reader off the log entry. *)
Fixpoint read_assemble (read_extents : list ImageExtentBuf)
    (miss_bl : list byte) (miss_bl_offset : Z) (out_bl : list byte) (s : RWL)
  : option (list byte * RWL) :=
  match read_extents with
  | [] => Some (out_bl, s)
  | extent :: rest =>
      match m_buf extent with
      | Some buf =>
          if hit_length buf =? 0 then
            s ← release_hit_buf buf s;
            read_assemble rest miss_bl miss_bl_offset out_bl s
          else
            le ← log_entry_objs s !! hit_log_entry buf;
            pool ← m_log_pool s;
            data ← pool_buffers pool !! write_data (ram_entry le);
            _ ← check (hit_offset buf + hit_length buf
                       <=? Z.of_nat (length data));
            read_assemble rest miss_bl miss_bl_offset
              (out_bl ++ take (Z.to_nat (hit_length buf))
                           (drop (Z.to_nat (hit_offset buf)) data)) s
      | None =>
          _ ← check (miss_bl_offset + snd (ieb_extent extent)
                     <=? Z.of_nat (length miss_bl));
          read_assemble rest miss_bl
            (wrap64 (miss_bl_offset + snd (ieb_extent extent)))
            (out_bl ++ take (Z.to_nat (snd (ieb_extent extent)))
                         (drop (Z.to_nat miss_bl_offset) miss_bl)) s
      end
  end.

(** [C_ReadRequest::finish]: the output and the completion of the
    caller.  When the read below failed the hit buffers are not put in the
    output, and nothing deletes them. *)
Definition read_finish (read_ctx : C_ReadRequest) (miss_bl : list byte)
    (r : Z) (s : RWL) : option (list byte * RWL) :=
  '(out_bl, s) ← (if 0 <=? r
                  then read_assemble (m_read_extents read_ctx) miss_bl 0 [] s
                  else Some ([], s));
  Some (out_bl, emit (EvComplete (m_on_finish read_ctx) r) s).

(** [aio_read]. *)
Definition aio_read (image_extents : list Extent) (fadvise_flags : Z)
    (on_finish : Context) (s : RWL) : option (ReadResult * RWL) :=
  _ ← check (m_initialized s);
  '(miss_extents, read_extents_, s) ← read_extents image_extents [] [] s;
  let read_ctx := mkReadRequest on_finish miss_extents read_extents_ in
  match miss_extents with
  | [] =>
      '(out_bl, s) ← read_finish read_ctx [] 0 s;
      Some (ReadDone out_bl, s)
  | _ => Some (ReadBelow read_ctx miss_extents fadvise_flags, s)
  end.

(** ** What a read is meant to return *)

(** The map entry [e] holds the image byte at [pos]. *)
Definition covers (pos : Z) (e : WriteLogMapEntry) : bool :=
  (block_start (me_block_extent e) <=? pos)
  && (pos <=? block_end (me_block_extent e)).

(** The byte the cache holds for the image position [pos]: that of the
    data buffer of the log entry the map gives for [pos]. *)
Definition cached_byte (s : RWL) (pos : Z) : option byte :=
  me ← List.find (covers pos) (m_blocks_to_log_entries s);
  i ← me_log_entry me;
  w ← log_entry_objs s !! i;
  pool ← m_log_pool s;
  data ← pool_buffers pool !! write_data (ram_entry w);
  data !! Z.to_nat (pos - image_offset_bytes (ram_entry w)).

(** The image as seen through the cache, [below] being the image as the
    layer below has it. *)
Definition image_byte (s : RWL) (below : Z -> byte) (pos : Z) : byte :=
  default (below pos) (cached_byte s pos).

Fixpoint image_bytes (byte_at : Z -> byte) (pos : Z) (n : nat) : list byte :=
  match n with
  | O => []
  | S n => byte_at pos :: image_bytes byte_at (pos + 1) n
  end.

Definition extent_bytes (byte_at : Z -> byte) (extent : Extent) : list byte :=
  image_bytes byte_at (fst extent) (Z.to_nat (snd extent)).

(** The bytes of a list of extents, one extent after the other. *)
Definition extents_image (byte_at : Z -> byte) (image_extents : list Extent)
  : list byte :=
  concat (extent_bytes byte_at <$> image_extents).

(** The map entry [me] lies within the bytes of a write entry of the
    store whose data buffer is in the pool, with the length of the
    write. *)
Definition entry_readable (h : LogEntries) (log_pool : option Pool)
    (me : WriteLogMapEntry) : Prop :=
  exists i w pool data,
    me_log_entry me = Some i /\ h !! i = Some w /\
    0 <= image_offset_bytes (ram_entry w) /\
    image_offset_bytes (ram_entry w) <= block_start (me_block_extent me) /\
    block_end (me_block_extent me)
      < image_offset_bytes (ram_entry w) + write_bytes (ram_entry w) /\
    image_offset_bytes (ram_entry w) + write_bytes (ram_entry w) <= 2 ^ 64 /\
    write_bytes (ram_entry w) < 2 ^ 64 /\
    log_pool = Some pool /\
    pool_buffers pool !! write_data (ram_entry w) = Some data /\
    Z.of_nat (length data) = write_bytes (ram_entry w).

Definition map_readable (s : RWL) : Prop :=
  Forall (entry_readable (log_entry_objs s) (m_log_pool s))
         (m_blocks_to_log_entries s).

(** A range of the image that is not empty and ends within the 64-bit
    space. *)
Definition extent_proper (extent : Extent) : Prop :=
  0 <= fst extent /\ 0 < snd extent < 2 ^ 64 /\
  fst extent + snd extent <= 2 ^ 64.

(** [d] more readers of a log entry. *)
Definition add_readers (d : Z) (e : GenericLogEntry) : GenericLogEntry :=
  set_reader_count (reader_count e + d) e.

(** The number of hits on the log entry [j] among the pieces of a read. *)
Definition hits_on (j : nat) (pieces : list ImageExtentBuf) : Z :=
  Z.of_nat (length (filter (fun p => hit_log_entry <$> m_buf p = Some j)
                      pieces)).

(** The misses among the pieces of a read. *)
Definition miss_extents_of (pieces : list ImageExtentBuf) : list Extent :=
  omap (fun p => match m_buf p with
                 | None => Some (ieb_extent p)
                 | Some _ => None
                 end) pieces.

(** The piece [p] of a read is right for the image position [pos]: a miss
    names the range from [pos] on, of which the map holds nothing; a hit
    has the length of its buffer, which is read from the log entry that
    the map gives for the range, at the place of [pos] in the entry's data
    buffer. *)
Definition piece_ok (m : list WriteLogMapEntry) (h : LogEntries) (pos : Z)
    (p : ImageExtentBuf) : Prop :=
  0 < snd (ieb_extent p) /\
  match m_buf p with
  | None =>
      fst (ieb_extent p) = pos /\
      forall e, e ∈ m ->
        block_end (me_block_extent e) < pos \/
        pos + snd (ieb_extent p) <= block_start (me_block_extent e)
  | Some buf =>
      hit_length buf = snd (ieb_extent p) /\
      exists e w,
        e ∈ m /\ me_log_entry e = Some (hit_log_entry buf) /\
        h !! hit_log_entry buf = Some w /\
        block_start (me_block_extent e) <= pos /\
        pos + snd (ieb_extent p) - 1 <= block_end (me_block_extent e) /\
        hit_offset buf = pos - image_offset_bytes (ram_entry w)
  end.

(** The pieces cover the image from [pos] up to [stop], one after the
    other. *)
Fixpoint read_tiling (m : list WriteLogMapEntry) (h : LogEntries) (pos : Z)
    (pieces : list ImageExtentBuf) (stop : Z) : Prop :=
  match pieces with
  | [] => pos = stop
  | p :: rest =>
      piece_ok m h pos p /\
      read_tiling m h (pos + snd (ieb_extent p)) rest stop
  end.

(** The pieces cover the extents of a read, in their order. *)
Fixpoint read_tilings (m : list WriteLogMapEntry) (h : LogEntries)
    (image_extents : list Extent) (pieces : list ImageExtentBuf) : Prop :=
  match image_extents with
  | [] => pieces = []
  | extent :: rest =>
      exists p1 p2,
        pieces = p1 ++ p2 /\
        read_tiling m h (fst extent) p1 (fst extent + snd extent) /\
        read_tilings m h rest p2
  end.

(** The number of bytes of a list of extents. *)
Definition extents_bytes (image_extents : list Extent) : Z :=
  foldr (fun extent n => snd extent + n) 0 image_extents.

(** Two stores differ in the reader counts only. *)
Definition readers_differ (h h' : LogEntries) : Prop :=
  forall j : nat, exists d, h' !! j = add_readers d <$> h !! j.


(** An initialized cache that holds one write of the four bytes 1, 2, 3, 4
    at the image offset 4096, in the map and with its data buffer. *)
Definition cache_with_data : RWL :=
  set_m_initialized true
    (set_m_log_pool
       (Some (mkPool (mkPoolRoot 1 1073741824 512 8 1 0) []
                {[ 7 := ["001"; "002"; "003"; "004"]%byte ]}))
       (set_m_blocks_to_log_entries
          [mkMapEntry (mkBlockExtent 4096 4099) (Some 0%nat)]
          (set_log_entry_objs
             {[ 0%nat := set_referring_map_entries 1 (sample_write 4096 4 1 0 7) ]}
             blank_cache))).


(** The bytes of the log entries [ids], as the store has them. *)
Definition entries_bytes (h : LogEntries) (ids : list nat) : Z :=
  foldr (fun id n =>
           from_option (fun e => write_bytes (ram_entry e)) 0 (h !! id) + n)
        0 ids.

(** A cache with two completed writes of 512 bytes, both dirty. *)
Definition dirty_cache : RWL :=
  set_m_dirty_log_entries [0%nat; 1%nat]
    (set_m_bytes_dirty 1024
       (set_log_entry_objs
          {[ 0%nat := sample_write 0 512 1 0 7;
             1%nat := sample_write 4096 512 1 1 8 ]}
          blank_cache)).

(** The cache after its creation, with one write of 512 bytes at offset 0
    made and granted its guard cell, before any resource is allocated;
    the request is 0. *)
Definition requested_cache : RWL :=
  default blank_cache
    (s ← aio_write [(0, 512)] (replicate 512 x00) 0 (CallerCtx 1)
           created_cache;
     aio_write_guarded 0 1 false s).

(** ** What recovery is meant to load *)

(** The slots of the ring that are in use: from [first_valid_entry] up to
    [first_free_entry], around the end of the ring. *)
Definition valid_slots (root : WriteLogPoolRoot) : list Z :=
  (fun k => (first_valid_entry root + Z.of_nat k) mod num_log_entries root)
    <$> seq 0 (Z.to_nat ((first_free_entry root - first_valid_entry root)
                          mod num_log_entries root)).

(** The sync gen number of the last sync point among [records], and [c]
    when there is none. *)
Definition last_sync_gen (c : Z) (records : list WriteLogPmemEntry) : Z :=
  foldl (fun c r => if is_sync_point r then sync_gen_number r else c)
        c records.

(** A write among [records] refers to the sync gen number [g]; a sync point
    among them has it. *)
Definition record_refers (records : list WriteLogPmemEntry) (g : Z) : Prop :=
  exists r, r ∈ records /\ is_write r = true /\ sync_gen_number r = g.

Definition record_syncs (records : list WriteLogPmemEntry) (g : Z) : Prop :=
  exists r, r ∈ records /\ is_sync_point r = true /\ sync_gen_number r = g.

Section RecoverySpec.
Context `{Constants}.

(** A pool that [rwl_init] can load, for a cache whose sync gen number is
    [c]: the root is of this version, its indices are within the ring,
    [records] are the records of the slots in use, each with its own
    index, a sync point or a write of a range that is not empty; every
    record that follows a sync point has a greater sync gen number; and
    [missing], the sync gen numbers that a write refers to and no sync
    point has, in ascending order, are the numbers that follow the sync
    gen number of the last sync point. *)
Record log_recoverable (c : Z) (pool : Pool)
    (records : list WriteLogPmemEntry) (missing : list Z) : Prop :=
  mk_log_recoverable {
  lr_version : layout_version (pool_root pool) = RWL_POOL_VERSION;
  lr_block_size : block_size (pool_root pool) = MIN_WRITE_ALLOC_SIZE;
  lr_slots : 2 < num_log_entries (pool_root pool) <= 2 ^ 32;
  lr_first_valid :
    0 <= first_valid_entry (pool_root pool) < num_log_entries (pool_root pool);
  lr_first_free :
    0 <= first_free_entry (pool_root pool) < num_log_entries (pool_root pool);
  lr_records :
    Forall2 (fun i r => pool_log_entries pool !! Z.to_nat i = Some r /\
                        entry_index r = i)
            (valid_slots (pool_root pool)) records;
  lr_kinds :
    Forall (fun r => is_u64 (sync_gen_number r) /\
                     (is_sync_point r = true \/
                      is_write r = true /\
                      WriteLogMapSpec.extent_ok (pmem_block_extent r)))
           records;
  lr_order :
    forall (a b : nat) ra rb,
      (a < b)%nat -> records !! a = Some ra -> records !! b = Some rb ->
      is_sync_point ra = true -> sync_gen_number ra < sync_gen_number rb;
  lr_gen : is_u64 c;
  lr_missing_sorted : StronglySorted Z.lt missing;
  lr_missing :
    forall g, g ∈ missing <->
              record_refers records g /\ ~ record_syncs records g;
  lr_consecutive :
    forall (k : nat) g,
      missing !! k = Some g -> g = last_sync_gen c records + 1 + Z.of_nat k
}.

End RecoverySpec.

(** The current sync point, if any, heads a chain of earlier sync points
    that are all scheduled for append. *)
Definition sync_points_chained (s : RWL) : Prop :=
  forall current, m_current_sync_point s = Some current ->
    exists chain,
      earlier_chain (sync_point_objs s) (Some current) (current :: chain) /\
      forall p sp, p ∈ chain -> sync_point_objs s !! p = Some sp ->
                   m_append_scheduled sp = true.

(** A pool whose log holds a sync point of the sync gen 1 followed by a
    write of the sync gen 3: the sync gen 3 has no sync point, and does not
    follow the sync gen 1. *)
Definition gap_pool : Pool :=
  mkPool (mkPoolRoot 1 1073741824 512 4 2 0)
         [mkPmemEntry 1 0 0 0 0 true true false false false 0;
          mkPmemEntry 3 0 4096 512 101 true false false true false 1;
          mkPmemEntry 0 0 0 0 0 false false false false false 0;
          mkPmemEntry 0 0 0 0 0 false false false false false 0]
         {[ 101 := [] ]}.

(* ================================================================= *)
(** * Properties *)

Lemma wrap64_id z : is_u64 z -> wrap64 z = z.
Proof. intros H. unfold wrap64. apply Z.mod_small. exact H. Qed.

Lemma check_Some b u : check b = Some u <-> b = true.
Proof. destruct b, u; simpl; split; congruence. Qed.

Section WriteLogMapFacts.
Import WriteLogMap WriteLogMapSpec.

Implicit Types (m l : list WriteLogMapEntry) (e x k : WriteLogMapEntry).
Implicit Types (h : LogEntries).

Local Abbreviation ext := me_block_extent.

Lemma compare_spec a b :
WriteLogMapEntryCompare a b = true <-> entry_lt a b.
Proof. unfold WriteLogMapEntryCompare, entry_lt. apply Z.ltb_lt. Qed.

Lemma compare_false a b :
WriteLogMapEntryCompare a b = false <-> ~ entry_lt a b.
Proof. rewrite <- compare_spec. destruct (WriteLogMapEntryCompare a b); split; congruence. Qed.

Lemma overlapsb_spec a b : overlapsb a b = true <-> overlaps a b.
Proof. unfold overlapsb, overlaps. rewrite andb_true_iff, !Z.leb_le. tauto. Qed.

Lemma map_wf_nil : map_wf [].
Proof. split; constructor. Qed.

Lemma map_wf_cons e m :
map_wf (e :: m) <->
extent_ok (ext e) /\ Forall (entry_lt e) m /\ map_wf m.
Proof.
unfold map_wf. split.
- intros [Hs Hf]. inversion Hs; subst. inversion Hf; subst. tauto.
- intros (He & Hlt & Hs & Hf). split; constructor; assumption.
Qed.

(** Sorted sets have no overlapping entries. *)
Lemma map_wf_no_overlap m : map_wf m -> no_overlap m.
Proof.
induction m as [|e m IH]; intros Hwf i j a b Hij Hi Hj.
- rewrite lookup_nil in Hi. discriminate.
- apply map_wf_cons in Hwf as (He & Hlt & Hwf).
rewrite Forall_forall in Hlt.
assert (Hok : forall c, c ∈ m -> extent_ok (ext c)).
{ destruct Hwf as [_ Hf]. rewrite Forall_forall in Hf.
intros c Hc. apply Hf. exact Hc. }
destruct i as [|i], j as [|j]; simpl in *.
+ congruence.
+ injection Hi as <-. 
assert (Hb : b ∈ m) by (eapply list_elem_of_lookup_2; eauto).
specialize (Hlt b Hb). specialize (Hok b Hb).
unfold entry_lt, overlaps, extent_ok in *. lia.
+ injection Hj as <-.
assert (Ha : a ∈ m) by (eapply list_elem_of_lookup_2; eauto).
specialize (Hlt a Ha). specialize (Hok a Ha).
unfold entry_lt, overlaps, extent_ok in *. lia.
+ apply (IH Hwf i j a b); [congruence | assumption | assumption].
Qed.

End WriteLogMapFacts.

Section WriteLogMapSet.
Import WriteLogMap WriteLogMapSpec.

Implicit Types (m l : list WriteLogMapEntry) (e x k : WriteLogMapEntry).
Implicit Types (h : LogEntries).

Local Abbreviation ext := me_block_extent.

Lemma map_wf_elem m e : map_wf m -> e ∈ m -> extent_ok (ext e).
Proof. intros [_ Hf] He. rewrite Forall_forall in Hf. auto. Qed.

Lemma compare_irrefl e : extent_ok (ext e) -> WriteLogMapEntryCompare e e = false.
Proof.
intros (? & ? & ?). apply compare_false. unfold entry_lt. lia.
Qed.

(** [find] of an element of the set yields its position. *)
Lemma set_find_cons_lt e0 e m :
WriteLogMapEntryCompare e0 e = true ->
set_find e (e0 :: m) = S <$> set_find e m.
Proof.
intros Hc. unfold set_find. simpl. rewrite Hc. simpl.
destruct (m !! lower_bound e m) as [e'|]; [|reflexivity].
destruct (WriteLogMapEntryCompare e e'); reflexivity.
Qed.

Lemma set_find_wf m (i : nat) e :
map_wf m -> m !! i = Some e -> set_find e m = Some i.
Proof.
revert i. induction m as [|e0 m IH]; intros i Hwf Hi.
- rewrite lookup_nil in Hi. discriminate.
- apply map_wf_cons in Hwf as (He0 & Hlt & Hwf).
destruct i as [|i]; simpl in Hi.
+ injection Hi as ->. unfold set_find. simpl.
rewrite (compare_irrefl e He0). simpl.
rewrite (compare_irrefl e He0). reflexivity.
+ assert (He : e ∈ m) by (eapply list_elem_of_lookup_2; eauto).
rewrite Forall_forall in Hlt.
rewrite set_find_cons_lt by (apply compare_spec; auto).
rewrite (IH i Hwf Hi). reflexivity.
Qed.

Lemma StronglySorted_delete (R : WriteLogMapEntry -> WriteLogMapEntry -> Prop)
m (i : nat) :
StronglySorted R m -> StronglySorted R (delete i m).
Proof.
revert i. induction m as [|e m IH]; intros i Hs; [exact Hs|].
apply StronglySorted_inv in Hs as [Hs Hf].
destruct i as [|i]; simpl; [exact Hs|].
constructor; [apply IH; exact Hs|].
rewrite Forall_forall in *. intros y Hy. apply Hf.
eapply list_elem_of_delete_inv. exact Hy.
Qed.

Lemma map_wf_delete m (i : nat) : map_wf m -> map_wf (delete i m).
Proof.
intros [Hs Hf]. split; [apply StronglySorted_delete; exact Hs|].
rewrite Forall_forall in *. intros y Hy. apply Hf.
eapply list_elem_of_delete_inv. exact Hy.
Qed.

(** Insertion of an entry that overlaps no element. *)
Lemma set_insert_apart x m :
map_wf m -> extent_ok (ext x) -> Forall (apart x) m ->
map_wf (set_insert x m) /\ set_insert x m ≡ₚ x :: m.
Proof.
intros Hwf Hx. revert Hwf. induction m as [|e m IH]; intros Hwf Hap.
- simpl. split; [|reflexivity].
apply map_wf_cons. split; [exact Hx|]. split; [constructor | apply map_wf_nil].
- apply map_wf_cons in Hwf as (He & Hlt & Hwf).
apply Forall_cons in Hap as [Hae Hap].
specialize (IH Hwf Hap) as [IHwf IHp].
simpl. destruct (WriteLogMapEntryCompare e x) eqn:Hex.
+ split.
* apply map_wf_cons. split; [exact He|]. split; [|exact IHwf].
rewrite IHp. constructor; [apply compare_spec; exact Hex | exact Hlt].
* rewrite IHp. apply perm_swap.
+ apply compare_false in Hex.
destruct Hae as [Hae|Hae]; [contradiction|].
rewrite (proj2 (compare_spec x e) Hae).
split; [|reflexivity].
apply map_wf_cons. split; [exact Hx|]. split.
* constructor; [exact Hae|].
rewrite Forall_forall in *. intros y Hy. specialize (Hlt y Hy).
destruct He as (? & ? & ?). unfold entry_lt in *. lia.
* apply map_wf_cons. auto.
Qed.

(** On a well-formed set [equal_range] yields the overlapping entries. *)
Lemma lower_bound_head_ge k e m :
WriteLogMapEntryCompare e k = false -> lower_bound k (e :: m) = O.
Proof. intros H. simpl. rewrite H. reflexivity. Qed.

Lemma filter_overlaps_after k m :
Forall (entry_lt k) m ->
Forall (fun e => extent_ok (ext e)) m ->
filter (fun e => overlapsb (ext k) (ext e)) m = [].
Proof.
intros Hlt Hok. induction m as [|e m IH]; [reflexivity|].
apply Forall_cons in Hlt as [Hke Hlt]. apply Forall_cons in Hok as [He Hok].
rewrite filter_cons. destruct (decide _) as [Hov|_]; [|auto].
apply Is_true_true, overlapsb_spec in Hov.
unfold overlaps, entry_lt in *. lia.
Qed.

Lemma equal_range_filter k m :
map_wf m -> extent_ok (ext k) ->
equal_range k m = filter (fun e => overlapsb (ext k) (ext e)) m.
Proof.
intros Hwf Hk. induction m as [|e m IH]; [reflexivity|].
apply map_wf_cons in Hwf as (He & Hlt & Hwf). specialize (IH Hwf).
unfold equal_range in *. simpl.
destruct (WriteLogMapEntryCompare e k) eqn:Hek.
- apply compare_spec in Hek.
assert (Hke : WriteLogMapEntryCompare k e = false).
{ apply compare_false. destruct He as (?&?&?), Hk as (?&?&?).
unfold entry_lt in *. lia. }
rewrite Hke. simpl. rewrite IH.
rewrite filter_cons. destruct (decide _) as [Hov|_]; [|reflexivity].
apply Is_true_true, overlapsb_spec in Hov.
unfold overlaps, entry_lt in *. lia.
- apply compare_false in Hek.
destruct (WriteLogMapEntryCompare k e) eqn:Hke.
+ apply compare_spec in Hke. simpl. symmetry.
apply filter_overlaps_after.
* constructor; [exact Hke|]. rewrite Forall_forall in *.
intros y Hy. specialize (Hlt y Hy).
destruct He as (?&?&?). unfold entry_lt in *. lia.
* constructor; [exact He | apply Hwf].
+ apply compare_false in Hke. simpl.
rewrite filter_cons. destruct (decide _) as [_|Hov].
2:{ exfalso. apply Hov. apply Is_true_true, overlapsb_spec.
unfold overlaps, entry_lt in *. lia. }
f_equal. rewrite <- IH.
assert (Hlb : lower_bound k m = O).
{ destruct m as [|e' m']; [reflexivity|].
apply lower_bound_head_ge. apply compare_false.
apply Forall_cons in Hlt as [Hee' _].
assert (He' : extent_ok (ext e')).
{ eapply map_wf_elem; [exact Hwf | left]. }
destruct He' as (?&?&?). unfold entry_lt in *. lia. }
rewrite Hlb. simpl. rewrite Nat.sub_0_r. reflexivity.
Qed.

(** The other elements of a well-formed set lie apart from each element. *)
Lemma delete_apart m (i : nat) o :
map_wf m -> m !! i = Some o -> Forall (apart o) (delete i m).
Proof.
revert i. induction m as [|e m IH]; intros i Hwf Hi.
- rewrite lookup_nil in Hi. discriminate.
- apply map_wf_cons in Hwf as (He & Hlt & Hwf).
destruct i as [|i]; simpl in *.
+ injection Hi as ->. eapply Forall_impl; [exact Hlt|].
intros y Hy. right. exact Hy.
+ constructor; [|apply IH; assumption].
left. rewrite Forall_forall in Hlt. apply Hlt.
eapply list_elem_of_lookup_2; eauto.
Qed.

Lemma apart_within x o e :
within x o -> apart o e -> apart x e.
Proof. unfold within, apart, entry_lt. intros [? ?] [?|?]; [left|right]; lia. Qed.

Lemma add_to_refs_0 (le : GenericLogEntry) : add_to_refs 0 le = le.
Proof.
destruct le. unfold add_to_refs. simpl. rewrite Z.add_0_r. reflexivity.
Qed.

Lemma add_to_refs_add a b (le : GenericLogEntry) :
add_to_refs b (add_to_refs a le) = add_to_refs (a + b) le.
Proof.
destruct le. unfold add_to_refs. simpl. rewrite Z.add_assoc. reflexivity.
Qed.

Lemma add_refs_spec d (id : nat) h le :
h !! id = Some le ->
exists h', add_refs d (Some id) h = Some h' /\
forall j : nat,
h' !! j = add_to_refs (if decide (Some id = Some j) then d else 0) <$> h !! j.
Proof.
intros Hid. unfold add_refs. simpl. rewrite Hid. simpl.
eexists; split; [reflexivity|]. intros j.
destruct (decide (Some id = Some j)) as [Heq|Hne].
- injection Heq as <-. rewrite lookup_insert_eq, Hid. reflexivity.
- rewrite lookup_insert_ne by congruence.
destruct (h !! j); simpl; [rewrite add_to_refs_0|]; reflexivity.
Qed.

Lemma fmap_add_to_refs_0 (o : option GenericLogEntry) (P : Prop)
(b : {P} + {~ P}) :
o = add_to_refs (if b then 0 else 0) <$> o.
Proof.
destruct b, o; simpl; rewrite ?add_to_refs_0; reflexivity.
Qed.

(** One turn of the loop of [add_log_entry_locked]. *)
Lemma resolve_entry_spec n o h m (i : nat) :
extent_ok n -> map_wf m -> refs_bound h m ->
m !! i = Some o -> overlaps n (ext o) ->
exists h' m',
resolve_entry n o (h, m) = Some (h', m') /\
map_wf m' /\
m' ≡ₚ resolve_overlap n o ++ delete i m /\
forall j : nat,
h' !! j =
add_to_refs (if decide (me_log_entry o = Some j)
       then refs_delta n o else 0) <$> h !! j.
Proof.
intros Hn Hwf Hrb Hi Hov.
pose proof (set_find_wf m i o Hwf Hi) as Hfind.
assert (Hin : o ∈ m) by (eapply list_elem_of_lookup_2; eauto).
pose proof (map_wf_elem m o Hwf Hin) as Ho.
unfold refs_bound in Hrb. rewrite Forall_forall in Hrb.
destruct (Hrb o Hin) as (id & Hid & [le Hle]).
pose proof (map_wf_delete m i Hwf) as Hwfd.
pose proof (delete_apart m i o Hwf Hi) as Hap.
assert (Hovb : overlapsb n (ext o) = true) by (apply overlapsb_spec; exact Hov).
destruct Hn as (Hn0 & Hn1 & Hn2), Ho as (Ho0 & Ho1 & Ho2).
destruct Hov as [Hov1 Hov2].
unfold resolve_entry, resolve_overlap, refs_delta, resolve_overlap.
rewrite Hovb. simpl negb. cbv iota.
destruct (block_start n <=? block_start (ext o)) eqn:Hs;
destruct (block_end (ext o) <=? block_end n) eqn:He; simpl andb; cbv iota.
- (* fully covered *)
unfold remove_map_entry_locked. rewrite Hfind. simpl. rewrite Hi. simpl.
rewrite Hid.
destruct (add_refs_spec (-1) id h le Hle) as (h' & Hh' & Hlk).
rewrite Hh'. simpl. exists h', (delete i m).
split; [reflexivity|]. split; [exact Hwfd|]. split; [reflexivity|].
exact Hlk.
- (* the new entry occludes the beginning of the old entry *)
apply Z.leb_le in Hs. apply Z.leb_gt in He.
rewrite (proj2 (Z.ltb_lt _ _) He). simpl.
unfold adjust_map_entry_locked. rewrite Hfind. simpl. rewrite Hi. simpl.
rewrite wrap64_id by (unfold is_u64; lia).
set (x := mkMapEntry _ _).
destruct (set_insert_apart x (delete i m) Hwfd) as [Hw Hp].
{ subst x; unfold extent_ok; simpl; lia. }
{ eapply Forall_impl; [exact Hap|]. intros y Hy.
eapply apart_within; [|exact Hy]. subst x; unfold within; simpl; lia. }
exists h, (set_insert x (delete i m)).
split; [reflexivity|]. split; [exact Hw|]. split; [exact Hp|].
intros j. change (Z.of_nat 1 - 1) with 0. apply fmap_add_to_refs_0.
- (* the new entry occludes the end of the old entry *)
apply Z.leb_gt in Hs. apply Z.leb_le in He.
rewrite (proj2 (Z.ltb_lt _ _) Hs). simpl.
unfold adjust_map_entry_locked. rewrite Hfind. simpl. rewrite Hi. simpl.
rewrite wrap64_id by (unfold is_u64; lia).
set (x := mkMapEntry _ _).
destruct (set_insert_apart x (delete i m) Hwfd) as [Hw Hp].
{ subst x; unfold extent_ok; simpl; lia. }
{ eapply Forall_impl; [exact Hap|]. intros y Hy.
eapply apart_within; [|exact Hy]. subst x; unfold within; simpl; lia. }
exists h, (set_insert x (delete i m)).
split; [reflexivity|]. split; [exact Hw|]. split; [exact Hp|].
intros j. change (Z.of_nat 1 - 1) with 0. apply fmap_add_to_refs_0.
- (* the new entry splits the old entry *)
apply Z.leb_gt in Hs. apply Z.leb_gt in He.
rewrite (proj2 (Z.ltb_lt _ _) Hs). simpl.
unfold split_map_entry_locked. rewrite Hfind. simpl. rewrite Hi. simpl.
rewrite !wrap64_id by (unfold is_u64; lia).
set (x := mkMapEntry (mkBlockExtent _ (block_start n - 1)) _).
set (y := mkMapEntry (mkBlockExtent (block_end n + 1) _) _).
destruct (set_insert_apart x (delete i m) Hwfd) as [Hw Hp].
{ subst x; unfold extent_ok; simpl; lia. }
{ eapply Forall_impl; [exact Hap|]. intros z Hz.
eapply apart_within; [|exact Hz]. subst x; unfold within; simpl; lia. }
destruct (set_insert_apart y (set_insert x (delete i m)) Hw) as [Hw2 Hp2].
{ subst y; unfold extent_ok; simpl; lia. }
{ rewrite Hp. constructor.
- left. subst x y. unfold entry_lt. simpl. lia.
- eapply Forall_impl; [exact Hap|]. intros z Hz.
eapply apart_within; [|exact Hz]. subst y; unfold within; simpl; lia. }
rewrite Hid.
destruct (add_refs_spec 1 id h le Hle) as (h' & Hh' & Hlk).
rewrite Hh'. simpl. exists h', (set_insert y (set_insert x (delete i m))).
split; [reflexivity|]. split; [exact Hw2|]. split.
+ rewrite Hp2, Hp. apply perm_swap.
+ exact Hlk.
Qed.

Lemma resolve_overlap_log_entry n o x :
x ∈ resolve_overlap n o -> me_log_entry x = me_log_entry o.
Proof.
unfold resolve_overlap.
repeat match goal with
 | |- context [if ?b then _ else _] => destruct b
 end;
rewrite ?elem_of_cons, ?elem_of_nil; intros H;
repeat (destruct H as [H|H]); subst; try reflexivity; contradiction.
Qed.

Lemma resolve_overlap_apart n id o :
extent_ok n -> extent_ok (ext o) ->
Forall (apart (mkMapEntry n id)) (resolve_overlap n o).
Proof.
intros (? & ? & ?) (? & ? & ?). unfold resolve_overlap.
destruct (overlapsb n (ext o)) eqn:Hov; simpl negb; cbv iota.
- apply overlapsb_spec in Hov as [? ?].
destruct (Z.leb_spec (block_start n) (block_start (ext o)));
destruct (Z.leb_spec (block_end (ext o)) (block_end n)); simpl andb; cbv iota;
repeat first [apply Forall_nil_2 | apply Forall_cons_2];
unfold apart, entry_lt; simpl; lia.
- apply Forall_cons_2; [|apply Forall_nil_2].
assert (~ overlaps n (ext o)) as Hn.
{ rewrite <- overlapsb_spec, Hov. discriminate. }
unfold apart, entry_lt, overlaps in *. simpl. lia.
Qed.

Lemma refs_bound_lookup h h' m (d : nat -> Z) :
refs_bound h m ->
(forall j : nat, h' !! j = add_to_refs (d j) <$> h !! j) ->
refs_bound h' m.
Proof.
unfold refs_bound. intros Hrb Hlk. eapply Forall_impl; [exact Hrb|].
intros e (i & Hi & [le Hle]). exists i. split; [exact Hi|].
rewrite Hlk, Hle. simpl. eauto.
Qed.

Lemma resolve_entries_spec n O :
forall h m rest,
extent_ok n -> map_wf m -> refs_bound h m ->
m ≡ₚ O ++ rest ->
Forall (fun o => overlaps n (ext o)) O ->
exists h' m',
resolve_entries n O (h, m) = Some (h', m') /\
map_wf m' /\ refs_bound h' m' /\
m' ≡ₚ concat (resolve_overlap n <$> O) ++ rest /\
forall j : nat, h' !! j = add_to_refs (refs_change n O j) <$> h !! j.
Proof.
induction O as [|o O IH]; intros h m rest Hn Hwf Hrb Hp Hov.
- exists h, m. simpl. split; [reflexivity|]. split; [exact Hwf|].
split; [exact Hrb|]. split; [exact Hp|].
intros j. destruct (h !! j); simpl; [rewrite add_to_refs_0|]; reflexivity.
- apply Forall_cons in Hov as [Hovo Hov].
assert (Hin : o ∈ m) by (rewrite Hp; left).
apply list_elem_of_lookup in Hin as [i Hi].
destruct (resolve_entry_spec n o h m i Hn Hwf Hrb Hi Hovo)
as (h1 & m1 & Hstep & Hwf1 & Hp1 & Hlk1).
assert (Hpd : delete i m ≡ₚ O ++ rest).
{ apply (Permutation_cons_inv (a := o)).
rewrite <- Hp. symmetry. apply delete_Permutation. exact Hi. }
assert (Hrb1 : refs_bound h1 m1).
{ eapply refs_bound_lookup; [|exact Hlk1].
unfold refs_bound in *. rewrite Forall_forall in *.
intros x Hx. rewrite Hp1 in Hx. apply elem_of_app in Hx as [Hx|Hx].
- rewrite (resolve_overlap_log_entry _ _ _ Hx).
apply Hrb. eapply list_elem_of_lookup_2; eauto.
- apply Hrb. eapply list_elem_of_delete_inv; eauto. }
destruct (IH h1 m1 (resolve_overlap n o ++ rest) Hn Hwf1 Hrb1)
as (h2 & m2 & Hloop & Hwf2 & Hrb2 & Hp2 & Hlk2); [|exact Hov|].
{ rewrite Hp1, Hpd. rewrite Permutation_app_swap_app. reflexivity. }
exists h2, m2. simpl. rewrite Hstep. simpl.
split; [exact Hloop|]. split; [exact Hwf2|]. split; [exact Hrb2|]. split.
+ rewrite Hp2. rewrite Permutation_app_swap_app.
rewrite <- app_assoc. reflexivity.
+ intros j. rewrite Hlk2, Hlk1.
destruct (h !! j); simpl; [|reflexivity].
rewrite add_to_refs_add. reflexivity.
Qed.

Lemma resolve_overlap_apart_id n o :
overlapsb n (ext o) = false -> resolve_overlap n o = [o].
Proof. intros H. unfold resolve_overlap. rewrite H. reflexivity. Qed.

Lemma concat_resolve_filter n m :
concat (resolve_overlap n <$> m) ≡ₚ
concat (resolve_overlap n <$> filter (fun e => overlapsb n (ext e)) m)
++ filter (fun e => ~ overlapsb n (ext e)) m.
Proof.
induction m as [|e m IH]; [reflexivity|].
rewrite !filter_cons. simpl.
destruct (decide (overlapsb n (ext e))) as [Hov|Hov].
- destruct (decide (~ overlapsb n (ext e))) as [Hn|_]; [contradiction|].
simpl. rewrite IH. rewrite app_assoc. reflexivity.
- destruct (decide (~ overlapsb n (ext e))) as [_|Hn]; [|contradiction].
rewrite resolve_overlap_apart_id
by (destruct (overlapsb n (ext e)); [exfalso; apply Hov; exact I | reflexivity]).
simpl. rewrite IH. apply Permutation_middle.
Qed.

Lemma refs_change_filter n m (j : nat) :
refs_change n (filter (fun e => overlapsb n (ext e)) m) j = refs_change n m j.
Proof.
induction m as [|e m IH]; [reflexivity|].
rewrite filter_cons. simpl.
destruct (decide (overlapsb n (ext e))) as [Hov|Hov]; simpl; rewrite IH.
- reflexivity.
- unfold refs_delta. rewrite resolve_overlap_apart_id
by (destruct (overlapsb n (ext e)); [exfalso; apply Hov; exact I | reflexivity]).
simpl. destruct (decide _); reflexivity.
Qed.

Lemma filter_overlapping n m :
Forall (fun o => overlaps n (ext o))
 (filter (fun e => overlapsb n (ext e)) m).
Proof.
rewrite Forall_forall. intros x Hx. apply list_elem_of_filter in Hx as [Hx _].
apply overlapsb_spec. apply Is_true_true. exact Hx.
Qed.

(** The other entries of the set, once the overlapping ones are
resolved, lie apart from the new entry. *)
Lemma resolved_apart n id m :
extent_ok n -> map_wf m ->
Forall (apart (mkMapEntry n id)) (concat (resolve_overlap n <$> m)).
Proof.
intros Hn Hwf. rewrite Forall_concat, Forall_fmap, Forall_forall.
intros o Ho. simpl. apply resolve_overlap_apart; [exact Hn|].
eapply map_wf_elem; eauto.
Qed.

End WriteLogMapSet.

Section C1.
Import WriteLogMap WriteLogMapSpec.

(** C1.  add_log_entry_locked resolves every existing map entry that
overlaps the new range as the specification says (fully covered:
removed; overlapped on its left: the portion right of the new range
stays; overlapped on its right: the portion left of it stays; strictly
containing it: split in two, both referring to the old log entry),
then inserts the new range as one entry.  The back-reference count of
every log entry changes by the change of the number of its map
entries (minus one for a removed entry, plus one for a split one) and
that of the new log entry grows by one more; the resulting set is in
order and no two of its entries overlap. *)
Theorem add_log_entry_locked_resolves_overlaps
(h : LogEntries) (m : list WriteLogMapEntry) (id : nat)
(le : GenericLogEntry) :
map_wf m -> refs_bound h m ->
h !! id = Some le -> is_write (ram_entry le) = true ->
extent_ok (log_block_extent le) ->
exists h' m',
add_log_entry_locked id (h, m) = Some (h', m') /\
m' ≡ₚ concat (resolve_overlap (log_block_extent le) <$> m)
 ++ [mkMapEntry (log_block_extent le) (Some id)] /\
map_wf m' /\ no_overlap m' /\
forall j : nat,
h' !! j =
add_to_refs (refs_change (log_block_extent le) m j
       + (if decide (Some id = Some j) then 1 else 0)) <$> h !! j.
Proof.
intros Hwf Hrb Hid Hw Hn. set (n := log_block_extent le) in *.
unfold add_log_entry_locked. rewrite Hid. simpl. rewrite Hw. simpl.
unfold find_map_entries_locked. fold n.
rewrite (equal_range_filter (mkMapEntry n None) m Hwf Hn). simpl.
set (O := filter _ m).
destruct (resolve_entries_spec n O h m
  (filter (fun e => ~ overlapsb n (me_block_extent e)) m) Hn Hwf Hrb)
as (h1 & m1 & Hloop & Hwf1 & Hrb1 & Hp1 & Hlk1).
{ symmetry. apply filter_app_complement. }
{ apply filter_overlapping. }
rewrite Hloop. simpl.
assert (Hp1' : m1 ≡ₚ concat (resolve_overlap n <$> m)).
{ rewrite Hp1. symmetry. apply concat_resolve_filter. }
assert (Hid1 : is_Some (h1 !! id)).
{ rewrite Hlk1, Hid. simpl. eauto. }
destruct Hid1 as [le1 Hle1].
destruct (add_refs_spec 1 id h1 le1 Hle1) as (h2 & Hh2 & Hlk2).
unfold add_refs in Hh2. simpl in Hh2. rewrite Hh2. simpl.
destruct (set_insert_apart (mkMapEntry n (Some id)) m1 Hwf1 Hn) as [Hwf2 Hp2].
{ rewrite Hp1'. apply resolved_apart; assumption. }
eexists _, _. split; [reflexivity|]. split.
{ rewrite Hp2, Hp1'. apply Permutation_cons_append. }
split; [exact Hwf2|]. split; [apply map_wf_no_overlap; exact Hwf2|].
intros j. rewrite Hlk2, Hlk1. subst O. rewrite refs_change_filter.
destruct (h !! j); simpl; [|reflexivity].
rewrite add_to_refs_add. reflexivity.
Qed.

End C1.

(** Inversion of the steps of a computation in the option monad. *)
Lemma update_log_entry_inv (id : nat) f (s s' : RWL) :
  update_log_entry id f s = Some s' ->
  exists e, log_entry_objs s !! id = Some e /\
    s' = set_log_entry_objs (<[id := f e]> (log_entry_objs s)) s.
Proof.
  unfold update_log_entry. intros Hb.
  apply bind_Some in Hb as (e & He & Hb). injection Hb as <-. eauto.
Qed.

Lemma update_sync_point_inv (id : nat) f (s s' : RWL) :
  update_sync_point id f s = Some s' ->
  exists p, sync_point_objs s !! id = Some p /\
    s' = set_sync_point_objs (<[id := f p]> (sync_point_objs s)) s.
Proof.
  unfold update_sync_point. intros Hb.
  apply bind_Some in Hb as (e & He & Hb). injection Hb as <-. eauto.
Qed.

Lemma update_request_inv (id : nat) f (s s' : RWL) :
  update_request id f s = Some s' ->
  exists q, request_objs s !! id = Some q /\
    s' = set_request_objs (<[id := f q]> (request_objs s)) s.
Proof.
  unfold update_request. intros Hb.
  apply bind_Some in Hb as (e & He & Hb). injection Hb as <-. eauto.
Qed.

Ltac inv_step H :=
  first
    [ apply bind_Some in H as (? & ? & H)
    | apply update_log_entry_inv in H as (? & ? & ->)
    | apply update_sync_point_inv in H as (? & ? & ->)
    | apply update_request_inv in H as (? & ? & ->) ].

Ltac inv_option :=
  repeat match goal with
         | H : (_ ≫= _) = Some _ |- _ => apply bind_Some in H as (? & ? & H)
         | H : update_log_entry _ _ _ = Some _ |- _ =>
             apply update_log_entry_inv in H as (? & ? & ?)
         | H : update_sync_point _ _ _ = Some _ |- _ =>
             apply update_sync_point_inv in H as (? & ? & ?)
         | H : update_request _ _ _ = Some _ |- _ =>
             apply update_request_inv in H as (? & ? & ?)
         | H : check _ = Some _ |- _ => apply check_Some in H
         | H : Some _ = Some _ |- _ => injection H as H
         | H : None = Some _ |- _ => discriminate H
         | H : (let '(_, _) := ?x in _) = Some _ |- _ => is_var x; destruct x
         | H : (_, _) = (_, _) |- _ => injection H as ? ?
         end.

Section WakeUp.
Context `{Constants}.

(** [wake_up] only touches its own flags and queues [process_work]. *)
Lemma wake_up_trace (s : RWL) :
trace (wake_up s) = trace s \/
trace (wake_up s) = trace s ++ [EvQueue ProcessWorkCtx].
Proof.
unfold wake_up, emit. simpl.
destruct (m_wake_up_enabled s), (m_wake_up_requested s),
(m_wake_up_scheduled s); simpl; auto.
Qed.

Lemma wake_up_frame (s : RWL) :
m_dirty_log_entries (wake_up s) = m_dirty_log_entries s /\
m_bytes_dirty (wake_up s) = m_bytes_dirty s /\
log_entry_objs (wake_up s) = log_entry_objs s /\
m_flush_ops_in_flight (wake_up s) = m_flush_ops_in_flight s /\
m_flush_bytes_in_flight (wake_up s) = m_flush_bytes_in_flight s.
Proof.
unfold wake_up, emit. simpl.
destruct (m_wake_up_enabled s), (m_wake_up_requested s),
(m_wake_up_scheduled s); simpl; auto.
Qed.

End WakeUp.

Section Updates.

Lemma update_log_entry_Some (id : nat) f (s : RWL) (e : GenericLogEntry) :
log_entry_objs s !! id = Some e ->
update_log_entry id f s =
Some (set_log_entry_objs (<[id := f e]> (log_entry_objs s)) s).
Proof. intros He. unfold update_log_entry. rewrite He. reflexivity. Qed.

Lemma update_sync_point_Some (id : nat) f (s : RWL) (p : SyncPoint) :
sync_point_objs s !! id = Some p ->
update_sync_point id f s =
Some (set_sync_point_objs (<[id := f p]> (sync_point_objs s)) s).
Proof. intros He. unfold update_sync_point. rewrite He. reflexivity. Qed.

Lemma update_request_Some (id : nat) f (s : RWL) (q : BlockIORequest) :
request_objs s !! id = Some q ->
update_request id f s =
Some (set_request_objs (<[id := f q]> (request_objs s)) s).
Proof. intros He. unfold update_request. rewrite He. reflexivity. Qed.

End Updates.

Section C8.
Context `{Constants}.

(** C8.  When the writeback of the dirty entry [id] completes with an
error, the entry is put back at the head of the dirty entries, its
flushed flag and the dirty byte count stay as they were, and nothing
is completed (the trace gains at most the wake-up of the worker);
when it completes without error the flushed flag is set and the dirty
bytes decrease by the entry's write_bytes.  Either way the flush is
no longer in flight. *)
Theorem flush_entry_done_spec (s : RWL) (id : nat) (e : GenericLogEntry)
(invalidating : bool) (r : Z) :
log_entry_objs s !! id = Some e ->
(r < 0 \/ write_bytes (ram_entry e) <= m_bytes_dirty s) ->
exists s' e',
flush_entry_done id invalidating r s = Some s' /\
log_entry_objs s' !! id = Some e' /\
flushing e' = false /\
m_flush_ops_in_flight s' = m_flush_ops_in_flight s - 1 /\
m_flush_bytes_in_flight s' =
m_flush_bytes_in_flight s - write_bytes (ram_entry e) /\
(trace s' = trace s \/ trace s' = trace s ++ [EvQueue ProcessWorkCtx]) /\
(r < 0 ->
 m_dirty_log_entries s' = id :: m_dirty_log_entries s /\
 flushed e' = flushed e /\
 m_bytes_dirty s' = m_bytes_dirty s) /\
(0 <= r ->
 m_dirty_log_entries s' = m_dirty_log_entries s /\
 flushed e' = true /\
 m_bytes_dirty s' = m_bytes_dirty s - write_bytes (ram_entry e)).
Proof.
intros He Hr. unfold flush_entry_done. rewrite He. simpl.
erewrite update_log_entry_Some by exact He. simpl.
destruct (Z.ltb_spec r 0) as [Hneg|Hpos].
- simpl.
match goal with |- context [wake_up ?t] => set (s1 := t) end.
destruct (wake_up_frame s1) as (Hd & Hb & Hl & Ho & Hy).
exists (wake_up s1), (set_flushing false e).
split; [reflexivity|]. rewrite Hl, Hd, Hb, Ho, Hy.
split; [subst s1; simpl; apply lookup_insert_eq|].
split; [reflexivity|]. split; [reflexivity|]. split; [reflexivity|].
split; [apply (wake_up_trace s1)|].
split; [intros _; split; [reflexivity|split; reflexivity] | intros; lia].
- destruct Hr as [Hr|Hr]; [lia|].
erewrite update_log_entry_Some by (simpl; apply lookup_insert_eq).
simpl. rewrite (proj2 (Z.leb_le _ _) Hr). simpl.
match goal with |- context [wake_up ?t] => set (s1 := t) end.
destruct (wake_up_frame s1) as (Hd & Hb & Hl & Ho & Hy).
exists (wake_up s1), (set_flushed true (set_flushing false e)).
split; [reflexivity|]. rewrite Hl, Hd, Hb, Ho, Hy.
split; [subst s1; simpl; apply lookup_insert_eq|].
split; [reflexivity|]. split; [reflexivity|]. split; [reflexivity|].
split; [apply (wake_up_trace s1)|].
split; [intros; lia | intros _; split; [reflexivity|split; reflexivity]].
Qed.

(** After a failed writeback the flusher's next pass takes the entry
first: if it is flushable, the same flush action is built for it. *)
Lemma requeued_entry_is_next (s : RWL) (id : nat) (rest : list nat) :
m_dirty_log_entries s = id :: rest ->
0 < IN_FLIGHT_FLUSH_WRITE_LIMIT ->
can_flush_entry id s = Some true ->
writeback_loop (m_dirty_log_entries s) 0 [] s =
'(ctx, s1) ← construct_flush_entry_ctx id s;
writeback_loop rest 1 [ctx] (set_m_dirty_log_entries rest s1).
Proof.
intros Hd Hl Hc. rewrite Hd. simpl.
rewrite (proj2 (Z.ltb_lt _ _) Hl). rewrite Hc. simpl. reflexivity.
Qed.

End C8.

Section C3.
Context `{Constants}.

(** On a write entry [can_flush_entry] always answers. *)
Lemma can_flush_entry_total (s : RWL) (id : nat) (e : GenericLogEntry) :
log_entry_objs s !! id = Some e -> is_write (ram_entry e) = true ->
exists b, can_flush_entry id s = Some b.
Proof.
intros He Hw. unfold can_flush_entry. rewrite He. simpl. rewrite Hw. simpl.
destruct (m_invalidating s); [eauto|].
destruct (_ && _); eauto.
Qed.

(** C3 (as the code has it).  For a write entry, can_flush_entry returns
true exactly when the cache is invalidating, or the entry is completed
and (no flush is in flight or its sync gen number is at most the
lowest one flushing) and the in-flight flush write count and byte
count are at most their limits. *)
Theorem can_flush_entry_iff (s : RWL) (id : nat) (e : GenericLogEntry) :
log_entry_objs s !! id = Some e -> is_write (ram_entry e) = true ->
(can_flush_entry id s = Some true <-> flushable_as_coded s e).
Proof.
intros He Hw. unfold can_flush_entry, flushable_as_coded.
rewrite He. simpl. rewrite Hw. simpl.
destruct (m_invalidating s) eqn:Hinv.
{ split; [left; reflexivity | reflexivity]. }
destruct (Z.eqb_spec (m_flush_ops_in_flight s) 0) as [H0|H0];
destruct (Z.ltb_spec (m_lowest_flushing_sync_gen s)
             (sync_gen_number (ram_entry e))) as [Hg|Hg];
simpl;
try (split; [discriminate | intros [?|(_ & [?|?] & _)]; [discriminate | lia | lia]]);
rewrite ?andb_true_iff, ?Z.leb_le;
(split;
 [ intros Hb; injection Hb as Hb;
 rewrite !andb_true_iff, !Z.leb_le in Hb; right;
 destruct Hb as [[? ?] ?]; repeat split; auto; lia
 | intros [?|(? & ? & ? & ?)]; [discriminate|];
 f_equal; rewrite !andb_true_iff, !Z.leb_le; auto ]).
Qed.

End C3.

(** C3 as stated fails: an invalidating cache flushes an entry that is not
    completed, and an entry is flushable with the in-flight count at its
    limit, not below it. *)
Lemma can_flush_entry_not_as_specified :
  (can_flush_entry (H := sample_constants) 0 invalidating_cache = Some true /\
   ~ flushable_as_specified (H := sample_constants) invalidating_cache
       (set_completed false (sample_write 0 512 1 0 7))) /\
  (can_flush_entry (H := sample_constants) 0 cache_at_flush_limit = Some true /\
   ~ flushable_as_specified (H := sample_constants) cache_at_flush_limit
       (sample_write 0 512 1 0 7)).
Proof.
  split; (split; [vm_compute; reflexivity|]).
  - intros (_ & Hc & _). vm_compute in Hc. discriminate.
  - intros (_ & _ & _ & Hlim & _). vm_compute in Hlim. discriminate.
Qed.

Lemma can_flush_entry_iff_witness :
  can_flush_entry (H := sample_constants) 0 cache_at_flush_limit = Some true <->
  flushable_as_coded (H := sample_constants) cache_at_flush_limit
    (sample_write 0 512 1 0 7).
Proof.
  apply (can_flush_entry_iff (H := sample_constants) cache_at_flush_limit 0%nat
           (sample_write 0 512 1 0 7)); vm_compute; reflexivity.
Defined.

Section RingFrames.
Context `{Constants}.

Ltac ring_same_refl := unfold ring_same; repeat split; reflexivity.

Lemma ring_same_refl_ s : ring_same s s.
Proof. unfold ring_same. auto. Qed.

Lemma ring_same_trans s1 s2 s3 :
ring_same s1 s2 -> ring_same s2 s3 -> ring_same s1 s3.
Proof.
unfold ring_same. intros (?&?&?&?&?) (?&?&?&?&?).
repeat split; congruence.
Qed.

Lemma new_sync_point_ring s later s' :
new_sync_point s = Some (later, s') -> ring_same s s'.
Proof.
unfold new_sync_point. intros Hn.
destruct (m_current_sync_point s); inv_option; subst; ring_same_refl.
Qed.

Lemma flush_new_sync_point_ring flush_req s later s' :
flush_new_sync_point flush_req s = Some (later, s') -> ring_same s s'.
Proof.
unfold flush_new_sync_point, make_flush_req. intros Hf.
destruct flush_req as [r|]; simpl in Hf; inv_option; subst;
match goal with
| Hn : new_sync_point _ = Some _ |- _ =>
apply new_sync_point_ring in Hn;
eapply ring_same_trans; [|eapply ring_same_trans; [exact Hn|]]
end; ring_same_refl.
Qed.

Lemma init_flush_new_sync_point_ring s later s' :
init_flush_new_sync_point s = Some (later, s') -> ring_same s s'.
Proof.
unfold init_flush_new_sync_point. intros Hf. inv_option.
destruct (m_current_sync_point s).
- eapply flush_new_sync_point_ring; eassumption.
- eapply new_sync_point_ring; eassumption.
Qed.

Lemma wake_up_ring s : ring_same s (wake_up s).
Proof.
unfold wake_up, emit. simpl.
destruct (m_wake_up_enabled s), (m_wake_up_requested s),
(m_wake_up_scheduled s); simpl; ring_same_refl.
Qed.

Lemma map_add_log_entry_ring id s s' :
map_add_log_entry id s = Some s' -> ring_same s s'.
Proof.
unfold map_add_log_entry. intros Hm. inv_option. subst. ring_same_refl.
Qed.

Lemma map_remove_log_entry_ring id s s' :
map_remove_log_entry id s = Some s' ->
ring_same s s'.
Proof.
unfold map_remove_log_entry. intros Hm. inv_option. subst. ring_same_refl.
Qed.

(** The scan of the recovery appends one entry per slot in use. *)
Lemma ring_next_index (N idx ff : Z) :
2 < N <= 2 ^ 32 -> 0 <= idx < N -> 0 <= ff < N -> idx <> ff ->
0 <= wrap64 (idx + 1) mod N < N /\
(ff - idx) mod N = 1 + (ff - wrap64 (idx + 1) mod N) mod N.
Proof.
intros HN Hi Hf Hne.
rewrite wrap64_id by (unfold is_u64; lia).
split; [apply Z.mod_pos_bound; lia|].
destruct (Z.eq_dec (idx + 1) N) as [He|He].
- rewrite He, Z.mod_same, Z.sub_0_r by lia.
rewrite (Z.mod_small ff) by lia.
replace (ff - idx) with (ff + 1 + (-1) * N) by lia.
rewrite Z.mod_add by lia. rewrite Z.mod_small by lia. lia.
- rewrite (Z.mod_small (idx + 1)) by lia.
destruct (Z.lt_ge_cases idx ff).
+ rewrite !Z.mod_small by lia. lia.
+ replace (ff - idx) with (ff - idx + N + (-1) * N) by lia.
replace (ff - (idx + 1)) with (ff - idx - 1 + N + (-1) * N) by lia.
rewrite !Z.mod_add by lia. rewrite !Z.mod_small by lia. lia.
Qed.

Lemma load_entry_ring idx sc s sc' s' :
load_entry idx sc s = Some (sc', s') ->
m_total_log_entries s' = m_total_log_entries s /\
m_first_valid_entry s' = m_first_valid_entry s /\
m_first_free_entry s' = m_first_free_entry s /\
m_free_log_entries s' = m_free_log_entries s /\
length (m_log_entries s') = S (length (m_log_entries s)).
Proof.
unfold load_entry. intros Hl. inv_option.
destruct (is_sync_point _); [|destruct (is_write _)]; inv_option; subst;
simpl; rewrite length_app; simpl;
(repeat split; try reflexivity; lia).
Qed.

Lemma load_entries_ring fuel :
forall idx sc s sc' s',
load_entries fuel idx sc s = Some (sc', s') ->
2 < m_total_log_entries s <= 2 ^ 32 ->
0 <= idx < m_total_log_entries s ->
0 <= m_first_free_entry s < m_total_log_entries s ->
m_total_log_entries s' = m_total_log_entries s /\
m_first_valid_entry s' = m_first_valid_entry s /\
m_first_free_entry s' = m_first_free_entry s /\
m_free_log_entries s' = m_free_log_entries s /\
Z.of_nat (length (m_log_entries s')) =
Z.of_nat (length (m_log_entries s))
+ (m_first_free_entry s - idx) mod m_total_log_entries s.
Proof.
induction fuel as [|fuel IH]; intros idx sc s sc' s' Hl HN Hi Hf;
simpl in Hl; destruct (Z.eqb_spec idx (m_first_free_entry s)) as [He|He].
- injection Hl as <- <-. rewrite He, Z.sub_diag, Z.mod_0_l by lia.
repeat split; lia.
- discriminate.
- injection Hl as <- <-. rewrite He, Z.sub_diag, Z.mod_0_l by lia.
repeat split; lia.
- inv_option.
match goal with
| Hs : load_entry _ _ _ = Some _ |- _ =>
apply load_entry_ring in Hs as (HN1 & Hv1 & Hf1 & Hr1 & Hlen1)
end.
destruct (ring_next_index (m_total_log_entries s) idx
    (m_first_free_entry s) HN Hi Hf He) as [Hi' Hmod].
apply IH in Hl as (HN2 & Hv2 & Hf2 & Hr2 & Hlen2);
rewrite ?HN1, ?Hf1; try assumption.
rewrite HN2, Hv2, Hf2, Hr2, Hlen2, HN1, Hv1, Hf1, Hr1, Hlen1.
repeat split; try reflexivity. rewrite Hmod. lia.
Qed.

Lemma create_missing_ring missing :
forall sc later s sc' later' s',
create_missing missing sc later s = Some (sc', later', s') ->
ring_same s s'.
Proof.
induction missing as [|k rest IH]; intros sc later s sc' later' s' Hc;
simpl in Hc.
- injection Hc as <- <- <-. apply ring_same_refl_.
- inv_option.
match goal with
| Hi : init_flush_new_sync_point _ = Some _ |- _ =>
apply init_flush_new_sync_point_ring in Hi
end.
eapply ring_same_trans; [eassumption|]. eapply IH; eassumption.
Qed.

Lemma link_entries_ring entries :
forall sc s s', link_entries entries sc s = Some s' -> ring_same s s'.
Proof.
induction entries as [|e rest IH]; intros sc s s' Hl; simpl in Hl.
- injection Hl as <-. apply ring_same_refl_.
- inv_option.
eapply ring_same_trans; [|eapply IH; eassumption].
destruct (is_write _).
+ destruct (sync_point_entries sc !! _) as [[sp|]|]; inv_option.
match goal with
| Hm : map_add_log_entry _ _ = Some _ |- _ =>
apply map_add_log_entry_ring in Hm
end.
subst. eapply ring_same_trans; [|eapply ring_same_trans; [eassumption|]];
ring_same_refl.
+ destruct (is_sync_point _); inv_option. subst. apply ring_same_refl_.
Qed.

Lemma load_existing_entries_ring s later s' :
load_existing_entries s = Some (later, s') ->
m_log_entries s = [] ->
2 < m_total_log_entries s <= 2 ^ 32 ->
0 <= m_first_valid_entry s < m_total_log_entries s ->
0 <= m_first_free_entry s < m_total_log_entries s ->
m_total_log_entries s' = m_total_log_entries s /\
m_first_valid_entry s' = m_first_valid_entry s /\
m_first_free_entry s' = m_first_free_entry s /\
m_free_log_entries s' = m_free_log_entries s /\
Z.of_nat (length (m_log_entries s')) = ring_used s.
Proof.
unfold load_existing_entries. intros Hl Hnil HN Hv Hf. inv_option. subst.
match goal with
| Hs : load_entries _ _ _ _ = Some _ |- _ =>
apply load_entries_ring in Hs as (HN1 & Hv1 & Hf1 & Hr1 & Hlen1);
try assumption
end.
match goal with
| Hc : create_missing _ _ _ _ = Some _ |- _ =>
apply create_missing_ring in Hc as (HN2 & Hv2 & Hf2 & Hr2 & Hlen2)
end.
match goal with
| Hk : link_entries _ _ _ = Some _ |- _ =>
apply link_entries_ring in Hk as (HN3 & Hv3 & Hf3 & Hr3 & Hlen3)
end.
rewrite Hnil in Hlen1. simpl in Hlen1.
unfold ring_used. rewrite Hlen3, Hlen2, Hlen1.
repeat split; congruence.
Qed.

Lemma alloc_flush_resources_ring flush_req s ok s' :
alloc_flush_resources flush_req s = Some (ok, s') ->
m_total_log_entries s' = m_total_log_entries s /\
m_first_valid_entry s' = m_first_valid_entry s /\
m_first_free_entry s' = m_first_free_entry s /\
m_log_entries s' = m_log_entries s /\
m_free_log_entries s' =
(if ok then m_free_log_entries s - 1 else m_free_log_entries s) /\
(ok = true -> m_free_log_entries s <> 0).
Proof.
unfold alloc_flush_resources. intros Ha. inv_option.
destruct (Z.eqb_spec (m_free_log_entries s) 0); simpl in Ha;
inv_option; subst; repeat split; try reflexivity; congruence.
Qed.

Lemma alloc_write_resources_ring write_req oids s ok s' q :
alloc_write_resources write_req oids s = Some (ok, s') ->
request_objs s !! write_req = Some q ->
m_total_log_entries s' = m_total_log_entries s /\
m_first_valid_entry s' = m_first_valid_entry s /\
m_first_free_entry s' = m_first_free_entry s /\
m_log_entries s' = m_log_entries s /\
m_free_log_entries s' =
(if ok then m_free_log_entries s - Z.of_nat (length (m_image_extents q))
 else m_free_log_entries s) /\
(ok = true ->
 Z.of_nat (length (m_image_extents q)) <= m_free_log_entries s).
Proof.
unfold alloc_write_resources. intros Ha Hq. rewrite Hq in Ha.
simpl in Ha.
apply bind_Some in Ha as (pool & Hpool & Ha).
apply bind_Some in Ha as (? & _ & Ha).
set (n := Z.of_nat (length (m_image_extents q))) in *.
destruct (m_free_lanes s <? n) eqn:Hl;
destruct (Z.ltb_spec (m_free_log_entries s) n) as [He|He];
destruct (m_bytes_allocated_cap s <? m_bytes_allocated s) eqn:Hc;
simpl in Ha;
try (injection Ha as <- <-; repeat split; try reflexivity; discriminate).
match type of Ha with
| context [reserve_buffers ?a ?b ?c ?d ?e] =>
destruct (reserve_buffers a b c d e) as [[[bufs ba] bc] reserved]
end.
assert (Hq' : m_image_extents
      (if reserved then q else set_m_waited_buffers true q)
    = m_image_extents q) by (destruct reserved; reflexivity).
destruct reserved; simpl in Ha.
- apply Z.ltb_ge in Hl.
rewrite (proj2 (Z.leb_le _ _) Hl), (proj2 (Z.leb_le _ _) He) in Ha.
simpl in Ha. injection Ha as <- <-.
repeat split; try reflexivity. intros _. exact He.
- injection Ha as <- <-. repeat split; try reflexivity. discriminate.
Qed.

Lemma alloc_op_log_entries_ring ops :
forall s s',
alloc_op_log_entries ops s = Some s' ->
0 <= m_first_free_entry s < m_total_log_entries s ->
m_total_log_entries s' = m_total_log_entries s /\
m_first_valid_entry s' = m_first_valid_entry s /\
m_free_log_entries s' = m_free_log_entries s /\
m_first_free_entry s' =
(m_first_free_entry s + Z.of_nat (length ops))
mod m_total_log_entries s /\
length (m_log_entries s') = (length (m_log_entries s) + length ops)%nat.
Proof.
induction ops as [|op ops IH]; intros s s' Ha Hf; simpl in Ha.
- injection Ha as <-. simpl. rewrite Z.add_0_r, Z.mod_small by lia.
repeat split; try reflexivity. lia.
- inv_option. subst.
apply IH in Ha as (HN & Hv & Hr & Hff & Hlen);
[|simpl; apply Z.mod_pos_bound; lia].
simpl in *. rewrite HN, Hv, Hr, Hff, Hlen.
repeat split; try reflexivity.
+ rewrite Zplus_mod_idemp_l. f_equal. lia.
+ rewrite length_app. simpl. lia.
Qed.

(** The loop of retire_entries takes a prefix of the log entries and
advances the local first valid index by its length. *)
Lemma retire_loop_ring frees_per_tx entries :
forall retiring fve s retiring' fve' s',
retire_loop frees_per_tx entries retiring fve s
= Some (retiring', fve', s') ->
0 < m_total_log_entries s <= 2 ^ 32 ->
0 <= fve < m_total_log_entries s ->
m_log_entries s = entries ->
exists j : nat,
(j <= length entries)%nat /\
retiring' = retiring ++ take j entries /\
m_log_entries s' = drop j entries /\
fve' = (fve + Z.of_nat j) mod m_total_log_entries s /\
m_total_log_entries s' = m_total_log_entries s /\
m_first_valid_entry s' = m_first_valid_entry s /\
m_first_free_entry s' = m_first_free_entry s /\
m_free_log_entries s' = m_free_log_entries s /\
m_log_pool s' = m_log_pool s.
Proof.
induction entries as [|entry rest IH];
intros retiring fve s retiring' fve' s' Hr HN Hf Hlog; simpl in Hr.
- injection Hr as <- <- <-. exists O. simpl.
rewrite app_nil_r, Z.add_0_r, Z.mod_small by lia.
repeat split; auto.
- assert (Hstop : forall st, Some (retiring, fve, st) =
                   Some (retiring', fve', s') ->
  st = s ->
  exists j : nat,
    (j <= length (entry :: rest))%nat /\
    retiring' = retiring ++ take j (entry :: rest) /\
    m_log_entries s' = drop j (entry :: rest) /\
    fve' = (fve + Z.of_nat j) mod m_total_log_entries s /\
    m_total_log_entries s' = m_total_log_entries s /\
    m_first_valid_entry s' = m_first_valid_entry s /\
    m_first_free_entry s' = m_first_free_entry s /\
    m_free_log_entries s' = m_free_log_entries s /\
    m_log_pool s' = m_log_pool s).
{ intros st Hst ->. injection Hst as <- <- <-. exists O. simpl.
rewrite app_nil_r, Z.add_0_r, Z.mod_small by lia.
repeat split; auto. lia. }
destruct (Z.of_nat (length retiring) <? frees_per_tx);
[|eapply Hstop; eauto].
apply bind_Some in Hr as (b & Hb & Hr).
destruct b; [|eapply Hstop; eauto].
apply bind_Some in Hr as (e & He & Hr).
apply bind_Some in Hr as (? & _ & Hr).
apply bind_Some in Hr as (? & _ & Hr).
apply bind_Some in Hr as (s1 & Hs1 & Hr).
assert (Hs1' : ring_same (set_m_log_entries rest s) s1 /\
       m_log_pool s1 = m_log_pool s).
{ destruct (is_write (ram_entry e)).
- apply bind_Some in Hs1 as (s2 & Hs2 & Hs1).
inv_option. subst.
split; [eapply map_remove_log_entry_ring; eassumption|].
unfold map_remove_log_entry in Hs2. inv_option. subst. reflexivity.
- injection Hs1 as <-. split; [apply ring_same_refl_ | reflexivity]. }
destruct Hs1' as [(HN1 & Hv1 & Hf1 & Hr1 & Hl1) Hp1]. simpl in *.
apply IH in Hr as (j & Hj & Hret & Hlog' & Hfve & HN2 & Hv2 & Hf2 & Hr2 & Hp2);
rewrite ?HN1; try assumption; try (apply Z.mod_pos_bound; lia).
exists (S j). simpl.
rewrite Hret, Hlog', Hfve, HN2, Hv2, Hf2, Hr2, Hp2, HN1, Hv1, Hf1, Hr1, Hp1.
split; [lia|]. split; [rewrite <- app_assoc; reflexivity|].
repeat split; try reflexivity.
assert (Hw : wrap32 (fve + 1) mod m_total_log_entries s
     = (fve + 1) mod m_total_log_entries s).
{ unfold wrap32. destruct (Z.eq_dec (fve + 1) (2 ^ 32)) as [E|E].
- rewrite E. replace (m_total_log_entries s) with (2 ^ 32) by lia.
reflexivity.
- rewrite (Z.mod_small (fve + 1) (2 ^ 32)) by lia. reflexivity. }
rewrite Hw, Zplus_mod_idemp_l. f_equal. lia.
Qed.

Lemma retire_accounting_ring retiring :
forall s s', retire_accounting retiring s = Some s' -> ring_same s s'.
Proof.
induction retiring as [|e rest IH]; intros s s' Hr; simpl in Hr.
- injection Hr as <-. apply ring_same_refl_.
- apply bind_Some in Hr as (x & Hx & Hr).
apply bind_Some in Hr as (s1 & Hs1 & Hr).
eapply ring_same_trans; [|eapply IH; eassumption].
destruct (is_write (ram_entry x)); inv_option; subst; ring_same_refl.
Qed.

Lemma ring_used_after_retire (N ff fv : Z) (j : nat) :
0 < N -> Z.of_nat j <= (ff - fv) mod N ->
(ff - (fv + Z.of_nat j) mod N) mod N = (ff - fv) mod N - Z.of_nat j.
Proof.
intros HN Hj. rewrite Zminus_mod_idemp_r.
replace (ff - (fv + Z.of_nat j)) with (ff - fv - Z.of_nat j) by lia.
rewrite <- Zminus_mod_idemp_l.
pose proof (Z.mod_pos_bound (ff - fv) N HN).
apply Z.mod_small. lia.
Qed.

Lemma retire_entries_ring frees_per_tx commit s b retired s' reserved :
retire_entries frees_per_tx commit s = Some (b, retired, s') ->
ring_ok s reserved -> ring_ok s' reserved.
Proof.
unfold retire_entries, ring_ok. intros Hr (HN & Hv & Hf & Hfree & Hres & Hlen & Hsum).
apply bind_Some in Hr as ([[retiring fve] s1] & Hloop & Hr).
unfold wrap32 in Hloop.
rewrite (Z.mod_small (m_first_valid_entry s) (2 ^ 32)) in Hloop
by lia.
apply retire_loop_ring in Hloop
as (j & Hj & Hret & Hlog & Hfve & HN1 & Hv1 & Hf1 & Hr1 & Hp1);
[|lia|lia|reflexivity].
simpl in Hret. subst retiring.
assert (Hjlen : length (take j (m_log_entries s)) = j)
by (rewrite length_take; lia).
rewrite Hjlen in Hr.
assert (Hju : Z.of_nat j <= ring_used s) by lia.
destruct (Z.eqb_spec (Z.of_nat j) 0) as [Hj0|Hj0]; simpl in Hr.
- injection Hr as <- <- <-. assert (j = O) by lia. subst j.
rewrite drop_0 in Hlog. unfold ring_used in *.
rewrite HN1, Hv1, Hf1, Hr1, Hlog. repeat split; lia.
- inv_option. subst.
match goal with
| Ha : retire_accounting _ _ = Some ?t |- _ =>
apply retire_accounting_ring in Ha as (HN2 & Hv2 & Hf2 & Hr2 & Hl2);
destruct (wake_up_ring (set_m_alloc_failed_since_retire false t))
as (HN3 & Hv3 & Hf3 & Hr3 & Hl3)
end.
simpl in *. unfold ring_used in *.
rewrite HN3, Hv3, Hf3, Hr3, Hl3, HN2, Hv2, Hf2, Hr2, Hl2.
rewrite HN1, Hf1, Hr1, Hlog.
rewrite (ring_used_after_retire _ _ _ j) by lia.
rewrite length_drop.
pose proof (Z.mod_pos_bound (m_first_valid_entry s + Z.of_nat j)
      (m_total_log_entries s)).
repeat split; lia.
Qed.

Lemma rwl_init_create_ring rwl_size errno on_finish s0 later s :
MAX_LOG_ENTRIES < 2 ^ 32 ->
m_log_entries s0 = [] ->
rwl_init rwl_size (NoPoolFile false true) errno on_finish s0
= Some (later, s) ->
ring_ok s 0.
Proof.
unfold rwl_init. intros HM Hnil Hi.
apply bind_Some in Hi as (? & _ & Hi).
apply bind_Some in Hi as (? & Hnum & Hi). apply check_Some in Hnum.
apply Z.ltb_lt in Hnum.
apply bind_Some in Hi as ([added s1] & Hs1 & Hi).
injection Hi as <- <-.
apply init_flush_new_sync_point_ring in Hs1 as (HN & Hv & Hf & Hr & Hl).
match type of Hnum with
| 2 < (if ?c then _ else ?n) =>
assert (Hw : wrap32 (if c then MAX_LOG_ENTRIES else n)
       = (if c then MAX_LOG_ENTRIES else n))
end.
{ unfold wrap32. apply Z.mod_small.
match goal with
| |- context [if ?c then _ else _] => destruct c eqn:E
end; [|apply Z.ltb_ge in E]; lia. }
simpl in *. rewrite Hw in *.
unfold ring_ok, ring_used. simpl.
rewrite HN, Hv, Hf, Hr, Hl, Hnil. simpl.
rewrite Z.mod_0_l by lia.
match goal with
| |- context [if ?c then _ else _] => destruct c eqn:E
end; [|apply Z.ltb_ge in E]; repeat split; lia.
Qed.

Lemma rwl_init_open_ring rwl_size pool errno on_finish s0 later s :
m_log_entries s0 = [] ->
0 <= first_valid_entry (pool_root pool) <= first_free_entry (pool_root pool) ->
first_free_entry (pool_root pool) < num_log_entries (pool_root pool) ->
2 < num_log_entries (pool_root pool) <= 2 ^ 32 ->
rwl_init rwl_size (PoolOpens pool) errno on_finish s0 = Some (later, s) ->
m_initialized s = true ->
ring_ok s 0.
Proof.
unfold rwl_init. intros Hnil Hv Hf HN Hi Hinit.
apply bind_Some in Hi as (? & Hni & Hi). apply check_Some in Hni.
apply negb_true_iff in Hni.
destruct (negb (layout_version (pool_root pool) =? RWL_POOL_VERSION)).
{ injection Hi as <- <-. simpl in Hinit. congruence. }
destruct (negb (block_size (pool_root pool) =? MIN_WRITE_ALLOC_SIZE)).
{ injection Hi as <- <-. simpl in Hinit. congruence. }
simpl in Hi.
set (N := num_log_entries (pool_root pool)) in *.
set (fv := first_valid_entry (pool_root pool)) in *.
set (ff := first_free_entry (pool_root pool)) in *.
assert (Hused : (ff - fv) mod N = ff - fv) by (apply Z.mod_small; lia).
destruct (Z.ltb_spec ff fv); [lia|].
apply bind_Some in Hi as ([later1 s1] & Hs1 & Hi).
apply bind_Some in Hi as ([added s2] & Hs2 & Hi).
injection Hi as <- <-.
apply init_flush_new_sync_point_ring in Hs2 as (HN2 & Hv2 & Hf2 & Hr2 & Hl2).
apply load_existing_entries_ring in Hs1 as (HN1 & Hv1 & Hf1 & Hr1 & Hl1);
[|assumption|assumption|simpl; lia|simpl; lia].
unfold ring_ok, ring_used in *; simpl in *.
rewrite HN2, Hv2, Hf2, Hr2, Hl2, HN1, Hv1, Hf1, Hr1, Hl1.
rewrite Hused. repeat split; lia.
Qed.

Lemma ring_used_after_alloc (N ff fv k : Z) :
0 < N -> 0 <= k -> (ff - fv) mod N + k < N ->
((ff + k) mod N - fv) mod N = (ff - fv) mod N + k.
Proof.
intros HN Hk Hlt. rewrite Zminus_mod_idemp_l.
replace (ff + k - fv) with (ff - fv + k) by lia.
rewrite <- Zplus_mod_idemp_l.
pose proof (Z.mod_pos_bound (ff - fv) N HN).
apply Z.mod_small. lia.
Qed.

Lemma ring_reach_ok s reserved :
MAX_LOG_ENTRIES < 2 ^ 32 -> ring_reach s reserved -> ring_ok s reserved.
Proof.
intros HM Hreach. induction Hreach.
- eapply rwl_init_create_ring; eassumption.
- eapply rwl_init_open_ring; eassumption.
- match goal with
| Ha : alloc_write_resources _ _ _ = Some _, Hq : _ !! _ = Some _ |- _ =>
destruct (alloc_write_resources_ring _ _ _ _ _ _ Ha Hq)
as (HN & Hv & Hf & Hl & Hr & Hle)
end.
unfold ring_ok, ring_used in *.
rewrite HN, Hv, Hf, Hl, Hr. destruct ok; [specialize (Hle eq_refl)|];
repeat split; lia.
- match goal with
| Ha : alloc_flush_resources _ _ = Some _ |- _ =>
destruct (alloc_flush_resources_ring _ _ _ _ Ha)
as (HN & Hv & Hf & Hl & Hr & Hle)
end.
unfold ring_ok, ring_used in *.
rewrite HN, Hv, Hf, Hl, Hr. destruct ok; [specialize (Hle eq_refl)|];
repeat split; lia.
- match goal with
| Ha : alloc_op_log_entries _ _ = Some _ |- _ =>
destruct (alloc_op_log_entries_ring _ _ _ Ha)
as (HN & Hv & Hr & Hf & Hl); [apply IHHreach|]
end.
unfold ring_ok, ring_used in *.
destruct IHHreach as (HN0 & Hv0 & Hf0 & Hfree0 & Hres0 & Hlen0 & Hsum0).
rewrite HN, Hv, Hr, Hf, Hl.
rewrite (ring_used_after_alloc _ _ _ (Z.of_nat (length ops))) by lia.
pose proof (Z.mod_pos_bound (m_first_free_entry s + Z.of_nat (length ops))
      (m_total_log_entries s)).
repeat split; lia.
- eapply retire_entries_ring; eassumption.
- match goal with
| Hs : ring_same _ _ |- _ => destruct Hs as (HN & Hv & Hf & Hr & Hl)
end.
unfold ring_ok, ring_used in *. rewrite HN, Hv, Hf, Hr, Hl. assumption.
Qed.

End RingFrames.

Section C5.
Context `{Constants}.

(** C5 (as the code has it).  In every state the cache reaches from the
creation or the re-opening of a pool, by reservations, slot
allocations for append batches, retirements and steps that leave the
ring alone,
free_log_entries + reserved + ((first_free_entry - first_valid_entry)
mod N) = N - 1, where reserved is the number of log entries that
requests have reserved and that have not been given a slot yet; the
equation of the specification holds whenever no reservation is
outstanding. *)
Theorem ring_accounting_with_reservations (s : RWL) (reserved : Z) :
MAX_LOG_ENTRIES < 2 ^ 32 ->
ring_reach s reserved ->
m_free_log_entries s + reserved + ring_used s = m_total_log_entries s - 1
/\ (reserved = 0 -> ring_invariant_as_specified s).
Proof.
intros HM Hreach.
destruct (ring_reach_ok s reserved HM Hreach) as (_ & _ & _ & _ & _ & _ & Hsum).
split; [exact Hsum|]. intros ->. unfold ring_invariant_as_specified. lia.
Qed.

End C5.

(** C5 as stated fails: with two writes dispatched and the append batch of
    the first one given its slot, one reservation is outstanding and
    free_log_entries + used is N - 2. *)
Lemma ring_invariant_fails_with_reservation :
  match two_reservations_one_slot with
  | Some s =>
      m_free_log_entries s = 1021 /\ ring_used s = 1 /\
      m_total_log_entries s = 1024 /\ ~ ring_invariant_as_specified s
  | None => False
  end.
Proof.
  vm_compute. repeat split; try reflexivity. intros Hc. discriminate Hc.
Qed.

Section RingSteps.
Context `{Constants}.

(** A reservation that succeeds, and a slot allocation, with the number
of reservations they leave. *)
Lemma reach_reserved s reserved write_req oids q s' (n : nat) reserved' :
ring_reach s reserved ->
request_objs s !! write_req = Some q ->
alloc_write_resources write_req oids s = Some (true, s') ->
length (m_image_extents q) = n ->
reserved' = reserved + Z.of_nat n ->
ring_reach s' reserved'.
Proof.
intros Hr Hq Ha <- ->.
exact (reach_alloc_write s reserved write_req oids q true s' Hr Hq Ha).
Qed.

Lemma reach_slots s reserved ops s' reserved' :
ring_reach s reserved ->
Z.of_nat (length ops) <= reserved ->
alloc_op_log_entries ops s = Some s' ->
reserved' = reserved - Z.of_nat (length ops) ->
ring_reach s' reserved'.
Proof.
intros Hr Hle Ha ->. exact (reach_alloc_slots s reserved ops s' Hr Hle Ha).
Qed.

End RingSteps.

Lemma ring_accounting_with_reservations_witness :
  m_free_log_entries (default blank_cache two_reservations_one_slot) + 1
  + ring_used (default blank_cache two_reservations_one_slot)
  = m_total_log_entries (default blank_cache two_reservations_one_slot) - 1 /\
  (1 = 0 ->
   ring_invariant_as_specified (default blank_cache two_reservations_one_slot)).
Proof.
  pose (requested2 :=
          default blank_cache
            (s ← aio_write [(4096, 512)] (replicate 512 x00) 0 (CallerCtx 2)
                   written_cache;
             aio_write_guarded 1 2 false s)).
  pose (allocated2 :=
          default blank_cache
            (snd <$> alloc_write_resources (H := sample_constants) 1 [101]
                       requested2)).
  pose (written2 :=
          default blank_cache
            (dispatch_aio_write (H := sample_constants) 1 allocated2)).
  apply (ring_accounting_with_reservations (H := sample_constants)
           (default blank_cache two_reservations_one_slot) 1).
  - vm_compute. reflexivity.
  - apply (reach_slots (H := sample_constants) written2 2
             [WriteLogOperation 1 (replicate 512 x00) 100]).
    + apply (reach_other (H := sample_constants) allocated2 2 written2).
      * apply (reach_reserved (H := sample_constants) requested2 1 1%nat [101]
                 (default (new_request false [] [] 0 (CallerCtx 0))
                    (request_objs requested2 !! 1%nat))
                 allocated2 1%nat).
        -- apply (reach_other (H := sample_constants) written_cache 1
                    requested2).
           ++ apply (reach_other (H := sample_constants) allocated_cache 1
                       written_cache).
              ** apply (reach_reserved (H := sample_constants)
                          requested_cache 0 0%nat [100]
                          (default (new_request false [] [] 0 (CallerCtx 0))
                             (request_objs requested_cache !! 0%nat))
                          allocated_cache 1%nat).
                 --- apply (reach_other (H := sample_constants)
                              created_cache 0 requested_cache).
                     +++ apply (reach_create (H := sample_constants) 0 0
                                  (CallerCtx 0) blank_cache
                                  (default []
                                     (fst <$> rwl_init (H := sample_constants)
                                                0 (NoPoolFile false true) 0
                                                (CallerCtx 0) blank_cache))
                                  created_cache).
                         *** reflexivity.
                         *** vm_compute. reflexivity.
                     +++ unfold ring_same; split; [|split; [|split; [|split]]];
        vm_compute; reflexivity.
                 --- vm_compute. reflexivity.
                 --- vm_compute. reflexivity.
                 --- vm_compute. reflexivity.
                 --- reflexivity.
              ** unfold ring_same; split; [|split; [|split; [|split]]];
        vm_compute; reflexivity.
           ++ unfold ring_same; split; [|split; [|split; [|split]]];
        vm_compute; reflexivity.
        -- vm_compute. reflexivity.
        -- vm_compute. reflexivity.
        -- vm_compute. reflexivity.
        -- reflexivity.
      * unfold ring_same; split; [|split; [|split; [|split]]];
        vm_compute; reflexivity.
    + vm_compute. discriminate.
    + vm_compute. reflexivity.
    + reflexivity.
Defined.

(** The re-opening of a pool whose valid entries wrap around the end of the
    ring: with first_valid = first_free + 1 every slot but one is in use and
    no log entry is free (as the comment in rwl_init says); rwl_init counts
    N - 2 free entries. *)
Example rwl_init_wrapped_ring :
  match rwl_init (H := sample_constants) 0 (PoolOpens wrapped_pool) 0
          (CallerCtx 0) blank_cache with
  | Some (_, s) =>
      m_initialized s = true /\ m_total_log_entries s = 4 /\
      ring_used s = 3 /\ m_free_log_entries s = 2
  | None => False
  end.
Proof. vm_compute. repeat split; reflexivity. Qed.

Lemma add_log_entry_locked_resolves_overlaps_witness :
  exists h' m',
    WriteLogMap.add_log_entry_locked 1 (sample_log_entries, sample_map)
      = Some (h', m') /\
    m' ≡ₚ concat (WriteLogMapSpec.resolve_overlap
                    (log_block_extent (sample_write 1024 512 1 1 8))
                    <$> sample_map)
           ++ [mkMapEntry (log_block_extent (sample_write 1024 512 1 1 8))
                          (Some 1%nat)] /\
    WriteLogMapSpec.map_wf m' /\ WriteLogMapSpec.no_overlap m' /\
    forall j : nat,
      h' !! j =
      WriteLogMapSpec.add_to_refs
        (WriteLogMapSpec.refs_change
           (log_block_extent (sample_write 1024 512 1 1 8)) sample_map j
         + (if decide (Some 1%nat = Some j) then 1 else 0))
        <$> sample_log_entries !! j.
Proof.
  apply (add_log_entry_locked_resolves_overlaps sample_log_entries sample_map
           1%nat (sample_write 1024 512 1 1 8)).
  - split.
    + repeat constructor.
    + repeat constructor; vm_compute; congruence.
  - repeat constructor. exists 0%nat. split; [reflexivity|].
    exists (set_referring_map_entries 1 (sample_write 0 4096 1 0 7)).
    reflexivity.
  - reflexivity.
  - reflexivity.
  - repeat split; vm_compute; congruence.
Defined.

Lemma flush_entry_done_spec_witness :
  exists s' e',
    flush_entry_done 0 false (- EIO)
      cache_at_flush_limit = Some s' /\
    log_entry_objs s' !! 0%nat = Some e' /\
    flushing e' = false /\
    m_flush_ops_in_flight s' = m_flush_ops_in_flight cache_at_flush_limit - 1 /\
    m_flush_bytes_in_flight s' =
      m_flush_bytes_in_flight cache_at_flush_limit
      - write_bytes (ram_entry (sample_write 0 512 1 0 7)) /\
    (trace s' = trace cache_at_flush_limit \/
     trace s' = trace cache_at_flush_limit ++ [EvQueue ProcessWorkCtx]) /\
    (- EIO < 0 ->
       m_dirty_log_entries s' = 0%nat :: m_dirty_log_entries cache_at_flush_limit /\
       flushed e' = flushed (sample_write 0 512 1 0 7) /\
       m_bytes_dirty s' = m_bytes_dirty cache_at_flush_limit) /\
    (0 <= - EIO ->
       m_dirty_log_entries s' = m_dirty_log_entries cache_at_flush_limit /\
       flushed e' = true /\
       m_bytes_dirty s' =
         m_bytes_dirty cache_at_flush_limit
         - write_bytes (ram_entry (sample_write 0 512 1 0 7))).
Proof.
  apply (flush_entry_done_spec cache_at_flush_limit
           0%nat (sample_write 0 512 1 0 7) false (- EIO)).
  - reflexivity.
  - left. vm_compute. reflexivity.
Defined.

Section WriteLogMapRemove.
Import WriteLogMap WriteLogMapSpec.

Implicit Types (m l : list WriteLogMapEntry) (e x k : WriteLogMapEntry).
Implicit Types (h : LogEntries).

Local Abbreviation ext := me_block_extent.

Lemma map_wf_NoDup m : map_wf m -> NoDup m.
Proof.
induction m as [|e m IH]; intros Hwf; [constructor|].
apply map_wf_cons in Hwf as (He & Hlt & Hwf).
constructor; [|auto].
intros Hin. rewrite Forall_forall in Hlt. specialize (Hlt e Hin).
destruct He as (? & ? & ?). unfold entry_lt in Hlt. lia.
Qed.

Lemma count_refs_perm m m' (i : nat) :
m ≡ₚ m' -> count_refs m i = count_refs m' i.
Proof. intros Hp. unfold count_refs. rewrite Hp. reflexivity. Qed.

Lemma count_refs_app m m' (i : nat) :
count_refs (m ++ m') i = count_refs m i + count_refs m' i.
Proof. unfold count_refs. rewrite filter_app, length_app. lia. Qed.

Lemma count_refs_none m (i : nat) :
(forall e, e ∈ m -> me_log_entry e <> Some i) -> count_refs m i = 0.
Proof.
intros Hn. unfold count_refs.
replace (filter (fun e => me_log_entry e = Some i) m) with (@nil WriteLogMapEntry);
[reflexivity|].
symmetry. induction m as [|e m IH]; [reflexivity|].
rewrite filter_cons. destruct (decide _) as [Heq|_].
- exfalso. apply (Hn e); [left|exact Heq].
- apply IH. intros e' He'. apply Hn. right. exact He'.
Qed.

Lemma count_refs_filter_other m (i j : nat) :
i <> j ->
count_refs (filter (fun e => me_log_entry e <> Some i) m) j = count_refs m j.
Proof.
intros Hij. unfold count_refs. induction m as [|e m IH]; [reflexivity|].
rewrite !filter_cons.
destruct (decide (me_log_entry e <> Some i)) as [Hn|Hn].
- rewrite filter_cons. destruct (decide (me_log_entry e = Some j)); simpl; lia.
- destruct (decide (me_log_entry e = Some j)) as [Hj|Hj]; [|exact IH].
exfalso. apply Hn. rewrite Hj. congruence.
Qed.

Lemma set_referring_map_entries_id (le : GenericLogEntry) :
set_referring_map_entries (referring_map_entries le) le = le.
Proof. destruct le. reflexivity. Qed.

(** The loop of [remove_log_entry_locked] erases the hits that refer to
the log entry and takes one reference off for each. *)
Lemma remove_hits_spec (id : nat) hits :
forall h m rest (le : GenericLogEntry),
map_wf m -> m ≡ₚ hits ++ rest -> h !! id = Some le ->
exists m',
remove_hits id hits (h, m) =
Some (<[id := add_to_refs (- count_refs hits id) le]> h, m') /\
map_wf m' /\
m' ≡ₚ filter (fun e => me_log_entry e <> Some id) hits ++ rest.
Proof.
induction hits as [|hit hits IH]; intros h m rest le Hwf Hp Hid.
- exists m. simpl. split; [|split; [exact Hwf|exact Hp]].
unfold count_refs. simpl. rewrite add_to_refs_0, insert_id by exact Hid.
reflexivity.
- simpl. destruct (decide (me_log_entry hit = Some id)) as [Hhit|Hhit].
+ assert (Hin : hit ∈ m) by (rewrite Hp; left).
apply list_elem_of_lookup in Hin as [i Hi].
unfold remove_map_entry_locked.
rewrite (set_find_wf m i hit Hwf Hi). simpl. rewrite Hi. simpl.
rewrite Hhit. unfold add_refs. simpl. rewrite Hid. simpl.
destruct (IH (<[id := set_referring_map_entries
                  (referring_map_entries le + -1) le]> h)
      (delete i m) rest (add_to_refs (-1) le))
as (m' & Hrun & Hwf' & Hp').
{ apply map_wf_delete. exact Hwf. }
{ apply (Permutation_cons_inv (a := hit)).
rewrite <- (delete_Permutation m i hit Hi). exact Hp. }
{ apply lookup_insert_eq. }
exists m'. rewrite Hrun. split; [|split; [exact Hwf'|]].
* rewrite insert_insert_eq, add_to_refs_add. do 4 f_equal.
unfold count_refs. rewrite filter_cons_True by exact Hhit.
simpl length. lia.
* rewrite filter_cons_False by (intros Hc; apply Hc; exact Hhit).
exact Hp'.
+ destruct (IH h m (hit :: rest) le Hwf) as (m' & Hrun & Hwf' & Hp').
{ rewrite Hp. simpl. apply Permutation_middle. }
{ exact Hid. }
exists m'. rewrite Hrun. split; [|split; [exact Hwf'|]].
* do 4 f_equal. unfold count_refs.
rewrite filter_cons_False by exact Hhit. reflexivity.
* rewrite filter_cons_True by exact Hhit. rewrite Hp'.
simpl. symmetry. apply Permutation_middle.
Qed.

Lemma equal_range_Permutation k m :
exists rest, m ≡ₚ equal_range k m ++ rest.
Proof.
apply submseteq_Permutation, sublist_submseteq. unfold equal_range.
etransitivity; [apply sublist_take | apply sublist_drop].
Qed.

(** [remove_log_entry] erases the map entries that refer to the log entry
and leaves its back-reference count at zero. *)
Lemma remove_log_entry_consistent h m (id : nat) (le : GenericLogEntry) :
map_consistent h m -> h !! id = Some le ->
exists m',
remove_log_entry id (h, m) =
Some (<[id := set_referring_map_entries 0 le]> h, m') /\
map_consistent (<[id := set_referring_map_entries 0 le]> h) m' /\
(forall e, e ∈ m' <-> e ∈ m /\ me_log_entry e <> Some id).
Proof.
intros (Hwf & Hb & Hc) Hid. rewrite Forall_forall in Hb.
unfold remove_log_entry. simpl. rewrite Hid. simpl.
destruct (is_write (ram_entry le)) eqn:Hw; simpl.
- unfold remove_log_entry_locked. rewrite ?Hid. simpl. rewrite ?Hw. simpl.
unfold find_map_entries_locked.
set (k := mkMapEntry (log_block_extent le) None).
destruct (equal_range_Permutation k m) as [rest Hp].
remember (equal_range k m) as hits eqn:Hhits.
destruct (remove_hits_spec id hits h m rest le Hwf Hp Hid)
as (m' & Hrun & Hwf' & Hp').
assert (Hrest : forall e, e ∈ rest -> me_log_entry e <> Some id).
{ intros e He Heid.
assert (Hem : e ∈ m) by (rewrite Hp, elem_of_app; right; exact He).
destruct (Hb e Hem) as (i & le' & Hi & Hle' & _ & Hok & Hin).
assert (i = id) by congruence. subst i.
assert (le' = le) by congruence. subst le'.
assert (Hhit : e ∈ hits).
{ rewrite Hhits, (equal_range_filter k m Hwf Hok).
apply list_elem_of_filter. split; [|exact Hem].
apply Is_true_true, overlapsb_spec.
pose proof (map_wf_elem m e Hwf Hem) as (? & ? & ?).
destruct Hin as [? ?]. simpl in *. unfold overlaps. simpl. lia. }
pose proof (map_wf_NoDup m Hwf) as Hnd. rewrite Hp in Hnd.
apply NoDup_app in Hnd as (_ & Hdis & _). exact (Hdis e Hhit He). }
assert (Hcnt : count_refs hits id = referring_map_entries le).
{ rewrite (Hc id le Hid), (count_refs_perm _ _ id Hp), count_refs_app.
rewrite (count_refs_none rest id Hrest). lia. }
assert (Hmem : forall e, e ∈ m' <-> e ∈ m /\ me_log_entry e <> Some id).
{ intros e. rewrite Hp', Hp, !elem_of_app, list_elem_of_filter.
split.
- intros [[? ?]|?]; [tauto|]. split; [tauto|]. apply Hrest. assumption.
- intros [[?|?] ?]; tauto. }
exists m'. rewrite Hrun, Hcnt.
replace (add_to_refs (- referring_map_entries le) le)
with (set_referring_map_entries 0 le)
by (unfold add_to_refs; f_equal; lia).
split; [reflexivity|]. split; [|exact Hmem].
split; [exact Hwf'|]. split.
+ rewrite Forall_forall. intros e He. apply Hmem in He as [He Hne].
destruct (Hb e He) as (i & le' & Hi & Hle' & Hrest').
exists i, le'. split; [exact Hi|]. split; [|exact Hrest'].
rewrite lookup_insert_ne; [exact Hle'|]. congruence.
+ intros i le' Hi. destruct (decide (id = i)) as [<-|Hne].
* rewrite lookup_insert_eq in Hi. injection Hi as <-. simpl.
symmetry. apply count_refs_none. intros e He. apply Hmem in He. tauto.
* rewrite lookup_insert_ne in Hi by exact Hne.
rewrite (Hc i le' Hi), (count_refs_perm _ _ i Hp), (count_refs_perm _ _ i Hp').
rewrite !count_refs_app, count_refs_filter_other by exact Hne.
reflexivity.
- assert (Hnone : forall e, e ∈ m -> me_log_entry e <> Some id).
{ intros e He Heid. destruct (Hb e He) as (i & le' & Hi & Hle' & Hw' & _).
congruence. }
assert (Hz : set_referring_map_entries 0 le = le).
{ rewrite <- (set_referring_map_entries_id le) at 2.
rewrite (Hc id le Hid), (count_refs_none m id Hnone). reflexivity. }
exists m. rewrite Hz, insert_id by exact Hid.
split; [reflexivity|]. split; [split; [|split]; [exact Hwf| |exact Hc]|].
+ rewrite Forall_forall. exact Hb.
+ intros e. split; [intros He; split; [exact He|apply Hnone; exact He]|tauto].
Qed.

End WriteLogMapRemove.

Section Retire.
Context `{Constants}.
Import WriteLogMapSpec.

Lemma wake_up_cases (s : RWL) :
wake_up s = s \/
wake_up s = set_m_wake_up_requested true s \/
wake_up s = emit (EvQueue ProcessWorkCtx)
    (set_m_wake_up_scheduled true (set_m_wake_up_requested true s)).
Proof.
unfold wake_up. destruct (negb (m_wake_up_enabled s)); [auto|].
destruct (m_wake_up_requested s && m_wake_up_scheduled s); [auto|].
simpl. destruct (m_wake_up_scheduled s); auto.
Qed.

Lemma retire_accounting_frame retiring :
forall s s', retire_accounting retiring s = Some s' ->
s' = set_m_bytes_allocated (m_bytes_allocated s')
 (set_m_bytes_cached (m_bytes_cached s') s).
Proof.
induction retiring as [|e rest IH]; intros s s' Hr; simpl in Hr.
- injection Hr as <-. destruct s. reflexivity.
- apply bind_Some in Hr as (x & Hx & Hr).
apply bind_Some in Hr as (s1 & Hs1 & Hr).
apply IH in Hr.
destruct (is_write (ram_entry x)); inv_option; subst s1;
(etransitivity; [exact Hr|reflexivity]).
Qed.

Lemma ring_next_wrap32 (N fve : Z) :
0 < N <= 2 ^ 32 -> 0 <= fve < N ->
wrap32 (fve + 1) mod N = (fve + 1) mod N.
Proof.
intros HN Hf. unfold wrap32.
destruct (Z.eq_dec (fve + 1) (2 ^ 32)) as [E|E].
- rewrite E. replace N with (2 ^ 32) by lia. reflexivity.
- rewrite (Z.mod_small (fve + 1) (2 ^ 32)) by lia. reflexivity.
Qed.

Lemma retired_buffers_ext (h h' : LogEntries) (l : list nat) :
(forall j, j ∈ l ->
 h' !! j = h !! j \/ h' !! j = set_referring_map_entries 0 <$> h !! j) ->
retired_buffers h' l = retired_buffers h l.
Proof.
intros Hh. unfold retired_buffers. induction l as [|x l IH]; [reflexivity|].
cbn [omap list_omap].
rewrite IH by (intros j Hj; apply Hh; right; exact Hj).
destruct (Hh x) as [Hx|Hx]; [left| |]; rewrite Hx; [reflexivity|].
destruct (h !! x); reflexivity.
Qed.

(** The first loop of [retire_entries] on a cache whose map is
consistent. *)
Lemma retire_loop_spec frees_per_tx entries :
forall retiring fve s retiring' fve' s',
m_log_entries s = entries ->
0 < m_total_log_entries s <= 2 ^ 32 ->
0 <= fve < m_total_log_entries s ->
map_consistent (log_entry_objs s) (m_blocks_to_log_entries s) ->
retire_loop frees_per_tx entries retiring fve s
= Some (retiring', fve', s') ->
exists retired,
retiring' = retiring ++ retired /\
m_log_entries s = retired ++ m_log_entries s' /\
Z.of_nat (length retiring')
<= Z.max frees_per_tx (Z.of_nat (length retiring)) /\
fve' = (fve + Z.of_nat (length retired)) mod m_total_log_entries s /\
s' = set_m_blocks_to_log_entries (m_blocks_to_log_entries s')
 (set_log_entry_objs (log_entry_objs s')
    (set_m_log_entries (m_log_entries s') s)) /\
map_consistent (log_entry_objs s') (m_blocks_to_log_entries s') /\
(forall (i : nat) id, retired !! i = Some id ->
 exists e, log_entry_objs s !! id = Some e /\
 completed e = true /\
 log_entry_index e = (fve + Z.of_nat i) mod m_total_log_entries s /\
 (is_write (ram_entry e) = true ->
  flushed e = true /\ reader_count e = 0)) /\
(forall j : nat,
 log_entry_objs s' !! j =
 if decide (j ∈ retired)
 then set_referring_map_entries 0 <$> log_entry_objs s !! j
 else log_entry_objs s !! j) /\
(forall me, me ∈ m_blocks_to_log_entries s' <->
 me ∈ m_blocks_to_log_entries s /\
 forall id, id ∈ retired -> me_log_entry me <> Some id) /\
(retired = [] -> s' = s).
Proof.
induction entries as [|entry rest IH];
intros retiring fve s retiring' fve' s' Hlog HN Hf Hcon Hr.
all: assert (Hstop : Some (retiring, fve, s) = Some (retiring', fve', s') ->
exists retired,
retiring' = retiring ++ retired /\
m_log_entries s = retired ++ m_log_entries s' /\
Z.of_nat (length retiring')
<= Z.max frees_per_tx (Z.of_nat (length retiring)) /\
fve' = (fve + Z.of_nat (length retired)) mod m_total_log_entries s /\
s' = set_m_blocks_to_log_entries (m_blocks_to_log_entries s')
 (set_log_entry_objs (log_entry_objs s')
    (set_m_log_entries (m_log_entries s') s)) /\
map_consistent (log_entry_objs s') (m_blocks_to_log_entries s') /\
(forall (i : nat) id, retired !! i = Some id ->
 exists e, log_entry_objs s !! id = Some e /\
 completed e = true /\
 log_entry_index e = (fve + Z.of_nat i) mod m_total_log_entries s /\
 (is_write (ram_entry e) = true ->
  flushed e = true /\ reader_count e = 0)) /\
(forall j : nat,
 log_entry_objs s' !! j =
 if decide (j ∈ retired)
 then set_referring_map_entries 0 <$> log_entry_objs s !! j
 else log_entry_objs s !! j) /\
(forall me, me ∈ m_blocks_to_log_entries s' <->
 me ∈ m_blocks_to_log_entries s /\
 forall id, id ∈ retired -> me_log_entry me <> Some id) /\
(retired = [] -> s' = s)).
1, 3: (intros Hst; injection Hst as <- <- <-; exists []; simpl;
rewrite app_nil_r, Z.add_0_r, Z.mod_small by lia;
split; [reflexivity|]; split; [reflexivity|]; split; [lia|];
split; [reflexivity|]; split; [destruct s; reflexivity|];
split; [exact Hcon|];
split; [intros i id Hi; rewrite lookup_nil in Hi; discriminate|];
split; [intros j; destruct (decide (j ∈ [])) as [Hin|_];
  [apply elem_of_nil in Hin; contradiction|reflexivity]|];
split; [|intros _; reflexivity];
intros me; split; [intros Hme; split; [exact Hme|];
             intros id Hin; apply elem_of_nil in Hin; contradiction
            |tauto]).
- simpl in Hr. apply Hstop. exact Hr.
- simpl in Hr.
destruct (Z.ltb_spec (Z.of_nat (length retiring)) frees_per_tx) as [Hlt|_];
[|apply Hstop; exact Hr].
apply bind_Some in Hr as (b & Hb & Hr).
destruct b; [|apply Hstop; exact Hr]. clear Hstop.
apply bind_Some in Hr as (e & He & Hr).
apply bind_Some in Hr as (? & Hcompl & Hr). apply check_Some in Hcompl.
apply bind_Some in Hr as (? & Hidx & Hr). apply check_Some in Hidx.
apply Z.eqb_eq in Hidx.
apply bind_Some in Hr as (s2 & Hs2 & Hr).
unfold can_retire_entry in Hb. rewrite He in Hb. simpl in Hb.
rewrite Hcompl in Hb. simpl in Hb.
destruct (remove_log_entry_consistent _ _ entry e Hcon He)
as (m' & Hrem & Hcon' & Hmem').
set (h1 := <[entry := set_referring_map_entries 0 e]> (log_entry_objs s)) in *.
assert (Hs2' : s2 = set_m_blocks_to_log_entries m'
              (set_log_entry_objs h1 (set_m_log_entries rest s)) /\
       (is_write (ram_entry e) = true ->
          flushed e = true /\ reader_count e = 0)).
{ destruct (is_write (ram_entry e)) eqn:Hw.
- apply bind_Some in Hs2 as (s3 & Hs3 & Hs2).
unfold map_remove_log_entry in Hs3. simpl in Hs3.
rewrite Hrem in Hs3. simpl in Hs3. injection Hs3 as <-.
inv_option. subst s2. split; [reflexivity|]. intros _.
apply andb_true_iff in Hb as [? ?]. split; [assumption|].
apply Z.eqb_eq. assumption.
- injection Hs2 as <-. split; [|discriminate].
unfold WriteLogMap.remove_log_entry in Hrem. cbn [fst] in Hrem.
rewrite He in Hrem. simpl in Hrem. rewrite Hw in Hrem. simpl in Hrem.
injection Hrem as Hh Hm. fold h1 in Hh. rewrite <- Hh, <- Hm.
destruct s. reflexivity. }
destruct Hs2' as [-> Hwr].
pose proof (ring_next_wrap32 _ _ HN Hf) as Hnext. simpl in Hr.
apply IH in Hr; [|reflexivity|exact HN
         |simpl; rewrite Hnext; apply Z.mod_pos_bound; lia
         |exact Hcon'].
destruct Hr as (done & Hret & Hent & Hlen & Hfve & Hfr & Hcon2 & Hprops
        & Hheap & Hmap & _).
simpl in Hfve, Hprops, Hheap, Hmap.
exists (entry :: done).
split; [rewrite Hret, <- app_assoc; reflexivity|].
split; [simpl in Hent; rewrite Hlog; simpl; f_equal; exact Hent|].
split; [rewrite length_app in Hlen; simpl in Hlen; lia|].
split.
{ rewrite Hfve, Hnext, Zplus_mod_idemp_l. f_equal. simpl length. lia. }
split; [etransitivity; [exact Hfr|reflexivity]|].
split; [exact Hcon2|].
split.
{ intros [|i] id Hi; simpl in Hi.
- injection Hi as <-. exists e. split; [exact He|].
split; [exact Hcompl|]. split; [|exact Hwr].
rewrite Hidx, Z.add_0_r, Z.mod_small by lia. reflexivity.
- destruct (Hprops i id Hi) as (e' & He' & Hc' & Hi' & Hw').
assert (Hidx' : (wrap32 (fve + 1) mod m_total_log_entries s
             + Z.of_nat i) mod m_total_log_entries s
            = (fve + Z.of_nat (S i)) mod m_total_log_entries s).
{ rewrite Hnext, Zplus_mod_idemp_l. f_equal. lia. }
rewrite Hidx' in Hi'.
subst h1. destruct (decide (entry = id)) as [<-|Hne].
+ rewrite lookup_insert_eq in He'. injection He' as <-.
exists e. simpl in *. auto.
+ rewrite lookup_insert_ne in He' by exact Hne.
exists e'. auto. }
split.
{ intros j. rewrite Hheap. subst h1.
destruct (decide (entry = j)) as [<-|Hne].
- rewrite lookup_insert_eq, He.
rewrite (decide_True (P := entry ∈ entry :: done)) by left.
destruct (decide (entry ∈ done)); reflexivity.
- rewrite lookup_insert_ne by exact Hne.
destruct (decide (j ∈ done)) as [Hin|Hin].
+ rewrite decide_True by (right; exact Hin). reflexivity.
+ rewrite decide_False; [reflexivity|].
intros Hc. apply elem_of_cons in Hc as [->|Hc]; auto. }
split; [|intros Hc; discriminate Hc].
intros me. rewrite Hmap, Hmem'. split.
+ intros [[Hme Hne] Hd]. split; [exact Hme|].
intros id Hin. apply elem_of_cons in Hin as [->|Hin]; auto.
+ intros [Hme Hd]. split; [split; [exact Hme|apply Hd; left]|].
intros id Hin. apply Hd. right. exact Hin.
Qed.

End Retire.

Section C4.
Context `{Constants}.
Import WriteLogMapSpec.

(** C4.  On a cache whose map is consistent, a call of retire_entries
that returns retires at most frees_per_tx entries, the oldest ones of
the log; each of them is completed, sits in the slot that follows the
one before it, starting from the first valid entry, and, when it is a
write, is flushed, has no reader, and is left with no map entry that
refers to it and a back-reference count of zero.  When something is
retired, one transaction sets the root's first valid entry to the new
tail and frees the data buffers of the retired writes. *)
Theorem retire_entries_spec (frees_per_tx : Z) (commit : bool) (s : RWL)
(b : bool) (retired : list nat) (s' : RWL) :
0 < m_total_log_entries s <= 2 ^ 32 ->
0 <= m_first_valid_entry s < m_total_log_entries s ->
map_consistent (log_entry_objs s) (m_blocks_to_log_entries s) ->
retire_entries frees_per_tx commit s = Some (b, retired, s') ->
Z.of_nat (length retired) <= Z.max frees_per_tx 0 /\
m_log_entries s = retired ++ m_log_entries s' /\
(forall (i : nat) id, retired !! i = Some id ->
 exists e,
 log_entry_objs s !! id = Some e /\
 log_entry_objs s' !! id = Some (set_referring_map_entries 0 e) /\
 completed e = true /\
 log_entry_index e =
 (m_first_valid_entry s + Z.of_nat i) mod m_total_log_entries s /\
 (is_write (ram_entry e) = true ->
flushed e = true /\ reader_count e = 0) /\
 (forall me, me ∈ m_blocks_to_log_entries s' ->
me_log_entry me <> Some id)) /\
m_first_valid_entry s' =
(m_first_valid_entry s + Z.of_nat (length retired))
mod m_total_log_entries s /\
map_consistent (log_entry_objs s') (m_blocks_to_log_entries s') /\
(retired = [] -> b = false /\ s' = s) /\
(retired <> [] ->
 b = true /\ commit = true /\
 exists pool tx,
 tx = EvTransaction
  (TxSetFirstValidEntry (m_first_valid_entry s')
     :: (TxFree <$> retired_buffers (log_entry_objs s) retired)) /\
 m_log_pool s = Some pool /\
 m_log_pool s' =
 Some (set_pool_buffers
     (foldl (fun bufs oid => delete oid bufs) (pool_buffers pool)
        (retired_buffers (log_entry_objs s) retired))
     (set_root_first_valid_entry (m_first_valid_entry s') pool)) /\
 (trace s' = trace s ++ [tx] \/
trace s' = trace s ++ [tx; EvQueue ProcessWorkCtx])).
Proof.
intros HN Hf Hcon Hr. unfold retire_entries in Hr.
apply bind_Some in Hr as ([[retiring fve] s1] & Hloop & Hr).
unfold wrap32 in Hloop, Hr.
rewrite (Z.mod_small (m_first_valid_entry s) (2 ^ 32)) in Hloop, Hr by lia.
apply retire_loop_spec in Hloop
as (done & Hret & Hent & Hlen & Hfve & Hfr & Hcon1 & Hprops & Hheap & Hmap
& Hnil);
[|reflexivity|exact HN|exact Hf|exact Hcon].
simpl in Hret. subst retiring. simpl in Hlen.
assert (Hbuf : retired_buffers (log_entry_objs s1) done
     = retired_buffers (log_entry_objs s) done).
{ apply retired_buffers_ext. intros j Hj. rewrite Hheap.
rewrite decide_True by exact Hj. right. reflexivity. }
assert (Hentry : forall (i : nat) id, done !! i = Some id ->
 exists e,
 log_entry_objs s !! id = Some e /\
 log_entry_objs s1 !! id = Some (set_referring_map_entries 0 e) /\
 completed e = true /\
 log_entry_index e =
 (m_first_valid_entry s + Z.of_nat i) mod m_total_log_entries s /\
 (is_write (ram_entry e) = true ->
flushed e = true /\ reader_count e = 0) /\
 (forall me, me ∈ m_blocks_to_log_entries s1 ->
me_log_entry me <> Some id)).
{ intros i id Hi. destruct (Hprops i id Hi) as (e & He & Hc & Hidx & Hw).
assert (Hin : id ∈ done) by (apply list_elem_of_lookup; eauto).
exists e. split; [exact He|]. split.
{ rewrite Hheap, decide_True by exact Hin. rewrite He. reflexivity. }
split; [exact Hc|]. split; [exact Hidx|]. split; [exact Hw|].
intros me Hme. apply Hmap in Hme as [_ Hme]. apply Hme. exact Hin. }
destruct done as [|d0 done'].
- simpl in Hr. injection Hr as <- <- <-.
assert (Hs1 : s1 = s) by (apply Hnil; reflexivity).
subst s1. simpl.
rewrite Z.add_0_r, Z.mod_small by lia.
split; [lia|]. split; [reflexivity|].
split; [intros i id Hi; rewrite lookup_nil in Hi; discriminate|].
split; [reflexivity|]. split; [exact Hcon|].
split; [auto|]. intros Hc. contradiction.
- set (done := d0 :: done') in *.
assert (Hnz : negb (Z.of_nat (length done) =? 0) = true).
{ subst done. simpl length. apply negb_true_iff, Z.eqb_neq. lia. }
rewrite Hnz in Hr.
apply bind_Some in Hr as (pool & Hpool & Hr).
apply bind_Some in Hr as (? & Hcommit & Hr). apply check_Some in Hcommit.
apply bind_Some in Hr as (? & Hfv & Hr). clear Hfv.
apply bind_Some in Hr as (s2 & Hacc & Hr).
injection Hr as <- <- <-.
apply retire_accounting_frame in Hacc.
rewrite Hbuf in Hacc.
match goal with
| |- context [wake_up ?t] => set (s3 := t) in *
end.
assert (H3 : m_log_entries s3 = m_log_entries s1 /\
     log_entry_objs s3 = log_entry_objs s1 /\
     m_blocks_to_log_entries s3 = m_blocks_to_log_entries s1 /\
     m_first_valid_entry s3 = fve /\
     m_log_pool s3 =
       Some (set_pool_buffers
               (foldl (fun bufs oid => delete oid bufs)
                  (pool_buffers pool)
                  (retired_buffers (log_entry_objs s) done))
               (set_root_first_valid_entry fve pool)) /\
     trace s3 = trace s1 ++
       [EvTransaction
          (TxSetFirstValidEntry fve
             :: (TxFree <$> retired_buffers (log_entry_objs s) done))]).
{ subst s3. rewrite Hacc. simpl. repeat split; reflexivity. }
destruct H3 as (Hl3 & Ho3 & Hm3 & Hv3 & Hp3 & Ht3).
assert (Hs1 : m_log_pool s1 = m_log_pool s /\ trace s1 = trace s).
{ rewrite Hfr. simpl. split; reflexivity. }
destruct Hs1 as [Hp1 Ht1].
assert (Hw : m_log_entries (wake_up s3) = m_log_entries s3 /\
     log_entry_objs (wake_up s3) = log_entry_objs s3 /\
     m_blocks_to_log_entries (wake_up s3)
       = m_blocks_to_log_entries s3 /\
     m_first_valid_entry (wake_up s3) = m_first_valid_entry s3 /\
     m_log_pool (wake_up s3) = m_log_pool s3 /\
     (trace (wake_up s3) = trace s3 \/
      trace (wake_up s3) = trace s3 ++ [EvQueue ProcessWorkCtx])).
{ destruct (wake_up_cases s3) as [-> | [-> | ->]]; simpl; auto 10. }
destruct Hw as (Hl4 & Ho4 & Hm4 & Hv4 & Hp4 & Ht4).
rewrite Hl4, Ho4, Hm4, Hv4, Hp4, Hl3, Ho3, Hm3, Hv3, Hp3.
split; [lia|]. split; [exact Hent|]. split; [exact Hentry|].
split; [exact Hfve|]. split; [exact Hcon1|].
split; [intros Hc; discriminate Hc|]. intros _.
split; [reflexivity|]. split; [exact Hcommit|].
exists pool. eexists. split; [reflexivity|].
split; [rewrite <- Hp1; exact Hpool|]. split; [reflexivity|].
rewrite Ht3, Ht1 in Ht4. rewrite <- app_assoc in Ht4. exact Ht4.
Qed.

End C4.

Lemma retirable_cache_consistent :
  WriteLogMapSpec.map_consistent (log_entry_objs retirable_cache)
    (m_blocks_to_log_entries retirable_cache).
Proof.
  split; [|split].
  - split; repeat constructor; vm_compute; congruence.
  - repeat constructor. exists 0%nat. eexists.
    split; [reflexivity|]. split; [reflexivity|]. split; [reflexivity|].
    split; [repeat split; vm_compute; congruence|].
    split; vm_compute; congruence.
  - intros i e. change (log_entry_objs retirable_cache)
      with (set_flushed true <$> sample_log_entries).
    unfold sample_log_entries. rewrite lookup_fmap, lookup_insert.
    destruct (decide (0%nat = i)) as [<-|H0].
    { intros He. injection He as <-. reflexivity. }
    rewrite lookup_singleton.
    destruct (decide (1%nat = i)) as [<-|H1]; [|discriminate].
    intros He. injection He as <-. reflexivity.
Qed.

Lemma retire_entries_spec_witness :
  retire_entries (H := sample_constants) 8 true retirable_cache
    = Some (true, [0%nat; 1%nat], retired_cache) /\
  m_log_entries retirable_cache = [0%nat; 1%nat] ++ m_log_entries retired_cache /\
  m_first_valid_entry retired_cache = 2 /\
  trace retired_cache =
    [EvTransaction [TxSetFirstValidEntry 2; TxFree 7; TxFree 8];
     EvQueue ProcessWorkCtx].
Proof.
  assert (Hrun : retire_entries (H := sample_constants) 8 true retirable_cache
                 = Some (true, [0%nat; 1%nat], retired_cache))
    by (vm_compute; reflexivity).
  split; [exact Hrun|].
  destruct (retire_entries_spec (H := sample_constants) 8 true retirable_cache
              true [0%nat; 1%nat] retired_cache)
    as (_ & Hlog & _ & Hfv & _ & _ & Htx).
  - vm_compute. split; [reflexivity|discriminate].
  - vm_compute. split; [discriminate|reflexivity].
  - exact retirable_cache_consistent.
  - exact Hrun.
  - split; [exact Hlog|]. split; [exact Hfv|].
    vm_compute. reflexivity.
Defined.

Section EarlierChain.

Implicit Types (objs : gmap nat SyncPoint) (prev : option nat) (l : list nat).

Lemma earlier_chain_det objs prev l1 l2 :
earlier_chain objs prev l1 -> earlier_chain objs prev l2 -> l1 = l2.
Proof.
intros H1. revert l2. induction H1 as [|p sp l Hp _ IH]; intros l2 H2.
- inversion H2. reflexivity.
- inversion H2 as [|p' sp' l' Hp' Hl']; subst.
rewrite Hp in Hp'. injection Hp' as <-. f_equal. apply IH. exact Hl'.
Qed.

Lemma earlier_chain_from objs prev l (q : nat) :
earlier_chain objs prev l -> q ∈ l ->
exists l1 l2, l = l1 ++ q :: l2 /\ earlier_chain objs (Some q) (q :: l2).
Proof.
intros Hc. induction Hc as [|p sp l Hp Hl IH]; intros Hq.
- apply elem_of_nil in Hq. contradiction.
- destruct (decide (q = p)) as [->|Hne].
+ exists [], l. split; [reflexivity|]. econstructor; eassumption.
+ apply elem_of_cons in Hq as [Hq|Hq]; [contradiction|].
destruct (IH Hq) as (l1 & l2 & -> & Hc2).
exists (p :: l1), l2. split; [reflexivity|exact Hc2].
Qed.

Lemma earlier_chain_NoDup objs prev l : earlier_chain objs prev l -> NoDup l.
Proof.
intros Hc. induction Hc as [|p sp l Hp Hl IH]; constructor; [|exact IH].
intros Hin.
destruct (earlier_chain_from _ _ _ p Hl Hin) as (l1 & l2 & Heq & Hc2).
assert (Hc1 : earlier_chain objs (Some p) (p :: l))
by (econstructor; eassumption).
pose proof (earlier_chain_det _ _ _ _ Hc1 Hc2) as Hsame.
injection Hsame as Hsame. rewrite Hsame in Heq.
apply (f_equal length) in Heq. rewrite length_app in Heq. simpl in Heq. lia.
Qed.

Lemma earlier_chain_dom objs prev l (p : nat) :
earlier_chain objs prev l -> p ∈ l -> is_Some (objs !! p).
Proof.
intros Hc. induction Hc as [|p' sp l Hp Hl IH]; intros Hin.
- apply elem_of_nil in Hin. contradiction.
- apply elem_of_cons in Hin as [->|Hin]; [eauto|auto].
Qed.

Lemma earlier_chain_length objs prev l :
earlier_chain objs prev l -> (length l <= size objs)%nat.
Proof.
intros Hc. rewrite <- size_dom.
rewrite <- (size_list_to_set (C := gset nat) l)
by (eapply earlier_chain_NoDup; eassumption).
apply subseteq_size. intros p Hp. apply elem_of_list_to_set in Hp.
apply elem_of_dom. eapply earlier_chain_dom; eassumption.
Qed.

Lemma earlier_chain_ext objs objs' prev l :
earlier_chain objs prev l ->
(forall p sp, p ∈ l -> objs !! p = Some sp ->
 exists sp', objs' !! p = Some sp' /\
 earlier_sync_point sp' = earlier_sync_point sp) ->
earlier_chain objs' prev l.
Proof.
intros Hc. induction Hc as [|p sp l Hp Hl IH]; intros Hsame; [constructor|].
destruct (Hsame p sp) as (sp' & Hp' & He); [left|exact Hp|].
econstructor; [exact Hp'|]. rewrite He. apply IH.
intros q sq Hq. apply Hsame. right. exact Hq.
Qed.

(** The walk of [flush_new_sync_point] ends, and finds every sync point of
the chain scheduled, when the chain is no longer than the fuel. *)
Lemma earlier_all_scheduled_chain (s : RWL) prev l (fuel : nat) :
earlier_chain (sync_point_objs s) prev l ->
(forall p sp, p ∈ l -> sync_point_objs s !! p = Some sp ->
 m_append_scheduled sp = true) ->
(length l <= fuel)%nat ->
earlier_all_scheduled fuel prev s = Some true.
Proof.
intros Hc. revert fuel.
induction Hc as [|p sp l Hp Hl IH]; intros fuel Hs Hf.
- destruct fuel; reflexivity.
- destruct fuel as [|fuel]; [simpl in Hf; lia|]. simpl.
rewrite Hp. simpl. rewrite (Hs p sp) by (left || exact Hp). simpl.
apply IH; [|simpl in Hf; lia].
intros q sq Hq. apply Hs. right. exact Hq.
Qed.

End EarlierChain.

Section SyncPointFacts.

Local Arguments earlier_all_scheduled : simpl never.

Lemma new_key_fresh {A} (m : gmap nat A) : m !! new_key m = None.
Proof. apply not_elem_of_dom. unfold new_key. apply is_fresh. Qed.

Lemma new_key_ne {A} (m : gmap nat A) (k : nat) (x : A) :
m !! k = Some x -> new_key m <> k.
Proof. intros Hk Heq. rewrite <- Heq, new_key_fresh in Hk. discriminate. Qed.

Lemma new_sync_point_spec (s : RWL) (current : nat) (cur : SyncPoint) :
m_current_sync_point s = Some current ->
sync_point_objs s !! current = Some cur ->
let nsp := new_key (sync_point_objs s) in
let le := new_key (log_entry_objs s) in
new_sync_point s =
Some ([ActivateCtx current PriorLogEntriesPersisted],
set_sync_point_objs
(<[current := old_sync_point_linked nsp (m_last_op_sequence_num s) cur]>
 (<[nsp := set_earlier_sync_point (Some current) (new_SyncPoint le)]>
    (sync_point_objs s)))
(set_m_current_sync_point (Some nsp)
 (set_log_entry_objs
    (<[le := new_sync_point_log_entry
               (wrap64 (m_current_sync_gen s + 1))]>
       (log_entry_objs s))
    (set_m_current_sync_gen (wrap64 (m_current_sync_gen s + 1)) s)))).
Proof.
intros Hc Hcur nsp le. unfold new_sync_point. rewrite Hc. simpl.
fold nsp le.
erewrite update_sync_point_Some by (simpl; apply lookup_insert_eq).
simpl.
erewrite update_sync_point_Some
by (simpl; rewrite insert_insert_eq, lookup_insert_ne
by (apply new_key_ne with cur; exact Hcur); exact Hcur).
simpl. rewrite !insert_insert_eq. reflexivity.
Qed.

(** [flush_new_sync_point] with a flush request: the sync point that was
current is scheduled for append and is given the request, to be
completed when it persists. *)
Lemma flush_new_sync_point_spec (s : RWL) (flush_req : nat)
(q : BlockIORequest) (current : nat) (cur : SyncPoint) (chain : list nat) :
m_current_sync_point s = Some current ->
sync_point_objs s !! current = Some cur ->
request_objs s !! flush_req = Some q ->
earlier_chain (sync_point_objs s) (Some current) (current :: chain) ->
(forall p sp, p ∈ chain -> sync_point_objs s !! p = Some sp ->
 m_append_scheduled sp = true) ->
let nsp := new_key (sync_point_objs s) in
let le := new_key (log_entry_objs s) in
flush_new_sync_point (Some flush_req) s =
Some ([ActivateCtx current PriorLogEntriesPersisted;
 ActivateCtx current SyncPointPersist],
set_sync_point_objs
(<[current :=
   set_m_on_sync_point_persisted
     (m_on_sync_point_persisted cur ++ [RequestCtx flush_req])
     (set_m_append_scheduled true
        (old_sync_point_linked nsp (m_last_op_sequence_num s) cur))]>
 (<[nsp := set_earlier_sync_point (Some current) (new_SyncPoint le)]>
    (sync_point_objs s)))
(set_request_objs
 (<[flush_req := set_to_append (Some current) q]> (request_objs s))
 (set_m_current_sync_point (Some nsp)
    (set_log_entry_objs
       (<[le := new_sync_point_log_entry
                  (wrap64 (m_current_sync_gen s + 1))]>
          (log_entry_objs s))
       (set_m_current_sync_gen
          (wrap64 (m_current_sync_gen s + 1)) s))))).
Proof.
intros Hc Hcur Hq Hchain Hsched nsp le.
assert (Hne : nsp <> current) by (apply new_key_ne with cur; exact Hcur).
unfold flush_new_sync_point.
rewrite (new_sync_point_spec s current cur Hc Hcur). fold nsp le.
cbn [mbind option_bind]. simpl.
rewrite lookup_insert_ne by congruence. rewrite lookup_insert_eq. simpl.
erewrite update_request_Some by (simpl; exact Hq). simpl.
erewrite update_sync_point_Some by (simpl; apply lookup_insert_eq). simpl.
rewrite insert_insert_eq, lookup_insert_eq. simpl.
match goal with
| |- context [earlier_all_scheduled ?f ?p ?t] =>
rewrite (earlier_all_scheduled_chain t p chain f)
end.
- simpl.
erewrite update_sync_point_Some by (simpl; apply lookup_insert_eq). simpl.
rewrite insert_insert_eq.
assert (Hper : m_on_sync_point_persisted
         (old_sync_point_linked nsp (m_last_op_sequence_num s) cur)
       = m_on_sync_point_persisted cur).
{ unfold old_sync_point_linked. simpl. destruct (m_appending cur); reflexivity. }
rewrite Hper. reflexivity.
- simpl. inversion Hchain as [|p sp l Hp Hl]; subst.
rewrite Hcur in Hp. injection Hp as <-.
assert (Hearlier : earlier_sync_point
  (old_sync_point_linked nsp (m_last_op_sequence_num s) cur)
= earlier_sync_point cur).
{ unfold old_sync_point_linked. simpl. destruct (m_appending cur); reflexivity. }
rewrite Hearlier.
eapply earlier_chain_ext; [exact Hl|].
intros p sp Hp Hsp. exists sp. split; [|reflexivity].
pose proof (earlier_chain_NoDup _ _ _ Hchain) as Hnd.
apply NoDup_cons in Hnd as [Hnotin _].
rewrite !lookup_insert_ne; [exact Hsp| |].
+ apply new_key_ne with sp. exact Hsp.
+ intros <-. contradiction.
- simpl. intros p sp Hp Hsp.
pose proof (earlier_chain_NoDup _ _ _ Hchain) as Hnd.
apply NoDup_cons in Hnd as [Hnotin _].
assert (Hin : is_Some (sync_point_objs s !! p)).
{ eapply earlier_chain_dom; [exact Hchain|]. right. exact Hp. }
destruct Hin as [sp0 Hsp0].
rewrite !lookup_insert_ne in Hsp.
+ eapply Hsched; eassumption.
+ apply new_key_ne with sp0. exact Hsp0.
+ intros <-. contradiction.
- simpl. apply earlier_chain_length in Hchain. simpl in Hchain.
rewrite map_size_insert_Some by (rewrite lookup_insert_ne by congruence; eauto).
rewrite map_size_insert_None by apply new_key_fresh. lia.
Qed.

End SyncPointFacts.

Section C2.

Local Arguments earlier_all_scheduled : simpl never.

(** A flush request that has not been completed is completed, once, by
[finish]. *)
Lemma finish_flush_request (s : RWL) (flush_req : nat) (q : BlockIORequest)
(r : Z) :
request_objs s !! flush_req = Some q ->
m_user_req_completed q = false -> m_on_finish_completed q = false ->
m_cell q = None -> on_finish_ctx q = Some (FlushReqFinishCtx flush_req) ->
exists s', finish flush_req r s = Some s' /\
trace s' = trace s ++ [EvComplete (user_req q) r] /\
sync_point_objs s' = sync_point_objs s /\
m_current_sync_point s' = m_current_sync_point s /\
request_objs s' =
<[flush_req := set_m_on_finish_completed true
           (set_m_user_req_completed true q)]> (request_objs s).
Proof.
intros Hq Hu Hf Hcell Hon. unfold finish, complete_user_request.
rewrite Hq. simpl. rewrite Hu. simpl.
erewrite update_request_Some by exact Hq. simpl.
rewrite lookup_insert_eq. simpl. rewrite Hf. simpl.
erewrite update_request_Some by (simpl; apply lookup_insert_eq). simpl.
rewrite Hon. simpl. unfold complete_user_request. simpl.
rewrite lookup_insert_eq. simpl. rewrite Hcell. simpl.
rewrite insert_insert_eq.
eexists. split; [reflexivity|]. simpl. repeat split; reflexivity.
Qed.

(** C2.  On an initialized, writable cache aio_flush makes a flush request
and asks the block guard for a barrier over the whole volume.  Once the
guard grants the cell, exactly one of three things happens, and the
cell is released right after, nothing waiting for persistence:
(1) the current sync point has writes: flush_new_sync_point is run with
the request; a new sync point becomes current and the one that was
current is scheduled for append and holds the request in its
on-persisted list; (2) it has no writes and has an earlier sync point:
the request is added to that sync point's on-persisted list; (3)
otherwise the request is completed at once, with 0.  In (1) and (2)
the caller's completion has not been called, and the finish of the
request, run when the sync point persists, calls it. *)
Theorem aio_flush_outcomes (s : RWL) (on_finish : Context) (cell : nat)
(detained : bool) (current : nat) (cur : SyncPoint)
(cur_entry : GenericLogEntry) (chain : list nat) :
m_initialized s = true -> image_read_only s = false ->
m_current_sync_point s = Some current ->
sync_point_objs s !! current = Some cur ->
log_entry_objs s !! sp_log_entry cur = Some cur_entry ->
earlier_chain (sync_point_objs s) (Some current) (current :: chain) ->
(forall p sp, p ∈ chain -> sync_point_objs s !! p = Some sp ->
 m_append_scheduled sp = true) ->
let flush_req := new_key (request_objs s) in
let nsp := new_key (sync_point_objs s) in
let s0 := aio_flush on_finish s in
trace s0 =
trace s ++ [EvDetainGuardedRequest (mkBlockExtent 0 (2 ^ 64 - 1))
      (GuardedFlushCtx flush_req) true] /\
exists s',
aio_flush_guarded flush_req cell detained s0 = Some s' /\
(m_writes cur_entry <> 0 ->
 m_current_sync_point s' = Some nsp /\
 (exists cur',
sync_point_objs s' !! current = Some cur' /\
later_sync_point cur' = Some nsp /\
m_append_scheduled cur' = true /\
m_on_sync_point_persisted cur' =
m_on_sync_point_persisted cur ++ [RequestCtx flush_req]) /\
 (exists new, sync_point_objs s' !! nsp = Some new /\
earlier_sync_point new = Some current) /\
 (exists q, request_objs s' !! flush_req = Some q /\
to_append q = Some current) /\
 trace s' =
 trace s0 ++ [EvGatherActivate current PriorLogEntriesPersisted;
          EvGatherActivate current SyncPointPersist;
          EvReleaseGuardedRequest cell] /\
 forall r, exists s'', finish flush_req r s' = Some s'' /\
 trace s'' = trace s' ++ [EvComplete on_finish r]) /\
(m_writes cur_entry = 0 ->
 forall earlier e,
 earlier_sync_point cur = Some earlier ->
 sync_point_objs s !! earlier = Some e ->
 m_current_sync_point s' = Some current /\
 sync_point_objs s' =
 <[earlier := set_m_on_sync_point_persisted
              (m_on_sync_point_persisted e ++ [RequestCtx flush_req])
              e]> (sync_point_objs s) /\
 trace s' = trace s0 ++ [EvReleaseGuardedRequest cell] /\
 forall r, exists s'', finish flush_req r s' = Some s'' /\
 trace s'' = trace s' ++ [EvComplete on_finish r]) /\
(m_writes cur_entry = 0 -> earlier_sync_point cur = None ->
 m_current_sync_point s' = Some current /\
 sync_point_objs s' = sync_point_objs s /\
 trace s' = trace s0 ++ [EvComplete on_finish 0;
                   EvReleaseGuardedRequest cell]).
Proof.
intros Hinit Hro Hc Hcur Hentry Hchain Hsched flush_req nsp s0.
subst s0. unfold aio_flush. rewrite Hinit, Hro. simpl.
split; [reflexivity|].
unfold aio_flush_guarded.
erewrite update_request_Some by (simpl; apply lookup_insert_eq). simpl.
rewrite insert_insert_eq.
set (q := set_m_detained detained _).
match goal with
| |- context [m_current_sync_point (if ?c then ?a else ?b)] =>
set (t := if c then a else b)
end.
assert (Ht : m_current_sync_point t = Some current /\
   sync_point_objs t = sync_point_objs s /\
   log_entry_objs t = log_entry_objs s /\
   request_objs t = <[flush_req := q]> (request_objs s) /\
   trace t = trace s ++
     [EvDetainGuardedRequest (mkBlockExtent 0 (2 ^ 64 - 1))
        (GuardedFlushCtx flush_req) true]).
{ subst t. destruct (m_flush_seen s), (m_persist_on_flush s),
(m_persist_on_write_until_flush s); simpl; auto. }
destruct Ht as (Ht1 & Ht2 & Ht3 & Ht4 & Ht5).
assert (Hq : request_objs t !! flush_req = Some q)
by (rewrite Ht4; apply lookup_insert_eq).
rewrite Ht1. simpl. rewrite Ht2, Hcur. simpl. rewrite Ht3, Hentry. simpl.
destruct (Z.eqb_spec (m_writes cur_entry) 0) as [Hw|Hw]; simpl.
- destruct (earlier_sync_point cur) as [earlier|] eqn:He.
+ inversion Hchain as [|p sp l Hp Hl]; subst p l.
rewrite Hcur in Hp. injection Hp as <-. rewrite He in Hl.
inversion Hl as [|p e l' Hearlier Hl']; subst p chain.
erewrite update_sync_point_Some by (rewrite Ht2; exact Hearlier).
simpl. rewrite lookup_insert_eq. simpl.
rewrite (Hsched earlier e) by (left || exact Hearlier). simpl.
eexists. split; [reflexivity|].
split; [intros; contradiction|]. split; [|intros _ Hnone; discriminate].
intros _ earlier' e' Heq He'. injection Heq as <-.
rewrite Hearlier in He'. injection He' as <-.
simpl. rewrite Ht1, Ht2, Ht5.
split; [reflexivity|]. split; [reflexivity|]. split; [reflexivity|].
intros r.
match goal with
| |- context [finish _ _ ?st] =>
destruct (finish_flush_request st flush_req q r)
as (s'' & Hfin & Htr & _)
end; try reflexivity.
{ simpl. exact Hq. }
exists s''. split; [exact Hfin|]. rewrite Htr. simpl. rewrite Ht5.
reflexivity.
+ simpl.
destruct (finish_flush_request t flush_req q 0 Hq)
as (s'' & Hfin & Htr & Hobjs & Hcurr & _); try reflexivity.
rewrite Hfin. simpl.
eexists. split; [reflexivity|].
split; [intros; contradiction|].
split; [intros _ earlier e Hnone; discriminate|]. intros _ _.
simpl. rewrite Hcurr, Hobjs, Htr, Ht1, Ht2, Ht5.
split; [reflexivity|]. split; [reflexivity|].
rewrite <- !app_assoc. reflexivity.
- rewrite (flush_new_sync_point_spec t flush_req q current cur chain Ht1);
[|rewrite Ht2; exact Hcur|exact Hq|rewrite Ht2; exact Hchain
 |rewrite Ht2; exact Hsched].
simpl. eexists. split; [reflexivity|].
split; [|split; [intros; contradiction|intros; contradiction]].
intros _. simpl. rewrite Ht2, Ht5. fold nsp.
split; [reflexivity|]. split.
{ eexists. split; [apply lookup_insert_eq|]. simpl.
unfold old_sync_point_linked. simpl.
destruct (m_appending cur); simpl; auto. }
split.
{ eexists. split.
- rewrite lookup_insert_ne by (symmetry; apply new_key_ne with cur; exact Hcur).
apply lookup_insert_eq.
- reflexivity. }
split.
{ eexists. split; [apply lookup_insert_eq|reflexivity]. }
split; [rewrite <- !app_assoc; reflexivity|].
intros r.
match goal with
| |- context [finish _ _ ?st] =>
destruct (finish_flush_request st flush_req
        (set_to_append (Some current) q) r)
as (s'' & Hfin & Htr & _)
end; try reflexivity.
{ simpl. apply lookup_insert_eq. }
exists s''. split; [exact Hfin|]. rewrite Htr. simpl. rewrite Ht5.
reflexivity.
Qed.

End C2.

Lemma aio_flush_outcomes_witness :
  exists s',
    aio_flush_guarded 1 5 false (aio_flush (CallerCtx 9) written_cache)
      = Some s' /\
    m_current_sync_point s' = Some 1%nat /\
    trace s' =
      trace (aio_flush (CallerCtx 9) written_cache)
      ++ [EvGatherActivate 0 PriorLogEntriesPersisted;
          EvGatherActivate 0 SyncPointPersist;
          EvReleaseGuardedRequest 5].
Proof.
  destruct (aio_flush_outcomes written_cache (CallerCtx 9) 5%nat false 0%nat
              (new_SyncPoint 0)
              (set_m_bytes 512 (set_m_writes 1 (new_sync_point_log_entry 1)))
              [])
    as (_ & s' & Hrun & Hwrites & _).
  - vm_compute. reflexivity.
  - vm_compute. reflexivity.
  - vm_compute. reflexivity.
  - vm_compute. reflexivity.
  - vm_compute. reflexivity.
  - econstructor; [vm_compute; reflexivity|]. constructor.
  - intros p sp Hp. apply elem_of_nil in Hp. contradiction.
  - exists s'. split; [exact Hrun|].
    destruct Hwrites as (Hcur & _ & _ & _ & Htr & _).
    + vm_compute. discriminate.
    + split; [exact Hcur|exact Htr].
Defined.

Section RecoveryScan.
Context `{Constants}.









(** The scan needs no more turns than the ring has slots: with at least
as many turns as there are slots in use, more fuel changes nothing. *)
Lemma load_entries_fuel (fuel : nat) :
forall idx sc s (more : nat),
2 < m_total_log_entries s <= 2 ^ 32 ->
0 <= idx < m_total_log_entries s ->
0 <= m_first_free_entry s < m_total_log_entries s ->
(m_first_free_entry s - idx) mod m_total_log_entries s <= Z.of_nat fuel ->
load_entries (fuel + more) idx sc s = load_entries fuel idx sc s.
Proof.
induction fuel as [|fuel IH]; intros idx sc s more HN Hi Hf Hfuel.
- assert (Hz : (m_first_free_entry s - idx) mod m_total_log_entries s = 0).
{ pose proof (Z.mod_pos_bound (m_first_free_entry s - idx)
          (m_total_log_entries s)). lia. }
assert (idx = m_first_free_entry s).
{ destruct (Z.lt_ge_cases (m_first_free_entry s) idx).
- replace (m_first_free_entry s - idx)
with (m_first_free_entry s - idx + m_total_log_entries s
      + (-1) * m_total_log_entries s) in Hz by lia.
rewrite Z.mod_add, Z.mod_small in Hz by lia. lia.
- rewrite Z.mod_small in Hz by lia. lia. }
subst idx. destruct more; simpl; rewrite Z.eqb_refl; reflexivity.
- simpl. destruct (Z.eqb_spec idx (m_first_free_entry s)) as [He|He];
[reflexivity|].
destruct (load_entry idx sc s) as [[sc1 s1]|] eqn:Hstep; [|reflexivity].
simpl.
destruct (load_entry_ring _ _ _ _ _ Hstep) as (HN1 & _ & Hf1 & _).
destruct (ring_next_index (m_total_log_entries s) idx
      (m_first_free_entry s) HN Hi Hf He) as [Hi' Hmod].
apply IH; rewrite ?HN1, ?Hf1; try assumption. lia.
Qed.

End RecoveryScan.

Section RecoverySyncPoints.
Context `{Constants}.

Local Arguments earlier_all_scheduled : simpl never.

(** What [flush_new_sync_point] with no request leaves, when it returns. *)
Lemma flush_new_sync_point_null_inv (s : RWL) (current : nat)
(cur : SyncPoint) later s' :
m_current_sync_point s = Some current ->
sync_point_objs s !! current = Some cur ->
flush_new_sync_point None s = Some (later, s') ->
let nsp := new_key (sync_point_objs s) in
let le := new_key (log_entry_objs s) in
let flush_req := new_key (request_objs s) in
later = [ActivateCtx current PriorLogEntriesPersisted;
     ActivateCtx current SyncPointPersist] /\
s' = set_sync_point_objs
   (<[current :=
        set_m_on_sync_point_persisted
          (m_on_sync_point_persisted cur ++ [RequestCtx flush_req])
          (set_m_append_scheduled true
             (old_sync_point_linked nsp (m_last_op_sequence_num s) cur))]>
      (<[nsp := set_earlier_sync_point (Some current) (new_SyncPoint le)]>
         (sync_point_objs s)))
   (set_request_objs
      (<[flush_req :=
           set_to_append (Some current)
             (set_m_internal true
                (set_on_finish_ctx (Some (FlushReqFinishCtx flush_req))
                   (new_request true [whole_volume_extent] [] 0
                      NullFlushCtx)))]>
         (request_objs s))
      (set_m_current_sync_point (Some nsp)
         (set_log_entry_objs
            (<[le := new_sync_point_log_entry
                       (wrap64 (m_current_sync_gen s + 1))]>
               (log_entry_objs s))
            (set_m_current_sync_gen
               (wrap64 (m_current_sync_gen s + 1)) s)))).
Proof.
intros Hc Hcur Hi nsp le flush_req.
assert (Hne : nsp <> current) by (apply new_key_ne with cur; exact Hcur).
unfold flush_new_sync_point, make_flush_req in Hi.
cbv beta iota zeta in Hi.
apply bind_Some in Hi as ([later1 s1] & Hnew & Hi).
rewrite (new_sync_point_spec _ current cur) in Hnew
by (first [exact Hc | exact Hcur]).
injection Hnew as <- <-.
apply bind_Some in Hi as (current1 & Hcur1 & Hi).
injection Hcur1 as <-.
apply bind_Some in Hi as (cur1 & Hcurobj & Hi).
simpl in Hcurobj. fold nsp le in Hcurobj.
rewrite lookup_insert_ne in Hcurobj by congruence.
rewrite lookup_insert_eq in Hcurobj. injection Hcurobj as <-.
apply bind_Some in Hi as (to_append & Hta & Hi).
injection Hta as <-.
apply bind_Some in Hi as (s2 & Hs2 & Hi).
apply update_request_inv in Hs2 as (q & Hq & ->).
apply bind_Some in Hi as (s3 & Hs3 & Hi).
apply update_sync_point_inv in Hs3 as (p3 & Hp3 & ->).
apply bind_Some in Hi as (ta & _ & Hi).
apply bind_Some in Hi as (walked & _ & Hi).
apply bind_Some in Hi as (? & _ & Hi).
apply bind_Some in Hi as (s4 & Hs4 & Hi).
apply update_sync_point_inv in Hs4 as (p4 & Hp4 & ->).
injection Hi as <- <-.
simpl in Hp3.
rewrite lookup_insert_eq in Hp3. injection Hp3 as <-.
simpl in Hp4.
rewrite lookup_insert_eq in Hp4. injection Hp4 as <-.
simpl in Hq.
rewrite lookup_alter_eq, lookup_insert_eq in Hq. injection Hq as <-.
split; [reflexivity|].
simpl. rewrite insert_alter_eq, !insert_insert_eq.
unfold old_sync_point_linked. simpl.
destruct (m_appending cur); destruct s; reflexivity.
Qed.



End RecoverySyncPoints.

Section MapHeapFrame.
Import WriteLogMap WriteLogMapSpec.

(** The map's methods change nothing of a log entry but its
back-reference count. *)
Lemma refs_only_refl h : refs_only h h.
Proof.
intros j. exists 0. destruct (h !! j); simpl; [|reflexivity].
rewrite add_to_refs_0. reflexivity.
Qed.

Lemma refs_only_trans h1 h2 h3 :
refs_only h1 h2 -> refs_only h2 h3 -> refs_only h1 h3.
Proof.
intros H12 H23 j. destruct (H12 j) as [d1 Hd1]. destruct (H23 j) as [d2 Hd2].
exists (d1 + d2). rewrite Hd2, Hd1. destruct (h1 !! j); simpl; [|reflexivity].
rewrite add_to_refs_add. reflexivity.
Qed.

Lemma add_refs_refs_only d le h h' :
add_refs d le h = Some h' -> refs_only h h'.
Proof.
unfold add_refs. intros Ha.
apply bind_Some in Ha as (id & -> & Ha).
apply bind_Some in Ha as (e & He & Ha). injection Ha as <-.
intros j. destruct (decide (id = j)) as [<-|Hne].
- exists d. rewrite lookup_insert_eq, He. reflexivity.
- exists 0. rewrite lookup_insert_ne by exact Hne.
destruct (h !! j); simpl; [rewrite add_to_refs_0|]; reflexivity.
Qed.

Lemma resolve_entry_refs_only n o h m h' m' :
resolve_entry n o (h, m) = Some (h', m') -> refs_only h h'.
Proof.
unfold resolve_entry, remove_map_entry_locked, adjust_map_entry_locked,
split_map_entry_locked.
intros Hr.
repeat match type of Hr with
 | context [if ?b then _ else _] => destruct b
 end;
inv_option; subst;
first [ apply refs_only_refl
| eapply add_refs_refs_only; eassumption ].
Qed.

Lemma resolve_entries_refs_only n entries :
forall h m h' m',
resolve_entries n entries (h, m) = Some (h', m') -> refs_only h h'.
Proof.
induction entries as [|o rest IH]; intros h m h' m' Hr; simpl in Hr.
- injection Hr as <- <-. apply refs_only_refl.
- apply bind_Some in Hr as ([h1 m1] & Hstep & Hr).
eapply refs_only_trans; [eapply resolve_entry_refs_only; exact Hstep|].
eapply IH; exact Hr.
Qed.


End MapHeapFrame.

Section RecoveryLink.
Context `{Constants}.
Import WriteLogMapSpec.


End RecoveryLink.

Section C6.
Context `{Constants}.





End C6.

(** The re-opening of [unsynced_pool] makes the sync points of the sync
    gens 1 and 2, both scheduled for append, and a third one, current. *)
Example reopened_cache_sync_points :
  m_initialized reopened_cache = true /\
  m_current_sync_gen reopened_cache = 3 /\
  m_current_sync_point reopened_cache = Some 2%nat /\
  (m_append_scheduled <$> sync_point_objs reopened_cache !! 0%nat) = Some true /\
  (m_append_scheduled <$> sync_point_objs reopened_cache !! 1%nat) = Some true /\
  (sync_point_entry <$> log_entry_objs reopened_cache !! 0%nat)
    = Some (Some 2%nat) /\
  (sync_point_entry <$> log_entry_objs reopened_cache !! 1%nat)
    = Some (Some 3%nat).
Proof. vm_compute. repeat split; reflexivity. Qed.


Section CompletionFrame.

Lemma completion_step_refl (s : RWL) : completion_step s s.
Proof. unfold completion_step. destruct s. reflexivity. Qed.

Lemma completion_step_trans (s1 s2 s3 : RWL) :
completion_step s1 s2 -> completion_step s2 s3 -> completion_step s1 s3.
Proof.
unfold completion_step. intros H12 H23.
etransitivity; [exact H23|]. rewrite H12. reflexivity.
Qed.

Lemma complete_user_request_step req r s s' :
complete_user_request req r s = Some s' -> completion_step s s'.
Proof.
unfold complete_user_request. intros Hc.
apply bind_Some in Hc as (q & Hq & Hc).
destruct (negb (m_user_req_completed q)).
- apply bind_Some in Hc as (s1 & Hs1 & Hc).
apply update_request_inv in Hs1 as (? & _ & ->). injection Hc as <-.
unfold completion_step. destruct s. reflexivity.
- injection Hc as <-. apply completion_step_refl.
Qed.

Lemma release_write_lanes_step req s s' :
release_write_lanes req s = Some s' -> completion_step s s'.
Proof.
unfold release_write_lanes. intros Hc. inv_option. subst.
unfold completion_step. destruct s. reflexivity.
Qed.

Lemma complete_write_req_step req r s s' :
complete_write_req req r s = Some s' -> completion_step s s'.
Proof.
unfold complete_write_req. intros Hc.
apply bind_Some in Hc as (q & Hq & Hc).
apply bind_Some in Hc as (cell & Hcell & Hc).
apply bind_Some in Hc as (op_set & Hop & Hc).
apply bind_Some in Hc as (s1 & Hs1 & Hc).
apply bind_Some in Hc as (s2 & Hs2 & Hc). injection Hc as <-.
assert (H1 : completion_step s s1).
{ destruct (negb (os_persist_on_flush op_set)).
- eapply complete_user_request_step; exact Hs1.
- injection Hs1 as <-. apply completion_step_refl. }
apply release_write_lanes_step in Hs2.
eapply completion_step_trans; [exact H1|].
eapply completion_step_trans; [exact Hs2|].
unfold completion_step, release_guarded_request. destruct s2. reflexivity.
Qed.

Lemma complete_on_finish_step ctx r s s' :
complete_on_finish ctx r s = Some s' -> completion_step s s'.
Proof.
unfold complete_on_finish. intros Hc.
destruct ctx;
try (injection Hc as <-; unfold completion_step; destruct s; reflexivity).
- eapply complete_write_req_step; exact Hc.
- apply bind_Some in Hc as (q & _ & Hc).
apply bind_Some in Hc as (? & _ & Hc).
eapply complete_user_request_step; exact Hc.
Qed.

Lemma finish_step req r s s' :
finish req r s = Some s' -> completion_step s s'.
Proof.
unfold finish. intros Hc.
apply bind_Some in Hc as (s1 & Hs1 & Hc).
apply bind_Some in Hc as (q & _ & Hc).
apply bind_Some in Hc as (? & _ & Hc).
apply bind_Some in Hc as (s2 & Hs2 & Hc).
apply bind_Some in Hc as (ctx & _ & Hc).
apply complete_user_request_step in Hs1.
apply update_request_inv in Hs2 as (? & _ & ->).
apply complete_on_finish_step in Hc.
eapply completion_step_trans; [exact Hs1|].
eapply completion_step_trans; [|exact Hc].
unfold completion_step. destruct s1. reflexivity.
Qed.

Lemma complete_deferred_step ctx s s' :
complete_deferred ctx s = Some s' -> completion_step s s'.
Proof.
unfold complete_deferred. intros Hc.
destruct ctx;
try (injection Hc as <-; unfold completion_step; destruct s; reflexivity).
eapply finish_step; exact Hc.
Qed.

Lemma finish_deferred_step ctxs :
forall s s', finish_deferred ctxs s = Some s' -> completion_step s s'.
Proof.
induction ctxs as [|ctx rest IH]; intros s s' Hc; simpl in Hc.
- injection Hc as <-. apply completion_step_refl.
- apply bind_Some in Hc as (s1 & Hs1 & Hc).
eapply completion_step_trans; [eapply complete_deferred_step; exact Hs1|].
eapply IH; exact Hc.
Qed.

End CompletionFrame.

Section DispatchExtents.
Context `{Constants}.

Lemma wrap64_succ_add (n k : Z) :
wrap64 (wrap64 (n + 1) + k + 1) = wrap64 (n + (k + 1) + 1).
Proof.
unfold wrap64. rewrite <- Z.add_assoc, Zplus_mod_idemp_l. f_equal. lia.
Qed.

Lemma wrap64_u64 (z : Z) : is_u64 (wrap64 z).
Proof. unfold is_u64, wrap64. apply Z.mod_pos_bound. lia. Qed.

(** The loop of [dispatch_aio_write]: one new write entry per extent,
numbered as the mode says. *)
Lemma dispatch_extents_spec (osp : nat) (pof : bool) (data : list byte)
(extents : list Extent) :
forall allocs off ops les s ops' les' s',
is_u64 (m_last_op_sequence_num s) ->
dispatch_extents osp pof data extents allocs off ops les s
= Some (ops', les', s') ->
exists new_les,
les' = les ++ new_les /\
length new_les = length extents /\
m_last_op_sequence_num s' =
(if pof then m_last_op_sequence_num s
 else wrap64 (m_last_op_sequence_num s + Z.of_nat (length extents))) /\
s' = set_m_last_op_sequence_num (m_last_op_sequence_num s')
     (set_log_entry_objs (log_entry_objs s') s) /\
(forall id e, log_entry_objs s !! id = Some e ->
 exists e', log_entry_objs s' !! id = Some e' /\
   ram_entry e' = ram_entry e) /\
(forall id, is_Some (log_entry_objs s' !! id) ->
 is_Some (log_entry_objs s !! id) \/ id ∈ new_les) /\
(forall (i : nat) id, new_les !! i = Some id ->
 exists e, log_entry_objs s' !! id = Some e /\
   log_entry_objs s !! id = None /\
   is_write (ram_entry e) = true /\
   sync_gen_number (ram_entry e) = m_current_sync_gen s /\
   if pof then
     write_sequence_number (ram_entry e) = 0 /\
     sequenced (ram_entry e) = false
   else
     write_sequence_number (ram_entry e) =
       wrap64 (m_last_op_sequence_num s + Z.of_nat i + 1) /\
     sequenced (ram_entry e) = true).
Proof.
induction extents as [|extent rest IH];
intros allocs off ops les s ops' les' s' Hu Hd; simpl in Hd.
- injection Hd as <- <- <-. exists []. rewrite app_nil_r. simpl.
split; [reflexivity|]. split; [reflexivity|].
split.
{ destruct pof; [reflexivity|]. rewrite Z.add_0_r.
symmetry. apply wrap64_id. exact Hu. }
split; [destruct s; reflexivity|].
split; [eauto|]. split; [auto|].
intros i id Hi. rewrite lookup_nil in Hi. discriminate.
- apply bind_Some in Hd as (allocation & _ & Hd).
apply bind_Some in Hd as (sp & _ & Hd).
set (le := new_key (log_entry_objs s)) in *.
set (e0 := new_write_log_entry (Some (sp_log_entry sp))
         (fst extent) (snd extent)) in *.
apply bind_Some in Hd as (sb & Hsb & Hd).
apply update_log_entry_inv in Hsb as (p & Hp & ->). simpl in Hp.
apply bind_Some in Hd as (? & _ & Hd). simpl in Hd.
set (f := fun p0 => set_m_bytes (wrap64 (m_bytes p0 + snd extent))
                  (set_m_writes (m_writes p0 + 1) p0)) in *.
set (h1 := <[sp_log_entry sp := f p]> (<[le := e0]> (log_entry_objs s))) in *.
assert (Hfresh : log_entry_objs s !! le = None) by apply new_key_fresh.
assert (Hle1 : exists x, h1 !! le = Some x /\ ram_entry x = ram_entry e0).
{ subst h1. destruct (decide (sp_log_entry sp = le)) as [Heq|Hne].
- rewrite Heq in *. rewrite lookup_insert_eq in Hp |- *.
injection Hp as <-. eexists. split; reflexivity.
- rewrite lookup_insert_ne by exact Hne. rewrite lookup_insert_eq.
eexists. split; reflexivity. }
destruct Hle1 as (x1 & Hx1 & Hrx1).
assert (Hold1 : forall id e, log_entry_objs s !! id = Some e ->
      id <> le /\ exists e', h1 !! id = Some e' /\
        ram_entry e' = ram_entry e).
{ intros id e He. assert (Hne : id <> le) by (intros ->; congruence).
split; [exact Hne|]. subst h1.
destruct (decide (sp_log_entry sp = id)) as [Heq|Hne2].
- rewrite Heq in *. rewrite lookup_insert_eq.
rewrite lookup_insert_ne in Hp by congruence.
rewrite He in Hp. injection Hp as <-. eexists. split; reflexivity.
- rewrite lookup_insert_ne by exact Hne2.
rewrite lookup_insert_ne by congruence. eauto. }
assert (Hdom1 : forall id, is_Some (h1 !! id) ->
      is_Some (log_entry_objs s !! id) \/ id = le).
{ intros id [y Hy]. subst h1.
destruct (decide (id = le)) as [->|Hne]; [auto|]. left.
destruct (decide (sp_log_entry sp = id)) as [Heq|Hne2].
- rewrite Heq in *. rewrite lookup_insert_ne in Hp by congruence. eauto.
- rewrite !lookup_insert_ne in Hy by congruence. eauto. }
destruct pof.
+ (* persist on flush *)
apply bind_Some in Hd as (sd & Hsd & Hd).
apply update_log_entry_inv in Hsd as (x2 & Hx & ->).
assert (Hx' : h1 !! le = Some x2) by exact Hx. clear Hx.
rewrite Hx1 in Hx'. injection Hx' as <-.
apply bind_Some in Hd as (? & _ & Hd).
simpl in Hd.
apply IH in Hd; [|exact Hu].
destruct Hd as (new_les & Hles & Hlen & Hlast & Hfr & Hpres & Hdom & Hnew).
simpl in Hlast, Hpres, Hdom, Hnew.
exists (le :: new_les).
split; [rewrite Hles, <- app_assoc; reflexivity|].
split; [simpl; rewrite Hlen; reflexivity|].
split; [exact Hlast|].
split; [etransitivity; [exact Hfr|]; reflexivity|].
split.
{ intros id e He. destruct (Hold1 id e He) as (Hne & e1 & He1 & Hr1).
destruct (Hpres id e1) as (e' & He' & Hr').
{ rewrite lookup_insert_ne by congruence. exact He1. }
exists e'. split; [exact He'|congruence]. }
split.
{ intros id Hid. destruct (Hdom id Hid) as [Hs|Hin].
- destruct (decide (id = le)) as [->|Hne]; [right; left|].
  rewrite lookup_insert_ne in Hs by congruence.
  destruct (Hdom1 id Hs) as [?|?]; [auto|contradiction].
- right. right. exact Hin. }
intros [|i] id Hi; simpl in Hi.
* injection Hi as <-.
destruct (Hpres le (set_ram_entry
            (set_unmap false (set_sync_point false
               (set_write_sequence_number 0
                  (set_sync_gen_number (m_current_sync_gen s)
                     (set_write_data (buffer_oid allocation)
                        (set_has_data true (ram_entry e0))))))) x1))
  as (e' & He' & Hr'); [apply lookup_insert_eq|].
exists e'. split; [exact He'|]. split; [exact Hfresh|].
rewrite Hr'. simpl. auto.
* destruct (Hnew i id Hi) as (e' & He' & Hnone & Hw & Hg & Hseq).
exists e'. split; [exact He'|]. split; [|auto].
destruct (log_entry_objs s !! id) as [y|] eqn:Hy; [|reflexivity].
destruct (Hold1 id y Hy) as (Hne & e1 & He1 & _).
rewrite lookup_insert_ne in Hnone by congruence.
  assert (Hn : h1 !! id = None) by exact Hnone. congruence.
+ (* persist on write *)
apply bind_Some in Hd as (sd & Hsd & Hd).
apply update_log_entry_inv in Hsd as (x2 & Hx & ->).
assert (Hx' : h1 !! le = Some x2) by exact Hx. clear Hx.
rewrite Hx1 in Hx'. injection Hx' as <-.
apply bind_Some in Hd as (? & _ & Hd).
simpl in Hd.
apply IH in Hd; [|simpl; apply wrap64_u64].
destruct Hd as (new_les & Hles & Hlen & Hlast & Hfr & Hpres & Hdom & Hnew).
simpl in Hlast, Hpres, Hdom, Hnew.
exists (le :: new_les).
split; [rewrite Hles, <- app_assoc; reflexivity|].
split; [simpl; rewrite Hlen; reflexivity|].
split.
{ rewrite Hlast. unfold wrap64. rewrite Zplus_mod_idemp_l.
f_equal. simpl length. lia. }
split; [etransitivity; [exact Hfr|]; reflexivity|].
split.
{ intros id e He. destruct (Hold1 id e He) as (Hne & e1 & He1 & Hr1).
destruct (Hpres id e1) as (e' & He' & Hr').
{ rewrite lookup_insert_ne by congruence. exact He1. }
exists e'. split; [exact He'|congruence]. }
split.
{ intros id Hid. destruct (Hdom id Hid) as [Hs|Hin].
- destruct (decide (id = le)) as [->|Hne]; [right; left|].
  rewrite lookup_insert_ne in Hs by congruence.
  destruct (Hdom1 id Hs) as [?|?]; [auto|contradiction].
- right. right. exact Hin. }
intros [|i] id Hi; simpl in Hi.
* injection Hi as <-.
destruct (Hpres le (set_ram_entry
            (set_unmap false (set_sync_point false
               (set_sequenced true
                  (set_write_sequence_number
                     (wrap64 (m_last_op_sequence_num s + 1))
                     (set_sync_gen_number (m_current_sync_gen s)
                        (set_write_data (buffer_oid allocation)
                           (set_has_data true (ram_entry e0)))))))) x1))
  as (e' & He' & Hr'); [apply lookup_insert_eq|].
exists e'. split; [exact He'|]. split; [exact Hfresh|].
rewrite Hr'. simpl. rewrite Z.add_0_r. auto.
* destruct (Hnew i id Hi) as (e' & He' & Hnone & Hw & Hg & Hseq & Hsq).
exists e'. split; [exact He'|]. split.
{ destruct (log_entry_objs s !! id) as [y|] eqn:Hy; [|reflexivity].
  destruct (Hold1 id y Hy) as (Hne & e1 & He1 & _).
  rewrite lookup_insert_ne in Hnone by congruence.
  assert (Hn : h1 !! id = None) by exact Hnone. congruence. }
split; [exact Hw|]. split; [exact Hg|]. split; [|exact Hsq].
rewrite Hseq, wrap64_succ_add. f_equal. lia.
Qed.

End DispatchExtents.

Section C7.
Context `{Constants}.
Import WriteLogMap WriteLogMapSpec.

Local Arguments earlier_all_scheduled : simpl never.

Lemma add_log_entries_refs_only (entries : list nat) :
forall h m h' m',
add_log_entries entries (h, m) = Some (h', m') -> refs_only h h'.
Proof.
induction entries as [|id rest IH]; intros h m h' m' Ha; simpl in Ha.
- injection Ha as <- <-. apply refs_only_refl.
- apply bind_Some in Ha as ([h1 m1] & Hstep & Ha).
eapply refs_only_trans; [|eapply IH; exact Ha].
unfold add_log_entry_locked, add_map_entry_locked in Hstep.
apply bind_Some in Hstep as (le & Hle & Hstep).
apply bind_Some in Hstep as (? & _ & Hstep).
apply bind_Some in Hstep as ([h2 m2] & Hres & Hstep).
apply bind_Some in Hstep as (h3 & Hadd & Hstep). injection Hstep as <- <-.
eapply refs_only_trans; [eapply resolve_entries_refs_only; exact Hres|].
apply (add_refs_refs_only 1 (Some id)). exact Hadd.
Qed.

Lemma refs_only_lookup (h h' : LogEntries) (id : nat) :
refs_only h h' ->
(forall e, h !! id = Some e ->
 exists e', h' !! id = Some e' /\ ram_entry e' = ram_entry e) /\
(forall e', h' !! id = Some e' ->
 exists e, h !! id = Some e /\ ram_entry e' = ram_entry e).
Proof.
intros Hr. destruct (Hr id) as [d Hd]. split.
- intros e He. rewrite He in Hd. simpl in Hd. eexists. split; [exact Hd|].
reflexivity.
- intros e' He'. rewrite He' in Hd. destruct (h !! id) as [e|]; [|discriminate].
injection Hd as ->. eexists. split; reflexivity.
Qed.

(** [flush_new_sync_point] with no request adds the log entry of the new
sync point to the store and leaves the sequence numbers alone. *)
Lemma flush_new_sync_point_null_objs (s : RWL) (current : nat)
(cur : SyncPoint) later s' :
m_current_sync_point s = Some current ->
sync_point_objs s !! current = Some cur ->
flush_new_sync_point None s = Some (later, s') ->
log_entry_objs s' =
<[new_key (log_entry_objs s) :=
new_sync_point_log_entry (wrap64 (m_current_sync_gen s + 1))]>
(log_entry_objs s) /\
m_last_op_sequence_num s' = m_last_op_sequence_num s /\
m_persist_on_flush s' = m_persist_on_flush s.
Proof.
intros Hc Hcur Hi.
destruct (flush_new_sync_point_null_inv s current cur _ _ Hc Hcur Hi)
as [_ ->].
simpl. auto.
Qed.

(** C7.  The write log entries that dispatch_aio_write makes, one per
extent of the request: in persist-on-flush mode each has the write
sequence number 0 and its sequenced flag clear, and the last sequence
number of the cache stays as it was; in persist-on-write mode the i-th
of them has the sequence number that follows the last one used by i+1
(modulo 2^64), its sequenced flag is set, and the last sequence number
advances by the number of extents; short of 2^64 these numbers are
above the last one used and increase by one from each entry to the
next.  No other write log entry is made. *)
Theorem dispatch_aio_write_sequence_numbers (write_req : nat) (s s' : RWL)
(q : BlockIORequest) :
request_objs s !! write_req = Some q ->
is_u64 (m_last_op_sequence_num s) ->
dispatch_aio_write write_req s = Some s' ->
exists log_entries : list nat,
length log_entries = length (m_image_extents q) /\
(forall id e, log_entry_objs s' !! id = Some e ->
 log_entry_objs s !! id = None -> is_write (ram_entry e) = true ->
 id ∈ log_entries) /\
(forall (i : nat) id, log_entries !! i = Some id ->
 exists e, log_entry_objs s' !! id = Some e /\
 log_entry_objs s !! id = None /\
 is_write (ram_entry e) = true /\
 if m_persist_on_flush s then
   write_sequence_number (ram_entry e) = 0 /\
   sequenced (ram_entry e) = false
 else
   write_sequence_number (ram_entry e) =
     wrap64 (m_last_op_sequence_num s + Z.of_nat i + 1) /\
   sequenced (ram_entry e) = true /\
   (m_last_op_sequence_num s
      + Z.of_nat (length (m_image_extents q)) < 2 ^ 64 ->
    write_sequence_number (ram_entry e) =
      m_last_op_sequence_num s + Z.of_nat i + 1)) /\
m_last_op_sequence_num s' =
(if m_persist_on_flush s then m_last_op_sequence_num s
 else wrap64 (m_last_op_sequence_num s
            + Z.of_nat (length (m_image_extents q)))).
Proof.
intros Hq Hu Hd. unfold dispatch_aio_write in Hd.
rewrite Hq in Hd. simpl in Hd.
apply bind_Some in Hd as (current & Hcurrent & Hd).
apply bind_Some in Hd as (cur & Hcur & Hd).
apply bind_Some in Hd as (cur_entry & Hcur_entry & Hd).
apply bind_Some in Hd as ([on_exit s1] & Hflush & Hd).
apply bind_Some in Hd as (osp & Hosp & Hd).
apply bind_Some in Hd as (? & _ & Hd).
apply bind_Some in Hd as ([[ops les] s2] & Hloop & Hd).
apply bind_Some in Hd as (s3 & Hs3 & Hd).
apply update_request_inv in Hs3 as (q3 & _ & ->).
apply bind_Some in Hd as (pool & _ & Hd).
apply bind_Some in Hd as (s5 & Hs5 & Hd).
apply bind_Some in Hd as (s6 & Hs6 & Hd).
apply bind_Some in Hd as (sp & _ & Hd).
apply bind_Some in Hd as ([on_exit' s7] & Hs7 & Hd).
apply finish_deferred_step in Hd.
(* the new sync point, if one is made *)
assert (H1 : (log_entry_objs s1 = log_entry_objs s \/
        log_entry_objs s1 =
          <[new_key (log_entry_objs s) :=
              new_sync_point_log_entry
                (wrap64 (m_current_sync_gen s + 1))]>
            (log_entry_objs s)) /\
       m_last_op_sequence_num s1 = m_last_op_sequence_num s /\
       m_persist_on_flush s1 = m_persist_on_flush s).
{ destruct (_ || _) in Hflush.
- destruct (flush_new_sync_point_null_objs s current cur _ _
          Hcurrent Hcur Hflush) as (Ho & Hl & Hp). auto.
- injection Hflush as _ <-. auto. }
destruct H1 as (Hobjs1 & Hlast1 & Hpof1).
(* the loop *)
apply dispatch_extents_spec in Hloop; [|rewrite Hlast1; exact Hu].
destruct Hloop as (new_les & Hles & Hlen & Hlast2 & Hfr2 & Hpres2 & Hdom2
             & Hnew2).
simpl in Hles. subst les.
(* the map *)
unfold map_add_log_entries in Hs5.
apply bind_Some in Hs5 as ([h5 m5] & Hadd & Hs5). injection Hs5 as <-.
simpl in Hadd. apply add_log_entries_refs_only in Hadd.
(* the rest leaves the log entries alone *)
assert (H6 : log_entry_objs s6 = h5 /\
       m_last_op_sequence_num s6 = m_last_op_sequence_num s2).
{ destruct (m_persist_on_flush s1).
- apply complete_user_request_step in Hs6. rewrite Hs6. simpl. auto.
- injection Hs6 as <-. simpl. auto. }
destruct H6 as [Hobjs6 Hlast6].
assert (H7 : log_entry_objs s7 = log_entry_objs s6 /\
       m_last_op_sequence_num s7 = m_last_op_sequence_num s6).
{ destruct (earlier_sync_point sp) as [earlier|];
[destruct (negb (m_persist_on_flush s1))|];
inv_option; subst; simpl; auto. }
destruct H7 as [Hobjs7 Hlast7].
assert (H8 : log_entry_objs s' = h5 /\
       m_last_op_sequence_num s' = m_last_op_sequence_num s2).
{ rewrite Hd. simpl. rewrite Hobjs7, Hlast7, Hobjs6, Hlast6. auto. }
destruct H8 as [Hobjs8 Hlast8].
rewrite Hpof1 in *.
exists new_les. split; [exact Hlen|]. split.
{ intros id e He Hnone Hw. rewrite Hobjs8 in He.
destruct (proj2 (refs_only_lookup _ _ id Hadd) e He) as (e2 & He2 & Hr2).
destruct (Hdom2 id (ex_intro _ e2 He2)) as [[e1 He1]|Hin]; [|exact Hin].
exfalso. destruct (Hpres2 id e1 He1) as (e2' & He2' & Hr2').
rewrite He2 in He2'. injection He2' as <-.
destruct Hobjs1 as [Ho|Ho]; rewrite Ho in He1; [congruence|].
rewrite lookup_insert in He1.
destruct (decide (new_key (log_entry_objs s) = id)); [|congruence].
injection He1 as <-. rewrite Hr2, Hr2' in Hw. discriminate Hw. }
split.
{ intros i id Hi. destruct (Hnew2 i id Hi) as (e2 & He2 & Hnone & Hw & _ & Hseq).
destruct (proj1 (refs_only_lookup _ _ id Hadd) e2 He2) as (e' & He' & Hr').
exists e'. rewrite Hobjs8. split; [exact He'|].
split.
{ destruct Hobjs1 as [Ho|Ho]; rewrite Ho in Hnone; [exact Hnone|].
rewrite lookup_insert in Hnone.
destruct (decide (new_key (log_entry_objs s) = id)); [discriminate|].
exact Hnone. }
rewrite Hr'. split; [exact Hw|].
rewrite Hlast1 in Hseq.
destruct (m_persist_on_flush s); [exact Hseq|].
destruct Hseq as [Hseq Hsq]. split; [exact Hseq|]. split; [exact Hsq|].
intros Hbound. rewrite Hseq. apply wrap64_id.
assert (Z.of_nat i < Z.of_nat (length new_les)).
{ apply inj_lt. eapply lookup_lt_Some. exact Hi. }
unfold is_u64 in *. rewrite Hlen in *. lia. }
rewrite Hlast8, Hlast2, Hlast1. reflexivity.
Qed.

End C7.

(** The dispatch of the write of [allocated_cache]: in persist-on-write
    mode its log entry is numbered 1 and sequenced, in persist-on-flush
    mode it is numbered 0 and not sequenced, and the caller's completion is
    called at dispatch. *)
Example dispatch_sample_write :
  match dispatch_aio_write (H := sample_constants) 0 allocated_cache,
        dispatch_aio_write (H := sample_constants) 0 allocated_cache_on_flush
  with
  | Some s1, Some s2 =>
      (ram_entry <$> log_entry_objs s1 !! 1%nat) =
        Some (mkPmemEntry 1 1 0 512 100 false false true true false 0) /\
      m_last_op_sequence_num s1 = 1 /\
      (ram_entry <$> log_entry_objs s2 !! 1%nat) =
        Some (mkPmemEntry 1 0 0 512 100 false false false true false 0) /\
      m_last_op_sequence_num s2 = 0 /\
      trace s2 = trace allocated_cache
                 ++ [EvComplete (CallerCtx 1) 0;
                     EvComplete (ScheduleAppendCtx 0) 0]
  | _, _ => False
  end.
Proof. vm_compute. repeat split; reflexivity. Qed.

Lemma dispatch_aio_write_sequence_numbers_witness :
  exists log_entries : list nat,
    length log_entries = 1%nat /\
    m_last_op_sequence_num
      (default blank_cache
         (dispatch_aio_write (H := sample_constants) 0 allocated_cache)) = 1.
Proof.
  destruct (dispatch_aio_write_sequence_numbers (H := sample_constants) 0%nat
              allocated_cache
              (default blank_cache
                 (dispatch_aio_write (H := sample_constants) 0 allocated_cache))
              (default (new_request false [] [] 0 (CallerCtx 0))
                 (request_objs allocated_cache !! 0%nat)))
    as (les & Hlen & _ & _ & Hlast).
  - vm_compute. reflexivity.
  - vm_compute. split; [discriminate|reflexivity].
  - vm_compute. reflexivity.
  - exists les. split; [exact Hlen|exact Hlast].
Defined.

Section C10.

(** One attempt: the first goes through, and sets the flag; any other
changes nothing. *)
Lemma complete_user_request_spec (req : nat) (q : BlockIORequest) (r : Z)
(s : RWL) :
request_objs s !! req = Some q ->
complete_user_request req r s =
Some (if m_user_req_completed q then s
else emit (EvComplete (user_req q) r)
       (set_request_objs
          (<[req := set_m_user_req_completed true q]> (request_objs s))
          s)).
Proof.
intros Hq. unfold complete_user_request. rewrite Hq. simpl.
destruct (m_user_req_completed q); simpl; [reflexivity|].
erewrite update_request_Some by exact Hq. reflexivity.
Qed.

(** C10.  The caller's completion of a request is called at most once:
of any number of attempts to complete the user request only the first
calls it, and only if it has not been called before; the finish of a
dispatched write request, which attempts it and then, through
complete_write_req, attempts it again unless the write is in
persist-on-flush mode, calls it once if it has not been called at
dispatch and not at all if it has; and so does the finish of a flush
request, which attempts it twice. *)
Theorem user_request_completed_at_most_once (req : nat) (q : BlockIORequest)
(s : RWL) :
request_objs s !! req = Some q ->
(forall attempts : list Z,
 exists s',
 complete_user_requests req attempts s = Some s' /\
 trace s' =
 trace s ++ (if m_user_req_completed q then []
             else match attempts with
                  | [] => []
                  | r :: _ => [EvComplete (user_req q) r]
                  end) /\
 (attempts <> [] ->
exists q', request_objs s' !! req = Some q' /\
  m_user_req_completed q' = true)) /\
(forall (cell : nat) (op_set : WriteLogOperationSet) (r : Z),
 m_on_finish_completed q = false ->
 on_finish_ctx q = Some (CompleteWriteReqCtx req) ->
 m_cell q = Some cell -> m_op_set q = Some op_set ->
 m_resources_allocated q = true ->
 exists s',
 finish req r s = Some s' /\
 trace s' =
 trace s ++ (if m_user_req_completed q then []
             else [EvComplete (user_req q) r])
         ++ [EvDispatchDeferredWrites; EvReleaseGuardedRequest cell]) /\
(forall r : Z,
 m_on_finish_completed q = false ->
 on_finish_ctx q = Some (FlushReqFinishCtx req) ->
 m_cell q = None ->
 exists s',
 finish req r s = Some s' /\
 trace s' =
 trace s ++ (if m_user_req_completed q then []
             else [EvComplete (user_req q) r])).
Proof.
intros Hq. split; [|split].
- intros attempts. revert s q Hq.
induction attempts as [|r rest IH]; intros s q Hq.
+ exists s. simpl. split; [reflexivity|].
split; [destruct (m_user_req_completed q); rewrite app_nil_r; reflexivity|].
intros Hc. contradiction.
+ simpl. rewrite (complete_user_request_spec req q r s Hq). simpl.
destruct (m_user_req_completed q) eqn:Hdone.
* destruct (IH s q Hq) as (s' & Hrun & Htr & _).
exists s'. split; [exact Hrun|]. rewrite Hdone in Htr.
split; [exact Htr|]. intros _.
clear IH. revert s s' q Hq Hdone Hrun Htr.
induction rest as [|r' rest' IH']; intros s s' q Hq Hdone Hrun Htr.
-- injection Hrun as <-. eauto.
-- simpl in Hrun. rewrite (complete_user_request_spec req q r' s Hq) in Hrun.
   rewrite Hdone in Hrun. simpl in Hrun.
   eapply IH'; eassumption.
* match goal with
| |- context [complete_user_requests req rest ?t] =>
    destruct (IH t (set_m_user_req_completed true q))
      as (s' & Hrun & Htr & _)
end.
{ simpl. apply lookup_insert_eq. }
exists s'. split; [exact Hrun|]. simpl in Htr.
split; [rewrite Htr, app_nil_r; reflexivity|]. intros _.
clear IH Htr.
match type of Hrun with
| complete_user_requests req rest ?t = _ =>
    assert (Hq1 : request_objs t !! req
                  = Some (set_m_user_req_completed true q))
      by (simpl; apply lookup_insert_eq);
    revert Hrun Hq1; generalize t
end.
induction rest as [|r' rest' IH']; intros t Hrun Hq1.
-- injection Hrun as <-. eauto.
-- simpl in Hrun.
   rewrite (complete_user_request_spec req _ r' t Hq1) in Hrun.
   simpl in Hrun. eapply IH'; eassumption.
- intros cell op_set r Hfin Hon Hcell Hop Hres.
unfold finish. rewrite (complete_user_request_spec req q r s Hq). simpl.
destruct (m_user_req_completed q) eqn:Hdone.
+ rewrite Hq. simpl. rewrite Hfin. simpl.
erewrite update_request_Some by exact Hq. simpl. rewrite Hon. simpl.
unfold complete_write_req. simpl. rewrite lookup_insert_eq. simpl.
rewrite Hcell, Hop. simpl.
assert (Hcur : forall t r0,
        request_objs t !! req = Some (set_m_on_finish_completed true q) ->
        complete_user_request req r0 t = Some t).
{ intros t r0 Ht. rewrite (complete_user_request_spec req _ r0 t Ht).
simpl. rewrite Hdone. reflexivity. }
destruct (os_persist_on_flush op_set); simpl.
* unfold release_write_lanes. simpl. rewrite lookup_insert_eq. simpl.
rewrite Hres. simpl.
erewrite update_request_Some by (simpl; apply lookup_insert_eq).
simpl. eexists. split; [reflexivity|]. simpl.
rewrite <- app_assoc. reflexivity.
* rewrite Hcur by (simpl; apply lookup_insert_eq). simpl.
unfold release_write_lanes. simpl. rewrite lookup_insert_eq. simpl.
rewrite Hres. simpl.
erewrite update_request_Some by (simpl; apply lookup_insert_eq).
simpl. eexists. split; [reflexivity|]. simpl.
rewrite <- app_assoc. reflexivity.
+ simpl. rewrite lookup_insert_eq. simpl. rewrite Hfin. simpl.
erewrite update_request_Some by (simpl; apply lookup_insert_eq).
simpl. rewrite Hon. simpl.
unfold complete_write_req. simpl. rewrite lookup_insert_eq. simpl.
rewrite Hcell, Hop. simpl.
destruct (os_persist_on_flush op_set); simpl.
* unfold release_write_lanes. simpl. rewrite lookup_insert_eq. simpl.
rewrite Hres. simpl.
erewrite update_request_Some by (simpl; apply lookup_insert_eq).
simpl. eexists. split; [reflexivity|]. simpl.
rewrite <- !app_assoc. reflexivity.
* match goal with
| |- context [complete_user_request req 0 ?t] =>
    rewrite (complete_user_request_spec req
               (set_m_on_finish_completed true
                  (set_m_user_req_completed true q)) 0 t)
      by (simpl; apply lookup_insert_eq)
end.
simpl.
unfold release_write_lanes. simpl. rewrite lookup_insert_eq. simpl.
rewrite Hres. simpl.
erewrite update_request_Some by (simpl; apply lookup_insert_eq).
simpl. eexists. split; [reflexivity|]. simpl.
rewrite <- !app_assoc. reflexivity.
- intros r Hfin Hon Hcell.
unfold finish. rewrite (complete_user_request_spec req q r s Hq). simpl.
destruct (m_user_req_completed q) eqn:Hdone.
+ rewrite Hq. simpl. rewrite Hfin. simpl.
erewrite update_request_Some by exact Hq. simpl. rewrite Hon. simpl.
rewrite lookup_insert_eq. simpl. rewrite Hcell. simpl.
match goal with
| |- context [complete_user_request req 0 ?t] =>
  rewrite (complete_user_request_spec req
             (set_m_on_finish_completed true q) 0 t)
    by (simpl; apply lookup_insert_eq)
end.
simpl. rewrite Hdone. eexists. split; [reflexivity|].
simpl. rewrite app_nil_r. reflexivity.
+ simpl. rewrite lookup_insert_eq. simpl. rewrite Hfin. simpl.
erewrite update_request_Some by (simpl; apply lookup_insert_eq).
simpl. rewrite Hon. simpl.
rewrite lookup_insert_eq. simpl. rewrite Hcell. simpl.
match goal with
| |- context [complete_user_request req 0 ?t] =>
  rewrite (complete_user_request_spec req
             (set_m_on_finish_completed true
                (set_m_user_req_completed true q)) 0 t)
    by (simpl; apply lookup_insert_eq)
end.
simpl. eexists. split; reflexivity.
Qed.

End C10.

(** The life of the write of [allocated_cache]: in persist-on-flush mode
    the caller's completion is called at dispatch, with 0, and the finish
    of the request, with an error, does not call it again; in
    persist-on-write mode it is called by the finish. *)
Example write_request_completed_once :
  match s1 ← dispatch_aio_write (H := sample_constants) 0
               allocated_cache_on_flush; finish 0 (- EIO) s1,
        s1 ← dispatch_aio_write (H := sample_constants) 0 allocated_cache;
        finish 0 (- EIO) s1
  with
  | Some s2, Some s2' =>
      trace s2 = trace allocated_cache
                 ++ [EvComplete (CallerCtx 1) 0;
                     EvComplete (ScheduleAppendCtx 0) 0;
                     EvDispatchDeferredWrites; EvReleaseGuardedRequest 1] /\
      trace s2' = trace allocated_cache
                  ++ [EvComplete (ScheduleAppendCtx 0) 0;
                      EvComplete (CallerCtx 1) (- EIO);
                      EvDispatchDeferredWrites; EvReleaseGuardedRequest 1]
  | _, _ => False
  end.
Proof. vm_compute. split; reflexivity. Qed.

Lemma user_request_completed_at_most_once_witness :
  exists s',
    complete_user_requests 0 [0; - EIO] allocated_cache = Some s' /\
    trace s' = trace allocated_cache ++ [EvComplete (CallerCtx 1) 0].
Proof.
  destruct (user_request_completed_at_most_once 0%nat
              (default (new_request false [] [] 0 (CallerCtx 0))
                 (request_objs allocated_cache !! 0%nat))
              allocated_cache) as (Hattempts & _).
  - vm_compute. reflexivity.
  - destruct (Hattempts [0; - EIO]) as (s' & Hrun & Htr & _).
    exists s'. split; [exact Hrun|exact Htr].
Defined.

Section C9.


(** A length of 2^32 or more is never that of the buffer built, a
bufferlist's length having 32 bits: the assertion of [aio_writesame]
fails, whatever the pattern. *)
Lemma aio_writesame_long_length (fuel : nat) (offset length : Z)
(data data_after : list byte) (flags : Z) (on_finish : Context) (s : RWL) :
m_initialized s = true -> image_read_only s = false ->
2 ^ 32 <= length ->
aio_writesame fuel offset length data data_after flags on_finish s = None.
Proof.
intros Hinit Hro Hlong. unfold aio_writesame. rewrite Hinit, Hro.
cbn [check mbind option_bind].
destruct (writesame_fill fuel length data_after []) as [total_bl|];
[|reflexivity].
cbn [mbind option_bind].
assert (Hne : (length =? wrap32 (Z.of_nat (List.length total_bl))) = false).
{ apply Z.eqb_neq. unfold wrap32.
pose proof (Z.mod_pos_bound (Z.of_nat (List.length total_bl)) (2 ^ 32)).
lia. }
rewrite Hne. reflexivity.
Qed.


End C9.



(** * Further properties of the write-log map *)

Section WriteLogMapMore.
Import WriteLogMap WriteLogMapSpec.

Implicit Types (m l : list WriteLogMapEntry) (e x k : WriteLogMapEntry).
Implicit Types (h : LogEntries).

Local Abbreviation ext := me_block_extent.

(** The outcome of [add_log_entry_locked] on a well-formed map. *)
Lemma add_log_entry_locked_result h m (id : nat) (le : GenericLogEntry) :
map_wf m -> refs_bound h m ->
h !! id = Some le -> is_write (ram_entry le) = true ->
extent_ok (log_block_extent le) ->
exists h' m',
add_log_entry_locked id (h, m) = Some (h', m') /\
m' ≡ₚ concat (resolve_overlap (log_block_extent le) <$> m)
    ++ [mkMapEntry (log_block_extent le) (Some id)] /\
map_wf m' /\
forall j : nat,
h' !! j =
add_to_refs (refs_change (log_block_extent le) m j
             + (if decide (Some id = Some j) then 1 else 0)) <$> h !! j.
Proof.
intros Hwf Hrb Hid Hw Hn. set (n := log_block_extent le) in *.
unfold add_log_entry_locked. rewrite Hid. simpl. rewrite Hw. simpl.
unfold find_map_entries_locked. fold n.
rewrite (equal_range_filter (mkMapEntry n None) m Hwf Hn). simpl.
set (O := filter _ m).
destruct (resolve_entries_spec n O h m
        (filter (fun e => ~ overlapsb n (me_block_extent e)) m) Hn Hwf Hrb)
as (h1 & m1 & Hloop & Hwf1 & Hrb1 & Hp1 & Hlk1).
{ symmetry. apply filter_app_complement. }
{ apply filter_overlapping. }
rewrite Hloop. simpl.
assert (Hp1' : m1 ≡ₚ concat (resolve_overlap n <$> m)).
{ rewrite Hp1. symmetry. apply concat_resolve_filter. }
assert (Hid1 : is_Some (h1 !! id)).
{ rewrite Hlk1, Hid. simpl. eauto. }
destruct Hid1 as [le1 Hle1].
destruct (add_refs_spec 1 id h1 le1 Hle1) as (h2 & Hh2 & Hlk2).
unfold add_refs in Hh2. simpl in Hh2. rewrite Hh2. simpl.
destruct (set_insert_apart (mkMapEntry n (Some id)) m1 Hwf1 Hn) as [Hwf2 Hp2].
{ rewrite Hp1'. apply resolved_apart; assumption. }
eexists _, _. split; [reflexivity|]. split.
{ rewrite Hp2, Hp1'. apply Permutation_cons_append. }
split; [exact Hwf2|].
intros j. rewrite Hlk2, Hlk1. subst O. rewrite refs_change_filter.
destruct (h !! j); simpl; [|reflexivity].
rewrite add_to_refs_add. reflexivity.
Qed.

Lemma map_consistent_refs_bound h m : map_consistent h m -> refs_bound h m.
Proof.
intros (_ & Hb & _). unfold refs_bound. eapply Forall_impl; [exact Hb|].
intros e (i & le & Hi & Hle & _). exists i. split; [exact Hi|eauto].
Qed.

(** The pieces an entry is resolved to lie within it. *)
Lemma resolve_overlap_within n o x :
extent_ok n -> extent_ok (ext o) ->
x ∈ resolve_overlap n o -> within x o.
Proof.
intros (? & ? & ?) (? & ? & ?). unfold resolve_overlap.
destruct (overlapsb n (ext o)) eqn:Hov; simpl negb; cbv iota.
- apply overlapsb_spec in Hov as [? ?].
destruct (Z.leb_spec (block_start n) (block_start (ext o)));
destruct (Z.leb_spec (block_end (ext o)) (block_end n)); simpl andb; cbv iota;
rewrite ?elem_of_cons, ?elem_of_nil; intros Hx;
repeat (destruct Hx as [Hx|Hx]); subst; try contradiction;
unfold within; simpl; lia.
- rewrite list_elem_of_singleton. intros ->. unfold within. lia.
Qed.

Lemma count_refs_cons e m (j : nat) :
count_refs (e :: m) j =
(if decide (me_log_entry e = Some j) then 1 else 0) + count_refs m j.
Proof.
unfold count_refs. rewrite filter_cons.
destruct (decide (me_log_entry e = Some j)); simpl length; lia.
Qed.

Lemma count_refs_same_entry l o (j : nat) :
(forall x, x ∈ l -> me_log_entry x = me_log_entry o) ->
count_refs l j =
if decide (me_log_entry o = Some j) then Z.of_nat (length l) else 0.
Proof.
induction l as [|x l IH]; intros Hl.
- unfold count_refs. simpl. destruct (decide _); reflexivity.
- rewrite count_refs_cons, IH by (intros y Hy; apply Hl; right; exact Hy).
rewrite (Hl x) by left.
destruct (decide (me_log_entry o = Some j)); simpl length; lia.
Qed.

Lemma count_refs_resolved n m (j : nat) :
count_refs (concat (resolve_overlap n <$> m)) j =
count_refs m j + refs_change n m j.
Proof.
induction m as [|o m IH]; [reflexivity|].
change (concat (resolve_overlap n <$> o :: m))
with (resolve_overlap n o ++ concat (resolve_overlap n <$> m)).
change (refs_change n (o :: m) j)
with ((if decide (me_log_entry o = Some j) then refs_delta n o else 0)
    + refs_change n m j).
rewrite count_refs_app, IH, count_refs_cons.
rewrite (count_refs_same_entry (resolve_overlap n o) o j)
by (intros x Hx; eapply resolve_overlap_log_entry; exact Hx).
unfold refs_delta.
destruct (decide (me_log_entry o = Some j)); lia.
Qed.

Lemma filter_nil_forall {A} (P : A -> Prop) `{forall a : A, Decision (P a)}
(l : list A) :
(forall a : A, a ∈ l -> ~ P a) -> filter P l = [].
Proof.
induction l as [|a l IH]; intros Hl; [reflexivity|].
rewrite filter_cons_False by (apply Hl; left).
apply IH. intros y Hy. apply Hl. right. exact Hy.
Qed.

Lemma within_trans x o y : within x o -> within o y -> within x y.
Proof. unfold within. intros [? ?] [? ?]. lia. Qed.

(** [add_log_entry_locked] keeps the agreement of the map and the
back-reference counts. *)
Lemma add_log_entry_locked_consistent h m (id : nat) (le : GenericLogEntry) :
map_consistent h m ->
h !! id = Some le -> is_write (ram_entry le) = true ->
extent_ok (log_block_extent le) ->
exists h' m',
add_log_entry_locked id (h, m) = Some (h', m') /\
map_consistent h' m' /\ refs_only h h' /\
m' ≡ₚ concat (resolve_overlap (log_block_extent le) <$> m)
    ++ [mkMapEntry (log_block_extent le) (Some id)].
Proof.
intros Hc Hid Hw Hn.
pose proof (map_consistent_refs_bound h m Hc) as Hrb.
destruct Hc as (Hwf & Hb & Hcnt). rewrite Forall_forall in Hb.
destruct (add_log_entry_locked_result h m id le Hwf Hrb Hid Hw Hn)
as (h' & m' & Hrun & Hp & Hwf' & Hlk).
exists h', m'. split; [exact Hrun|]. split; [|split; [|exact Hp]].
- split; [exact Hwf'|]. split.
+ rewrite Forall_forall. intros x Hx. rewrite Hp in Hx.
apply elem_of_app in Hx as [Hx|Hx].
* apply list_elem_of_In, in_concat in Hx as (l & Hl & Hxl).
  apply list_elem_of_In in Hl, Hxl.
  apply list_elem_of_fmap in Hl as (o & -> & Ho).
  destruct (Hb o Ho) as (i & e & Hi & He & Hwe & Hoke & Hin).
  exists i, (add_to_refs (refs_change (log_block_extent le) m i
                + (if decide (Some id = Some i) then 1 else 0)) e).
  split; [rewrite (resolve_overlap_log_entry _ _ _ Hxl); exact Hi|].
  split; [rewrite Hlk, He; reflexivity|].
  split; [exact Hwe|]. split; [exact Hoke|].
  eapply within_trans; [|exact Hin].
  eapply resolve_overlap_within; [exact Hn| |exact Hxl].
  apply (map_wf_elem m o Hwf Ho).
* apply list_elem_of_singleton in Hx as ->.
  exists id, (add_to_refs (refs_change (log_block_extent le) m id
                + (if decide (Some id = Some id) then 1 else 0)) le).
  split; [reflexivity|]. split; [rewrite Hlk, Hid; reflexivity|].
  split; [exact Hw|]. split; [exact Hn|].
  unfold within. simpl. lia.
+ intros i e' Hi. rewrite Hlk in Hi.
destruct (h !! i) as [e|] eqn:He; [|discriminate].
simpl in Hi. injection Hi as <-.
rewrite (count_refs_perm _ _ i Hp), count_refs_app, count_refs_resolved.
unfold add_to_refs. simpl. rewrite (Hcnt i e He).
rewrite count_refs_cons. unfold count_refs at 3. simpl.
destruct (decide (Some id = Some i)); lia.
- intros j. eexists. apply Hlk.
Qed.

(** X1.  On a map that agrees with the back-reference counts,
[add_log_entry_locked] of a write entry with a proper extent returns,
and the map and the counts agree again: the set stays in order without
overlap, every map entry lies within the extent of the write it refers
to, and [referring_map_entries] of every log entry is the number of map
entries that refer to it.  The log entries are changed in that count
only. *)
Theorem add_log_entry_locked_keeps_map_consistent
h m (id : nat) (le : GenericLogEntry) :
map_consistent h m ->
h !! id = Some le -> is_write (ram_entry le) = true ->
extent_ok (log_block_extent le) ->
exists h' m',
add_log_entry_locked id (h, m) = Some (h', m') /\
map_consistent h' m' /\ refs_only h h'.
Proof.
intros Hc Hid Hw Hn.
destruct (add_log_entry_locked_consistent h m id le Hc Hid Hw Hn)
as (h' & m' & Hrun & Hc' & Hro & _).
exists h', m'. auto.
Qed.

(** X2.  On a set in order, [find_map_entries_locked] of a proper extent
yields exactly the map entries that overlap the extent, in the order
of the set, and [find_log_entries_locked] their log entries (one for
each map entry, so that a log entry may come more than once). *)
Theorem find_map_entries_locked_spec m (be : BlockExtent) :
map_wf m -> extent_ok be ->
find_map_entries_locked be m
= filter (fun e => overlapsb be (me_block_extent e)) m /\
find_log_entries_locked be m
= me_log_entry <$> filter (fun e => overlapsb be (me_block_extent e)) m.
Proof.
intros Hwf Hbe. unfold find_log_entries_locked, find_map_entries_locked.
rewrite (equal_range_filter (mkMapEntry be None) m Hwf Hbe). auto.
Qed.

(** X3.  After [add_log_entry_locked] of a write entry, a query for any
extent within the entry's extent finds this entry and no other. *)
Theorem added_log_entry_is_found
h m (id : nat) (le : GenericLogEntry) (q : BlockExtent) :
map_wf m -> refs_bound h m ->
h !! id = Some le -> is_write (ram_entry le) = true ->
extent_ok (log_block_extent le) ->
extent_ok q ->
block_start (log_block_extent le) <= block_start q ->
block_end q <= block_end (log_block_extent le) ->
exists h' m',
add_log_entry_locked id (h, m) = Some (h', m') /\
find_map_entries_locked q m'
= [mkMapEntry (log_block_extent le) (Some id)] /\
find_log_entries_locked q m' = [Some id].
Proof.
intros Hwf Hrb Hid Hw Hn Hq Hqs Hqe.
destruct (add_log_entry_locked_result h m id le Hwf Hrb Hid Hw Hn)
as (h' & m' & Hrun & Hp & Hwf' & _).
exists h', m'. split; [exact Hrun|].
set (n := log_block_extent le) in *.
assert (Hfind : find_map_entries_locked q m' = [mkMapEntry n (Some id)]).
{ unfold find_map_entries_locked.
rewrite (equal_range_filter (mkMapEntry q None) m' Hwf' Hq). simpl.
apply Permutation_singleton_r. rewrite Hp, filter_app.
rewrite filter_nil_forall, filter_cons_True, filter_nil; [reflexivity| |].
- apply Is_true_true, overlapsb_spec. simpl.
destruct Hq as (? & ? & ?). unfold overlaps. lia.
- intros x Hx Hov. apply Is_true_true, overlapsb_spec in Hov.
pose proof (resolved_apart n (Some id) m Hn Hwf) as Hap.
rewrite Forall_forall in Hap. specialize (Hap x Hx).
assert (Hokx : extent_ok (ext x)).
{ eapply (map_wf_elem m'); [exact Hwf'|].
  rewrite Hp. apply elem_of_app. left. exact Hx. }
destruct Hq as (? & ? & ?), Hokx as (? & ? & ?).
unfold apart, entry_lt, overlaps in *. simpl in *. lia. }
split; [exact Hfind|].
unfold find_log_entries_locked. rewrite Hfind. reflexivity.
Qed.

End WriteLogMapMore.

Section WriteLogMapRemoval.
Import WriteLogMap WriteLogMapSpec.

Implicit Types (m l : list WriteLogMapEntry) (e x k : WriteLogMapEntry).
Implicit Types (h : LogEntries).

Lemma find_log_entries_locked_elem m (be : BlockExtent) (o : option nat) :
o ∈ find_log_entries_locked be m -> exists e, e ∈ m /\ me_log_entry e = o.
Proof.
unfold find_log_entries_locked, find_map_entries_locked. intros Ho.
apply list_elem_of_fmap in Ho as (e & -> & He). exists e. split; [|reflexivity].
destruct (equal_range_Permutation (mkMapEntry be None) m) as [rest Hp].
rewrite Hp. apply elem_of_app. left. exact He.
Qed.

(** X4.  On a map that agrees with the back-reference counts,
[remove_log_entry] erases exactly the map entries that refer to the log
entry and leaves every other one; the entry's [referring_map_entries]
ends at zero, no other log entry changes, the map and the counts agree
again, and no later query finds the entry. *)
Theorem remove_log_entry_erases_references
h m (id : nat) (le : GenericLogEntry) :
map_consistent h m -> h !! id = Some le ->
exists m',
remove_log_entry id (h, m) =
Some (<[id := set_referring_map_entries 0 le]> h, m') /\
map_consistent (<[id := set_referring_map_entries 0 le]> h) m' /\
(forall e, e ∈ m' <-> e ∈ m /\ me_log_entry e <> Some id) /\
(forall be : BlockExtent, Some id ∉ find_log_entries_locked be m').
Proof.
intros Hc Hid.
destruct (remove_log_entry_consistent h m id le Hc Hid)
as (m' & Hrun & Hc' & Hmem).
exists m'. split; [exact Hrun|]. split; [exact Hc'|]. split; [exact Hmem|].
intros be Hin. apply find_log_entries_locked_elem in Hin as (e & He & Hid').
apply Hmem in He as [_ Hne]. contradiction.
Qed.

Lemma remove_log_entry_locked_eq h m (id : nat) (le : GenericLogEntry) :
h !! id = Some le ->
remove_log_entry_locked id (h, m) = remove_log_entry id (h, m).
Proof.
intros Hid. unfold remove_log_entry, remove_log_entry_locked. simpl.
rewrite Hid. simpl. destruct (is_write (ram_entry le)) eqn:Hw; simpl;
rewrite ?Hid; simpl; rewrite ?Hw; reflexivity.
Qed.

Lemma refs_only_zero h (id : nat) (le : GenericLogEntry) :
h !! id = Some le ->
refs_only h (<[id := set_referring_map_entries 0 le]> h).
Proof.
intros Hid j. destruct (decide (id = j)) as [<-|Hne].
- exists (- referring_map_entries le). rewrite lookup_insert_eq, Hid. simpl.
unfold add_to_refs. do 2 f_equal. lia.
- exists 0. rewrite lookup_insert_ne by exact Hne.
destruct (h !! j); simpl; [rewrite add_to_refs_0|]; reflexivity.
Qed.

(** X5.  [remove_log_entries] erases exactly the map entries that refer to
one of the log entries given, keeps the agreement of the map and the
back-reference counts, and changes the log entries in those counts
only. *)
Theorem remove_log_entries_erases_references (log_entries : list nat) :
forall h m,
map_consistent h m ->
(forall id : nat, id ∈ log_entries -> is_Some (h !! id)) ->
exists h' m',
remove_log_entries log_entries (h, m) = Some (h', m') /\
map_consistent h' m' /\ refs_only h h' /\
(forall e, e ∈ m' <->
         e ∈ m /\ forall id : nat, id ∈ log_entries -> me_log_entry e <> Some id).
Proof.
induction log_entries as [|id rest IH]; intros h m Hc Hall.
- exists h, m. split; [reflexivity|]. split; [exact Hc|].
split; [apply refs_only_refl|].
intros e. split; [intros He; split; [exact He|]|tauto].
intros id Hid. apply elem_of_nil in Hid. contradiction.
- destruct (Hall id) as [le Hid]; [left|].
destruct (remove_log_entry_consistent h m id le Hc Hid)
as (m1 & Hrun & Hc1 & Hmem1).
destruct (IH (<[id := set_referring_map_entries 0 le]> h) m1 Hc1)
as (h' & m' & Hrest & Hc' & Hro & Hmem').
{ intros j Hj. destruct (decide (id = j)) as [<-|Hne].
- rewrite lookup_insert_eq. eauto.
- rewrite lookup_insert_ne by exact Hne. apply Hall. right. exact Hj. }
exists h', m'. cbn [remove_log_entries].
rewrite (remove_log_entry_locked_eq h m id le Hid), Hrun. simpl.
split; [exact Hrest|]. split; [exact Hc'|]. split.
+ eapply refs_only_trans; [apply refs_only_zero; exact Hid | exact Hro].
+ intros e. rewrite Hmem', Hmem1. split.
* intros [[He Hne] Hr]. split; [exact He|].
  intros j Hj. apply elem_of_cons in Hj as [->|Hj]; auto.
* intros [He Hr]. split; [split; [exact He|]|].
  -- apply Hr. left.
  -- intros j Hj. apply Hr. right. exact Hj.
Qed.

End WriteLogMapRemoval.

Section ShutDown.
Import WriteLogMap WriteLogMapSpec.

Lemma set_map_objs_twice (s : RWL) h1 m1 h2 m2 :
set_m_blocks_to_log_entries m2
(set_log_entry_objs h2
 (set_m_blocks_to_log_entries m1 (set_log_entry_objs h1 s)))
= set_m_blocks_to_log_entries m2 (set_log_entry_objs h2 s).
Proof. destruct s; reflexivity. Qed.

Lemma set_map_objs_id (s : RWL) :
set_m_blocks_to_log_entries (m_blocks_to_log_entries s)
(set_log_entry_objs (log_entry_objs s) s) = s.
Proof. destruct s; reflexivity. Qed.

(** The loop of [shut_down] over the log: it returns when no write of the
log has a reader or is being flushed, and leaves in the map the entries
that refer to none of the log entries gone through. *)
Lemma shut_down_remove_spec (entries : list nat) :
forall s : RWL,
map_consistent (log_entry_objs s) (m_blocks_to_log_entries s) ->
(forall id : nat, id ∈ entries ->
 exists e, log_entry_objs s !! id = Some e /\
 (is_write (ram_entry e) = true ->
  reader_count e = 0 /\ flushing e = false)) ->
exists h' m',
shut_down_remove entries s
= Some (set_m_blocks_to_log_entries m' (set_log_entry_objs h' s)) /\
map_consistent h' m' /\ refs_only (log_entry_objs s) h' /\
(forall x, x ∈ m' <->
 x ∈ m_blocks_to_log_entries s /\
 forall id : nat, id ∈ entries -> me_log_entry x <> Some id).
Proof.
induction entries as [|id rest IH]; intros s Hc Hall.
- exists (log_entry_objs s), (m_blocks_to_log_entries s). simpl.
rewrite set_map_objs_id. split; [reflexivity|]. split; [exact Hc|].
split; [apply refs_only_refl|].
intros x. split; [intros Hx; split; [exact Hx|]|tauto].
intros id Hid. apply elem_of_nil in Hid. contradiction.
- destruct (Hall id) as (e & Hid & Hidle); [left|].
cbn [shut_down_remove]. rewrite Hid. simpl.
destruct (is_write (ram_entry e)) eqn:Hw.
+ destruct (remove_log_entry_consistent _ _ id e Hc Hid)
  as (m1 & Hrun & Hc1 & Hmem1).
destruct (Hidle eq_refl) as [Hrd Hfl].
unfold map_remove_log_entry. rewrite Hrun. simpl.
rewrite lookup_insert_eq. simpl. rewrite Hrd, Hfl. simpl.
set (s1 := set_m_blocks_to_log_entries m1 (set_log_entry_objs _ s)).
destruct (IH s1) as (h' & m' & Hrest & Hc' & Hro & Hmem').
{ exact Hc1. }
{ intros j Hj. subst s1. simpl.
  destruct (decide (id = j)) as [<-|Hne].
  - rewrite lookup_insert_eq. eexists. split; [reflexivity|].
    intros _. split; [exact Hrd|exact Hfl].
  - rewrite lookup_insert_ne by exact Hne. apply Hall. right. exact Hj. }
exists h', m'. rewrite Hrest. subst s1. rewrite set_map_objs_twice.
split; [reflexivity|]. split; [exact Hc'|]. split.
* eapply refs_only_trans; [apply refs_only_zero; exact Hid | exact Hro].
* intros x. rewrite Hmem'. simpl. rewrite Hmem1. split.
  -- intros [[Hx Hne] Hr]. split; [exact Hx|].
     intros j Hj. apply elem_of_cons in Hj as [->|Hj]; auto.
  -- intros [Hx Hr]. split; [split; [exact Hx|]|].
     ++ apply Hr. left.
     ++ intros j Hj. apply Hr. right. exact Hj.
+ simpl. destruct (IH s Hc) as (h' & m' & Hrest & Hc' & Hro & Hmem').
{ intros j Hj. apply Hall. right. exact Hj. }
exists h', m'. split; [exact Hrest|]. split; [exact Hc'|].
split; [exact Hro|].
intros x. rewrite Hmem'. split.
* intros [Hx Hr]. split; [exact Hx|].
  intros j Hj. apply elem_of_cons in Hj as [->|Hj]; auto.
  destruct Hc as (_ & Hb & _). rewrite Forall_forall in Hb.
  destruct (Hb x Hx) as (i & e' & Hi & He' & Hw' & _).
  intros Hx'. congruence.
* intros [Hx Hr]. split; [exact Hx|].
  intros j Hj. apply Hr. right. exact Hj.
Qed.

(** X6.  The part of [shut_down] that empties the log.  When the map and
the back-reference counts agree, nothing is dirty, every map entry
refers to an entry of the log and no write of the log has a reader or
is being flushed, it returns with the map and the log empty; the log
entries are changed in their back-reference counts only, and the rest
of the state is as it was. *)
Theorem shut_down_empties_the_map (s : RWL) :
map_consistent (log_entry_objs s) (m_blocks_to_log_entries s) ->
m_dirty_log_entries s = [] ->
Forall (fun x => exists id : nat,
      me_log_entry x = Some id /\ id ∈ m_log_entries s)
   (m_blocks_to_log_entries s) ->
Forall (fun id : nat =>
      exists e, log_entry_objs s !! id = Some e /\
        (is_write (ram_entry e) = true ->
         reader_count e = 0 /\ flushing e = false))
   (m_log_entries s) ->
exists s',
shut_down_clear_log s = Some s' /\
m_blocks_to_log_entries s' = [] /\ m_log_entries s' = [] /\
refs_only (log_entry_objs s) (log_entry_objs s') /\
s' = set_m_log_entries []
     (set_m_blocks_to_log_entries []
        (set_log_entry_objs (log_entry_objs s') s)).
Proof.
intros Hc Hd Hin Hall.
pose proof (proj1 (Forall_forall _ _) Hin) as Hin'.
pose proof (proj1 (Forall_forall _ _) Hall) as Hall'.
clear Hin Hall. rename Hin' into Hin.
destruct (shut_down_remove_spec (m_log_entries s) s Hc Hall')
as (h' & m' & Hrun & Hc' & Hro & Hmem).
assert (Hm' : m' = []).
{ destruct m' as [|x m']; [reflexivity|]. exfalso.
destruct (proj1 (Hmem x)) as [Hx Hr]; [left|].
destruct (Hin x Hx) as (id & Hid & Hlog). exact (Hr id Hlog Hid). }
subst m'. unfold shut_down_clear_log. rewrite Hd. simpl. rewrite Hrun. simpl.
eexists. split; [reflexivity|]. simpl.
split; [reflexivity|]. split; [reflexivity|]. split; [exact Hro|].
reflexivity.
Qed.

End ShutDown.

(** X7.  The block extent and the image extent of a range are inverse to
    each other on 64-bit values, whatever the length: also for an empty
    range and for one that runs over the end of the 64-bit space. *)
Theorem extent_round_trip (e : Extent) (be : BlockExtent) :
  is_u64 (fst e) -> is_u64 (snd e) ->
  is_u64 (block_start be) -> is_u64 (block_end be) ->
  image_extent (block_extent_of e) = e /\
  block_extent_of (image_extent be) = be.
Proof.
  intros Ho Hl Hs He. destruct e as [o l], be as [s t]. simpl in *.
  unfold image_extent, block_extent_of, block_extent, wrap64, is_u64 in *.
  simpl. split; f_equal.
  - replace ((o + l - 1) mod 2 ^ 64 - o + 1)
      with ((o + l - 1) mod 2 ^ 64 + (1 - o)) by lia.
    rewrite Z.add_mod_idemp_l by lia.
    replace (o + l - 1 + (1 - o)) with l by lia. apply Z.mod_small. lia.
  - replace (s + (t - s + 1) mod 2 ^ 64 - 1)
      with ((t - s + 1) mod 2 ^ 64 + (s - 1)) by lia.
    rewrite Z.add_mod_idemp_l by lia.
    replace (t - s + 1 + (s - 1)) with t by lia. apply Z.mod_small. lia.
Qed.

Lemma sample_map_wf : WriteLogMapSpec.map_wf sample_map.
Proof. split; repeat constructor; vm_compute; congruence. Qed.

Lemma add_log_entry_locked_keeps_map_consistent_witness :
  exists h' m',
    WriteLogMap.add_log_entry_locked 1
      (log_entry_objs retirable_cache, sample_map) = Some (h', m') /\
    WriteLogMapSpec.map_consistent h' m' /\
    WriteLogMapSpec.refs_only (log_entry_objs retirable_cache) h'.
Proof.
  apply (add_log_entry_locked_keeps_map_consistent
           (log_entry_objs retirable_cache) sample_map 1%nat
           (set_flushed true (sample_write 1024 512 1 1 8))).
  - exact retirable_cache_consistent.
  - vm_compute. reflexivity.
  - reflexivity.
  - vm_compute. repeat split; congruence.
Defined.

Lemma find_map_entries_locked_spec_witness :
  WriteLogMap.find_map_entries_locked (mkBlockExtent 1000 5000) sample_map
    = [mkMapEntry (mkBlockExtent 0 4095) (Some 0%nat)] /\
  WriteLogMap.find_log_entries_locked (mkBlockExtent 5000 6000) sample_map = [].
Proof.
  split.
  - rewrite (proj1 (find_map_entries_locked_spec sample_map
                      (mkBlockExtent 1000 5000) sample_map_wf
                      ltac:(vm_compute; repeat split; congruence))).
    reflexivity.
  - rewrite (proj2 (find_map_entries_locked_spec sample_map
                      (mkBlockExtent 5000 6000) sample_map_wf
                      ltac:(vm_compute; repeat split; congruence))).
    reflexivity.
Defined.

Lemma added_log_entry_is_found_witness :
  exists h' m',
    WriteLogMap.add_log_entry_locked 1 (sample_log_entries, sample_map)
      = Some (h', m') /\
    WriteLogMap.find_map_entries_locked (mkBlockExtent 1100 1200) m'
      = [mkMapEntry (mkBlockExtent 1024 1535) (Some 1%nat)] /\
    WriteLogMap.find_log_entries_locked (mkBlockExtent 1100 1200) m'
      = [Some 1%nat].
Proof.
  apply (added_log_entry_is_found sample_log_entries sample_map 1%nat
           (sample_write 1024 512 1 1 8) (mkBlockExtent 1100 1200)).
  - exact sample_map_wf.
  - repeat constructor. exists 0%nat. split; [reflexivity|].
    vm_compute. eauto.
  - vm_compute. reflexivity.
  - reflexivity.
  - vm_compute. repeat split; congruence.
  - vm_compute. repeat split; congruence.
  - vm_compute. congruence.
  - vm_compute. congruence.
Defined.

Lemma remove_log_entry_erases_references_witness :
  exists m',
    WriteLogMap.remove_log_entry 0 (log_entry_objs retirable_cache, sample_map)
      = Some (<[0%nat := set_referring_map_entries 0
                           (set_flushed true
                              (set_referring_map_entries 1
                                 (sample_write 0 4096 1 0 7)))]>
                (log_entry_objs retirable_cache), m') /\
    (forall be : BlockExtent,
       Some 0%nat ∉ WriteLogMap.find_log_entries_locked be m').
Proof.
  destruct (remove_log_entry_erases_references
              (log_entry_objs retirable_cache) sample_map 0%nat
              (set_flushed true
                 (set_referring_map_entries 1 (sample_write 0 4096 1 0 7))))
    as (m' & Hrun & _ & _ & Hfind).
  - exact retirable_cache_consistent.
  - vm_compute. reflexivity.
  - exists m'. split; [exact Hrun | exact Hfind].
Defined.

Lemma remove_log_entries_erases_references_witness :
  exists h' m',
    remove_log_entries [0%nat; 1%nat]
      (log_entry_objs retirable_cache, sample_map) = Some (h', m') /\
    WriteLogMapSpec.map_consistent h' m' /\
    (forall e, e ∈ m' <->
       e ∈ sample_map /\
       forall id : nat, id ∈ [0%nat; 1%nat] -> me_log_entry e <> Some id).
Proof.
  destruct (remove_log_entries_erases_references [0%nat; 1%nat]
              (log_entry_objs retirable_cache) sample_map)
    as (h' & m' & Hrun & Hc & _ & Hmem).
  - exact retirable_cache_consistent.
  - intros id Hid. apply elem_of_cons in Hid as [->|Hid];
      [vm_compute; eauto|].
    apply list_elem_of_singleton in Hid as ->. vm_compute. eauto.
  - exists h', m'. split; [exact Hrun|]. split; [exact Hc | exact Hmem].
Defined.

Lemma shut_down_empties_the_map_witness :
  exists s',
    shut_down_clear_log retirable_cache = Some s' /\
    m_blocks_to_log_entries s' = [] /\ m_log_entries s' = [].
Proof.
  destruct (shut_down_empties_the_map retirable_cache)
    as (s' & Hrun & Hm & Hl & _).
  - exact retirable_cache_consistent.
  - reflexivity.
  - repeat constructor. exists 0%nat. split; [reflexivity|].
    vm_compute. left.
  - repeat constructor; eexists; (split; [vm_compute; reflexivity|]);
      intros _; split; reflexivity.
  - exists s'. split; [exact Hrun|]. split; [exact Hm | exact Hl].
Defined.

Lemma extent_round_trip_witness :
  image_extent (block_extent_of (2 ^ 64 - 512, 1024)) = (2 ^ 64 - 512, 1024) /\
  block_extent_of (image_extent (mkBlockExtent 4096 4095))
    = mkBlockExtent 4096 4095.
Proof.
  apply (extent_round_trip (2 ^ 64 - 512, 1024) (mkBlockExtent 4096 4095));
    vm_compute; split; congruence.
Defined.

(** * Reads *)

Section ReadSplit.
Import WriteLogMap WriteLogMapSpec.

Implicit Types (m M es : list WriteLogMapEntry) (e : WriteLogMapEntry).
Implicit Types (h : LogEntries) (s : RWL).

Local Abbreviation ext := me_block_extent.

Lemma add_readers_0 (le : GenericLogEntry) : add_readers 0 le = le.
Proof. destruct le. unfold add_readers. simpl. rewrite Z.add_0_r. reflexivity. Qed.

Lemma add_readers_add a b (le : GenericLogEntry) :
add_readers b (add_readers a le) = add_readers (a + b) le.
Proof. destruct le. unfold add_readers. simpl. rewrite Z.add_assoc. reflexivity. Qed.

Lemma entry_readable_readers h h' pool e :
readers_differ h h' -> entry_readable h pool e -> entry_readable h' pool e.
Proof.
intros Hd (i & w & p & data & Hi & Hw & Hrest). destruct (Hd i) as [d Hd'].
exists i, (add_readers d w), p, data. split; [exact Hi|].
split; [rewrite Hd', Hw; reflexivity|]. exact Hrest.
Qed.

Lemma piece_ok_readers M h h' pos p :
readers_differ h h' -> piece_ok M h' pos p -> piece_ok M h pos p.
Proof.
intros Hd [Hlen Hp]. split; [exact Hlen|].
destruct (m_buf p) as [buf|]; [|exact Hp].
destruct Hp as (Hl & e & w' & He & Hi & Hw' & Hrest). split; [exact Hl|].
destruct (Hd (hit_log_entry buf)) as [d Hd']. rewrite Hw' in Hd'.
destruct (h !! hit_log_entry buf) as [w|] eqn:Hw; [|discriminate].
simpl in Hd'. injection Hd' as ->.
exists e, w. split; [exact He|]. split; [exact Hi|]. split; [reflexivity|].
exact Hrest.
Qed.

Lemma read_tiling_readers M h h' pieces :
readers_differ h h' ->
forall pos stop, read_tiling M h' pos pieces stop -> read_tiling M h pos pieces stop.
Proof.
intros Hd. induction pieces as [|p rest IH]; intros pos stop Ht; [exact Ht|].
destruct Ht as [Hp Ht]. split; [eapply piece_ok_readers; eauto|].
apply IH. exact Ht.
Qed.

Lemma read_tiling_app M h p1 p2 :
forall pos mid stop,
read_tiling M h pos p1 mid -> read_tiling M h mid p2 stop ->
read_tiling M h pos (p1 ++ p2) stop.
Proof.
induction p1 as [|p p1 IH]; intros pos mid stop H1 H2.
- simpl in H1. subst mid. exact H2.
- destruct H1 as [Hp H1]. split; [exact Hp|]. eapply IH; eauto.
Qed.

Lemma hits_on_app (j : nat) p1 p2 :
hits_on j (p1 ++ p2) = hits_on j p1 + hits_on j p2.
Proof. unfold hits_on. rewrite filter_app, length_app. lia. Qed.

Lemma miss_extents_of_app p1 p2 :
miss_extents_of (p1 ++ p2) = miss_extents_of p1 ++ miss_extents_of p2.
Proof. unfold miss_extents_of. apply omap_app. Qed.

(** One turn of the loop of [aio_read] over the map entries. *)
Lemma read_map_entry_spec (off len : Z) e M (o : Z) miss reads s :
0 <= off -> off + len <= 2 ^ 64 -> len < 2 ^ 64 -> 0 <= o < len ->
e ∈ M ->
entry_readable (log_entry_objs s) (m_log_pool s) e ->
block_start (ext e) <= block_end (ext e) ->
block_start (ext e) <= off + len - 1 ->
off + o <= block_end (ext e) ->
Forall (fun e' => block_end (ext e') < off + o \/
                block_start (ext e) <= block_start (ext e')) M ->
exists (i : nat) w pieces o',
me_log_entry e = Some i /\ log_entry_objs s !! i = Some w /\
read_map_entry (off, len) e o miss reads s
  = Some (o', miss ++ miss_extents_of pieces, reads ++ pieces,
          set_log_entry_objs (<[i := add_readers 1 w]> (log_entry_objs s)) s) /\
read_tiling M (log_entry_objs s) (off + o) pieces (off + o') /\
(forall j : nat, hits_on j pieces = if decide (i = j) then 1 else 0) /\
o < o' <= len /\
((o' = len /\ off + len - 1 <= block_end (ext e)) \/
 off + o' = block_end (ext e) + 1).
Proof.
intros Hoff Hlen Hlen' Ho HeM Hr Hse Hsl Hpe HM.
destruct Hr as (i & w & pool & data & Hi & Hw & Hio & Hios & Heio & Hiob & Hwb
              & _ & _ & _).
exists i, w.
unfold read_map_entry. cbn [fst snd image_extent].
set (st := block_start (ext e)) in *. set (en := block_end (ext e)) in *.
rewrite (wrap64_id (off + o)) by (unfold is_u64; lia).
rewrite (wrap64_id (en - st + 1)) by (unfold is_u64; lia).
destruct (off + o <? st) eqn:Hmiss.
- (* a miss before the entry *)
apply Z.ltb_lt in Hmiss.
rewrite (wrap64_id (st - (off + o))) by (unfold is_u64; lia).
rewrite (wrap64_id (o + (st - (off + o)))) by (unfold is_u64; lia).
replace (o + (st - (off + o))) with (st - off) by lia.
rewrite (wrap64_id (off + (st - off))) by (unfold is_u64; lia).
replace (off + (st - off)) with st by lia.
rewrite Z.leb_refl, Z.ltb_irrefl. simpl.
rewrite Hi. simpl. rewrite Hw. simpl.
rewrite Z.sub_0_r, Z.add_0_r.
rewrite (wrap64_id (en - st + 1)) by (unfold is_u64; lia).
rewrite (wrap64_id (len - (st - off))) by (unfold is_u64; lia).
rewrite (wrap64_id (st - image_offset_bytes (ram_entry w)))
  by (unfold is_u64; lia).
rewrite (wrap64_id (st - image_offset_bytes (ram_entry w)))
  by (unfold is_u64; lia).
set (hl := Z.min (en - st + 1) (len - (st - off))).
assert (Hhl : 0 < hl <= len - (st - off) /\ hl <= en - st + 1) by (subst hl; lia).
rewrite (wrap64_id (st - off + hl)) by (unfold is_u64; lia).
unfold update_log_entry. rewrite Hw. simpl.
exists [mkImageExtentBuf (off + o, st - (off + o)) None;
        mkImageExtentBuf (st, hl)
          (Some (mkHitBuf hl i (st - image_offset_bytes (ram_entry w))))],
       (st - off + hl).
split; [reflexivity|]. split; [reflexivity|]. split.
{ unfold miss_extents_of. cbn [omap list_omap m_buf ieb_extent].
  rewrite <- !app_assoc. reflexivity. }
split.
{ cbn [read_tiling]. split; [|split].
  - split; [simpl; lia|]. simpl. split; [reflexivity|].
    intros e' He'. rewrite Forall_forall in HM. specialize (HM e' He').
    fold st in HM. lia.
  - split; [simpl; lia|]. cbn [m_buf hit_length ieb_extent snd hit_log_entry hit_offset].
    split; [reflexivity|]. exists e, w.
    split; [exact HeM|]. split; [exact Hi|]. split; [exact Hw|].
    fold st en. lia.
  - simpl. lia. }
split.
{ intros j. unfold hits_on. rewrite filter_cons_False by (simpl; discriminate).
  destruct (decide (i = j)) as [<-|Hne].
  - rewrite filter_cons_True by reflexivity. reflexivity.
  - rewrite filter_cons_False by (simpl; congruence). reflexivity. }
split; [lia|].
destruct (Z.le_ge_cases (en - st + 1) (len - (st - off))); subst hl.
+ right. rewrite Z.min_l by lia. lia.
+ left. rewrite Z.min_r by lia. lia.
- (* the entry starts at or before the position reached *)
apply Z.ltb_ge in Hmiss. cbv beta iota zeta.
rewrite !(wrap64_id (off + o)) by (unfold is_u64; lia).
rewrite (proj2 (Z.leb_le _ _) Hmiss). simpl.
rewrite Hi. simpl. rewrite Hw. simpl.
assert (Heo : (if st <? off + o then wrap64 (off + o - st) else 0)
              = off + o - st).
{ destruct (st <? off + o) eqn:Hlt.
  - apply wrap64_id. apply Z.ltb_lt in Hlt. unfold is_u64. lia.
  - apply Z.ltb_ge in Hlt. lia. }
rewrite Heo.
rewrite (wrap64_id (en - st + 1 - (off + o - st))) by (unfold is_u64; lia).
rewrite (wrap64_id (len - o)) by (unfold is_u64; lia).
rewrite (wrap64_id (st - image_offset_bytes (ram_entry w)))
  by (unfold is_u64; lia).
rewrite (wrap64_id (st - image_offset_bytes (ram_entry w) + (off + o - st)))
  by (unfold is_u64; lia).
set (hl := Z.min (en - st + 1 - (off + o - st)) (len - o)).
assert (Hhl : 0 < hl <= len - o /\ hl <= en - (off + o) + 1) by (subst hl; lia).
rewrite (wrap64_id (o + hl)) by (unfold is_u64; lia).
unfold update_log_entry. rewrite Hw. simpl.
exists [mkImageExtentBuf (st, hl)
          (Some (mkHitBuf hl i
                   (st - image_offset_bytes (ram_entry w) + (off + o - st))))],
       (o + hl).
split; [reflexivity|]. split; [reflexivity|]. split.
{ unfold miss_extents_of. cbn [omap list_omap m_buf ieb_extent].
  rewrite app_nil_r. reflexivity. }
split.
{ cbn [read_tiling]. split.
  - split; [simpl; lia|]. cbn [m_buf hit_length ieb_extent snd hit_log_entry hit_offset].
    split; [reflexivity|]. exists e, w.
    split; [exact HeM|]. split; [exact Hi|]. split; [exact Hw|].
    fold st en. lia.
  - simpl. lia. }
split.
{ intros j. unfold hits_on.
  destruct (decide (i = j)) as [<-|Hne].
  - rewrite filter_cons_True by reflexivity. reflexivity.
  - rewrite filter_cons_False by (simpl; congruence). reflexivity. }
split; [lia|].
destruct (Z.le_ge_cases (en - st + 1 - (off + o - st)) (len - o)); subst hl.
+ right. rewrite Z.min_l by lia. lia.
+ left. rewrite Z.min_r by lia. lia.
Qed.

Lemma set_log_entry_objs_twice s h1 h2 :
set_log_entry_objs h2 (set_log_entry_objs h1 s) = set_log_entry_objs h2 s.
Proof. destruct s; reflexivity. Qed.

Lemma set_log_entry_objs_same s : set_log_entry_objs (log_entry_objs s) s = s.
Proof. destruct s; reflexivity. Qed.

Lemma readers_differ_insert h (i : nat) (w : GenericLogEntry) (d : Z) :
h !! i = Some w ->
forall j : nat,
<[i := add_readers d w]> h !! j
= add_readers (if decide (i = j) then d else 0) <$> h !! j.
Proof.
intros Hw j. destruct (decide (i = j)) as [<-|Hne].
- rewrite lookup_insert_eq, Hw. reflexivity.
- rewrite lookup_insert_ne by exact Hne.
destruct (h !! j); simpl; [rewrite add_readers_0|]; reflexivity.
Qed.

(** The loop of [aio_read] over the map entries that overlap the extent
[(off, len)], from the offset [o] on. *)
Lemma read_map_entries_spec (off len : Z) M es :
forall (o : Z) miss reads s,
0 <= off -> off + len <= 2 ^ 64 -> len < 2 ^ 64 ->
0 <= o <= len -> (es <> [] -> o < len) ->
StronglySorted entry_lt es ->
Forall (fun e => e ∈ M /\
        entry_readable (log_entry_objs s) (m_log_pool s) e /\
        block_start (ext e) <= block_end (ext e) /\
        block_start (ext e) <= off + len - 1 /\
        off + o <= block_end (ext e)) es ->
Forall (fun e' => block_end (ext e') < off + o \/ e' ∈ es) M ->
exists o' pieces h',
read_map_entries (off, len) es o miss reads s
  = Some (o', miss ++ miss_extents_of pieces, reads ++ pieces,
          set_log_entry_objs h' s) /\
read_tiling M (log_entry_objs s) (off + o) pieces (off + o') /\
(forall j : nat,
   h' !! j = add_readers (hits_on j pieces) <$> log_entry_objs s !! j) /\
o <= o' <= len /\
(o' = len \/ Forall (fun e' => block_end (ext e') < off + o') M).
Proof.
induction es as [|e es IH]; intros o miss reads s Hoff Hlen Hlen' Ho Hne Hs Hes HM.
- exists o, [], (log_entry_objs s). simpl.
rewrite !app_nil_r, set_log_entry_objs_same.
split; [reflexivity|]. split; [reflexivity|]. split.
{ intros j. unfold hits_on. simpl.
  destruct (log_entry_objs s !! j); simpl; [rewrite add_readers_0|]; reflexivity. }
split; [lia|]. right. eapply Forall_impl; [exact HM|].
intros e' [He'|He']; [exact He'|]. apply elem_of_nil in He'. contradiction.
- specialize (Hne ltac:(discriminate)).
apply StronglySorted_inv in Hs as [Hs Hlt].
apply Forall_cons in Hes as [(HeM & Hr & Hse & Hsl & Hpe) Hes].
destruct (read_map_entry_spec off len e M o miss reads s)
  as (i & w & p1 & o1 & Hi & Hw & Hstep & Ht1 & Hh1 & Ho1 & Hend);
  try assumption; [lia| |].
{ eapply Forall_impl; [exact HM|]. intros e' [He'|He']; [left; exact He'|].
  right. apply elem_of_cons in He' as [->|He']; [lia|].
  rewrite Forall_forall in Hlt. specialize (Hlt e' He').
  unfold entry_lt in Hlt. lia. }
cbn [read_map_entries]. rewrite Hstep. cbn [mbind option_bind].
set (h1 := <[i := add_readers 1 w]> (log_entry_objs s)).
assert (Hd1 : readers_differ (log_entry_objs s) h1).
{ intros j. eexists. apply readers_differ_insert. exact Hw. }
destruct (decide (es = [])) as [->|Hnn].
{ (* the last entry *)
  exists o1, p1, h1. cbn [read_map_entries].
  split; [reflexivity|]. split; [exact Ht1|]. split.
  { intros j. subst h1. rewrite (readers_differ_insert _ i w 1 Hw j), Hh1.
    reflexivity. }
  split; [lia|].
  destruct Hend as [[-> _]|Hend]; [left; reflexivity|]. right.
  eapply Forall_impl; [exact HM|]. intros e' [He'|He']; [lia|].
  apply list_elem_of_singleton in He' as ->. lia. }
assert (Hes' : off + o1 = block_end (ext e) + 1).
{ destruct Hend as [[-> Hle]|Hend]; [|exact Hend]. exfalso.
  destruct es as [|e2 es2]; [congruence|].
  apply Forall_cons in Hes as [(_ & _ & _ & Hsl2 & _) _].
  apply Forall_cons in Hlt as [Hlt2 _]. unfold entry_lt in Hlt2. lia. }
destruct (IH o1 (miss ++ miss_extents_of p1) (reads ++ p1)
            (set_log_entry_objs h1 s))
  as (o' & p2 & h' & Hloop & Ht2 & Hh2 & Ho2 & Hfin); try assumption.
{ lia. }
{ intros _.
  destruct es as [|e2 es2]; [congruence|].
  apply Forall_cons in Hes as [(_ & _ & _ & Hsl2 & _) _].
  apply Forall_cons in Hlt as [Hlt2 _]. unfold entry_lt in Hlt2. lia. }
{ rewrite Forall_forall in Hes, Hlt |- *. intros e2 He2.
  destruct (Hes e2 He2) as (H1 & H2 & H3 & H4 & H5).
  split; [exact H1|]. split.
  { simpl. eapply entry_readable_readers; [exact Hd1|].
    replace (m_log_pool (set_log_entry_objs h1 s)) with (m_log_pool s)
      by (destruct s; reflexivity).
    exact H2. }
  split; [exact H3|]. split; [exact H4|].
  specialize (Hlt e2 He2). unfold entry_lt in Hlt. lia. }
{ eapply Forall_impl; [exact HM|]. intros e' [He'|He']; [left; lia|].
  apply elem_of_cons in He' as [->|He']; [left; lia|]. right. exact He'. }
exists o', (p1 ++ p2), h'. rewrite Hloop.
rewrite set_log_entry_objs_twice, miss_extents_of_app, !app_assoc.
split; [reflexivity|]. split.
{ eapply read_tiling_app; [exact Ht1|].
  eapply read_tiling_readers; [exact Hd1|]. exact Ht2. }
split.
{ intros j. rewrite Hh2. simpl. subst h1.
  rewrite (readers_differ_insert _ i w 1 Hw j), hits_on_app, Hh1.
  destruct (log_entry_objs s !! j); simpl; [|reflexivity].
  rewrite add_readers_add. reflexivity. }
split; [lia|]. exact Hfin.
Qed.

Lemma StronglySorted_filter_lt (P : WriteLogMapEntry -> Prop)
`{forall e, Decision (P e)} m :
StronglySorted entry_lt m -> StronglySorted entry_lt (filter P m).
Proof.
induction m as [|e m IH]; intros Hs; [constructor|].
apply StronglySorted_inv in Hs as [Hs Hlt]. rewrite filter_cons.
destruct (decide (P e)); [|auto].
constructor; [auto|]. rewrite Forall_forall in *. intros y Hy.
apply Hlt. apply list_elem_of_filter in Hy. tauto.
Qed.

Lemma read_tiling_le M h pieces :
forall pos stop, read_tiling M h pos pieces stop -> pos <= stop.
Proof.
induction pieces as [|p rest IH]; intros pos stop Ht.
- simpl in Ht. lia.
- destruct Ht as [[Hl _] Ht]. apply IH in Ht. lia.
Qed.

(** The pieces found among the entries [M] that overlap the range from
[lo] up to [hi] are right for the whole map. *)
Lemma read_tiling_lift M m h (lo hi : Z) pieces :
(forall e, e ∈ M -> e ∈ m) ->
(forall e, e ∈ m -> e ∈ M \/ block_end (ext e) < lo \/ hi <= block_start (ext e)) ->
forall pos stop,
lo <= pos -> stop <= hi ->
read_tiling M h pos pieces stop -> read_tiling m h pos pieces stop.
Proof.
intros Hsub Hout. induction pieces as [|p rest IH]; intros pos stop Hlo Hhi Ht.
- exact Ht.
- destruct Ht as [Hp Ht]. pose proof (read_tiling_le _ _ _ _ _ Ht) as Hle.
destruct Hp as [Hl Hp]. split.
+ split; [exact Hl|]. destruct (m_buf p) as [buf|].
  * destruct Hp as (Hbl & e & w & He & Hrest). split; [exact Hbl|].
    exists e, w. split; [apply Hsub; exact He | exact Hrest].
  * destruct Hp as [Hfst Hfree]. split; [exact Hfst|].
    intros e He. destruct (Hout e He) as [HM|[Hb|Ha]]; [auto|lia|lia].
+ apply IH; [lia|lia|exact Ht].
Qed.

(** One extent of a read. *)
Lemma read_extent_spec (extent : Extent) miss reads s :
extent_proper extent ->
map_wf (m_blocks_to_log_entries s) -> map_readable s ->
exists pieces h',
read_extent extent miss reads s
  = Some (miss ++ miss_extents_of pieces, reads ++ pieces,
          set_log_entry_objs h' s) /\
read_tiling (m_blocks_to_log_entries s) (log_entry_objs s)
  (fst extent) pieces (fst extent + snd extent) /\
(forall j : nat,
   h' !! j = add_readers (hits_on j pieces) <$> log_entry_objs s !! j).
Proof.
destruct extent as [off len]. intros (Hoff & Hlen' & Hlen) Hwf Hrd.
cbn [fst snd] in *. unfold read_extent.
set (m := m_blocks_to_log_entries s) in *.
assert (Hbe : block_extent_of (off, len) = mkBlockExtent off (off + len - 1)).
{ unfold block_extent_of, block_extent. cbn [fst snd].
rewrite wrap64_id by (unfold is_u64; lia). reflexivity. }
assert (Hok : extent_ok (block_extent_of (off, len))).
{ rewrite Hbe. unfold extent_ok. simpl. lia. }
unfold find_map_entries_locked.
rewrite (equal_range_filter (mkMapEntry (block_extent_of (off, len)) None) m Hwf Hok).
cbn [me_block_extent]. rewrite Hbe.
set (M := filter _ m).
assert (HM : forall e, e ∈ M <->
             e ∈ m /\ off <= block_end (ext e) /\ block_start (ext e) <= off + len - 1).
{ intros e. subst M. rewrite list_elem_of_filter.
rewrite Is_true_true, overlapsb_spec. unfold overlaps. simpl. tauto. }
unfold map_readable in Hrd. fold m in Hrd. rewrite Forall_forall in Hrd.
destruct (read_map_entries_spec off len M M 0 miss reads s)
as (o' & p1 & h' & Hloop & Ht & Hh & Ho' & Hfin); try lia.
{ apply StronglySorted_filter_lt. apply Hwf. }
{ rewrite Forall_forall. intros e He. split; [exact He|].
apply HM in He as (Hem & H1 & H2). split; [apply Hrd; exact Hem|].
pose proof (map_wf_elem m e Hwf Hem) as (? & ? & ?). lia. }
{ rewrite Forall_forall. intros e He. right. exact He. }
rewrite Hloop. cbn [mbind option_bind fst snd].
rewrite Z.add_0_r in Ht.
assert (Hlift : forall pieces stop,
        stop <= off + len ->
        read_tiling M (log_entry_objs s) off pieces stop ->
        read_tiling m (log_entry_objs s) off pieces stop).
{ intros pieces stop Hstop. apply (read_tiling_lift M m _ off (off + len)); try lia.
- intros e He. apply HM in He. tauto.
- intros e He. destruct (decide (off <= block_end (ext e)));
    destruct (decide (block_start (ext e) <= off + len - 1));
    [left; apply HM; tauto | right; right; lia | right; left; lia
    | right; left; lia]. }
destruct (o' <? len) eqn:Hrest.
- apply Z.ltb_lt in Hrest.
destruct Hfin as [->|Hfin]; [lia|].
rewrite (wrap64_id (off + o')) by (unfold is_u64; lia).
rewrite (wrap64_id (len - o')) by (unfold is_u64; lia).
exists (p1 ++ [mkImageExtentBuf (off + o', len - o') None]), h'.
rewrite miss_extents_of_app, !app_assoc.
split; [reflexivity|]. split.
+ apply Hlift; [lia|]. eapply read_tiling_app; [exact Ht|].
  cbn [read_tiling]. split; [|simpl; lia].
  split; [simpl; lia|]. simpl. split; [reflexivity|].
  intros e He. left. rewrite Forall_forall in Hfin. apply Hfin. exact He.
+ intros j. rewrite hits_on_app, Hh.
  replace (hits_on j [mkImageExtentBuf (off + o', len - o') None]) with 0
    by (unfold hits_on; rewrite filter_cons_False by (simpl; discriminate);
        reflexivity).
  rewrite Z.add_0_r. reflexivity.
- apply Z.ltb_ge in Hrest. assert (o' = len) by lia. subst o'.
exists p1, h'. split; [reflexivity|]. split; [|exact Hh].
apply Hlift; [lia|exact Ht].
Qed.

Lemma map_readable_readers s h' :
readers_differ (log_entry_objs s) h' ->
map_readable s -> map_readable (set_log_entry_objs h' s).
Proof.
intros Hd Hr. unfold map_readable in *.
replace (m_blocks_to_log_entries (set_log_entry_objs h' s))
with (m_blocks_to_log_entries s) by (destruct s; reflexivity).
replace (m_log_pool (set_log_entry_objs h' s)) with (m_log_pool s)
by (destruct s; reflexivity).
replace (log_entry_objs (set_log_entry_objs h' s)) with h'
by (destruct s; reflexivity).
eapply Forall_impl; [exact Hr|]. intros e. apply entry_readable_readers. exact Hd.
Qed.

Lemma read_tilings_readers M h h' extents :
readers_differ h h' ->
forall pieces, read_tilings M h' extents pieces -> read_tilings M h extents pieces.
Proof.
intros Hd. induction extents as [|x rest IH]; intros pieces Ht; [exact Ht|].
destruct Ht as (p1 & p2 & -> & Ht1 & Ht2). exists p1, p2.
split; [reflexivity|]. split; [eapply read_tiling_readers; eauto|].
apply IH. exact Ht2.
Qed.

(** The loop of [aio_read] over the extents of the read. *)
Lemma read_extents_spec (extents : list Extent) :
forall miss reads s,
Forall extent_proper extents ->
map_wf (m_blocks_to_log_entries s) -> map_readable s ->
exists pieces h',
read_extents extents miss reads s
  = Some (miss ++ miss_extents_of pieces, reads ++ pieces,
          set_log_entry_objs h' s) /\
read_tilings (m_blocks_to_log_entries s) (log_entry_objs s) extents pieces /\
(forall j : nat,
   h' !! j = add_readers (hits_on j pieces) <$> log_entry_objs s !! j).
Proof.
induction extents as [|x rest IH]; intros miss reads s Hp Hwf Hrd.
- exists [], (log_entry_objs s). simpl.
rewrite !app_nil_r, set_log_entry_objs_same.
split; [reflexivity|]. split; [reflexivity|].
intros j. unfold hits_on. simpl.
destruct (log_entry_objs s !! j); simpl; [rewrite add_readers_0|]; reflexivity.
- apply Forall_cons in Hp as [Hx Hp].
destruct (read_extent_spec x miss reads s Hx Hwf Hrd)
  as (p1 & h1 & Hstep & Ht1 & Hh1).
assert (Hd1 : readers_differ (log_entry_objs s) h1).
{ intros j. eexists. apply Hh1. }
destruct (IH (miss ++ miss_extents_of p1) (reads ++ p1)
            (set_log_entry_objs h1 s) Hp)
  as (p2 & h' & Hloop & Ht2 & Hh2).
{ replace (m_blocks_to_log_entries (set_log_entry_objs h1 s))
    with (m_blocks_to_log_entries s) by (destruct s; reflexivity).
  exact Hwf. }
{ apply map_readable_readers; assumption. }
exists (p1 ++ p2), h'. cbn [read_extents]. rewrite Hstep.
cbn [mbind option_bind]. rewrite Hloop.
rewrite set_log_entry_objs_twice, miss_extents_of_app, !app_assoc.
split; [reflexivity|]. split.
+ exists p1, p2. split; [reflexivity|]. split; [exact Ht1|].
  eapply read_tilings_readers; [exact Hd1|].
  replace (m_blocks_to_log_entries (set_log_entry_objs h1 s))
    with (m_blocks_to_log_entries s) in Ht2 by (destruct s; reflexivity).
  replace (log_entry_objs (set_log_entry_objs h1 s)) with h1 in Ht2
    by (destruct s; reflexivity).
  exact Ht2.
+ intros j. rewrite Hh2.
  replace (log_entry_objs (set_log_entry_objs h1 s)) with h1
    by (destruct s; reflexivity).
  rewrite Hh1, hits_on_app.
  destruct (log_entry_objs s !! j); simpl; [|reflexivity].
  rewrite add_readers_add. reflexivity.
Qed.

End ReadSplit.

Section ReadContent.
Import WriteLogMap WriteLogMapSpec.

Implicit Types (m M es : list WriteLogMapEntry) (e : WriteLogMapEntry).
Implicit Types (h : LogEntries) (s : RWL).

Local Abbreviation ext := me_block_extent.

Lemma covers_spec (pos : Z) e :
covers pos e = true <->
block_start (ext e) <= pos /\ pos <= block_end (ext e).
Proof. unfold covers. rewrite andb_true_iff, !Z.leb_le. tauto. Qed.

(** On a set in order, the entry that holds a position is the one found. *)
Lemma find_covers m e (pos : Z) :
map_wf m -> e ∈ m -> covers pos e = true ->
List.find (covers pos) m = Some e.
Proof.
induction m as [|x m IH]; intros Hwf He Hc.
- apply elem_of_nil in He. contradiction.
- apply map_wf_cons in Hwf as (Hx & Hlt & Hwf). simpl.
destruct (covers pos x) eqn:Hcx.
+ apply elem_of_cons in He as [->|He]; [reflexivity|]. exfalso.
  rewrite Forall_forall in Hlt. specialize (Hlt e He).
  apply covers_spec in Hc, Hcx. unfold entry_lt in Hlt. lia.
+ apply elem_of_cons in He as [->|He]; [congruence|]. apply IH; assumption.
Qed.

Lemma find_covers_none m (pos : Z) :
(forall e, e ∈ m -> block_end (ext e) < pos \/ pos < block_start (ext e)) ->
List.find (covers pos) m = None.
Proof.
induction m as [|x m IH]; intros Hm; [reflexivity|]. simpl.
destruct (covers pos x) eqn:Hcx.
- apply covers_spec in Hcx. destruct (Hm x); [left|lia|lia].
- apply IH. intros e He. apply Hm. right. exact He.
Qed.

Lemma length_image_bytes f (pos : Z) (n : nat) :
length (image_bytes f pos n) = n.
Proof. revert pos. induction n as [|n IH]; intros pos; simpl; [|rewrite IH]; reflexivity. Qed.

Lemma image_bytes_app f (a b : nat) :
forall pos : Z,
image_bytes f pos (a + b) =
image_bytes f pos a ++ image_bytes f (pos + Z.of_nat a) b.
Proof.
induction a as [|a IH]; intros pos.
- simpl. rewrite Z.add_0_r. reflexivity.
- cbn [Nat.add image_bytes app]. rewrite IH. do 3 f_equal. lia.
Qed.

Lemma image_bytes_ext f g (n : nat) :
forall pos : Z,
(forall k : Z, 0 <= k < Z.of_nat n -> f (pos + k) = g (pos + k)) ->
image_bytes f pos n = image_bytes g pos n.
Proof.
induction n as [|n IH]; intros pos Hfg; [reflexivity|]. simpl.
rewrite <- (Z.add_0_r pos) at 1 3. rewrite Hfg by lia. rewrite Z.add_0_r. f_equal.
apply IH. intros k Hk. replace (pos + 1 + k) with (pos + (1 + k)) by lia.
apply Hfg. lia.
Qed.

Lemma take_drop_image_bytes f (data : list byte) (n : nat) :
forall (k : nat) (pos : Z),
(forall i : nat, (i < n)%nat ->
 data !! (k + i)%nat = Some (f (pos + Z.of_nat i))) ->
take n (drop k data) = image_bytes f pos n.
Proof.
induction n as [|n IH]; intros k pos Hd; [reflexivity|].
pose proof (Hd O ltac:(lia)) as H0.
rewrite Nat.add_0_r, Z.add_0_r in H0.
rewrite (drop_S _ _ _ H0). simpl. f_equal. apply IH.
intros i Hi. replace (S k + i)%nat with (k + S i)%nat by lia.
rewrite Hd by lia. do 2 f_equal. lia.
Qed.

Section Assemble.
Variables (s s' : RWL) (below : Z -> byte).
Hypothesis Hwf : map_wf (m_blocks_to_log_entries s).
Hypothesis Hrd : map_readable s.
Hypothesis Hpool : m_log_pool s' = m_log_pool s.
Hypothesis Hstore : readers_differ (log_entry_objs s) (log_entry_objs s').

(** The buffer of a hit holds the bytes of the image at its place. *)
Lemma hit_buf_bytes (pos : Z) (p : ImageExtentBuf) (buf : HitBuf) :
m_buf p = Some buf ->
piece_ok (m_blocks_to_log_entries s) (log_entry_objs s) pos p ->
exists le pool data,
log_entry_objs s' !! hit_log_entry buf = Some le /\
m_log_pool s' = Some pool /\
pool_buffers pool !! write_data (ram_entry le) = Some data /\
hit_offset buf + hit_length buf <= Z.of_nat (length data) /\
take (Z.to_nat (hit_length buf)) (drop (Z.to_nat (hit_offset buf)) data)
  = image_bytes (image_byte s below) pos (Z.to_nat (snd (ieb_extent p))).
Proof.
intros Hbuf [Hl Hp]. rewrite Hbuf in Hp.
destruct Hp as (Hhl & e & w & He & Hi & Hw & Hst & Hen & Hoff).
unfold map_readable in Hrd. rewrite Forall_forall in Hrd.
destruct (Hrd e He) as (i' & w' & pool & data & Hi' & Hw' & Hio & Hios & Heio
                      & Hiob & Hwb & Hp & Hb & Hlen).
rewrite Hi in Hi'. injection Hi' as <-. rewrite Hw in Hw'. injection Hw' as <-.
destruct (Hstore (hit_log_entry buf)) as [d Hd]. rewrite Hw in Hd. simpl in Hd.
exists (add_readers d w), pool, data.
split; [exact Hd|]. split; [rewrite Hpool; exact Hp|].
split; [exact Hb|]. split; [simpl in *; lia|].
rewrite Hhl. apply take_drop_image_bytes. intros k Hk.
unfold image_byte, cached_byte.
rewrite (find_covers _ e (pos + Z.of_nat k) Hwf He)
by (apply covers_spec; lia).
simpl. rewrite Hi. simpl. rewrite Hw. simpl. rewrite Hp. simpl.
rewrite Hb. simpl.
replace (Z.to_nat (hit_offset buf) + k)%nat
with (Z.to_nat (pos + Z.of_nat k - image_offset_bytes (ram_entry w)))
by lia.
destruct (lookup_lt_is_Some_2 data
          (Z.to_nat (pos + Z.of_nat k - image_offset_bytes (ram_entry w))))
as [x Hx]; [lia|].
rewrite Hx. reflexivity.
Qed.

(** Of a miss the cache holds nothing. *)
Lemma miss_uncached (pos : Z) (p : ImageExtentBuf) :
m_buf p = None ->
piece_ok (m_blocks_to_log_entries s) (log_entry_objs s) pos p ->
fst (ieb_extent p) = pos /\
forall k, 0 <= k < snd (ieb_extent p) -> cached_byte s (pos + k) = None.
Proof.
intros Hbuf [Hl Hp]. rewrite Hbuf in Hp. destruct Hp as [Hfst Hfree].
split; [exact Hfst|]. intros k Hk. unfold cached_byte.
rewrite find_covers_none; [reflexivity|].
intros e He. specialize (Hfree e He). lia.
Qed.

(** [C_ReadRequest::finish] over the pieces of one extent: the bytes of
the image from [pos] up to [stop] are added to the output, the misses
being taken from [m_miss_bl] in their order. *)
Lemma read_assemble_tiling (pieces : list ImageExtentBuf) :
forall (rest : list ImageExtentBuf) (pos stop : Z) (pre post out : list byte),
read_tiling (m_blocks_to_log_entries s) (log_entry_objs s) pos pieces stop ->
Z.of_nat (length (pre ++ extents_image below (miss_extents_of pieces) ++ post))
< 2 ^ 64 ->
read_assemble (pieces ++ rest)
(pre ++ extents_image below (miss_extents_of pieces) ++ post)
(Z.of_nat (length pre)) out s'
= read_assemble rest
  (pre ++ extents_image below (miss_extents_of pieces) ++ post)
  (Z.of_nat (length pre)
   + Z.of_nat (length (extents_image below (miss_extents_of pieces))))
  (out ++ image_bytes (image_byte s below) pos (Z.to_nat (stop - pos))) s'.
Proof.
induction pieces as [|p ps IH]; intros rest pos stop pre post out Ht Hlen.
- simpl in Ht. subst stop. rewrite Z.sub_diag. simpl.
rewrite app_nil_r, Z.add_0_r. reflexivity.
- destruct Ht as [Hp Ht].
pose proof (read_tiling_le _ _ _ _ _ Ht) as Hle.
pose proof (proj1 Hp) as Hl.
assert (Hsplit : Z.to_nat (stop - pos)
                 = (Z.to_nat (snd (ieb_extent p))
                    + Z.to_nat (stop - (pos + snd (ieb_extent p))))%nat) by lia.
rewrite Hsplit, image_bytes_app, Z2Nat.id by lia.
destruct (m_buf p) as [buf|] eqn:Hbuf.
+ (* a hit *)
  destruct (hit_buf_bytes pos p buf Hbuf Hp)
    as (le & pool & data & Hle' & Hpl & Hb & Hbound & Hbytes).
  assert (Hm : miss_extents_of (p :: ps) = miss_extents_of ps).
  { unfold miss_extents_of. cbn [omap list_omap]. rewrite Hbuf. reflexivity. }
  assert (Hnz : (hit_length buf =? 0) = false).
  { destruct Hp as [_ Hp']. rewrite Hbuf in Hp'. apply Z.eqb_neq. lia. }
  rewrite Hm in *. cbn [app read_assemble]. rewrite Hbuf, Hnz.
  rewrite Hle'. cbn [mbind option_bind]. rewrite Hpl. cbn [mbind option_bind].
  rewrite Hb. cbn [mbind option_bind].
  rewrite (proj2 (Z.leb_le _ _) Hbound). cbn [check mbind option_bind].
  rewrite Hbytes.
  rewrite (IH rest _ stop pre post _ Ht Hlen).
  rewrite <- app_assoc. reflexivity.
+ (* a miss *)
  destruct (miss_uncached pos p Hbuf Hp) as [Hfst Hnone].
  assert (Hm : extents_image below (miss_extents_of (p :: ps))
               = image_bytes below pos (Z.to_nat (snd (ieb_extent p)))
                 ++ extents_image below (miss_extents_of ps)).
  { unfold miss_extents_of, extents_image. cbn [omap list_omap].
    rewrite Hbuf. cbn [fmap list_fmap concat]. unfold extent_bytes at 1.
    rewrite Hfst. reflexivity. }
  rewrite Hm in *. set (A := image_bytes below pos _) in *.
  assert (HA : length A = Z.to_nat (snd (ieb_extent p)))
    by (subst A; apply length_image_bytes).
  assert (HAeq : A = image_bytes (image_byte s below) pos
                       (Z.to_nat (snd (ieb_extent p)))).
  { subst A. apply image_bytes_ext. intros k Hk.
    unfold image_byte. rewrite Hnone by lia. reflexivity. }
  clearbody A.
  rewrite !length_app in Hlen.
  assert (Hchk : (Z.of_nat (length pre) + snd (ieb_extent p)
                  <=? Z.of_nat (length (pre ++ (A ++ extents_image below
                                                (miss_extents_of ps)) ++ post)))
                 = true).
  { apply Z.leb_le. rewrite !length_app. lia. }
  cbn [app read_assemble]. rewrite Hbuf, Hchk. cbn [check mbind option_bind].
  rewrite Nat2Z.id, drop_app_length, <- app_assoc.
  rewrite (take_app_length' A _ _ (eq_sym HA)).
  rewrite wrap64_id by (unfold is_u64; lia).
  replace (Z.of_nat (length pre) + snd (ieb_extent p))
    with (Z.of_nat (length (pre ++ A))) by (rewrite length_app; lia).
  replace (pre ++ A ++ extents_image below (miss_extents_of ps) ++ post)
    with ((pre ++ A) ++ extents_image below (miss_extents_of ps) ++ post)
    by (rewrite <- app_assoc; reflexivity).
  rewrite (IH rest _ stop (pre ++ A) post _ Ht)
    by (rewrite !length_app; lia).
  rewrite <- !app_assoc. f_equal.
  * rewrite !length_app. lia.
  * rewrite <- HAeq. reflexivity.
Qed.

(** The same over the extents of a read. *)
Lemma read_assemble_tilings (image_extents : list Extent) :
forall (pieces rest : list ImageExtentBuf) (pre post out : list byte),
read_tilings (m_blocks_to_log_entries s) (log_entry_objs s)
image_extents pieces ->
Z.of_nat (length (pre ++ extents_image below (miss_extents_of pieces) ++ post))
< 2 ^ 64 ->
read_assemble (pieces ++ rest)
(pre ++ extents_image below (miss_extents_of pieces) ++ post)
(Z.of_nat (length pre)) out s'
= read_assemble rest
  (pre ++ extents_image below (miss_extents_of pieces) ++ post)
  (Z.of_nat (length pre)
   + Z.of_nat (length (extents_image below (miss_extents_of pieces))))
  (out ++ extents_image (image_byte s below) image_extents) s'.
Proof.
induction image_extents as [|x xs IH]; intros pieces rest pre post out Ht Hlen.
- simpl in Ht. subst pieces. simpl. rewrite app_nil_r, Z.add_0_r. reflexivity.
- destruct Ht as (p1 & p2 & -> & Ht1 & Ht2).
assert (Hm : extents_image below (miss_extents_of (p1 ++ p2))
             = extents_image below (miss_extents_of p1)
               ++ extents_image below (miss_extents_of p2)).
{ rewrite miss_extents_of_app. unfold extents_image.
  rewrite fmap_app, concat_app. reflexivity. }
rewrite Hm in *. set (A := extents_image below (miss_extents_of p1)) in *.
set (B := extents_image below (miss_extents_of p2)) in *.
rewrite <- (app_assoc p1 p2 rest).
replace (pre ++ (A ++ B) ++ post) with (pre ++ A ++ (B ++ post)) in *
  by (rewrite <- !app_assoc; reflexivity).
subst A. rewrite (read_assemble_tiling p1 (p2 ++ rest) _ _ pre (B ++ post) out Ht1 Hlen).
set (A := extents_image below (miss_extents_of p1)) in *.
replace (Z.of_nat (length pre) + Z.of_nat (length A))
  with (Z.of_nat (length (pre ++ A))) by (rewrite length_app; lia).
replace (pre ++ A ++ B ++ post) with ((pre ++ A) ++ B ++ post) in *
  by (rewrite <- !app_assoc; reflexivity).
subst B. rewrite (IH p2 rest (pre ++ A) post _ Ht2 Hlen).
rewrite <- !app_assoc. f_equal.
+ rewrite !length_app. lia.
+ f_equal. replace (fst x + snd x - fst x) with (snd x) by lia.
  reflexivity.
Qed.

End Assemble.

Lemma read_tiling_miss_length below M h pieces :
forall pos stop,
read_tiling M h pos pieces stop ->
Z.of_nat (length (extents_image below (miss_extents_of pieces))) <= stop - pos.
Proof.
induction pieces as [|p ps IH]; intros pos stop Ht.
- simpl in Ht. subst. simpl. lia.
- destruct Ht as [[Hl Hp] Ht]. specialize (IH _ _ Ht).
unfold miss_extents_of, extents_image in *. cbn [omap list_omap].
destruct (m_buf p); cbn [fmap list_fmap concat].
+ lia.
+ rewrite length_app. unfold extent_bytes at 1. rewrite length_image_bytes. lia.
Qed.

Lemma read_tilings_miss_length below M h image_extents :
forall pieces,
read_tilings M h image_extents pieces ->
Z.of_nat (length (extents_image below (miss_extents_of pieces)))
<= extents_bytes image_extents.
Proof.
induction image_extents as [|x xs IH]; intros pieces Ht.
- simpl in Ht. subst. simpl. reflexivity.
- destruct Ht as (p1 & p2 & -> & Ht1 & Ht2). specialize (IH _ Ht2).
pose proof (read_tiling_miss_length below _ _ _ _ _ Ht1) as H1.
rewrite miss_extents_of_app. unfold extents_image in *.
rewrite fmap_app, concat_app, length_app.
unfold extents_bytes in *. cbn [foldr]. lia.
Qed.

Lemma read_tiling_misses_uncached s pieces :
forall pos stop,
read_tiling (m_blocks_to_log_entries s) (log_entry_objs s) pos pieces stop ->
Forall (fun x => 0 < snd x /\
        forall k, 0 <= k < snd x -> cached_byte s (fst x + k) = None)
     (miss_extents_of pieces).
Proof.
induction pieces as [|p ps IH]; intros pos stop Ht; [constructor|].
destruct Ht as [Hp Ht]. specialize (IH _ _ Ht).
unfold miss_extents_of in *. cbn [omap list_omap].
destruct (m_buf p) eqn:Hbuf; [exact IH|].
constructor; [|exact IH].
destruct (miss_uncached s pos p Hbuf Hp) as [Hfst Hnone].
split; [apply Hp|]. rewrite Hfst. exact Hnone.
Qed.

Lemma read_tilings_misses_uncached s image_extents :
forall pieces,
read_tilings (m_blocks_to_log_entries s) (log_entry_objs s)
image_extents pieces ->
Forall (fun x => 0 < snd x /\
        forall k, 0 <= k < snd x -> cached_byte s (fst x + k) = None)
     (miss_extents_of pieces).
Proof.
induction image_extents as [|x xs IH]; intros pieces Ht.
- simpl in Ht. subst. constructor.
- destruct Ht as (p1 & p2 & -> & Ht1 & Ht2).
rewrite miss_extents_of_app. apply Forall_app. split.
+ eapply read_tiling_misses_uncached. exact Ht1.
+ apply IH. exact Ht2.
Qed.

(** X8.  A read returns the image as seen through the cache.  On an
initialized cache whose map is in order and whose map entries lie
within writes that have their data buffers, [aio_read] of extents that
are not empty returns.  Either every byte is in the cache: the read is
completed at once, with the bytes of the log entries that the map
gives for the extents; or the misses are passed to the image cache
below, each a range of which the cache holds nothing, and when the
bytes of the layer below come back for them, [C_ReadRequest::finish]
returns, for every byte of the extents and in their order, the byte of
the cache where the map has one and the byte from below elsewhere. *)
Theorem aio_read_returns_image (image_extents : list Extent)
(fadvise_flags : Z) (on_finish : Context) (s : RWL) :
m_initialized s = true ->
map_wf (m_blocks_to_log_entries s) -> map_readable s ->
Forall extent_proper image_extents ->
extents_bytes image_extents < 2 ^ 64 ->
exists res s',
aio_read image_extents fadvise_flags on_finish s = Some (res, s') /\
match res with
| ReadDone out_bl =>
    (forall below : Z -> byte,
       out_bl = extents_image (image_byte s below) image_extents) /\
    trace s' = trace s ++ [EvComplete on_finish 0]
| ReadBelow read_ctx miss_extents flags =>
    miss_extents <> [] /\ flags = fadvise_flags /\
    m_on_finish read_ctx = on_finish /\
    m_miss_extents read_ctx = miss_extents /\
    Forall (fun x => 0 < snd x /\
              forall k, 0 <= k < snd x -> cached_byte s (fst x + k) = None)
           miss_extents /\
    trace s' = trace s /\
    forall below : Z -> byte,
      read_finish read_ctx (extents_image below miss_extents) 0 s'
      = Some (extents_image (image_byte s below) image_extents,
              emit (EvComplete on_finish 0) s')
end.
Proof.
intros Hinit Hwf Hrd Hp Hbytes.
destruct (read_extents_spec image_extents [] [] s Hp Hwf Hrd)
as (pieces & h' & Hrun & Ht & Hh).
unfold aio_read. rewrite Hinit. cbn [check mbind option_bind].
rewrite Hrun. cbn [mbind option_bind app].
set (s1 := set_log_entry_objs h' s).
assert (Hpool : m_log_pool s1 = m_log_pool s) by (destruct s; reflexivity).
assert (Hstore : readers_differ (log_entry_objs s) (log_entry_objs s1)).
{ intros j. eexists. subst s1.
replace (log_entry_objs (set_log_entry_objs h' s)) with h'
  by (destruct s; reflexivity).
apply Hh. }
assert (Hasm : forall below : Z -> byte,
        read_assemble pieces (extents_image below (miss_extents_of pieces))
          0 [] s1
        = Some (extents_image (image_byte s below) image_extents, s1)).
{ intros below.
pose proof (read_assemble_tilings s s1 below Hwf Hrd Hpool Hstore
              image_extents pieces [] [] [] [] Ht) as Ha.
cbn [app length] in Ha. rewrite !app_nil_r in Ha. apply Ha.
pose proof (read_tilings_miss_length below _ _ _ _ Ht). lia. }
destruct (miss_extents_of pieces) as [|x miss] eqn:Hmiss.
- assert (Hasm' : forall below : Z -> byte,
          read_assemble pieces [] 0 [] s1
          = Some (extents_image (image_byte s below) image_extents, s1))
  by exact Hasm.
clear Hasm. rename Hasm' into Hasm.
exists (ReadDone (extents_image (image_byte s (fun _ => "000"%byte))
                  image_extents)),
       (emit (EvComplete on_finish 0) s1).
unfold read_finish. cbn [m_read_extents m_on_finish]. simpl (0 <=? 0).
cbv iota. rewrite (Hasm (fun _ => "000"%byte)). cbn [mbind option_bind].
split; [reflexivity|]. split.
+ intros below. pose proof (Hasm below) as Hb.
  rewrite (Hasm (fun _ => "000"%byte)) in Hb. injection Hb as Hb. exact Hb.
+ subst s1. destruct s; reflexivity.
- exists (ReadBelow (mkReadRequest on_finish (x :: miss) pieces) (x :: miss)
          fadvise_flags), s1.
split; [reflexivity|]. split; [discriminate|]. split; [reflexivity|].
split; [reflexivity|]. split; [reflexivity|]. split.
{ rewrite <- Hmiss. eapply read_tilings_misses_uncached. exact Ht. }
split; [subst s1; destruct s; reflexivity|].
intros below. unfold read_finish. cbn [m_read_extents m_on_finish].
simpl (0 <=? 0). cbv iota. rewrite (Hasm below). reflexivity.
Qed.

End ReadContent.

Section ReadReaders.
Import WriteLogMap WriteLogMapSpec.

Implicit Types (h : LogEntries) (s : RWL).









Lemma read_extents_empty_map (image_extents : list Extent) :
forall miss reads s,
m_blocks_to_log_entries s = [] ->
Forall (fun x => is_u64 (fst x) /\ is_u64 (snd x)) image_extents ->
read_extents image_extents miss reads s
= Some (miss ++ filter (fun x : Extent => snd x <> 0) image_extents,
      reads ++ ((fun x => mkImageExtentBuf x None)
                  <$> filter (fun x : Extent => snd x <> 0) image_extents),
      s).
Proof.
induction image_extents as [|x xs IH]; intros miss reads s Hm Hu.
- simpl. rewrite !app_nil_r. reflexivity.
- apply Forall_cons in Hu as [[Hx1 Hx2] Hu]. cbn [read_extents].
unfold read_extent. rewrite Hm. cbn [find_map_entries_locked].
unfold find_map_entries_locked, equal_range. cbn [lower_bound upper_bound].
change (take (0 - 0) (drop 0 (@nil WriteLogMapEntry)))
  with (@nil WriteLogMapEntry).
cbn [read_map_entries mbind option_bind].
rewrite filter_cons. destruct (0 <? snd x) eqn:Hlt.
+ apply Z.ltb_lt in Hlt. rewrite decide_True by lia.
  rewrite Z.add_0_r, Z.sub_0_r, !wrap64_id by assumption.
  cbn [mbind option_bind]. rewrite IH by assumption.
  destruct x as [off len]. cbn [fst snd fmap list_fmap].
  rewrite <- !app_assoc. reflexivity.
+ apply Z.ltb_ge in Hlt. unfold is_u64 in Hx2.
  rewrite decide_False by lia. cbn [mbind option_bind].
  apply IH; assumption.
Qed.

(** X10.  A read on a cache whose map is empty.  Every extent that is not
empty is passed to the image cache below as it is, in the order of the
read, and the cache is left as it was; the empty extents are left out,
and a read of nothing but empty extents is completed at once, with no
byte. *)
Theorem aio_read_empty_map (image_extents : list Extent) (fadvise_flags : Z)
(on_finish : Context) (s : RWL) :
m_initialized s = true ->
m_blocks_to_log_entries s = [] ->
Forall (fun x => is_u64 (fst x) /\ is_u64 (snd x)) image_extents ->
aio_read image_extents fadvise_flags on_finish s
= match filter (fun x : Extent => snd x <> 0) image_extents with
| [] => Some (ReadDone [], emit (EvComplete on_finish 0) s)
| miss =>
    Some (ReadBelow
            (mkReadRequest on_finish miss
               ((fun x => mkImageExtentBuf x None) <$> miss))
            miss fadvise_flags, s)
end.
Proof.
intros Hinit Hm Hu. unfold aio_read. rewrite Hinit.
cbn [check mbind option_bind].
rewrite (read_extents_empty_map image_extents [] [] s Hm Hu).
cbn [mbind option_bind app].
destruct (filter _ image_extents) as [|x miss]; reflexivity.
Qed.

End ReadReaders.

Lemma cache_with_data_wf :
  WriteLogMapSpec.map_wf (m_blocks_to_log_entries cache_with_data).
Proof. split; repeat constructor; vm_compute; congruence. Qed.

Lemma cache_with_data_readable : map_readable cache_with_data.
Proof.
  unfold map_readable. repeat constructor.
  exists 0%nat, (set_referring_map_entries 1 (sample_write 4096 4 1 0 7)),
         (mkPool (mkPoolRoot 1 1073741824 512 8 1 0) []
                 {[ 7 := ["001"; "002"; "003"; "004"]%byte ]}),
         ["001"; "002"; "003"; "004"]%byte.
  repeat split; vm_compute; congruence.
Qed.

Lemma aio_read_returns_image_witness :
  exists res s',
    aio_read [(4094, 8)] 0 (CallerCtx 5) cache_with_data = Some (res, s') /\
    match res with
    | ReadDone out_bl =>
        (forall below : Z -> byte,
           out_bl = extents_image (image_byte cache_with_data below) [(4094, 8)]) /\
        trace s' = trace cache_with_data ++ [EvComplete (CallerCtx 5) 0]
    | ReadBelow read_ctx miss_extents flags =>
        miss_extents <> [] /\ flags = 0 /\
        m_on_finish read_ctx = CallerCtx 5 /\
        m_miss_extents read_ctx = miss_extents /\
        Forall (fun x => 0 < snd x /\
                  forall k, 0 <= k < snd x ->
                    cached_byte cache_with_data (fst x + k) = None)
               miss_extents /\
        trace s' = trace cache_with_data /\
        forall below : Z -> byte,
          read_finish read_ctx (extents_image below miss_extents) 0 s'
          = Some (extents_image (image_byte cache_with_data below) [(4094, 8)],
                  emit (EvComplete (CallerCtx 5) 0) s')
    end.
Proof.
  apply (aio_read_returns_image [(4094, 8)] 0 (CallerCtx 5) cache_with_data).
  - reflexivity.
  - exact cache_with_data_wf.
  - exact cache_with_data_readable.
  - repeat constructor; vm_compute; congruence.
  - vm_compute. reflexivity.
Defined.


(** A read of no byte at an offset within a log entry makes a hit buffer
    of length 0 and is completed at once; [C_ReadRequest::finish] leaves
    the buffer out and deletes it, so the reader is taken off again before
    the read is completed. *)
Lemma aio_read_empty_extent_releases_reader :
  (fun '(_, pieces, s) =>
     (pieces, reader_count <$> log_entry_objs s !! 0%nat))
    <$> read_extents [(4097, 0)] [] [] cache_with_data
  = Some ([mkImageExtentBuf (4096, 0) (Some (mkHitBuf 0 0 1))], Some 1) /\
  (fun '(res, s) =>
     (res, trace s, reader_count <$> log_entry_objs s !! 0%nat))
    <$> aio_read [(4097, 0)] 0 (CallerCtx 5) cache_with_data
  = Some (ReadDone [], [EvComplete (CallerCtx 5) 0], Some 0).
Proof. split; vm_compute; reflexivity. Qed.

Lemma aio_read_empty_map_witness :
  aio_read [(0, 0); (4096, 512)] 0 (CallerCtx 5)
    (set_m_initialized true blank_cache)
  = Some (ReadBelow
            (mkReadRequest (CallerCtx 5) [(4096, 512)]
               [mkImageExtentBuf (4096, 512) None])
            [(4096, 512)] 0,
          set_m_initialized true blank_cache).
Proof.
  rewrite (aio_read_empty_map [(0, 0); (4096, 512)] 0 (CallerCtx 5)
             (set_m_initialized true blank_cache)).
  - reflexivity.
  - reflexivity.
  - reflexivity.
  - repeat constructor; vm_compute; congruence.
Defined.

(** * The flusher *)

Section Flusher.
Context `{Constants}.

Implicit Types (s : RWL).

(** What [construct_flush_entry_ctx] does at once. *)
Lemma construct_flush_entry_ctx_spec (id : nat) s (e : GenericLogEntry) :
log_entry_objs s !! id = Some e -> is_write (ram_entry e) = true ->
construct_flush_entry_ctx id s
= Some (if m_invalidating s then FlushEntryDoneCtx id true
        else FlushEntryCtx id,
        set_log_entry_objs
          (<[id := if m_invalidating s then set_flushing true e
                   else set_reader_count (reader_count e + 1)
                          (set_flushing true e)]> (log_entry_objs s))
          (set_m_flush_bytes_in_flight
             (m_flush_bytes_in_flight s + write_bytes (ram_entry e))
             (set_m_flush_ops_in_flight (m_flush_ops_in_flight s + 1)
                (set_m_lowest_flushing_sync_gen
                   (if (m_flush_ops_in_flight s =? 0)
                       || (sync_gen_number (ram_entry e)
                           <? m_lowest_flushing_sync_gen s)
                    then sync_gen_number (ram_entry e)
                    else m_lowest_flushing_sync_gen s) s)))).
Proof.
intros He Hw. unfold construct_flush_entry_ctx. rewrite He. simpl.
rewrite Hw. simpl. unfold update_log_entry.
destruct ((m_flush_ops_in_flight s =? 0)
          || (sync_gen_number (ram_entry e) <? m_lowest_flushing_sync_gen s));
  simpl; rewrite He; simpl; destruct (m_invalidating s); simpl;
  rewrite ?lookup_insert_eq; simpl; rewrite ?insert_insert_eq;
  destruct s; reflexivity.
Qed.

(** The state the completion action of a flush leaves. *)
Lemma flush_entry_done_result (id : nat) s (e : GenericLogEntry)
  (invalidating : bool) (r : Z) :
log_entry_objs s !! id = Some e ->
(r < 0 \/ write_bytes (ram_entry e) <= m_bytes_dirty s) ->
flush_entry_done id invalidating r s
= Some (wake_up
          (let s1 :=
             set_m_flush_bytes_in_flight
               (m_flush_bytes_in_flight s - write_bytes (ram_entry e))
               (set_m_flush_ops_in_flight (m_flush_ops_in_flight s - 1) s) in
           if r <? 0 then
             set_m_dirty_log_entries (id :: m_dirty_log_entries s)
               (set_log_entry_objs
                  (<[id := set_flushing false e]> (log_entry_objs s)) s1)
           else
             set_m_bytes_dirty (m_bytes_dirty s - write_bytes (ram_entry e))
               (set_log_entry_objs
                  (<[id := set_flushed true (set_flushing false e)]>
                     (log_entry_objs s)) s1))).
Proof.
intros He Hr. unfold flush_entry_done. rewrite He. simpl.
erewrite update_log_entry_Some by exact He. simpl.
destruct (Z.ltb_spec r 0) as [Hneg|Hpos]; simpl.
- reflexivity.
- destruct Hr as [Hr|Hr]; [lia|].
  erewrite update_log_entry_Some by (simpl; apply lookup_insert_eq).
  simpl. rewrite (proj2 (Z.leb_le _ _) Hr). simpl.
  rewrite insert_insert_eq. reflexivity.
Qed.

(** X11.  A flush that is started and then completed, with whatever
  result, leaves the counts of the flushes in flight and of their bytes
  as they were and the entry no longer flushing; after a completion
  without error the entry is flushed and the dirty bytes are less by its
  length, after an error the entry is back at the head of the dirty
  entries. *)
Theorem flush_started_and_completed (id : nat) s (e : GenericLogEntry) (r : Z) :
log_entry_objs s !! id = Some e -> is_write (ram_entry e) = true ->
(r < 0 \/ write_bytes (ram_entry e) <= m_bytes_dirty s) ->
exists ctx s1 s2 e2,
  construct_flush_entry_ctx id s = Some (ctx, s1) /\
  flush_entry_done id (m_invalidating s) r s1 = Some s2 /\
  m_flush_ops_in_flight s1 = m_flush_ops_in_flight s + 1 /\
  m_flush_ops_in_flight s2 = m_flush_ops_in_flight s /\
  m_flush_bytes_in_flight s2 = m_flush_bytes_in_flight s /\
  log_entry_objs s2 !! id = Some e2 /\ flushing e2 = false /\
  (0 <= r ->
   flushed e2 = true /\
   m_bytes_dirty s2 = m_bytes_dirty s - write_bytes (ram_entry e) /\
   m_dirty_log_entries s2 = m_dirty_log_entries s) /\
  (r < 0 ->
   flushed e2 = flushed e /\ m_bytes_dirty s2 = m_bytes_dirty s /\
   m_dirty_log_entries s2 = id :: m_dirty_log_entries s).
Proof.
intros He Hw Hr.
pose proof (construct_flush_entry_ctx_spec id s e He Hw) as Hc.
match type of Hc with _ = Some (?c, ?t) => set (ctx := c) in *; set (s1 := t) in * end.
set (e1 := if m_invalidating s then set_flushing true e
           else set_reader_count (reader_count e + 1) (set_flushing true e)).
assert (He1 : log_entry_objs s1 !! id = Some e1)
  by (subst s1; simpl; apply lookup_insert_eq).
assert (Hb1 : write_bytes (ram_entry e1) = write_bytes (ram_entry e))
  by (subst e1; destruct (m_invalidating s); reflexivity).
assert (Hf1 : flushed e1 = flushed e)
  by (subst e1; destruct (m_invalidating s); reflexivity).
assert (Hr1 : r < 0 \/ write_bytes (ram_entry e1) <= m_bytes_dirty s1).
{ rewrite Hb1. destruct Hr as [Hr|Hr]; [left; exact Hr|right].
  subst s1. simpl. exact Hr. }
pose proof (flush_entry_done_result id s1 e1 (m_invalidating s) r He1 Hr1) as Hd.
match type of Hd with _ = Some (wake_up ?t) => set (s2 := t) in * end.
destruct (wake_up_frame s2) as (Hwd & Hwb & Hwl & Hwo & Hwy).
exists ctx, s1, (wake_up s2),
       (if r <? 0 then set_flushing false e1
        else set_flushed true (set_flushing false e1)).
split; [exact Hc|]. split; [exact Hd|]. split; [subst s1; reflexivity|].
rewrite Hwd, Hwb, Hwl, Hwo, Hwy. subst s2. cbv zeta.
destruct (Z.ltb_spec r 0) as [Hneg|Hpos]; simpl; rewrite Hb1;
  (split; [lia|]); (split; [lia|]);
  (split; [apply lookup_insert_eq|]); (split; [reflexivity|]);
  (split; [intros; try lia|intros; try lia]); auto.
Qed.


Lemma can_flush_entry_returns (id : nat) s (e : GenericLogEntry) :
log_entry_objs s !! id = Some e -> is_write (ram_entry e) = true ->
exists b, can_flush_entry id s = Some b.
Proof.
intros He Hw. unfold can_flush_entry. rewrite He. simpl. rewrite Hw. simpl.
destruct (m_invalidating s); [eauto|].
destruct (negb _ && _); eauto.
Qed.

(** The loop of [process_writeback_dirty_entries]: it takes entries off
  the front of the dirty list, in their order, and starts a flush for
  each, up to the limit; while the cache is invalidating no entry is
  refused. *)
Lemma writeback_loop_spec (dirty : list nat) :
forall (flushed : Z) (post : list Context) s,
Forall (fun id : nat => exists e, log_entry_objs s !! id = Some e /\
                          is_write (ram_entry e) = true) dirty ->
exists (k : nat) (clean : bool) s',
  writeback_loop dirty flushed post s
    = Some (post ++ ((fun id => if m_invalidating s
                                then FlushEntryDoneCtx id true
                                else FlushEntryCtx id) <$> take k dirty),
            clean, s') /\
  (k <= length dirty)%nat /\
  (k = O \/ flushed + Z.of_nat k <= IN_FLIGHT_FLUSH_WRITE_LIMIT) /\
  (m_invalidating s = true ->
   k = length dirty \/ IN_FLIGHT_FLUSH_WRITE_LIMIT <= flushed + Z.of_nat k) /\
  m_dirty_log_entries s'
    = (if k is O then m_dirty_log_entries s else drop k dirty) /\
  m_flush_ops_in_flight s' = m_flush_ops_in_flight s + Z.of_nat k /\
  s' = set_log_entry_objs (log_entry_objs s')
         (set_m_dirty_log_entries (m_dirty_log_entries s')
            (set_m_flush_bytes_in_flight (m_flush_bytes_in_flight s')
               (set_m_flush_ops_in_flight (m_flush_ops_in_flight s')
                  (set_m_lowest_flushing_sync_gen
                     (m_lowest_flushing_sync_gen s') s)))) /\
  (forall (j : nat) e, log_entry_objs s !! j = Some e ->
     exists e', log_entry_objs s' !! j = Some e' /\
                ram_entry e' = ram_entry e) /\
  (clean = true ->
   drop k dirty = [] /\ m_flush_ops_in_flight s' = 0 /\
   flushed + Z.of_nat k < IN_FLIGHT_FLUSH_WRITE_LIMIT).
Proof.
assert (Hstop : forall dirty flushed post s (clean : bool),
          (clean = true ->
           dirty = [] /\ m_flush_ops_in_flight s = 0 /\
           flushed < IN_FLIGHT_FLUSH_WRITE_LIMIT) ->
          (m_invalidating s = true ->
           dirty = [] \/ IN_FLIGHT_FLUSH_WRITE_LIMIT <= flushed) ->
          writeback_loop dirty flushed post s = Some (post, clean, s) ->
          exists (k : nat) (clean : bool) s',
            writeback_loop dirty flushed post s
            = Some (post ++ ((fun id => if m_invalidating s
                                        then FlushEntryDoneCtx id true
                                        else FlushEntryCtx id) <$> take k dirty),
                    clean, s') /\
            (k <= length dirty)%nat /\
            (k = O \/ flushed + Z.of_nat k <= IN_FLIGHT_FLUSH_WRITE_LIMIT) /\
            (m_invalidating s = true ->
             k = length dirty \/
             IN_FLIGHT_FLUSH_WRITE_LIMIT <= flushed + Z.of_nat k) /\
            m_dirty_log_entries s'
            = (if k is O then m_dirty_log_entries s else drop k dirty) /\
            m_flush_ops_in_flight s' = m_flush_ops_in_flight s + Z.of_nat k /\
            s' = set_log_entry_objs (log_entry_objs s')
                   (set_m_dirty_log_entries (m_dirty_log_entries s')
                      (set_m_flush_bytes_in_flight (m_flush_bytes_in_flight s')
                         (set_m_flush_ops_in_flight (m_flush_ops_in_flight s')
                            (set_m_lowest_flushing_sync_gen
                               (m_lowest_flushing_sync_gen s') s)))) /\
            (forall (j : nat) e, log_entry_objs s !! j = Some e ->
               exists e', log_entry_objs s' !! j = Some e' /\
                          ram_entry e' = ram_entry e) /\
            (clean = true ->
             drop k dirty = [] /\ m_flush_ops_in_flight s' = 0 /\
             flushed + Z.of_nat k < IN_FLIGHT_FLUSH_WRITE_LIMIT)).
{ clear dirty. intros dirty flushed post s clean Hc Hi Hrun. exists O, clean, s.
  rewrite Hrun. cbn [take fmap list_fmap]. rewrite app_nil_r.
  split; [reflexivity|]. split; [lia|]. split; [left; reflexivity|].
  split.
  { intros Hinv. destruct (Hi Hinv) as [->|Hl]; [left; reflexivity|right; lia]. }
  split; [reflexivity|]. split; [lia|].
  split; [destruct s; reflexivity|]. split; [eauto|].
  intros Hcl. destruct (Hc Hcl) as (-> & Hz & Hl). rewrite Z.add_0_r. auto. }
induction dirty as [|candidate rest IH]; intros flushed post s Hall.
- destruct (flushed <? IN_FLIGHT_FLUSH_WRITE_LIMIT) eqn:Hlim.
  + apply (Hstop [] flushed post s (m_flush_ops_in_flight s =? 0)).
    * intros Hc. apply Z.eqb_eq in Hc. apply Z.ltb_lt in Hlim. auto.
    * auto.
    * cbn [writeback_loop]. rewrite Hlim. reflexivity.
  + apply (Hstop [] flushed post s false); [discriminate|auto|].
    cbn [writeback_loop]. rewrite Hlim. reflexivity.
- apply Forall_cons in Hall as [(e & He & Hw) Hall].
  destruct (flushed <? IN_FLIGHT_FLUSH_WRITE_LIMIT) eqn:Hlim.
  2:{ apply (Hstop _ flushed post s false); [discriminate| |].
      - intros _. right. apply Z.ltb_ge in Hlim. exact Hlim.
      - cbn [writeback_loop]. rewrite Hlim. reflexivity. }
  destruct (can_flush_entry_returns candidate s e He Hw) as [b Hb].
  destruct b.
  2:{ apply (Hstop _ flushed post s false); [discriminate| |].
      - intros Hinv. exfalso. unfold can_flush_entry in Hb.
        rewrite He in Hb. simpl in Hb. rewrite Hw in Hb. simpl in Hb.
        rewrite Hinv in Hb. discriminate.
      - cbn [writeback_loop]. rewrite Hlim, Hb. reflexivity. }
  apply Z.ltb_lt in Hlim. cbn [writeback_loop].
  rewrite (proj2 (Z.ltb_lt _ _) Hlim), Hb. cbn [mbind option_bind].
  rewrite (construct_flush_entry_ctx_spec candidate s e He Hw).
  cbn [mbind option_bind].
  match goal with
  | |- context [writeback_loop rest _ _ ?t] => set (s1 := t)
  end.
  assert (Hinv1 : m_invalidating s1 = m_invalidating s)
    by (subst s1; reflexivity).
  assert (Hstore1 : forall (j : nat) e0, log_entry_objs s !! j = Some e0 ->
            exists e', log_entry_objs s1 !! j = Some e' /\
                       ram_entry e' = ram_entry e0).
  { intros j e0 He0. subst s1. simpl.
    destruct (decide (candidate = j)) as [<-|Hne].
    - rewrite lookup_insert_eq. eexists. split; [reflexivity|].
      rewrite He in He0. injection He0 as <-.
      destruct (m_invalidating s); reflexivity.
    - rewrite lookup_insert_ne by exact Hne. eauto. }
  destruct (IH (flushed + 1)
              (post ++ [if m_invalidating s then FlushEntryDoneCtx candidate true
                        else FlushEntryCtx candidate]) s1)
    as (k & clean & s' & Hrun & Hk & Hlimk & Hall' & Hd & Hops & Hfr & Hst
        & Hclean).
  { eapply Forall_impl; [exact Hall|]. intros id (e' & He' & Hw').
    destruct (Hstore1 id e' He') as (e2 & He2 & Hr2).
    exists e2. split; [exact He2|]. rewrite Hr2. exact Hw'. }
  exists (S k), clean, s'. rewrite Hrun, Hinv1. cbn [take fmap list_fmap].
  rewrite <- app_assoc. split; [reflexivity|]. split; [simpl; lia|].
  split; [right; destruct Hlimk as [->|Hlimk]; lia|].
  split.
  { intros Hinv. rewrite <- Hinv1 in Hinv.
    destruct (Hall' Hinv) as [->|Hl]; [left; reflexivity|right; lia]. }
  split.
  { rewrite Hd. destruct k; [subst s1; reflexivity|reflexivity]. }
  split; [rewrite Hops; subst s1; simpl; lia|].
  split.
  { etransitivity; [exact Hfr|]. subst s1. destruct s; reflexivity. }
  split.
  { intros j e0 He0. destruct (Hstore1 j e0 He0) as (e1 & He1 & Hr1).
    destruct (Hst j e1 He1) as (e2 & He2 & Hr2).
    exists e2. split; [exact He2|]. congruence. }
  intros Hc. destruct (Hclean Hc) as (H1 & H2 & H3).
  split; [exact H1|]. split; [exact H2|lia].
Qed.

Lemma finish_flush_contexts_queue (ids : list nat) :
forall s,
finish_flush_contexts (FlushEntryCtx <$> ids) s
= Some (set_trace (trace s ++ ((fun id => EvQueue (WritebackCtx id)) <$> ids)) s).
Proof.
induction ids as [|id ids IH]; intros s.
- simpl. rewrite app_nil_r. destruct s; reflexivity.
- cbn [fmap list_fmap finish_flush_contexts mbind option_bind].
  rewrite IH. unfold flush_entry_queue, emit. simpl.
  rewrite <- app_assoc. destruct s; reflexivity.
Qed.

Lemma foldl_emit_complete (ctxs : list Context) :
forall s,
foldl (fun s ctx => emit (EvComplete ctx 0) s) s ctxs
= set_trace (trace s ++ ((fun ctx => EvComplete ctx 0) <$> ctxs)) s.
Proof.
induction ctxs as [|c ctxs IH]; intros s.
- simpl. rewrite app_nil_r. destruct s; reflexivity.
- cbn [foldl fmap list_fmap]. rewrite IH. unfold emit. simpl.
  rewrite <- app_assoc. destruct s; reflexivity.
Qed.

(** X12.  One pass of the flusher over the dirty entries, while the cache
  is not invalidating and every dirty entry is a write of the store.
  The pass returns.  It starts the flush of some number of entries, not
  more than IN_FLIGHT_FLUSH_WRITE_LIMIT, taken from the front of the
  dirty list in their order, and queues the writeback of each in that
  order; the entries behind them stay dirty, in their order.  The
  contexts waiting for the end of all flushing are completed (with 0)
  only when there was no dirty entry and no flush in flight; otherwise
  they are kept. *)
Theorem process_writeback_dirty_entries_spec s :
m_invalidating s = false ->
0 <= m_flush_ops_in_flight s ->
Forall (fun id : nat => exists e, log_entry_objs s !! id = Some e /\
                          is_write (ram_entry e) = true)
       (m_dirty_log_entries s) ->
exists (k : nat) s',
  process_writeback_dirty_entries s = Some s' /\
  (k <= length (m_dirty_log_entries s))%nat /\
  Z.of_nat k <= Z.max 0 IN_FLIGHT_FLUSH_WRITE_LIMIT /\
  m_dirty_log_entries s' = drop k (m_dirty_log_entries s) /\
  m_flush_ops_in_flight s' = m_flush_ops_in_flight s + Z.of_nat k /\
  if decide (m_dirty_log_entries s = [] /\ m_flush_ops_in_flight s = 0 /\
             0 < IN_FLIGHT_FLUSH_WRITE_LIMIT)
  then
    m_flush_complete_contexts s' = [] /\
    trace s' = trace s ++ ((fun ctx => EvComplete ctx 0)
                             <$> m_flush_complete_contexts s)
  else
    m_flush_complete_contexts s' = m_flush_complete_contexts s /\
    trace s' = trace s ++ ((fun id => EvQueue (WritebackCtx id))
                             <$> take k (m_dirty_log_entries s)).
Proof.
intros Hinv Hops0 Hall.
destruct (writeback_loop_spec (m_dirty_log_entries s) 0 [] s Hall)
  as (k & clean & s1 & Hrun & Hk & Hlimk & _ & Hd & Hops & Hfr & _ & Hclean).
rewrite Hinv in Hrun.
assert (Htr : trace s1 = trace s) by (rewrite Hfr; reflexivity).
assert (Hfc : m_flush_complete_contexts s1 = m_flush_complete_contexts s)
  by (rewrite Hfr; reflexivity).
unfold process_writeback_dirty_entries. rewrite Hrun.
cbn [mbind option_bind app]. rewrite finish_flush_contexts_queue.
cbn [mbind option_bind].
set (s2 := set_trace _ s1).
assert (Hd' : m_dirty_log_entries s1 = drop k (m_dirty_log_entries s)).
{ rewrite Hd. destruct k; reflexivity. }
exists k. destruct clean.
- destruct (Hclean eq_refl) as (Hdrop & Hz & Hlim).
  assert (k = O) by lia. subst k. rewrite drop_0 in Hdrop.
  eexists. split; [reflexivity|]. rewrite foldl_emit_complete. simpl.
  split; [lia|]. split; [lia|]. split; [exact Hd'|].
  split; [rewrite Hops; lia|].
  rewrite decide_True by (split; [exact Hdrop|split; lia]).
  split; [reflexivity|]. rewrite app_nil_r, Htr, Hfc. reflexivity.
- exists s2. split; [reflexivity|]. split; [exact Hk|].
  split; [destruct Hlimk as [->|Hlimk]; lia|].
  split; [exact Hd'|]. split; [exact Hops|].
  destruct (decide _) as [(Hnil & Hz & Hlim)|Hn].
  + (* the loop would have found the cache clean *)
    exfalso. rewrite Hnil in Hrun. cbn [writeback_loop] in Hrun.
    rewrite (proj2 (Z.ltb_lt _ _) Hlim), Hz in Hrun. discriminate.
  + subst s2. simpl. rewrite Hfc, Htr. auto.
Qed.


Lemma wake_up_frame_flush s :
m_flush_complete_contexts (wake_up s) = m_flush_complete_contexts s /\
m_invalidating (wake_up s) = m_invalidating s.
Proof.
unfold wake_up, emit. simpl.
destruct (m_wake_up_enabled s), (m_wake_up_requested s),
  (m_wake_up_scheduled s); simpl; auto.
Qed.

(** The completion actions of the flushes started while the cache is
  invalidating, run in place with the result 0. *)
Lemma finish_flush_contexts_done (ids : list nat) :
forall s,
Forall (fun id : nat => exists e, log_entry_objs s !! id = Some e /\
                          0 <= write_bytes (ram_entry e)) ids ->
entries_bytes (log_entry_objs s) ids <= m_bytes_dirty s ->
exists s' wakes,
  finish_flush_contexts ((fun id => FlushEntryDoneCtx id true) <$> ids) s
    = Some s' /\
  m_flush_ops_in_flight s' = m_flush_ops_in_flight s - Z.of_nat (length ids) /\
  m_bytes_dirty s' = m_bytes_dirty s - entries_bytes (log_entry_objs s) ids /\
  m_dirty_log_entries s' = m_dirty_log_entries s /\
  m_flush_complete_contexts s' = m_flush_complete_contexts s /\
  trace s' = trace s ++ wakes /\
  Forall (fun ev => ev = EvQueue ProcessWorkCtx) wakes /\
  (forall (j : nat) e, log_entry_objs s !! j = Some e ->
     exists e', log_entry_objs s' !! j = Some e' /\
       ram_entry e' = ram_entry e /\
       (flushed e = true \/ j ∈ ids -> flushed e' = true) /\
       (flushing e = false \/ j ∈ ids -> flushing e' = false)).
Proof.
induction ids as [|id ids IH]; intros s Hall Hb.
- exists s, []. simpl. rewrite app_nil_r.
  split; [reflexivity|]. split; [lia|]. split; [lia|].
  split; [reflexivity|]. split; [reflexivity|]. split; [reflexivity|].
  split; [constructor|]. intros j e He. exists e.
  split; [exact He|]. split; [reflexivity|].
  split; (intros [Hx|Hx]; [exact Hx|apply elem_of_nil in Hx; contradiction]).
- apply Forall_cons in Hall as [(e & He & Hnn) Hall].
  cbn [entries_bytes foldr] in Hb. fold (entries_bytes (log_entry_objs s) ids) in Hb.
  rewrite He in Hb. cbn [from_option] in Hb.
  assert (Hrest0 : 0 <= entries_bytes (log_entry_objs s) ids).
  { clear -Hall. induction ids as [|i ids IH]; [simpl; lia|].
    apply Forall_cons in Hall as [(e & He & Hnn) Hall].
    cbn [entries_bytes foldr]. fold (entries_bytes (log_entry_objs s) ids).
    rewrite He. cbn [from_option]. specialize (IH Hall). lia. }
  cbn [fmap list_fmap finish_flush_contexts].
  rewrite (flush_entry_done_result id s e true 0 He) by (right; lia).
  cbn [mbind option_bind]. simpl (0 <? 0). cbv iota zeta.
  match goal with |- context [wake_up ?t] => set (s1 := t) end.
  destruct (wake_up_frame s1) as (Hwd & Hwb & Hwl & Hwo & Hwy).
  destruct (wake_up_frame_flush s1) as (Hwf & Hwi).
  assert (Hstore1 : forall (j : nat) e0, log_entry_objs s !! j = Some e0 ->
            exists e', log_entry_objs (wake_up s1) !! j = Some e' /\
              ram_entry e' = ram_entry e0 /\
              (flushed e0 = true \/ j = id -> flushed e' = true) /\
              (flushing e0 = false \/ j = id -> flushing e' = false)).
  { intros j e0 He0. rewrite Hwl. subst s1. simpl.
    destruct (decide (id = j)) as [<-|Hne].
    - rewrite lookup_insert_eq. eexists. split; [reflexivity|].
      rewrite He in He0. injection He0 as <-. simpl. auto.
    - rewrite lookup_insert_ne by exact Hne. exists e0.
      split; [exact He0|]. split; [reflexivity|].
      split; (intros [Hx|Hx]; [exact Hx|congruence]). }
  assert (Hbytes1 : entries_bytes (log_entry_objs (wake_up s1)) ids
                    = entries_bytes (log_entry_objs s) ids).
  { clear -Hall Hstore1. induction ids as [|i ids IH]; [reflexivity|].
    apply Forall_cons in Hall as [(e0 & He0 & _) Hall].
    cbn [entries_bytes foldr].
    fold (entries_bytes (log_entry_objs s) ids).
    fold (entries_bytes (log_entry_objs (wake_up s1)) ids).
    rewrite (IH Hall), He0.
    destruct (Hstore1 i e0 He0) as (e' & He' & Hr' & _).
    rewrite He'. cbn [from_option]. rewrite Hr'. reflexivity. }
  destruct (IH (wake_up s1)) as (s' & wakes & Hrun & Hops & Hbd & Hdl & Hfc
                                 & Htr & Hwk & Hst).
  { eapply Forall_impl; [exact Hall|]. intros j (e0 & He0 & Hn0).
    destruct (Hstore1 j e0 He0) as (e' & He' & Hr' & _).
    exists e'. split; [exact He'|]. rewrite Hr'. exact Hn0. }
  { rewrite Hbytes1, Hwb. subst s1. simpl. lia. }
  destruct (wake_up_trace s1) as [Ht1|Ht1].
  + exists s', wakes. split; [exact Hrun|].
    rewrite Hops, Hbd, Hdl, Hfc, Htr, Hbytes1, Hwo, Hwb, Hwd, Hwf, Ht1.
    cbn [entries_bytes foldr]. fold (entries_bytes (log_entry_objs s) ids).
    rewrite He. cbn [from_option length]. subst s1. simpl.
    split; [lia|]. split; [lia|]. split; [reflexivity|].
    split; [reflexivity|]. split; [reflexivity|]. split; [exact Hwk|].
    intros j e0 He0. destruct (Hstore1 j e0 He0) as (e1 & He1 & Hr1 & Hf1 & Hg1).
    destruct (Hst j e1 He1) as (e2 & He2 & Hr2 & Hf2 & Hg2).
    exists e2. split; [exact He2|]. split; [congruence|].
    split; (intros [Hx|Hx]; [auto|]);
      (apply elem_of_cons in Hx as [->|Hx]; [auto|auto]).
  + exists s', (EvQueue ProcessWorkCtx :: wakes). split; [exact Hrun|].
    rewrite Hops, Hbd, Hdl, Hfc, Htr, Hbytes1, Hwo, Hwb, Hwd, Hwf, Ht1.
    cbn [entries_bytes foldr]. fold (entries_bytes (log_entry_objs s) ids).
    rewrite He. cbn [from_option length]. subst s1. simpl.
    split; [lia|]. split; [lia|]. split; [reflexivity|].
    split; [reflexivity|]. split; [rewrite <- app_assoc; reflexivity|].
    split; [constructor; [reflexivity|exact Hwk]|].
    intros j e0 He0. destruct (Hstore1 j e0 He0) as (e1 & He1 & Hr1 & Hf1 & Hg1).
    destruct (Hst j e1 He1) as (e2 & He2 & Hr2 & Hf2 & Hg2).
    exists e2. split; [exact He2|]. split; [congruence|].
    split; (intros [Hx|Hx]; [auto|]);
      (apply elem_of_cons in Hx as [->|Hx]; [auto|auto]).
Qed.


Lemma entries_bytes_cons (h : LogEntries) (id : nat) ids :
entries_bytes h (id :: ids)
= from_option (fun e => write_bytes (ram_entry e)) 0 (h !! id)
  + entries_bytes h ids.
Proof. reflexivity. Qed.

Lemma entries_bytes_ext (h h' : LogEntries) ids :
(forall (j : nat) e, h !! j = Some e ->
   exists e', h' !! j = Some e' /\ ram_entry e' = ram_entry e) ->
Forall (fun id : nat => is_Some (h !! id)) ids ->
entries_bytes h' ids = entries_bytes h ids.
Proof.
intros Hst Hall. induction ids as [|id ids IH]; [reflexivity|].
apply Forall_cons in Hall as [[e He] Hall].
rewrite !entries_bytes_cons, (IH Hall), He.
destruct (Hst id e He) as (e' & He' & Hr'). rewrite He'.
cbn [from_option]. rewrite Hr'. reflexivity.
Qed.

Lemma entries_bytes_take_le (h : LogEntries) ids (k : nat) :
Forall (fun id : nat => exists e, h !! id = Some e /\
                          0 <= write_bytes (ram_entry e)) ids ->
0 <= entries_bytes h (take k ids) <= entries_bytes h ids.
Proof.
revert k. induction ids as [|id ids IH]; intros k Hall.
- rewrite take_nil. simpl. lia.
- apply Forall_cons in Hall as [(e & He & Hn) Hall].
  pose proof (IH O Hall) as H0. rewrite take_0 in H0.
  change (entries_bytes h []) with 0 in H0.
  destruct k as [|k].
  + rewrite take_0, entries_bytes_cons, He. cbn [from_option].
    change (entries_bytes h []) with 0. lia.
  + cbn [take]. rewrite !entries_bytes_cons, He. cbn [from_option].
    specialize (IH k Hall). lia.
Qed.

(** X13.  One pass of the flusher while the cache is invalidating, every
  dirty entry being a write of the store and the dirty bytes covering
  them.  The pass returns.  Up to IN_FLIGHT_FLUSH_WRITE_LIMIT entries
  are taken from the front of the dirty list, none is refused, and each
  is marked flushed at once, with no write to the image cache below:
  the trace gains nothing but wake-ups of the worker and, when nothing
  was dirty or in flight, the completion of the waiting flush contexts.
  The dirty bytes fall by the bytes of the entries taken, and the count
  of the flushes in flight ends as it began. *)
Theorem process_writeback_while_invalidating s :
m_invalidating s = true ->
Forall (fun id : nat => exists e, log_entry_objs s !! id = Some e /\
                          is_write (ram_entry e) = true /\
                          0 <= write_bytes (ram_entry e))
       (m_dirty_log_entries s) ->
entries_bytes (log_entry_objs s) (m_dirty_log_entries s) <= m_bytes_dirty s ->
exists (k : nat) s' evs,
  process_writeback_dirty_entries s = Some s' /\
  (k <= length (m_dirty_log_entries s))%nat /\
  Z.of_nat k <= Z.max 0 IN_FLIGHT_FLUSH_WRITE_LIMIT /\
  (k = length (m_dirty_log_entries s) \/
   IN_FLIGHT_FLUSH_WRITE_LIMIT <= Z.of_nat k) /\
  m_dirty_log_entries s' = drop k (m_dirty_log_entries s) /\
  m_flush_ops_in_flight s' = m_flush_ops_in_flight s /\
  m_bytes_dirty s'
    = m_bytes_dirty s
      - entries_bytes (log_entry_objs s) (take k (m_dirty_log_entries s)) /\
  (forall id : nat, id ∈ take k (m_dirty_log_entries s) ->
     exists e', log_entry_objs s' !! id = Some e' /\
                flushed e' = true /\ flushing e' = false) /\
  trace s' = trace s ++ evs /\
  Forall (fun ev => ev = EvQueue ProcessWorkCtx \/
            exists ctx, ev = EvComplete ctx 0 /\
                        ctx ∈ m_flush_complete_contexts s) evs.
Proof.
intros Hinv Hall Hb. set (dirty := m_dirty_log_entries s) in *.
assert (Hall1 : Forall (fun id : nat => exists e,
                   log_entry_objs s !! id = Some e /\
                   is_write (ram_entry e) = true) dirty).
{ eapply Forall_impl; [exact Hall|]. intros id (e & He & Hw & _). eauto. }
assert (Hall2 : Forall (fun id : nat => exists e,
                   log_entry_objs s !! id = Some e /\
                   0 <= write_bytes (ram_entry e)) dirty).
{ eapply Forall_impl; [exact Hall|]. intros id (e & He & _ & Hn). eauto. }
destruct (writeback_loop_spec dirty 0 [] s Hall1)
  as (k & clean & s1 & Hrun & Hk & Hlimk & Hfull & Hd & Hops & Hfr & Hst
      & Hclean).
specialize (Hfull Hinv). rewrite Hinv in Hrun.
assert (Hd' : m_dirty_log_entries s1 = drop k dirty).
{ rewrite Hd. destruct k; reflexivity. }
assert (Hbytes : entries_bytes (log_entry_objs s1) (take k dirty)
                 = entries_bytes (log_entry_objs s) (take k dirty)).
{ apply entries_bytes_ext; [exact Hst|].
  apply Forall_take. eapply Forall_impl; [exact Hall1|].
  intros id (e & He & _). eauto. }
pose proof (entries_bytes_take_le (log_entry_objs s) dirty k Hall2) as Hle.
destruct (finish_flush_contexts_done (take k dirty) s1)
  as (s2 & wakes & Hfin & Hops2 & Hbd2 & Hdl2 & Hfc2 & Htr2 & Hwk & Hst2).
{ apply Forall_take. eapply Forall_impl; [exact Hall2|].
  intros id (e & He & Hn). destruct (Hst id e He) as (e' & He' & Hr').
  exists e'. split; [exact He'|]. rewrite Hr'. exact Hn. }
{ rewrite Hbytes. replace (m_bytes_dirty s1) with (m_bytes_dirty s)
    by (rewrite Hfr; reflexivity). lia. }
assert (Hlen : length (take k dirty) = k) by (rewrite length_take; lia).
assert (Htr1 : trace s1 = trace s) by (rewrite Hfr; reflexivity).
assert (Hfc1 : m_flush_complete_contexts s1 = m_flush_complete_contexts s)
  by (rewrite Hfr; reflexivity).
assert (Hbd1 : m_bytes_dirty s1 = m_bytes_dirty s) by (rewrite Hfr; reflexivity).
assert (Hflushed : forall id : nat, id ∈ take k dirty ->
          exists e', log_entry_objs s2 !! id = Some e' /\
                     flushed e' = true /\ flushing e' = false).
{ intros id Hid.
  assert (Hin : id ∈ dirty).
  { eapply elem_of_sublist; [exact Hid|]. apply sublist_take. }
  rewrite Forall_forall in Hall1. destruct (Hall1 id Hin) as (e & He & _).
  destruct (Hst id e He) as (e1 & He1 & _).
  destruct (Hst2 id e1 He1) as (e2 & He2 & _ & Hf & Hg).
  exists e2. auto. }
unfold process_writeback_dirty_entries. fold dirty. rewrite Hrun.
cbn [mbind option_bind app]. rewrite Hfin. cbn [mbind option_bind].
exists k. destruct clean.
- eexists. exists (wakes ++ ((fun ctx => EvComplete ctx 0)
                             <$> m_flush_complete_contexts s)).
  split; [reflexivity|]. rewrite foldl_emit_complete. simpl.
  split; [exact Hk|]. split; [destruct Hlimk as [->|Hlimk]; lia|].
  split; [exact Hfull|]. split; [rewrite Hdl2; exact Hd'|].
  split; [rewrite Hops2, Hops, Hlen; lia|].
  split; [rewrite Hbd2, Hbytes, Hbd1; reflexivity|].
  split; [exact Hflushed|]. split.
  { rewrite Htr2, Hfc2, Htr1, Hfc1, <- app_assoc. reflexivity. }
  apply Forall_app. split.
  + eapply Forall_impl; [exact Hwk|]. intros ev ->. left. reflexivity.
  + rewrite Forall_fmap, Forall_forall. intros ctx Hctx. right.
    exists ctx. split; [reflexivity|exact Hctx].
- exists s2, wakes. split; [reflexivity|].
  split; [exact Hk|]. split; [destruct Hlimk as [->|Hlimk]; lia|].
  split; [exact Hfull|]. split; [rewrite Hdl2; exact Hd'|].
  split; [rewrite Hops2, Hops, Hlen; lia|].
  split; [rewrite Hbd2, Hbytes, Hbd1; reflexivity|].
  split; [exact Hflushed|]. split.
  { rewrite Htr2, Htr1. reflexivity. }
  eapply Forall_impl; [exact Hwk|]. intros ev ->. left. reflexivity.
Qed.

End Flusher.

Lemma flush_started_and_completed_witness :
  exists ctx s1 s2 e2,
    construct_flush_entry_ctx 0 dirty_cache = Some (ctx, s1) /\
    flush_entry_done 0 (m_invalidating dirty_cache) (- EIO) s1 = Some s2 /\
    m_flush_ops_in_flight s1 = m_flush_ops_in_flight dirty_cache + 1 /\
    m_flush_ops_in_flight s2 = m_flush_ops_in_flight dirty_cache /\
    m_flush_bytes_in_flight s2 = m_flush_bytes_in_flight dirty_cache /\
    log_entry_objs s2 !! 0%nat = Some e2 /\ flushing e2 = false.
Proof.
  destruct (flush_started_and_completed 0 dirty_cache
              (sample_write 0 512 1 0 7) (- EIO))
    as (ctx & s1 & s2 & e2 & H1 & H2 & H3 & H4 & H5 & H6 & H7 & _).
  - vm_compute. reflexivity.
  - reflexivity.
  - left. vm_compute. reflexivity.
  - exists ctx, s1, s2, e2. auto 10.
Defined.

Lemma dirty_cache_writes :
  Forall (fun id : nat => exists e, log_entry_objs dirty_cache !! id = Some e /\
                            is_write (ram_entry e) = true /\
                            0 <= write_bytes (ram_entry e))
         (m_dirty_log_entries dirty_cache).
Proof.
  repeat constructor.
  - exists (sample_write 0 512 1 0 7). repeat split; vm_compute; congruence.
  - exists (sample_write 4096 512 1 1 8). repeat split; vm_compute; congruence.
Qed.

Lemma process_writeback_dirty_entries_spec_witness :
  exists (k : nat) s',
    process_writeback_dirty_entries (H := sample_constants) dirty_cache
      = Some s' /\
    (k <= 2)%nat /\
    m_dirty_log_entries s' = drop k [0%nat; 1%nat] /\
    trace s' = (fun id => EvQueue (WritebackCtx id)) <$> take k [0%nat; 1%nat].
Proof.
  destruct (process_writeback_dirty_entries_spec (H := sample_constants)
              dirty_cache)
    as (k & s' & Hrun & Hk & _ & Hd & _ & Hif).
  - reflexivity.
  - vm_compute. congruence.
  - eapply Forall_impl; [exact dirty_cache_writes|].
    intros id (e & He & Hw & _). eauto.
  - exists k, s'. split; [exact Hrun|]. split; [exact Hk|].
    split; [exact Hd|].
    destruct (decide _) as [(Hnil & _)|_]; [discriminate Hnil|].
    apply Hif.
Defined.

Lemma process_writeback_while_invalidating_witness :
  exists (k : nat) s' evs,
    process_writeback_dirty_entries (H := sample_constants)
      (set_m_invalidating true dirty_cache) = Some s' /\
    (k = 2%nat \/ 8 <= Z.of_nat k) /\
    m_dirty_log_entries s' = drop k [0%nat; 1%nat] /\
    trace s' = evs /\
    Forall (fun ev => ev = EvQueue ProcessWorkCtx \/
              exists ctx, ev = EvComplete ctx 0 /\ ctx ∈ @nil Context) evs.
Proof.
  destruct (process_writeback_while_invalidating (H := sample_constants)
              (set_m_invalidating true dirty_cache))
    as (k & s' & evs & Hrun & _ & _ & Hfull & Hd & _ & _ & _ & Htr & Hev).
  - reflexivity.
  - exact dirty_cache_writes.
  - vm_compute. congruence.
  - exists k, s', evs. split; [exact Hrun|]. split; [exact Hfull|].
    split; [exact Hd|]. split; [exact Htr | exact Hev].
Defined.

(** * Allocation of write resources *)

Section AllocationMore.
Context `{Constants}.

(** The size of the buffer reserved for an extent. *)
Local Abbreviation alloc_size extent :=
(if wrap32 MIN_WRITE_ALLOC_SIZE <? snd extent
 then wrap32 (snd extent) else wrap32 MIN_WRITE_ALLOC_SIZE).

Lemma wrap64_add_l a b : wrap64 (wrap64 a + b) = wrap64 (a + b).
Proof. unfold wrap64. apply Zplus_mod_idemp_l. Qed.

(** The loop reserving the buffers stops at the first null handle: the
buffers it yields hold the handles before it, in order. *)
Lemma reserve_buffers_spec extents :
forall oids buffers ba bc buffers' ba' bc' reserved,
reserve_buffers extents oids buffers ba bc = (buffers', ba', bc', reserved) ->
is_u64 ba -> is_u64 bc ->
exists k : nat,
(k <= length extents)%nat /\ (k <= length oids)%nat /\
buffer_oid <$> buffers' = (buffer_oid <$> buffers) ++ take k oids /\
Forall (fun o => o <> 0) (take k oids) /\
(reserved = true ->
 k = length extents /\
 ba' = wrap64 (ba + foldr Z.add 0 ((fun e => alloc_size e) <$> extents)) /\
 bc' = wrap64 (bc + foldr Z.add 0 (snd <$> extents))) /\
(reserved = false -> (k < length extents)%nat /\ nth k oids 0 = 0).
Proof.
induction extents as [|extent rest IH]; intros oids buffers ba bc buffers' ba'
  bc' reserved Hr Hba Hbc; cbn [reserve_buffers] in Hr.
- injection Hr as <- <- <- <-. exists 0%nat. rewrite take_0, app_nil_r.
  repeat split; try (cbn; lia); try constructor; try discriminate.
  + cbn. rewrite Z.add_0_r, wrap64_id; auto.
  + cbn. rewrite Z.add_0_r, wrap64_id; auto.
- destruct (Z.eqb_spec (hd 0 oids) 0) as [Hz|Hnz].
  + injection Hr as <- <- <- <-. exists 0%nat. rewrite take_0, app_nil_r.
    repeat split; try (cbn; lia); try constructor; try discriminate.
    destruct oids; cbn in *; congruence.
  + destruct oids as [|oid oids]; [cbn in Hnz; congruence|].
    cbn [hd tl] in *.
    apply IH in Hr as (k & Hk & Hko & Hoids & Hall & Hok & Hfail);
      try apply wrap64_u64.
    exists (S k). cbn [length take]. repeat split; try lia.
    * rewrite Hoids, fmap_app. cbn. rewrite <- app_assoc. reflexivity.
    * constructor; assumption.
    * destruct (Hok H0) as (-> & _). reflexivity.
    * destruct (Hok H0) as (_ & -> & _). cbn [fmap list_fmap foldr].
      rewrite !wrap64_add_l. f_equal; lia.
    * destruct (Hok H0) as (_ & _ & ->). cbn [fmap list_fmap foldr].
      rewrite !wrap64_add_l. f_equal; lia.
    * apply Hfail in H0. lia.
    * apply Hfail; assumption.
Qed.

(** Reserving inserts an empty buffer at each handle; cancelling deletes
it again. *)
Lemma foldl_reserve_lookup (buffers : list WriteBufferAllocation) :
forall (b : gmap Z (list byte)) o,
foldl (fun b a => <[buffer_oid a := []]> b) b buffers !! o =
if bool_decide (o ∈ buffer_oid <$> buffers) then Some [] else b !! o.
Proof.
induction buffers as [|a buffers IH]; intros b o; cbn [foldl].
- reflexivity.
- rewrite IH. cbn [fmap list_fmap].
  destruct (decide (o ∈ buffer_oid <$> buffers)) as [Hin|Hin].
  + rewrite !bool_decide_eq_true_2; auto. right. exact Hin.
  + rewrite (bool_decide_eq_false_2 _ Hin).
    destruct (decide (o = buffer_oid a)) as [->|Hne].
    * rewrite lookup_insert_eq, bool_decide_eq_true_2; auto. left.
    * rewrite lookup_insert_ne by congruence.
      rewrite bool_decide_eq_false_2; auto.
      intros Hc. apply elem_of_cons in Hc as [?|?]; congruence.
Qed.

Lemma foldl_cancel_lookup (buffers : list WriteBufferAllocation) :
forall (b : gmap Z (list byte)) o,
foldl (fun b a => delete (buffer_oid a) b) b buffers !! o =
if bool_decide (o ∈ buffer_oid <$> buffers) then None else b !! o.
Proof.
induction buffers as [|a buffers IH]; intros b o; cbn [foldl].
- reflexivity.
- rewrite IH. cbn [fmap list_fmap].
  destruct (decide (o ∈ buffer_oid <$> buffers)) as [Hin|Hin].
  + rewrite !bool_decide_eq_true_2; auto. right. exact Hin.
  + rewrite (bool_decide_eq_false_2 _ Hin).
    destruct (decide (o = buffer_oid a)) as [->|Hne].
    * rewrite lookup_delete_eq, bool_decide_eq_true_2; auto. left.
    * rewrite lookup_delete_ne by congruence.
      rewrite bool_decide_eq_false_2; auto.
      intros Hc. apply elem_of_cons in Hc as [?|?]; congruence.
Qed.

(** Cancelling the buffers just reserved at unused handles gives the
pool back as it was. *)
Lemma reserve_then_cancel (buffers : list WriteBufferAllocation)
(b : gmap Z (list byte)) :
Forall (fun o => b !! o = None) (buffer_oid <$> buffers) ->
foldl (fun b a => delete (buffer_oid a) b)
(foldl (fun b a => <[buffer_oid a := []]> b) b buffers) buffers = b.
Proof.
intros Hf. apply map_eq. intros o.
rewrite foldl_cancel_lookup, foldl_reserve_lookup.
destruct (decide (o ∈ buffer_oid <$> buffers)) as [Hin|Hin].
- rewrite bool_decide_eq_true_2 by exact Hin.
  symmetry. exact (proj1 (Forall_forall _ _) Hf o Hin).
- rewrite !bool_decide_eq_false_2 by exact Hin. reflexivity.
Qed.

(** What [alloc_write_resources] yields, whether it succeeds or not. *)
Lemma alloc_write_resources_result write_req oids s q pool :
request_objs s !! write_req = Some q ->
m_log_pool s = Some pool ->
m_resources_allocated q = false ->
let extents := m_image_extents q in
let n := Z.of_nat (length extents) in
exists ok s' q' pool',
alloc_write_resources write_req oids s = Some (ok, s') /\
request_objs s' !! write_req = Some q' /\
m_log_pool s' = Some pool' /\
(ok = true <->
 n <= m_free_lanes s /\ n <= m_free_log_entries s /\
 m_bytes_allocated s <= m_bytes_allocated_cap s /\
 (length extents <= length oids)%nat /\
 Forall (fun o => o <> 0) (take (length extents) oids)) /\
trace s' = trace s /\
m_image_extents q' = m_image_extents q /\
if ok then
m_free_lanes s' = m_free_lanes s - n /\
m_free_log_entries s' = m_free_log_entries s - n /\
m_unpublished_reserves s' = m_unpublished_reserves s + n /\
m_bytes_allocated s' =
m_bytes_allocated s
+ wrap64 (foldr Z.add 0 ((fun e => alloc_size e) <$> extents)) /\
m_bytes_cached s' =
m_bytes_cached s + wrap64 (foldr Z.add 0 (snd <$> extents)) /\
m_bytes_dirty s' =
m_bytes_dirty s + wrap64 (foldr Z.add 0 (snd <$> extents)) /\
m_alloc_failed_since_retire s' = m_alloc_failed_since_retire s /\
m_resources_allocated q' = true /\
buffer_oid <$> m_resources_buffers q' = take (length extents) oids /\
Forall (fun o => pool_buffers pool' !! o = Some [])
(take (length extents) oids)
else
m_free_lanes s' = m_free_lanes s /\
m_free_log_entries s' = m_free_log_entries s /\
m_unpublished_reserves s' = m_unpublished_reserves s /\
m_bytes_allocated s' = m_bytes_allocated s /\
m_bytes_cached s' = m_bytes_cached s /\
m_bytes_dirty s' = m_bytes_dirty s /\
m_alloc_failed_since_retire s' =
(if (n <=? m_free_log_entries s)
  && (m_bytes_allocated s <=? m_bytes_allocated_cap s)
  && (m_free_lanes s <? n)
 then m_alloc_failed_since_retire s else true) /\
m_resources_allocated q' = false /\
m_resources_buffers q' = [] /\
(Forall (fun o => pool_buffers pool !! o = None) oids -> pool' = pool).
Proof.
intros Hq Hpool Halloc extents n.
unfold alloc_write_resources. rewrite Hq, Hpool.
cbn [mbind option_bind]. rewrite Halloc.
cbn [negb check mbind option_bind].
fold extents. fold n.
assert (Hpid : set_pool_buffers (pool_buffers pool) pool = pool)
  by (destruct pool; reflexivity).
destruct (Z.ltb_spec (m_free_lanes s) n) as [Hl|Hl];
destruct (Z.ltb_spec (m_free_log_entries s) n) as [He|He];
destruct (Z.ltb_spec (m_bytes_allocated_cap s) (m_bytes_allocated s))
  as [Hc|Hc];
cbn [negb orb andb foldl];
try (eexists false, _, _, _; split; [reflexivity|];
     cbn; rewrite lookup_insert_eq; split; [reflexivity|];
     split; [reflexivity|]; split; [split; [discriminate|lia]|];
     split; [reflexivity|]; split; [reflexivity|];
     repeat (split; [reflexivity|]);
     split; [destruct (Z.leb_spec n (m_free_log_entries s)),
               (Z.leb_spec (m_bytes_allocated s) (m_bytes_allocated_cap s));
             cbn; try reflexivity; lia|];
     cbn; rewrite Halloc, !Hpid; repeat split; reflexivity).
destruct (reserve_buffers (m_image_extents q) oids [] 0 0)
  as [[[buffers ba] bc] reserved] eqn:Hres.
apply reserve_buffers_spec in Hres as (k & Hk & Hko & Hoids & Hnz & Hok & Hno);
  [|split; lia|split; lia].
cbn [fmap list_fmap app] in Hoids.
destruct reserved.
- destruct (Hok eq_refl) as (-> & -> & ->). clear Hok Hno.
  fold extents in Hoids, Hnz, Hko |- *.
  cbn [m_free_lanes m_free_log_entries set_m_log_pool].
  rewrite (proj2 (Z.leb_le _ _) Hl), (proj2 (Z.leb_le _ _) He).
  cbn [andb].
  eexists true, _, _, _. split; [reflexivity|].
  cbn. rewrite lookup_insert_eq. split; [reflexivity|].
  split; [reflexivity|].
  split; [split; [intros _; repeat split; assumption|reflexivity]|].
  split; [reflexivity|]. split; [reflexivity|].
  rewrite !Z.add_0_l.
  repeat (split; [reflexivity|]).
  split; [exact Hoids|].
  apply Forall_forall. intros o Ho. cbn.
  rewrite foldl_reserve_lookup, Hoids, bool_decide_eq_true_2; auto.
- destruct (Hno eq_refl) as (Hlt & Hnull). clear Hok Hno.
  cbn [andb].
  eexists false, _, _, _. split; [reflexivity|].
  cbn. rewrite lookup_insert_eq. split; [reflexivity|].
  split; [reflexivity|].
  split.
  { split; [discriminate|]. intros (_ & _ & _ & Hlen & Hall). exfalso.
    fold extents in Hlt.
    assert (Hin : nth k oids 0 ∈ take (length extents) oids).
    { apply list_elem_of_lookup. exists k.
      rewrite lookup_take_lt by lia.
      destruct (nth_lookup_or_length oids k 0) as [Hn|Hn]; [exact Hn|lia]. }
    exact (proj1 (Forall_forall _ _) Hall _ Hin Hnull). }
  split; [reflexivity|]. split; [reflexivity|].
  repeat (split; [reflexivity|]).
  split.
  { rewrite (proj2 (Z.leb_le _ _) He), (proj2 (Z.leb_le _ _) Hc).
    reflexivity. }
  cbn. rewrite Halloc. repeat (split; [reflexivity|]).
  intros Hfresh. destruct pool as [r les bs].
  unfold set_pool_buffers. cbn [pool_root pool_log_entries pool_buffers] in *.
  f_equal.
  apply reserve_then_cancel. rewrite Hoids.
  apply Forall_forall. intros o Ho.
  apply (proj1 (Forall_forall _ _) Hfresh).
  eapply elem_of_sublist; [exact Ho|]. apply sublist_take.
Qed.

(** X14. alloc_write_resources takes all a write needs or nothing: it
succeeds exactly when the lanes, the free log entries and the allocation
cap allow it and every buffer is reserved; then the counters move by the
number and the bytes of the extents, and else they are unchanged, the
request holds no buffer and the pool is as it was. *)
Theorem alloc_write_resources_all_or_nothing write_req oids s q pool :
request_objs s !! write_req = Some q ->
m_log_pool s = Some pool ->
m_resources_allocated q = false ->
let extents := m_image_extents q in
let n := Z.of_nat (length extents) in
exists ok s' q' pool',
alloc_write_resources write_req oids s = Some (ok, s') /\
request_objs s' !! write_req = Some q' /\
m_log_pool s' = Some pool' /\
(ok = true <->
 n <= m_free_lanes s /\ n <= m_free_log_entries s /\
 m_bytes_allocated s <= m_bytes_allocated_cap s /\
 (length extents <= length oids)%nat /\
 Forall (fun o => o <> 0) (take (length extents) oids)) /\
trace s' = trace s /\
m_image_extents q' = m_image_extents q /\
if ok then
m_free_lanes s' = m_free_lanes s - n /\
m_free_log_entries s' = m_free_log_entries s - n /\
m_unpublished_reserves s' = m_unpublished_reserves s + n /\
m_bytes_allocated s' =
m_bytes_allocated s
+ wrap64 (foldr Z.add 0 ((fun e => alloc_size e) <$> extents)) /\
m_bytes_cached s' =
m_bytes_cached s + wrap64 (foldr Z.add 0 (snd <$> extents)) /\
m_bytes_dirty s' =
m_bytes_dirty s + wrap64 (foldr Z.add 0 (snd <$> extents)) /\
m_alloc_failed_since_retire s' = m_alloc_failed_since_retire s /\
m_resources_allocated q' = true /\
buffer_oid <$> m_resources_buffers q' = take (length extents) oids /\
Forall (fun o => pool_buffers pool' !! o = Some [])
(take (length extents) oids)
else
m_free_lanes s' = m_free_lanes s /\
m_free_log_entries s' = m_free_log_entries s /\
m_unpublished_reserves s' = m_unpublished_reserves s /\
m_bytes_allocated s' = m_bytes_allocated s /\
m_bytes_cached s' = m_bytes_cached s /\
m_bytes_dirty s' = m_bytes_dirty s /\
m_alloc_failed_since_retire s' =
(if (n <=? m_free_log_entries s)
  && (m_bytes_allocated s <=? m_bytes_allocated_cap s)
  && (m_free_lanes s <? n)
 then m_alloc_failed_since_retire s else true) /\
m_resources_allocated q' = false /\
m_resources_buffers q' = [] /\
(Forall (fun o => pool_buffers pool !! o = None) oids -> pool' = pool).
Proof. apply alloc_write_resources_result. Qed.



End AllocationMore.

Lemma alloc_write_resources_all_or_nothing_witness :
exists s',
alloc_write_resources (H := sample_constants) 0 [100] requested_cache
= Some (true, s') /\
m_free_lanes s' = m_free_lanes requested_cache - 1 /\
m_free_log_entries s' = m_free_log_entries requested_cache - 1 /\
m_bytes_cached s' = m_bytes_cached requested_cache + 512.
Proof.
destruct (alloc_write_resources_all_or_nothing (H := sample_constants)
            0%nat [100] requested_cache
            (default (new_request false [] [] 0 (CallerCtx 0))
               (request_objs requested_cache !! 0%nat))
            (default wrapped_pool (m_log_pool requested_cache)))
  as (ok & s' & q' & pool' & Hrun & _ & _ & Hok & _ & _ & Hif).
- vm_compute. reflexivity.
- vm_compute. reflexivity.
- vm_compute. reflexivity.
- assert (ok = true) as ->.
  { apply Hok. split; [vm_compute; congruence|].
    split; [vm_compute; congruence|]. split; [vm_compute; congruence|].
    split; [vm_compute; lia|]. vm_compute. repeat constructor.
    discriminate. }
  exists s'. split; [exact Hrun|].
  destruct Hif as (Hl & He & _ & _ & Hbc & _).
  split; [exact Hl|]. split; [exact He|]. exact Hbc.
Defined.


(** * Appending operations to the log *)

Section Appending.

(** The entry of an operation once it is given the slot [slot]. *)
Local Abbreviation slotted slot e :=
(set_ram_entry (set_entry_valid true (set_entry_index slot (ram_entry e)))
   (set_log_entry_index slot e)).

Lemma get_log_entry_ext op (s s1 : RWL) :
sync_point_objs s1 = sync_point_objs s ->
get_log_entry op s1 = get_log_entry op s.
Proof. intros Heq. destruct op; cbn; [reflexivity|rewrite Heq; reflexivity]. Qed.

Lemma ring_slot_succ ff N (i : nat) :
0 < N ->
((ff + 1) mod N + Z.of_nat i) mod N = (ff + Z.of_nat (S i)) mod N.
Proof.
intros HN. rewrite Zplus_mod_idemp_l. f_equal. lia.
Qed.

Lemma alloc_op_log_entries_result ops :
forall s les,
Forall2 (fun op le => get_log_entry op s = Some le) ops les ->
NoDup les ->
Forall (fun le => is_Some (log_entry_objs s !! le)) les ->
0 <= m_first_free_entry s < m_total_log_entries s ->
m_total_log_entries s <= 2 ^ 32 ->
exists s',
alloc_op_log_entries ops s = Some s' /\
m_log_entries s' = m_log_entries s ++ les /\
m_first_free_entry s' =
(m_first_free_entry s + Z.of_nat (length ops)) mod m_total_log_entries s /\
m_total_log_entries s' = m_total_log_entries s /\
m_log_pool s' = m_log_pool s /\
trace s' = trace s /\
sync_point_objs s' = sync_point_objs s /\
(forall le, le ∉ les -> log_entry_objs s' !! le = log_entry_objs s !! le) /\
(forall (i : nat) le, les !! i = Some le ->
 exists e, log_entry_objs s !! le = Some e /\
 log_entry_objs s' !! le =
 Some (slotted ((m_first_free_entry s + Z.of_nat i)
                  mod m_total_log_entries s) e)).
Proof.
induction ops as [|op ops IH]; intros s les Hops Hnd Hin Hff HN.
- inversion Hops; subst. exists s. cbn [alloc_op_log_entries length].
  rewrite app_nil_r, Z.add_0_r, Z.mod_small by lia.
  repeat split; try reflexivity. intros i le Hi. discriminate Hi.
- inversion Hops as [|? le ? les' Hop Hrest]; subst.
  inversion Hnd as [|? ? Hnotin Hnd']; subst.
  inversion Hin as [|? ? [e He] Hin']; subst.
  cbn [alloc_op_log_entries].
  rewrite (get_log_entry_ext op s) by reflexivity. rewrite Hop.
  cbn [mbind option_bind]. unfold update_log_entry.
  cbn [log_entry_objs set_m_first_free_entry]. rewrite He.
  cbn [mbind option_bind].
  assert (Hw : wrap32 (m_first_free_entry s) = m_first_free_entry s)
    by (apply Z.mod_small; lia).
  rewrite Hw.
  match goal with |- context [alloc_op_log_entries ops ?x] => set (s1 := x) end.
  assert (HN1 : m_total_log_entries s1 = m_total_log_entries s) by reflexivity.
  assert (Hff1 : m_first_free_entry s1 =
                 (m_first_free_entry s + 1) mod m_total_log_entries s)
    by reflexivity.
  assert (Hobj1 : log_entry_objs s1 =
                  <[le := slotted (m_first_free_entry s) e]> (log_entry_objs s))
    by reflexivity.
  destruct (IH s1 les') as (s' & Hrun & Hles & Hff' & HN' & Hpool & Htr & Hsp
                             & Hother & Hslots).
  + eapply Forall2_impl; [exact Hrest|]. intros o l Ho.
    rewrite <- Ho. apply get_log_entry_ext. reflexivity.
  + exact Hnd'.
  + eapply Forall_impl; [exact Hin'|]. intros l [e' He'].
    rewrite Hobj1. destruct (decide (l = le)) as [->|Hne].
    * rewrite lookup_insert_eq. eauto.
    * rewrite lookup_insert_ne by congruence. eauto.
  + rewrite HN1, Hff1. apply Z.mod_pos_bound. lia.
  + rewrite HN1. exact HN.
  + exists s'. split; [exact Hrun|].
    rewrite Hles, Hff', HN', Hpool, Htr, Hsp, HN1, Hff1.
    split; [cbn; rewrite <- app_assoc; reflexivity|].
    split; [rewrite Zplus_mod_idemp_l; f_equal; cbn [length]; lia|].
    repeat (split; [reflexivity|]).
    split.
    * intros l Hl. rewrite Hother by (intros Hc; apply Hl; right; exact Hc).
      rewrite Hobj1. apply lookup_insert_ne. intros ->. apply Hl. left.
    * intros [|i] l Hi; cbn in Hi.
      -- injection Hi as <-. exists e. split; [exact He|].
         rewrite Hother by exact Hnotin. rewrite Hobj1, lookup_insert_eq.
         rewrite Z.add_0_r, Z.mod_small by lia. reflexivity.
      -- destruct (Hslots i l Hi) as (e1 & He1 & Hs1).
         assert (Hne : l <> le).
         { intros ->. apply Hnotin. eapply list_elem_of_lookup_2. exact Hi. }
         rewrite Hobj1, lookup_insert_ne in He1 by congruence.
         exists e1. split; [exact He1|]. rewrite Hs1.
         rewrite HN1, Hff1, ring_slot_succ by lia. reflexivity.
Qed.

(** The slot of the pool an entry is copied to. *)
Local Abbreviation slot_of e := (Z.to_nat (log_entry_index e)).

Lemma set_m_log_pool_twice p p' (s : RWL) :
set_m_log_pool p' (set_m_log_pool p s) = set_m_log_pool p' s.
Proof. destruct s; reflexivity. Qed.

Lemma write_log_entries_result ops :
forall s les pool,
Forall2 (fun op le => get_log_entry op s = Some le) ops les ->
m_log_pool s = Some pool ->
Forall (fun le => exists e, log_entry_objs s !! le = Some e /\
 (slot_of e < length (pool_log_entries pool))%nat) les ->
NoDup ((fun le => from_option (fun e => slot_of e) 0%nat
                    (log_entry_objs s !! le)) <$> les) ->
exists pool',
write_log_entries ops s = Some (set_m_log_pool (Some pool') s) /\
pool_root pool' = pool_root pool /\
pool_buffers pool' = pool_buffers pool /\
length (pool_log_entries pool') = length (pool_log_entries pool) /\
(forall le e, le ∈ les -> log_entry_objs s !! le = Some e ->
 pool_log_entries pool' !! slot_of e = Some (ram_entry e)) /\
(forall j : nat,
 j ∉ (fun le => from_option (fun e => slot_of e) 0%nat
                  (log_entry_objs s !! le)) <$> les ->
 pool_log_entries pool' !! j = pool_log_entries pool !! j).
Proof.
induction ops as [|op ops IH]; intros s les pool Hops Hpool Hin Hnd.
- inversion Hops; subst. exists pool. cbn [write_log_entries].
  split; [f_equal; rewrite <- Hpool; destruct s; reflexivity|].
  repeat split; try reflexivity.
  intros le e Hle. inversion Hle.
- inversion Hops as [|? le ? les' Hop Hrest]; subst.
  inversion Hin as [|? ? (e & He & Hb) Hin']; subst.
  cbn [fmap list_fmap] in Hnd. rewrite He in Hnd. cbn [from_option] in Hnd.
  inversion Hnd as [|? ? Hnotin Hnd']; subst.
  cbn [write_log_entries]. rewrite Hop. cbn [mbind option_bind].
  rewrite He. cbn [mbind option_bind]. rewrite Hpool.
  cbn [mbind option_bind].
  rewrite (proj2 (Nat.ltb_lt _ _) Hb). cbn [check mbind option_bind].
  set (pool1 := set_pool_log_entries _ pool).
  destruct (IH (set_m_log_pool (Some pool1) s) les' pool1)
    as (pool' & Hrun & Hroot & Hbufs & Hlen & Hset & Hother).
  + eapply Forall2_impl; [exact Hrest|]. intros o l Ho.
    rewrite <- Ho. apply get_log_entry_ext. reflexivity.
  + reflexivity.
  + eapply Forall_impl; [exact Hin'|]. intros l (e' & He' & Hb').
    exists e'. split; [exact He'|]. subst pool1. cbn.
    rewrite length_insert. exact Hb'.
  + exact Hnd'.
  + exists pool'. rewrite Hrun, set_m_log_pool_twice.
    split; [reflexivity|]. split; [rewrite Hroot; reflexivity|].
    split; [rewrite Hbufs; reflexivity|].
    split; [rewrite Hlen; subst pool1; cbn; apply length_insert|].
    cbn [log_entry_objs set_m_log_pool] in Hset, Hother, Hnotin.
    split.
    * intros l e' Hl He'. apply elem_of_cons in Hl as [->|Hl].
      -- assert (e' = e) as -> by congruence.
         rewrite Hother by exact Hnotin. subst pool1. cbn.
         apply list_lookup_insert_eq. exact Hb.
      -- apply (Hset l); assumption.
    * intros j Hj. cbn [fmap list_fmap] in Hj. rewrite He in Hj.
      cbn [from_option] in Hj.
      rewrite Hother by (intros Hc; apply Hj; right; exact Hc).
      subst pool1. cbn. apply list_lookup_insert_ne.
      intros Heq. apply Hj. rewrite <- Heq. left.
Qed.

Lemma ring_slots_differ ff N (i j : nat) :
0 < N -> Z.of_nat i < N -> Z.of_nat j < N ->
(ff + Z.of_nat i) mod N = (ff + Z.of_nat j) mod N -> i = j.
Proof.
intros HN Hi Hj Heq.
assert (Hd : (Z.of_nat i - Z.of_nat j) mod N = 0).
{ replace (Z.of_nat i - Z.of_nat j)
    with ((ff + Z.of_nat i) - (ff + Z.of_nat j)) by lia.
  rewrite Zminus_mod, Heq, Z.sub_diag. apply Z.mod_0_l. lia. }
apply Z.mod_divide in Hd as [k Hk]; [|lia].
assert (Hk0 : k = 0) by (destruct (Z_lt_le_dec k 1), (Z_lt_le_dec (-1) k); nia).
subst k. lia.
Qed.

(** X16. alloc_op_log_entries gives the operations the slots of the ring
from the first free one on, in their order, wrapping at the end of the
ring: the i-th entry is marked valid with the index (first free + i) mod
the ring size, the entries are added to the log in this order, and no
other entry is touched. *)
Theorem alloc_op_log_entries_assigns_slots ops s les :
Forall2 (fun op le => get_log_entry op s = Some le) ops les ->
NoDup les ->
Forall (fun le => is_Some (log_entry_objs s !! le)) les ->
0 <= m_first_free_entry s < m_total_log_entries s ->
m_total_log_entries s <= 2 ^ 32 ->
exists s',
alloc_op_log_entries ops s = Some s' /\
m_log_entries s' = m_log_entries s ++ les /\
m_first_free_entry s' =
(m_first_free_entry s + Z.of_nat (length ops)) mod m_total_log_entries s /\
(forall le, le ∉ les -> log_entry_objs s' !! le = log_entry_objs s !! le) /\
(forall (i : nat) le, les !! i = Some le ->
 exists e, log_entry_objs s !! le = Some e /\
 log_entry_objs s' !! le =
 Some (slotted ((m_first_free_entry s + Z.of_nat i)
                  mod m_total_log_entries s) e)).
Proof.
intros Hops Hnd Hin Hff HN.
destruct (alloc_op_log_entries_result ops s les Hops Hnd Hin Hff HN)
  as (s' & Hrun & Hles & Hff' & _ & _ & _ & _ & Hother & Hslots).
exists s'. auto.
Qed.

(** X17. Appending the operations that were just given their slots copies
each entry to its slot of the pool, valid and with its index, sets the
root's first free entry to the new head of the ring and publishes the
buffers of the writes, all in one transaction; no other slot and no
buffer of the pool changes.  A transaction that does not commit is a
failed assertion. *)
Theorem append_op_log_entries_after_alloc ops s les pool :
ops <> [] ->
Forall2 (fun op le => get_log_entry op s = Some le) ops les ->
NoDup les ->
Forall (fun le => is_Some (log_entry_objs s !! le)) les ->
m_log_pool s = Some pool ->
0 <= m_first_free_entry s < m_total_log_entries s ->
m_total_log_entries s <= 2 ^ 32 ->
length (pool_log_entries pool) = Z.to_nat (m_total_log_entries s) ->
Z.of_nat (length ops) <= m_total_log_entries s ->
let slot (i : nat) :=
(m_first_free_entry s + Z.of_nat i) mod m_total_log_entries s in
exists s1 s2 pool2,
alloc_op_log_entries ops s = Some s1 /\
append_op_log_entries ops true s1 = Some (0, s2) /\
append_op_log_entries ops false s1 = None /\
m_log_pool s2 = Some pool2 /\
first_free_entry (pool_root pool2) = slot (length ops) /\
m_first_free_entry s2 = slot (length ops) /\
(forall (i : nat) le e, les !! i = Some le ->
 log_entry_objs s !! le = Some e ->
 pool_log_entries pool2 !! Z.to_nat (slot i) =
 Some (set_entry_valid true (set_entry_index (slot i) (ram_entry e)))) /\
(forall j : nat,
 (forall i : nat, (i < length ops)%nat -> j <> Z.to_nat (slot i)) ->
 pool_log_entries pool2 !! j = pool_log_entries pool !! j) /\
pool_buffers pool2 = pool_buffers pool /\
trace s2 =
trace s ++
[EvTransaction (TxSetFirstFreeEntry (slot (length ops))
                  :: (TxPublish <$> published_buffers ops))].
Proof.
intros Hne Hops Hnd Hin Hpool Hff HN Hlen Hfit slot.
destruct (alloc_op_log_entries_result ops s les Hops Hnd Hin Hff HN)
  as (s1 & Hrun & Hles & Hff1 & HN1 & Hpool1 & Htr1 & Hsp1 & Hother & Hslots).
fold (slot (length ops)) in Hff1.
assert (Hll : length les = length ops)
  by (symmetry; eapply Forall2_length; exact Hops).
assert (Hslot_range : forall i : nat,
          0 <= slot i < m_total_log_entries s)
  by (intros i; apply Z.mod_pos_bound; lia).
assert (Hslot1 : forall (i : nat) le, les !! i = Some le ->
          from_option (fun e => slot_of e) 0%nat (log_entry_objs s1 !! le)
          = Z.to_nat (slot i)).
{ intros i le Hi. destruct (Hslots i le Hi) as (e & _ & ->). reflexivity. }
destruct (write_log_entries_result ops s1 les pool)
  as (pool' & Hw & Hroot & Hbufs & Hlen' & Hset & Hkeep).
{ eapply Forall2_impl; [exact Hops|]. intros o l Ho.
  rewrite <- Ho. apply get_log_entry_ext. exact Hsp1. }
{ rewrite Hpool1. exact Hpool. }
{ apply Forall_forall. intros le Hle.
  apply list_elem_of_lookup in Hle as (i & Hi).
  destruct (Hslots i le Hi) as (e & _ & He1).
  eexists. split; [exact He1|]. cbn. rewrite Hlen.
  specialize (Hslot_range i). fold (slot i). lia. }
{ apply NoDup_alt. intros i j x Hi Hj.
  rewrite list_lookup_fmap in Hi, Hj.
  destruct (les !! i) as [li|] eqn:Hli; [|discriminate Hi].
  destruct (les !! j) as [lj|] eqn:Hlj; [|discriminate Hj].
  cbn in Hi, Hj. rewrite (Hslot1 i li Hli) in Hi.
  rewrite (Hslot1 j lj Hlj) in Hj.
  apply lookup_lt_Some in Hli, Hlj.
  assert (Heq : slot i = slot j).
  { pose proof (Hslot_range i). pose proof (Hslot_range j).
    apply Z2Nat.inj; try lia. congruence. }
  apply (ring_slots_differ (m_first_free_entry s) (m_total_log_entries s));
    [lia|lia|lia|exact Heq]. }
assert (Happ : forall commit,
  append_op_log_entries ops commit s1 =
  (_ ← check commit;
   Some (0, emit (EvTransaction
                    (TxSetFirstFreeEntry (slot (length ops))
                       :: (TxPublish <$> published_buffers ops)))
              (set_m_log_pool
                 (Some (set_root_first_free_entry (slot (length ops)) pool'))
                 s1)))).
{ intros commit. unfold append_op_log_entries.
  destruct ops as [|op ops']; [congruence|].
  rewrite Hw. cbn [mbind option_bind m_log_pool set_m_log_pool].
  destruct commit; cbn [check mbind option_bind]; [|reflexivity].
  cbn [m_first_free_entry set_m_log_pool]. rewrite Hff1.
  rewrite set_m_log_pool_twice. reflexivity. }
eexists s1, _, _. split; [exact Hrun|].
split; [rewrite Happ; reflexivity|].
split; [rewrite Happ; reflexivity|].
split; [reflexivity|]. split; [reflexivity|].
split; [exact Hff1|].
split.
{ intros i le e Hi He. destruct (Hslots i le Hi) as (e0 & He0 & He1).
  assert (e0 = e) as -> by congruence.
  assert (Hle : le ∈ les) by (eapply list_elem_of_lookup_2; exact Hi).
  exact (Hset le _ Hle He1). }
split.
{ intros j Hj. cbn. apply Hkeep. intros Hc.
  apply list_elem_of_fmap in Hc as (le & -> & Hle).
  apply list_elem_of_lookup in Hle as (i & Hi).
  apply (Hj i); [apply lookup_lt_Some in Hi; lia|].
  apply Hslot1. exact Hi. }
split; [exact Hbufs|].
cbn. rewrite Htr1. reflexivity.
Qed.

End Appending.

Lemma alloc_op_log_entries_assigns_slots_witness :
exists s' e0 e1,
alloc_op_log_entries [SyncPointLogOperation 0; WriteLogOperation 1 [] 100]
  written_cache = Some s' /\
m_log_entries s' = m_log_entries written_cache ++ [0%nat; 1%nat] /\
log_entry_objs s' !! 0%nat = Some e0 /\ log_entry_index e0 = 0 /\
log_entry_objs s' !! 1%nat = Some e1 /\ log_entry_index e1 = 1.
Proof.
destruct (alloc_op_log_entries_assigns_slots
            [SyncPointLogOperation 0; WriteLogOperation 1 [] 100]
            written_cache [0%nat; 1%nat])
  as (s' & Hrun & Hles & _ & _ & Hslots).
- repeat constructor.
- apply NoDup_cons. split; [|apply NoDup_singleton].
  intros Hc. apply list_elem_of_singleton in Hc. discriminate Hc.
- repeat constructor; eexists; vm_compute; reflexivity.
- vm_compute. split; congruence.
- vm_compute. congruence.
- destruct (Hslots 0%nat 0%nat eq_refl) as (e0 & _ & H0).
  destruct (Hslots 1%nat 1%nat eq_refl) as (e1 & _ & H1).
  eexists s', _, _. split; [exact Hrun|]. split; [exact Hles|].
  split; [exact H0|]. split; [vm_compute; reflexivity|].
  split; [exact H1|]. vm_compute. reflexivity.
Defined.

Lemma append_op_log_entries_after_alloc_witness :
exists s1 s2 pool2,
alloc_op_log_entries [SyncPointLogOperation 0; WriteLogOperation 1 [] 100]
  written_cache = Some s1 /\
append_op_log_entries [SyncPointLogOperation 0; WriteLogOperation 1 [] 100]
  true s1 = Some (0, s2) /\
m_log_pool s2 = Some pool2 /\
first_free_entry (pool_root pool2) = 2 /\
trace s2 =
trace written_cache ++ [EvTransaction [TxSetFirstFreeEntry 2; TxPublish 100]].
Proof.
destruct (append_op_log_entries_after_alloc
            [SyncPointLogOperation 0; WriteLogOperation 1 [] 100]
            written_cache [0%nat; 1%nat]
            (default wrapped_pool (m_log_pool written_cache)))
  as (s1 & s2 & pool2 & Hrun & Happ & _ & Hpool & Hroot & _ & _ & _ & _ & Htr).
- discriminate.
- repeat constructor.
- apply NoDup_cons. split; [|apply NoDup_singleton].
  intros Hc. apply list_elem_of_singleton in Hc. discriminate Hc.
- repeat constructor; eexists; vm_compute; reflexivity.
- vm_compute. reflexivity.
- vm_compute. split; congruence.
- vm_compute. congruence.
- vm_compute. reflexivity.
- vm_compute. congruence.
- exists s1, s2, pool2. split; [exact Hrun|]. split; [exact Happ|].
  split; [exact Hpool|].
  split; [etransitivity; [exact Hroot|vm_compute; reflexivity]|].
  etransitivity; [exact Htr|]. reflexivity.
Defined.
